(** * AI-pathfinder: the grid search engine of [ai_pathfinder.py]

    A shallow embedding of the grid model, the neighbour generator, the step
    recorder, path reconstruction and the six uninformed search strategies,
    followed by the properties of the specification.

    Conventions of the embedding.
    - A Python [int] is a [Z]; a position is a pair of [Z].
    - A Python [set] of positions is a [gset]; a [dict] is a [gmap].  The
      parent maps store [None] for the start, hence [gmap Pos (option Pos)].
    - A Python [list] or [deque] is a [list] in the same order: [append] adds
      at the end, [deque.popleft] removes the head, [list.pop] removes the
      last element.
    - The edge costs are Python floats.  They are kept abstract: the class
      [Cost] names the constants and the two operations the code uses, and
      [CostLaws] states the order laws they are used under.
    - [heapq] belongs to the Python library.  The class [HeapQ] is its
      interface and [HeapQLaws] its contract.
    - A [while] loop is a body function iterated by [while_loop] under a
      fuel bound; [None] stands for a run that yields no value. *)

From stdpp Require Import gmap list.
From Stdlib Require Import ZArith Lia.

Abbreviation Pos := (Z * Z)%type (only parsing).

(** ** Grid configuration *)

Record Grid := {
  rows : Z;
  cols : Z;
  start : Pos;
  goal : Pos;
  walls : gset Pos;
}.

Definition ROWS : Z := 10.
Definition COLS : Z := 10.
Definition START : Pos := (1, 1)%Z.
Definition GOAL : Pos := (8, 8)%Z.

Definition DIRECTIONS : list (Z * Z) :=
  [(-1, 0); (0, 1); (1, 0); (1, 1); (0, -1); (-1, -1)]%Z.

Definition STATIC_WALLS : gset Pos :=
  list_to_set
    [(2, 3); (3, 3); (4, 3); (4, 4); (4, 5);
     (6, 5); (6, 6); (6, 7); (5, 7); (3, 7)]%Z.

Definition build_grid : Grid :=
  {| rows := ROWS; cols := COLS; start := START; goal := GOAL;
     walls := STATIC_WALLS |}.

Definition is_valid (grid : Grid) (pos : Pos) : bool :=
  let '(r, c) := pos in
  if ((r <? 0) || (r >=? rows grid) || (c <? 0) || (c >=? cols grid))%Z
  then false
  else if bool_decide (pos ∈ walls grid) then false
  else true.

Global Arguments is_valid : simpl never.

(** ** Edge costs *)

Class Cost (C : Type) := {
  c_zero : C;              (* the initial cost [0] *)
  c_orth : C;              (* the literal [1.0] *)
  c_diag : C;              (* the literal [1.414] *)
  c_add : C → C → C;       (* [+] *)
  c_lt : C → C → bool;     (* [<] *)
}.

(** Costs counted exactly, in thousandths. *)
#[export] Instance milli_cost : Cost Z :=
  {| c_zero := 0%Z; c_orth := 1000%Z; c_diag := 1414%Z;
     c_add := Z.add; c_lt := Z.ltb |}.

(** ** Step records and generic loops *)

Record Step := {
  current : Pos;
  frontier : list Pos;
  visited : gset Pos;
}.

Definition make_step (cur : Pos) (fr : list Pos) (vis : gset Pos) : Step :=
  {| current := cur; frontier := fr; visited := vis |}.

Abbreviation Result := (list Step * list Pos)%type (only parsing).

Fixpoint while_loop {S R : Type} (body : S → option (S + R))
    (fuel : nat) (s : S) : option R :=
  match fuel with
  | O => None
  | S fuel' =>
      match body s with
      | Some (inl s') => while_loop body fuel' s'
      | Some (inr r) => Some r
      | None => None
      end
  end.

(** [list.pop()]: the last element and the list without it. *)
Fixpoint list_pop {A : Type} (l : list A) : option (list A * A) :=
  match l with
  | [] => None
  | x :: l' =>
      match list_pop l' with
      | None => Some ([], x)
      | Some (init, y) => Some (x :: init, y)
      end
  end.

(** The cells inside the bounds, the ones that can be entered, and the
    number of loop iterations allowed to a search on the grid. *)
Definition grid_cells (grid : Grid) : list Pos :=
  r ← seqZ 0 (rows grid); c ← seqZ 0 (cols grid); [(r, c)].

Definition valid_cells (grid : Grid) : gset Pos :=
  list_to_set (filter (λ p, is_valid grid p = true) (grid_cells grid)).

Definition search_fuel (grid : Grid) : nat :=
  6 * size (valid_cells grid) + 2.

(** ** Path reconstruction *)

(** [came_from.get(node)]: [None] when the key is absent or maps to [None]. *)
Definition parent_get (came_from : gmap Pos (option Pos)) (node : Pos)
    : option Pos :=
  match came_from !! node with
  | Some (Some p) => Some p
  | _ => None
  end.

Fixpoint reconstruct_loop (fuel : nat) (came_from : gmap Pos (option Pos))
    (path : list Pos) (node : Pos) : option (list Pos) :=
  match fuel with
  | O => None
  | S fuel' =>
      match parent_get came_from node with
      | Some parent => reconstruct_loop fuel' came_from (path ++ [parent]) parent
      | None => Some path
      end
  end.

Definition reconstruct_path (came_from : gmap Pos (option Pos)) (goal : Pos)
    : option (list Pos) :=
  reverse <$> reconstruct_loop (S (size came_from)) came_from [goal] goal.

(** ** The [heapq] interface *)

Class HeapQ (A : Type) := {
  heappush : list A → A → list A;
  heappop : list A → option (A * list A);
}.

Section Search.

Context {C : Type} `{Cost C} `{HeapQ (C * Z * Pos)}.

(** ** Neighbour generator *)

Definition get_neighbors (grid : Grid) (pos : Pos) : list (Pos * C) :=
  let '(r, c) := pos in
  foldl
    (λ result '(dr, dc),
       let nbr := ((r + dr)%Z, (c + dc)%Z) in
       if is_valid grid nbr then
         let cost :=
           if negb (dr =? 0)%Z && negb (dc =? 0)%Z then c_diag else c_orth in
         result ++ [(nbr, cost)]
       else result)
    [] DIRECTIONS.

(** ** 1. Breadth-first search *)

Record BfsState := {
  bfs_queue : list Pos;
  bfs_in_queue : gset Pos;
  bfs_came_from : gmap Pos (option Pos);
  bfs_visited : gset Pos;
  bfs_steps : list Step;
}.

Definition bfs_init (grid : Grid) : BfsState :=
  {| bfs_queue := [start grid];
     bfs_in_queue := {[start grid]};
     bfs_came_from := {[start grid := None]};
     bfs_visited := ∅;
     bfs_steps := [] |}.

Definition bfs_relax (cur : Pos) (vis : gset Pos)
    (acc : list Pos * gset Pos * gmap Pos (option Pos)) (e : Pos * C)
    : list Pos * gset Pos * gmap Pos (option Pos) :=
  let '(queue, in_queue, came_from) := acc in
  let nbr := e.1 in
  if bool_decide (nbr ∉ vis) && bool_decide (nbr ∉ in_queue) then
    (queue ++ [nbr], in_queue ∪ {[nbr]}, <[nbr := Some cur]> came_from)
  else acc.

Definition bfs_body (grid : Grid) (st : BfsState)
    : option (BfsState + Result) :=
  match bfs_queue st with
  | [] => Some (inr (bfs_steps st, []))
  | cur :: queue =>
      let in_queue := bfs_in_queue st ∖ {[cur]} in
      let steps := bfs_steps st ++ [make_step cur queue (bfs_visited st)] in
      if bool_decide (cur = goal grid) then
        path ← reconstruct_path (bfs_came_from st) cur;
        Some (inr (steps, path))
      else if bool_decide (cur ∈ bfs_visited st) then
        Some (inl {| bfs_queue := queue; bfs_in_queue := in_queue;
                     bfs_came_from := bfs_came_from st;
                     bfs_visited := bfs_visited st; bfs_steps := steps |})
      else
        let vis := bfs_visited st ∪ {[cur]} in
        let '(queue', in_queue', came_from') :=
          foldl (bfs_relax cur vis) (queue, in_queue, bfs_came_from st)
            (get_neighbors grid cur) in
        Some (inl {| bfs_queue := queue'; bfs_in_queue := in_queue';
                     bfs_came_from := came_from';
                     bfs_visited := vis; bfs_steps := steps |})
  end.

Definition bfs (grid : Grid) : option Result :=
  while_loop (bfs_body grid) (search_fuel grid) (bfs_init grid).

(** ** 2. Depth-first search *)

Record DfsState := {
  dfs_stack : list Pos;
  dfs_came_from : gmap Pos (option Pos);
  dfs_visited : gset Pos;
  dfs_steps : list Step;
}.

Definition dfs_init (grid : Grid) : DfsState :=
  {| dfs_stack := [start grid];
     dfs_came_from := {[start grid := None]};
     dfs_visited := ∅;
     dfs_steps := [] |}.

Definition dfs_push (cur : Pos) (vis : gset Pos)
    (acc : list Pos * gmap Pos (option Pos)) (e : Pos * C)
    : list Pos * gmap Pos (option Pos) :=
  let '(stack, came_from) := acc in
  let nbr := e.1 in
  if bool_decide (nbr ∉ vis) then
    (stack ++ [nbr],
     match came_from !! nbr with
     | None => <[nbr := Some cur]> came_from
     | Some _ => came_from
     end)
  else acc.

Definition dfs_body (grid : Grid) (st : DfsState)
    : option (DfsState + Result) :=
  match list_pop (dfs_stack st) with
  | None => Some (inr (dfs_steps st, []))
  | Some (stack, cur) =>
      let steps := dfs_steps st ++ [make_step cur stack (dfs_visited st)] in
      if bool_decide (cur = goal grid) then
        path ← reconstruct_path (dfs_came_from st) cur;
        Some (inr (steps, path))
      else if bool_decide (cur ∈ dfs_visited st) then
        Some (inl {| dfs_stack := stack; dfs_came_from := dfs_came_from st;
                     dfs_visited := dfs_visited st; dfs_steps := steps |})
      else
        let vis := dfs_visited st ∪ {[cur]} in
        let '(stack', came_from') :=
          foldl (dfs_push cur vis) (stack, dfs_came_from st)
            (reverse (get_neighbors grid cur)) in
        Some (inl {| dfs_stack := stack'; dfs_came_from := came_from';
                     dfs_visited := vis; dfs_steps := steps |})
  end.

Definition dfs (grid : Grid) : option Result :=
  while_loop (dfs_body grid) (search_fuel grid) (dfs_init grid).

(** ** 3. Uniform cost search *)

Record UcsState := {
  ucs_counter : Z;
  ucs_heap : list (C * Z * Pos);
  ucs_came_from : gmap Pos (option Pos);
  ucs_cost_so_far : gmap Pos C;
  ucs_visited : gset Pos;
  ucs_steps : list Step;
}.

Definition ucs_init (grid : Grid) : UcsState :=
  {| ucs_counter := 0%Z;
     ucs_heap := [(c_zero, 0%Z, start grid)];
     ucs_came_from := {[start grid := None]};
     ucs_cost_so_far := {[start grid := c_zero]};
     ucs_visited := ∅;
     ucs_steps := [] |}.

Definition ucs_relax (cur : Pos) (cur_cost : C)
    (acc : gmap Pos C * Z * list (C * Z * Pos) * gmap Pos (option Pos))
    (e : Pos * C)
    : gmap Pos C * Z * list (C * Z * Pos) * gmap Pos (option Pos) :=
  let '(cost_so_far, counter, heap, came_from) := acc in
  let '(nbr, edge_cost) := e in
  let new_cost := c_add cur_cost edge_cost in
  if match cost_so_far !! nbr with
     | None => true
     | Some old => c_lt new_cost old
     end
  then
    (<[nbr := new_cost]> cost_so_far, (counter + 1)%Z,
     heappush heap (new_cost, (counter + 1)%Z, nbr),
     <[nbr := Some cur]> came_from)
  else acc.

Definition ucs_body (grid : Grid) (st : UcsState)
    : option (UcsState + Result) :=
  match ucs_heap st with
  | [] => Some (inr (ucs_steps st, []))
  | _ :: _ =>
      '(cur_cost, _, cur, heap) ← heappop (ucs_heap st);
      let steps :=
        ucs_steps st ++ [make_step cur (map snd heap) (ucs_visited st)] in
      if bool_decide (cur = goal grid) then
        path ← reconstruct_path (ucs_came_from st) cur;
        Some (inr (steps, path))
      else if bool_decide (cur ∈ ucs_visited st) then
        Some (inl {| ucs_counter := ucs_counter st; ucs_heap := heap;
                     ucs_came_from := ucs_came_from st;
                     ucs_cost_so_far := ucs_cost_so_far st;
                     ucs_visited := ucs_visited st; ucs_steps := steps |})
      else
        let vis := ucs_visited st ∪ {[cur]} in
        let '(cost_so_far', counter', heap', came_from') :=
          foldl (ucs_relax cur cur_cost)
            (ucs_cost_so_far st, ucs_counter st, heap, ucs_came_from st)
            (get_neighbors grid cur) in
        Some (inl {| ucs_counter := counter'; ucs_heap := heap';
                     ucs_came_from := came_from';
                     ucs_cost_so_far := cost_so_far';
                     ucs_visited := vis; ucs_steps := steps |})
  end.

Definition ucs (grid : Grid) : option Result :=
  while_loop (ucs_body grid) (search_fuel grid) (ucs_init grid).

(** ** 4. Depth-limited search *)

Record DlsState := {
  dls_stack : list (Pos * Z);
  dls_came_from : gmap Pos (option Pos);
  dls_visited : gset Pos;
  dls_steps : list Step;
}.

Definition dls_init (grid : Grid) : DlsState :=
  {| dls_stack := [(start grid, 0%Z)];
     dls_came_from := {[start grid := None]};
     dls_visited := ∅;
     dls_steps := [] |}.

Definition dls_push (cur : Pos) (depth : Z) (vis : gset Pos)
    (acc : list (Pos * Z) * gmap Pos (option Pos)) (e : Pos * C)
    : list (Pos * Z) * gmap Pos (option Pos) :=
  let '(stack, came_from) := acc in
  let nbr := e.1 in
  if bool_decide (nbr ∉ vis) then
    (stack ++ [(nbr, (depth + 1)%Z)],
     match came_from !! nbr with
     | None => <[nbr := Some cur]> came_from
     | Some _ => came_from
     end)
  else acc.

Definition dls_body (grid : Grid) (limit : Z) (st : DlsState)
    : option (DlsState + Result) :=
  match list_pop (dls_stack st) with
  | None => Some (inr (dls_steps st, []))
  | Some (stack, (cur, depth)) =>
      let steps :=
        dls_steps st ++ [make_step cur (map fst stack) (dls_visited st)] in
      if bool_decide (cur = goal grid) then
        path ← reconstruct_path (dls_came_from st) cur;
        Some (inr (steps, path))
      else if bool_decide (cur ∈ dls_visited st) || (depth >=? limit)%Z then
        Some (inl {| dls_stack := stack; dls_came_from := dls_came_from st;
                     dls_visited := dls_visited st; dls_steps := steps |})
      else
        let vis := dls_visited st ∪ {[cur]} in
        let '(stack', came_from') :=
          foldl (dls_push cur depth vis) (stack, dls_came_from st)
            (reverse (get_neighbors grid cur)) in
        Some (inl {| dls_stack := stack'; dls_came_from := came_from';
                     dls_visited := vis; dls_steps := steps |})
  end.

Definition dls (grid : Grid) (limit : Z) : option Result :=
  while_loop (dls_body grid limit) (search_fuel grid) (dls_init grid).

(** ** 5. Iterative deepening *)

Fixpoint iddfs_loop (grid : Grid) (limits : list Z) (all_steps : list Step)
    : option Result :=
  match limits with
  | [] => Some (all_steps, [])
  | depth_limit :: limits' =>
      '(steps, path) ← dls grid depth_limit;
      let all_steps' := all_steps ++ steps in
      match path with
      | [] => iddfs_loop grid limits' all_steps'
      | _ :: _ => Some (all_steps', path)
      end
  end.

Definition iddfs (grid : Grid) : option Result :=
  iddfs_loop grid (seqZ 0 (ROWS * COLS)) [].

(** ** 6. Bidirectional search *)

Fixpoint walk_parents (fuel : nat) (parent : gmap Pos (option Pos))
    (path : list Pos) (node : option Pos) : option (list Pos) :=
  match fuel with
  | O => None
  | S fuel' =>
      match node with
      | None => Some path
      | Some n => walk_parents fuel' parent (path ++ [n]) (parent_get parent n)
      end
  end.

Definition merge_paths (fwd_parent bwd_parent : gmap Pos (option Pos))
    (meeting : Pos) : option (list Pos) :=
  path_fwd ← walk_parents (S (S (size fwd_parent))) fwd_parent [] (Some meeting);
  path_bwd ← walk_parents (S (S (size bwd_parent))) bwd_parent []
               (parent_get bwd_parent meeting);
  Some (reverse path_fwd ++ path_bwd).

Record BidiState := {
  fwd_queue : list Pos;
  fwd_visited : gset Pos;
  fwd_parent : gmap Pos (option Pos);
  bwd_queue : list Pos;
  bwd_visited : gset Pos;
  bwd_parent : gmap Pos (option Pos);
  bidi_steps : list Step;
}.

Definition bidi_init (grid : Grid) : BidiState :=
  {| fwd_queue := [start grid];
     fwd_visited := {[start grid]};
     fwd_parent := {[start grid := None]};
     bwd_queue := [goal grid];
     bwd_visited := {[goal grid]};
     bwd_parent := {[goal grid := None]};
     bidi_steps := [] |}.

Definition bidi_relax (cur : Pos)
    (acc : list Pos * gset Pos * gmap Pos (option Pos)) (e : Pos * C)
    : list Pos * gset Pos * gmap Pos (option Pos) :=
  let '(queue, vis, parent) := acc in
  let nbr := e.1 in
  if bool_decide (nbr ∉ vis) then
    (queue ++ [nbr], vis ∪ {[nbr]}, <[nbr := Some cur]> parent)
  else acc.

(** The forward half of one iteration of the outer loop. *)
Definition bidi_forward (grid : Grid) (st : BidiState)
    : option (BidiState + Result) :=
  match fwd_queue st with
  | [] => Some (inl st)
  | cur_f :: queue =>
      let steps :=
        bidi_steps st ++
        [make_step cur_f (queue ++ bwd_queue st)
           (fwd_visited st ∪ bwd_visited st)] in
      if bool_decide (cur_f ∈ bwd_visited st) then
        path ← merge_paths (fwd_parent st) (bwd_parent st) cur_f;
        Some (inr (steps, path))
      else
        let '(queue', vis', parent') :=
          foldl (bidi_relax cur_f) (queue, fwd_visited st, fwd_parent st)
            (get_neighbors grid cur_f) in
        Some (inl {| fwd_queue := queue'; fwd_visited := vis';
                     fwd_parent := parent';
                     bwd_queue := bwd_queue st;
                     bwd_visited := bwd_visited st;
                     bwd_parent := bwd_parent st;
                     bidi_steps := steps |})
  end.

(** The backward half. *)
Definition bidi_backward (grid : Grid) (st : BidiState)
    : option (BidiState + Result) :=
  match bwd_queue st with
  | [] => Some (inl st)
  | cur_b :: queue =>
      let steps :=
        bidi_steps st ++
        [make_step cur_b (fwd_queue st ++ queue)
           (fwd_visited st ∪ bwd_visited st)] in
      if bool_decide (cur_b ∈ fwd_visited st) then
        path ← merge_paths (fwd_parent st) (bwd_parent st) cur_b;
        Some (inr (steps, path))
      else
        let '(queue', vis', parent') :=
          foldl (bidi_relax cur_b) (queue, bwd_visited st, bwd_parent st)
            (get_neighbors grid cur_b) in
        Some (inl {| fwd_queue := fwd_queue st;
                     fwd_visited := fwd_visited st;
                     fwd_parent := fwd_parent st;
                     bwd_queue := queue'; bwd_visited := vis';
                     bwd_parent := parent';
                     bidi_steps := steps |})
  end.

Definition bidi_body (grid : Grid) (st : BidiState)
    : option (BidiState + Result) :=
  match fwd_queue st, bwd_queue st with
  | [], [] => Some (inr (bidi_steps st, []))
  | _, _ =>
      r ← bidi_forward grid st;
      match r with
      | inl st' => bidi_backward grid st'
      | inr res => Some (inr res)
      end
  end.

Definition bidirectional (grid : Grid) : option Result :=
  while_loop (bidi_body grid) (search_fuel grid) (bidi_init grid).

End Search.

(** * Vocabulary of the specification *)

(** ** Chains and routes *)

Fixpoint chain (R : Pos → Pos → Prop) (l : list Pos) : Prop :=
  match l with
  | [] => True
  | p :: rest =>
      match rest with
      | [] => True
      | q :: _ => R p q ∧ chain R rest
      end
  end.

Section Vocabulary.

Context {C : Type} `{Cost C}.

(** The cost attached to a move, and the six candidate cells of a position in
    the order of [DIRECTIONS]. *)
Definition move_cost (p q : Pos) : C :=
  if negb (q.1 - p.1 =? 0)%Z && negb (q.2 - p.2 =? 0)%Z then c_diag
  else c_orth.

Definition candidates (pos : Pos) : list Pos :=
  (λ d : Z * Z, ((pos.1 + d.1)%Z, (pos.2 + d.2)%Z)) <$> DIRECTIONS.

(** The move relation of the grid: [q] is returned by [get_neighbors] applied
    to [p]. *)
Definition step (grid : Grid) (p q : Pos) : Prop :=
  q ∈ (get_neighbors grid p).*1.

(** A route is a non-empty chain of moves between two cells. *)
Definition route (grid : Grid) (a b : Pos) (l : list Pos) : Prop :=
  head l = Some a ∧ last l = Some b ∧ chain (step grid) l.

Definition reachable (grid : Grid) (a b : Pos) : Prop :=
  ∃ l, route grid a b l.

(** The number of edges of a path. *)
Definition edge_count (l : list Pos) : nat := length l - 1.

(** The cost accumulated along a path, added up from the start as [ucs]
    does. *)
Fixpoint cost_from (acc : C) (p : Pos) (rest : list Pos) : C :=
  match rest with
  | [] => acc
  | q :: rest' => cost_from (c_add acc (move_cost p q)) q rest'
  end.

Definition path_cost (l : list Pos) : C :=
  match l with
  | [] => c_zero
  | p :: rest => cost_from c_zero p rest
  end.

(** [x <= y] on costs. *)
Definition c_le (x y : C) : Prop := c_lt y x = false.

(** The order laws of the costs.  They hold for floats that are numbers:
    [<] is a strict weak order, and adding an edge cost on the right is
    monotone and never decreases a cost. *)
Class CostLaws : Prop := {
  c_lt_irrefl x : c_lt x x = false;
  c_lt_trans x y z : c_lt x y = true → c_lt y z = true → c_lt x z = true;
  c_le_trans x y z : c_le x y → c_le y z → c_le x z;
  c_add_mono x y e : c_le x y → c_le (c_add x e) (c_add y e);
  c_add_orth x : c_le x (c_add x c_orth);
  c_add_diag x : c_le x (c_add x c_diag);
}.

(** ** Heap entries *)

(** [==] on costs, and [<] on positions and on the tuples pushed on the heap,
    as Python compares tuples. *)
Definition c_eqb (x y : C) : bool := negb (c_lt x y) && negb (c_lt y x).

Definition pos_lt (p q : Pos) : bool :=
  (p.1 <? q.1)%Z || ((p.1 =? q.1)%Z && (p.2 <? q.2)%Z).

Definition entry_lt (a b : C * Z * Pos) : bool :=
  let '(ca, ka, pa) := a in
  let '(cb, kb, pb) := b in
  if c_eqb ca cb then
    if (ka =? kb)%Z then pos_lt pa pb else (ka <? kb)%Z
  else c_lt ca cb.

(** The contract of [heapq]: on lists that are heaps, [heappush] and
    [heappop] keep the heap shape and the contents, and [heappop] removes a
    least entry. *)
Class HeapQLaws `{HeapQ (C * Z * Pos)} := {
  is_heap : list (C * Z * Pos) → Prop;
  is_heap_nil : is_heap [];
  is_heap_singleton x : is_heap [x];
  heappush_heap h x : is_heap h → is_heap (heappush h x);
  heappush_perm h x : heappush h x ≡ₚ x :: h;
  heappop_Some h : h ≠ [] → is_Some (heappop h);
  heappop_heap h x h' : is_heap h → heappop h = Some (x, h') → is_heap h';
  heappop_perm h x h' : heappop h = Some (x, h') → h ≡ₚ x :: h';
  heappop_min h x h' y :
    is_heap h → heappop h = Some (x, h') → y ∈ h' → entry_lt y x = false;
}.

End Vocabulary.

(** ** Results *)

(** A search returns a trace and a path, and they satisfy [P]. *)
Definition returns (r : option Result)
    (P : list Step → list Pos → Prop) : Prop :=
  ∃ steps path, r = Some (steps, path) ∧ P steps path.

(** ** Step traces *)

(** The sizes of the visited snapshots never decrease from a step to the
    next. *)
Definition sizes_nondecreasing (steps : list Step) : Prop :=
  ∀ i a b, steps !! i = Some a → steps !! S i = Some b →
    size (visited a) ≤ size (visited b).

(** Every position of a visited snapshot is the current node of an earlier
    step. *)
Definition popped_first (steps : list Step) : Prop :=
  ∀ i s p, steps !! i = Some s → p ∈ visited s →
    ∃ j s', j < i ∧ steps !! j = Some s' ∧ current s' = p.

(** * Invariants shared by the strategies *)

(** The successive parents of a node in a parent map. *)
Inductive parents_of (cf : gmap Pos (option Pos)) : Pos → list Pos → Prop :=
  | parents_nil n :
      parent_get cf n = None → parents_of cf n []
  | parents_cons n p l :
      parent_get cf n = Some p → parents_of cf p l → parents_of cf n (p :: l).

(** A parent map is a tree rooted at [s]: the parents are expanded nodes,
    every link is an edge of [E], and the expanded nodes are ranked so that
    a parent comes before its expanded children. *)
Definition parent_tree (E : Pos → Pos → Prop) (s : Pos)
    (cf : gmap Pos (option Pos)) (vis : gset Pos) : Prop :=
  ∃ rank : Pos → nat,
    cf !! s = Some None ∧
    (∀ n, cf !! n = Some None → n = s) ∧
    vis ⊆ dom cf ∧
    (∀ v, v ∈ vis → rank v < size vis) ∧
    (∀ n p, cf !! n = Some (Some p) →
       p ∈ vis ∧ E p n ∧ (n ∈ vis → rank p < rank n)).

(** The recorded steps against the visited set of the state. *)
Record trace_inv (steps : list Step) (vis : gset Pos) : Prop := {
  tr_mono : ∀ i j a b, i ≤ j → steps !! i = Some a → steps !! j = Some b →
    visited a ⊆ visited b;
  tr_below : ∀ i a, steps !! i = Some a → visited a ⊆ vis;
  tr_popped : popped_first steps;
  tr_vis : ∀ p, p ∈ vis → ∃ j s, steps !! j = Some s ∧ current s = p;
}.

(** The measure that bounds the iterations of a search whose frontier holds
    [n] entries. *)
Definition search_measure (grid : Grid) (vis : gset Pos) (n : nat) : nat :=
  6 * size (valid_cells grid ∖ vis) + n.

(** What a returned path says about the grid: a route from start to goal, or
    none when the path is empty. *)
Definition path_outcome {C} `{Cost C} (grid : Grid) (path : list Pos) : Prop :=
  match path with
  | [] => ¬ reachable grid (start grid) (goal grid)
  | _ :: _ => route grid (start grid) (goal grid) path
  end.

(** The parent map after the expansion of [cur]: the cells of [new] without a
    parent get [cur]. *)
Definition adopt (cur : Pos) (cf : gmap Pos (option Pos)) (new : list Pos)
    : gmap Pos (option Pos) :=
  foldl (λ m n, match m !! n with
                | None => <[n := Some cur]> m
                | Some _ => m
                end) cf new.

(** * Invariants of the depth-first strategies *)

Section DfsInv.

Context {C : Type} `{Cost C}.

Record dfs_inv (grid : Grid) (st : DfsState) : Prop := {
  dfs_tree :
    parent_tree (step grid) (start grid) (dfs_came_from st) (dfs_visited st);
  dfs_trace : trace_inv (dfs_steps st) (dfs_visited st);
  dfs_stack_dom : ∀ x, x ∈ dfs_stack st → is_Some (dfs_came_from st !! x);
  dfs_stack_valid : ∀ x, x ∈ dfs_stack st → is_valid grid x = true;
  dfs_goal_fresh : goal grid ∉ dfs_visited st;
  dfs_closed : ∀ v w, v ∈ dfs_visited st → step grid v w →
    w ∈ dfs_visited st ∨ w ∈ dfs_stack st;
  dfs_start_seen : start grid ∈ dfs_visited st ∨ start grid ∈ dfs_stack st;
}.

Definition dfs_post (grid : Grid) (r : Result) : Prop :=
  (∃ vis, trace_inv r.1 vis) ∧ path_outcome grid r.2.

Record dls_inv (grid : Grid) (limit : Z) (st : DlsState) : Prop := {
  dls_tree :
    parent_tree (step grid) (start grid) (dls_came_from st) (dls_visited st);
  dls_trace : trace_inv (dls_steps st) (dls_visited st);
  dls_stack_dom : ∀ x, x ∈ (dls_stack st).*1 →
    is_Some (dls_came_from st !! x);
  dls_stack_valid : ∀ x, x ∈ (dls_stack st).*1 → is_valid grid x = true;
  dls_vis_valid : ∀ x, x ∈ dls_visited st → is_valid grid x = true;
  dls_goal_fresh : goal grid ∉ dls_visited st;
  dls_depth : ∀ e, e ∈ dls_stack st →
    (0 ≤ e.2 ≤ Z.of_nat (size (dls_visited st)))%Z;
  dls_closed :
    (Z.of_nat (size (valid_cells grid)) ≤ limit + 1)%Z →
    ∀ v w, v ∈ dls_visited st → step grid v w →
      w ∈ dls_visited st ∨ w ∈ (dls_stack st).*1;
  dls_start_seen :
    (Z.of_nat (size (valid_cells grid)) ≤ limit + 1)%Z →
    start grid ∈ dls_visited st ∨ start grid ∈ (dls_stack st).*1;
}.

(** A depth-limited search returns a route whenever it returns a path, and
    misses no route when the limit is at least the number of cells that can
    be entered, less one. *)
Definition dls_post (grid : Grid) (limit : Z) (r : Result) : Prop :=
  (∃ vis, trace_inv r.1 vis) ∧
  (r.2 ≠ [] → route grid (start grid) (goal grid) r.2) ∧
  ((Z.of_nat (size (valid_cells grid)) ≤ limit + 1)%Z →
   r.2 = [] → ¬ reachable grid (start grid) (goal grid)).

(** The attempts of an iterative deepening: the traces of the depth-limited
    searches at the successive limits, up to the first one that returns a
    path. *)
Inductive iddfs_run (grid : Grid)
    : list Z → list (list Step) → list Pos → Prop :=
  | iddfs_run_nil : iddfs_run grid [] [] []
  | iddfs_run_found k limits steps p path :
      dls grid k = Some (steps, p :: path) →
      iddfs_run grid (k :: limits) [steps] (p :: path)
  | iddfs_run_next k limits steps traces path :
      dls grid k = Some (steps, []) →
      iddfs_run grid limits traces path →
      iddfs_run grid (k :: limits) (steps :: traces) path.

End DfsInv.

(** * Invariants of the breadth-first search *)

(** A queue in the order of the levels of its cells. *)
Fixpoint level_sorted (d : Pos → nat) (q : list Pos) : Prop :=
  match q with
  | [] => True
  | x :: q' => (∀ y, y ∈ q' → d x ≤ d y) ∧ level_sorted d q'
  end.

(** Every pop of a trace is fresh, and the positions ever put on the queue up
    to a step (the nodes popped so far, then the frontier of the step) are
    pairwise distinct. *)
Definition fresh_pops (steps : list Step) : Prop :=
  ∀ i s, steps !! i = Some s → current s ∉ visited s.

Definition enqueued_once (steps : list Step) : Prop :=
  ∀ i s, steps !! i = Some s →
    NoDup ((current <$> take (S i) steps) ++ frontier s).

(** Between two steps the queue only grows at its end: the frontier of the
    next step, with its node put back in front, extends the frontier of the
    step. *)
Definition frontier_grows (steps : list Step) : Prop :=
  ∀ i a b, steps !! i = Some a → steps !! S i = Some b →
    ∃ new, frontier a ++ new = current b :: frontier b.

(** The trace against the queue: the popped nodes are the visited ones. *)
Record queue_log (steps : list Step) (q : list Pos) (vis : gset Pos)
    : Prop := {
  log_nodup : NoDup ((current <$> steps) ++ q);
  log_visited : ∀ p, p ∈ vis ↔ p ∈ current <$> steps;
  log_fresh : fresh_pops steps;
  log_once : enqueued_once steps;
  log_grows : frontier_grows steps;
  log_last : ∀ a, last steps = Some a → ∃ new, frontier a ++ new = q;
}.

Section BfsInv.

Context {C : Type} `{Cost C}.

Record bfs_core (grid : Grid) (st : BfsState) : Prop := {
  bfs_tree :
    parent_tree (step grid) (start grid) (bfs_came_from st) (bfs_visited st);
  bfs_trace : trace_inv (bfs_steps st) (bfs_visited st);
  bfs_nodup : NoDup (bfs_queue st);
  bfs_in_queue_spec : ∀ x, x ∈ bfs_in_queue st ↔ x ∈ bfs_queue st;
  bfs_fresh : ∀ x, x ∈ bfs_queue st → x ∉ bfs_visited st;
  bfs_dom : ∀ x, is_Some (bfs_came_from st !! x) ↔
    x ∈ bfs_visited st ∨ x ∈ bfs_queue st;
  bfs_queue_valid : ∀ x, x ∈ bfs_queue st → is_valid grid x = true;
  bfs_goal_fresh : goal grid ∉ bfs_visited st;
  bfs_closed : ∀ v w, v ∈ bfs_visited st → step grid v w →
    w ∈ bfs_visited st ∨ w ∈ bfs_queue st;
}.

(** The level of a cell is its depth in the parent tree.  The queue holds at
    most two consecutive levels, in order, behind the visited cells. *)
Record bfs_level (grid : Grid) (d : Pos → nat) (st : BfsState) : Prop := {
  lv_start : d (start grid) = 0;
  lv_parent : ∀ n p, bfs_came_from st !! n = Some (Some p) → d n = S (d p);
  lv_sorted : level_sorted d (bfs_queue st);
  lv_span : ∀ x y, x ∈ bfs_queue st → y ∈ bfs_queue st → d y ≤ S (d x);
  lv_visited : ∀ v x, v ∈ bfs_visited st → x ∈ bfs_queue st → d v ≤ d x;
  lv_edge : ∀ v w, v ∈ bfs_visited st → step grid v w → d w ≤ S (d v);
}.

Definition bfs_inv (grid : Grid) (st : BfsState) : Prop :=
  bfs_core grid st ∧ (∃ d, bfs_level grid d st) ∧
  queue_log (bfs_steps st) (bfs_queue st) (bfs_visited st).

(** The result of a breadth-first search. *)
Record bfs_post (grid : Grid) (r : Result) : Prop := {
  bp_trace : ∃ vis, trace_inv r.1 vis;
  bp_path : path_outcome grid r.2;
  bp_shortest : ∀ l, route grid (start grid) (goal grid) l →
    edge_count r.2 ≤ edge_count l;
  bp_fresh : fresh_pops r.1;
  bp_once : enqueued_once r.1;
  bp_grows : frontier_grows r.1;
  bp_nodup : NoDup (current <$> r.1);
}.

End BfsInv.

(** * Invariants of the bidirectional search *)

Section BidiInv.

Context {C : Type} `{Cost C}.

(** Every position of a visited snapshot is the start, the goal, or a
    neighbour of the current node of an earlier step. *)
Definition discovered_first (grid : Grid) (steps : list Step) : Prop :=
  ∀ i s p, steps !! i = Some s → p ∈ visited s →
    p = start grid ∨ p = goal grid ∨
    ∃ j s', j < i ∧ steps !! j = Some s' ∧ step grid (current s') p.

Record bidi_trace (grid : Grid) (steps : list Step) (vis : gset Pos)
    : Prop := {
  bt_mono : ∀ i j a b, i ≤ j → steps !! i = Some a → steps !! j = Some b →
    visited a ⊆ visited b;
  bt_below : ∀ i a, steps !! i = Some a → visited a ⊆ vis;
  bt_first : discovered_first grid steps;
  bt_vis : ∀ p, p ∈ vis →
    p = start grid ∨ p = goal grid ∨
    ∃ j s', steps !! j = Some s' ∧ step grid (current s') p;
}.

(** One side of the search: a queue, its discovered set and its parent map,
    rooted at [root], with the links of the parent map in [E]. *)
Record side_inv (grid : Grid) (E : Pos → Pos → Prop) (root : Pos)
    (q : list Pos) (v : gset Pos) (p : gmap Pos (option Pos)) : Prop := {
  side_tree : parent_tree E root p v;
  side_dom : ∀ x, is_Some (p !! x) → x ∈ v;
  side_queue : ∀ x, x ∈ q → x ∈ v;
  side_valid : ∀ x, x ∈ v → is_valid grid x = true;
  side_closed : ∀ x w, x ∈ v → x ∉ q → step grid x w → w ∈ v;
  side_root : root ∈ v;
}.

Record bidi_inv (grid : Grid) (st : BidiState) : Prop := {
  bidi_fwd :
    side_inv grid (step grid) (start grid)
      (fwd_queue st) (fwd_visited st) (fwd_parent st);
  bidi_bwd :
    side_inv grid (flip (step grid)) (goal grid)
      (bwd_queue st) (bwd_visited st) (bwd_parent st);
  bidi_tr : bidi_trace grid (bidi_steps st) (fwd_visited st ∪ bwd_visited st);
  bidi_goal_pending : goal grid ∈ fwd_visited st → goal grid ∈ fwd_queue st;
}.

Definition bidi_measure (grid : Grid) (st : BidiState) : nat :=
  size (valid_cells grid ∖ fwd_visited st) + length (fwd_queue st) +
  (size (valid_cells grid ∖ bwd_visited st) + length (bwd_queue st)).

Definition bidi_post (grid : Grid) (r : Result) : Prop :=
  (∃ vis, bidi_trace grid r.1 vis) ∧ path_outcome grid r.2.

End BidiInv.

(** * Invariants of the uniform cost search *)

Section UcsInv.

Context {C : Type} `{Cost C} `{HeapQ (C * Z * Pos)} `{!CostLaws}
  `{!HeapQLaws}.

(** The data of the search between two relaxations.  [todo v w] holds for
    the edges out of the node under expansion that are not relaxed yet. *)
Record ucs_core (grid : Grid) (vis : gset Pos) (cost : gmap Pos C)
    (heap : list (C * Z * Pos)) (cf : gmap Pos (option Pos))
    (todo : Pos → Pos → Prop) : Prop := {
  uc_tree : parent_tree (step grid) (start grid) cf vis;
  uc_dom : ∀ x, is_Some (cf !! x) ↔ is_Some (cost !! x);
  uc_start : cost !! start grid = Some c_zero;
  uc_parent : ∀ n p, cf !! n = Some (Some p) →
    ∃ cp, cost !! p = Some cp ∧
          cost !! n = Some (c_add cp (move_cost p n));
  uc_entry : ∀ c k n, (c, k, n) ∈ heap →
    is_valid grid n = true ∧
    ∃ cn, cost !! n = Some cn ∧ (c = cn ∨ c_lt cn c = true);
  uc_pending : ∀ n cn, cost !! n = Some cn → n ∉ vis →
    ∃ k, (cn, k, n) ∈ heap;
  uc_mono : ∀ v cv c k n, v ∈ vis → cost !! v = Some cv →
    (c, k, n) ∈ heap → c_le cv c;
  uc_edge : ∀ v w cv, v ∈ vis → cost !! v = Some cv → step grid v w →
    todo v w ∨
    ∃ cw, cost !! w = Some cw ∧ c_le cw (c_add cv (move_cost v w));
  uc_heap : is_heap heap;
  uc_goal : goal grid ∉ vis;
  uc_started : start grid ∈ vis ∨ vis = ∅;
}.

(** The edges out of [cur] still to relax, once the neighbours of [done]
    have been. *)
Definition todo_from (cur : Pos) (done : list Pos) (v w : Pos) : Prop :=
  v = cur ∧ w ∉ done.

Definition ucs_inv (grid : Grid) (st : UcsState) : Prop :=
  ucs_core grid (ucs_visited st) (ucs_cost_so_far st) (ucs_heap st)
    (ucs_came_from st) (λ _ _, False) ∧
  trace_inv (ucs_steps st) (ucs_visited st).

(** The result of a uniform cost search: the returned path costs no more
    than any route. *)
Definition ucs_post (grid : Grid) (r : Result) : Prop :=
  (∃ vis, trace_inv r.1 vis) ∧ path_outcome grid r.2 ∧
  (∀ l, route grid (start grid) (goal grid) l →
     c_le (path_cost r.2) (path_cost l)).

End UcsInv.

(** * Reference instances and sample grids *)

(** ** A heap kept as a sorted list

    It implements the [heapq] interface and serves to run [ucs].  The
    theorems below hold for every implementation that meets the contract. *)

Fixpoint sorted_insert {A : Type} (lt : A → A → bool) (x : A) (h : list A)
    : list A :=
  match h with
  | [] => [x]
  | y :: h' => if lt x y then x :: h else y :: sorted_insert lt x h'
  end.

Fixpoint heap_sorted {A : Type} (lt : A → A → bool) (h : list A) : Prop :=
  match h with
  | [] => True
  | x :: h' => (∀ y, y ∈ h' → lt y x = false) ∧ heap_sorted lt h'
  end.

Definition sorted_heapq {A : Type} (lt : A → A → bool) : HeapQ A :=
  {| heappush h x := sorted_insert lt x h;
     heappop h := match h with
                  | [] => None
                  | x :: h' => Some (x, h')
                  end |}.

#[export] Instance milli_heapq : HeapQ (Z * Z * Pos) :=
  sorted_heapq (entry_lt (C := Z)).

(** ** Grids *)

Definition in_bounds (grid : Grid) (pos : Pos) : Prop :=
  (0 ≤ pos.1 < rows grid ∧ 0 ≤ pos.2 < cols grid)%Z.

(** A corridor of three cells. *)
Definition corridor_grid : Grid :=
  {| rows := 1; cols := 3; start := (0, 0)%Z; goal := (0, 2)%Z; walls := ∅ |}.

(** A ring of six cells around a wall, with the goal hanging off the ring:
    two moves away from the start one way round, four the other way. *)
Definition ring_grid : Grid :=
  {| rows := 4; cols := 4; start := (1, 2)%Z; goal := (2, 0)%Z;
     walls := list_to_set
       [(0, 0); (0, 1); (0, 2); (0, 3); (1, 0); (1, 3); (2, 2); (3, 0);
        (3, 1)]%Z |}.

(** Checking a route by computation. *)
Fixpoint chain_check {C : Type} `{Cost C} (grid : Grid) (l : list Pos)
    : bool :=
  match l with
  | [] => true
  | p :: rest =>
      match rest with
      | [] => true
      | q :: _ => bool_decide (q ∈ (get_neighbors grid p).*1) &&
                  chain_check grid rest
      end
  end.

(** * Further vocabulary: parent chains and recorded runs *)

(** The node reached from [n] after [k] applications of [came_from.get]. *)
Fixpoint ancestor (cf : gmap Pos (option Pos)) (k : nat) (n : Pos)
    : option Pos :=
  match k with
  | O => Some n
  | S k' =>
      match parent_get cf n with
      | Some p => ancestor cf k' p
      | None => None
      end
  end.

(** A node without a parent: its key is absent, or maps to [None]. *)
Definition rootless (cf : gmap Pos (option Pos)) (n : Pos) : Prop :=
  cf !! n = None ∨ cf !! n = Some None.

(** Each element of the list is the parent of the next one. *)
Definition parent_links (cf : gmap Pos (option Pos)) (l : list Pos) : Prop :=
  ∀ i p n, l !! i = Some p → l !! S i = Some n → cf !! n = Some (Some p).

(** The visited snapshot of a step holds the current nodes of all the
    earlier steps. *)
Definition pops_visited (steps : list Step) : Prop :=
  ∀ i j a b, j < i → steps !! j = Some b → steps !! i = Some a →
    current b ∈ visited a.

Definition pops_log (steps : list Step) (vis : gset Pos) : Prop :=
  pops_visited steps ∧ ∀ s, s ∈ steps → current s ∈ vis.

(** The count that [main] prints as "Nodes explored":
    [len(steps[-1]['visited']) if steps else 0]. *)
Definition nodes_visited (steps : list Step) : nat :=
  match last steps with
  | Some s => size (visited s)
  | None => 0
  end.

Section TraceVocabulary.

Context {C : Type} `{Cost C}.

(** Every cell that a step shows satisfies [P]. *)
Definition step_within (P : Pos → Prop) (s : Step) : Prop :=
  P (current s) ∧ (∀ x, x ∈ frontier s → P x) ∧ (∀ x, x ∈ visited s → P x).

Definition trace_within (P : Pos → Prop) (steps : list Step) : Prop :=
  ∀ s, s ∈ steps → step_within P s.

(** The last step of a trace pops the goal, and no step before it does. *)
Definition ends_at_goal (grid : Grid) (steps : list Step) : Prop :=
  ∃ init a, steps = init ++ [a] ∧ current a = goal grid ∧
            ∀ s, s ∈ init → current s ≠ goal grid.

(** The last step of a trace leaves the frontier empty. *)
Definition ends_exhausted (steps : list Step) : Prop :=
  ∃ a, last steps = Some a ∧ frontier a = [].

(** Every cell of the path is the current node of a step. *)
Definition path_expanded (steps : list Step) (path : list Pos) : Prop :=
  ∀ p, p ∈ path → p ∈ current <$> steps.

(** The bookkeeping of a search with one frontier, between two iterations:
    [fr] is the frontier, [vis] the visited set. *)
Record search_log (grid : Grid) (steps : list Step) (fr : list Pos)
    (vis : gset Pos) : Prop := {
  sl_first :
    match steps with
    | [] => fr = [start grid] ∧ vis = ∅
    | s :: _ => s = make_step (start grid) [] ∅
    end;
  sl_reach : trace_within (reachable grid (start grid)) steps;
  sl_goal : ∀ s, s ∈ steps → current s ≠ goal grid;
  sl_last : ∀ a, last steps = Some a → fr = [] → frontier a = [];
  sl_count : length steps + length fr ≤ 1 + 6 * size vis;
  sl_vis_valid : ∀ x, x ∈ vis → is_valid grid x = true;
}.

(** What the trace and the path of a finished search with one frontier
    show; [bound] limits the number of steps. *)
Record run_facts (grid : Grid) (bound : nat) (steps : list Step)
    (path : list Pos) : Prop := {
  rf_first : head steps = Some (make_step (start grid) [] ∅);
  rf_reach : trace_within (reachable grid (start grid)) steps;
  rf_found : path ≠ [] → ends_at_goal grid steps;
  rf_failed : path = [] →
    ends_exhausted steps ∧ ∀ s, s ∈ steps → current s ≠ goal grid;
  rf_count : length steps ≤ bound;
  rf_nodup : NoDup path;
  rf_expanded : path_expanded steps path;
}.

(** The number of steps that a search with one frontier can record: a pop
    for the start and one for each of the six neighbours of an expanded
    cell. *)
Definition pop_bound (grid : Grid) : nat := 6 * size (valid_cells grid) + 1.

(** A state of [dls] and a state of [dfs] that differ by the depths kept on
    the stack only. *)
Definition dls_dfs_sim (sd : DlsState) (sf : DfsState) : Prop :=
  (dls_stack sd).*1 = dfs_stack sf ∧
  dls_came_from sd = dfs_came_from sf ∧
  dls_visited sd = dfs_visited sf ∧
  dls_steps sd = dfs_steps sf.

(** A cell shown by a step of the bidirectional search is connected to one
    of the two ends. *)
Definition linked (grid : Grid) (x : Pos) : Prop :=
  reachable grid (start grid) x ∨ reachable grid (goal grid) x.

(** Every cell that a step shows has been discovered. *)
Definition frontier_discovered (s : Step) : Prop :=
  current s ∈ visited s ∧ ∀ x, x ∈ frontier s → x ∈ visited s.

(** The bookkeeping of the bidirectional search between two half
    iterations.  [Pf] and [Pb] stand for the cells popped by each side. *)
Record bidi_log (grid : Grid) (st : BidiState) : Prop := {
  bl_first :
    match bidi_steps st with
    | [] => fwd_queue st = [start grid] ∧ bwd_queue st = [goal grid] ∧
            fwd_visited st = {[start grid]} ∧ bwd_visited st = {[goal grid]}
    | s :: _ =>
        s = make_step (start grid) [goal grid]
              ({[start grid]} ∪ {[goal grid]})
    end;
  bl_popped : ∃ Pf Pb : gset Pos,
    Pf ## Pb ∧ Pf ⊆ fwd_visited st ∧ Pb ⊆ bwd_visited st ∧
    (∀ n p, fwd_parent st !! n = Some (Some p) → p ∈ Pf) ∧
    (∀ n p, bwd_parent st !! n = Some (Some p) → p ∈ Pb) ∧
    (∀ p, p ∈ Pf ∪ Pb → p ∈ current <$> bidi_steps st);
  bl_within : trace_within (linked grid) (bidi_steps st);
  bl_shown : ∀ s, s ∈ bidi_steps st → frontier_discovered s;
  bl_last : ∀ a, last (bidi_steps st) = Some a →
    fwd_queue st = [] → bwd_queue st = [] → frontier a = [];
  bl_count :
    length (bidi_steps st) + length (fwd_queue st) + length (bwd_queue st) ≤
    size (fwd_visited st) + size (bwd_visited st);
}.

(** What the trace and the path of a finished bidirectional search show. *)
Record bidi_facts (grid : Grid) (steps : list Step) (path : list Pos)
    : Prop := {
  bf_first :
    head steps =
    Some (make_step (start grid) [goal grid] ({[start grid]} ∪ {[goal grid]}));
  bf_within : trace_within (linked grid) steps;
  bf_shown : ∀ s, s ∈ steps → frontier_discovered s;
  bf_found : path ≠ [] → ∃ a, last steps = Some a ∧ current a ∈ path;
  bf_failed : path = [] → ends_exhausted steps;
  bf_count : length steps ≤ 2 * size (valid_cells grid);
  bf_nodup : NoDup path;
  bf_expanded : path_expanded steps path;
}.

End TraceVocabulary.

(** * The frames of the animation

    [visualize] replays a trace: [update] draws one frame for each step, then
    frames that hold the final state with the path.  The drawing calls belong
    to matplotlib; the embedding keeps what [update] and [draw_stats] decide:
    the state shown by a frame, the face given to each cell of the grid and
    the numbers of the statistics panel.  A label [str(idx)] is kept as the
    number [idx], and a colour as the name of its face. *)

(** The state that [update] shows at a frame: [current], [frontier],
    [visited] and [curr_path]. *)
Record View := {
  view_current : option Pos;
  view_frontier : gset Pos;
  view_visited : gset Pos;
  view_path : list Pos;
}.

Definition frame_view (steps : list Step) (path : list Pos) (frame : nat)
    : View :=
  match steps !! frame with
  | Some st =>
      {| view_current := Some (current st);
         view_frontier := list_to_set (frontier st);
         view_visited := visited st;
         view_path := [] |}
  | None =>
      {| view_current := None;
         view_frontier := ∅;
         view_visited := match last steps with
                         | Some st => visited st
                         | None => ∅
                         end;
         view_path := path |}
  end.

(** The call of [draw_cell] made for a cell: the wall, the start [S], the
    goal [T], a cell of the path with its label, a cell of the frontier [F],
    an explored cell. *)
Inductive Face :=
  | WallFace
  | StartFace
  | GoalFace
  | PathFace (label : option nat)
  | FrontierFace
  | VisitedFace.

(** [curr_path.index(pos)]: the first position of [pos] in the list. *)
Fixpoint path_index (pos : Pos) (l : list Pos) : option nat :=
  match l with
  | [] => None
  | x :: l' =>
      if bool_decide (x = pos) then Some 0 else S <$> path_index pos l'
  end.

(** The priority rendering order of [update]; [None] when the cell keeps its
    background. *)
Definition cell_face (grid : Grid) (v : View) (pos : Pos) : option Face :=
  if bool_decide (pos ∈ walls grid) then Some WallFace
  else if bool_decide (pos = start grid) then Some StartFace
  else if bool_decide (pos = goal grid) then Some GoalFace
  else if bool_decide (pos ∈ view_path v) then
    let idx := default 0 (path_index pos (view_path v)) in
    Some (PathFace
            (if bool_decide (0 < idx < length (view_path v) - 1)
             then Some idx else None))
  else if bool_decide (pos ∈ view_frontier v) then Some FrontierFace
  else if bool_decide (pos ∈ view_visited v) then Some VisitedFace
  else None.

(** The border drawn around the current node. *)
Definition cell_highlight (v : View) (pos : Pos) : bool :=
  bool_decide (view_current v = Some pos).

(** The cells drawn by a frame, row by row. *)
Definition frame_cells (grid : Grid) (v : View)
    : list (Pos * option Face * bool) :=
  (λ pos, (pos, cell_face grid v pos, cell_highlight v pos)) <$>
    grid_cells grid.

(** The rows of the statistics panel. *)
Inductive PathStatus := PathYes | PathNo | PathSearching.

Record Stats := {
  stat_step : nat * nat;
  stat_explored : nat;
  stat_frontier : nat;
  stat_status : PathStatus;
  stat_length : option nat;
}.

Definition frame_stats (steps : list Step) (path : list Pos) (frame : nat)
    : Stats :=
  let v := frame_view steps path frame in
  let search_done := bool_decide (length steps ≤ frame) in
  {| stat_step := ((frame + 1) `min` length steps, length steps);
     stat_explored := size (view_visited v);
     stat_frontier := size (view_frontier v);
     stat_status :=
       if search_done && bool_decide (path ≠ []) then PathYes
       else if search_done && bool_decide (path = []) then PathNo
       else PathSearching;
     stat_length :=
       if search_done && bool_decide (path ≠ []) then Some (length path)
       else None |}.

(** What the frames that follow the trace show of the path: the start, the
    goal, and between them the cells of the path numbered by their
    position. *)
Definition path_face (path : list Pos) (i : nat) : Face :=
  if bool_decide (i = 0) then StartFace
  else if bool_decide (S i = length path) then GoalFace
  else PathFace (Some i).

(** * Further sample data *)

(** A square of nine cells without walls, searched from a corner to the
    opposite corner. *)
Definition square_grid : Grid :=
  {| rows := 3; cols := 3; start := (0, 0)%Z; goal := (2, 2)%Z; walls := ∅ |}.

(** The same square with a wall in a corner. *)
Definition pocket_grid : Grid :=
  {| rows := 3; cols := 3; start := (1, 2)%Z; goal := (2, 0)%Z;
     walls := {[(2, 2)%Z]} |}.

(** The reference grid searched from a wall to itself. *)
Definition wall_grid : Grid :=
  {| rows := ROWS; cols := COLS; start := (2, 3)%Z; goal := (2, 3)%Z;
     walls := STATIC_WALLS |}.

(** A parent map with a root and two descendants in a line. *)
Definition line_parents : gmap Pos (option Pos) :=
  <[(0, 2)%Z := Some (0, 1)%Z]>
    (<[(0, 1)%Z := Some (0, 0)%Z]> {[(0, 0)%Z := None]}).

(** The grid searched the other way round. *)
Definition swap_ends (grid : Grid) : Grid :=
  {| rows := rows grid; cols := cols grid; start := goal grid;
     goal := start grid; walls := walls grid |}.

(** ** The runners of the menu *)

Section Runners.

Context {C : Type} `{Cost C} `{HeapQ (C * Z * Pos)}.

(** A runner builds the grid, runs its strategy and returns the grid with the
    trace and the path. *)
Definition run (search : Grid → option Result)
    : option (Grid * list Step * list Pos) :=
  let grid := build_grid in
  '(steps, path) ← search grid;
  Some (grid, steps, path).

Definition run_bfs := run bfs.
Definition run_dfs := run dfs.
Definition run_ucs := run ucs.
Definition run_dls := run (λ grid, dls grid 15).
Definition run_iddfs := run iddfs.
Definition run_bidirectional := run bidirectional.

End Runners.

(** * Runs compared: what a search may observe, and what [heapq] leaves open *)

(** ** A heap kept as an unsorted list

    A second implementation of the [heapq] interface: [heappush] appends, and
    [heappop] scans the list for a least entry.  It stores the entries in
    another order than the sorted list does. *)

Fixpoint scan_pop {A : Type} (lt : A → A → bool) (h : list A)
    : option (A * list A) :=
  match h with
  | [] => None
  | x :: h' =>
      match scan_pop lt h' with
      | Some (m, rest) => if lt m x then Some (m, x :: rest) else Some (x, h')
      | None => Some (x, [])
      end
  end.

Definition scan_heapq {A : Type} (lt : A → A → bool) : HeapQ A :=
  {| heappush h x := h ++ [x]; heappop := scan_pop lt |}.

Definition milli_scan_heapq : HeapQ (Z * Z * Pos) :=
  scan_heapq (entry_lt (C := Z)).

(** ** Grids *)

(** The reference grid widened by a column of walls, with two more walls
    outside the bounds: another grid with the same cells to enter. *)
Definition padded_grid : Grid :=
  {| rows := 10; cols := 11; start := START; goal := GOAL;
     walls := STATIC_WALLS ∪ list_to_set ((λ r, (r, 10%Z)) <$> seqZ 0 10) ∪
              {[(-1, 4)%Z; (12, 12)%Z]} |}.

(** A corridor of three cells cut by a wall: the goal cannot be reached. *)
Definition blocked_grid : Grid :=
  {| rows := 1; cols := 3; start := (0, 0)%Z; goal := (0, 2)%Z;
     walls := {[(0, 1)%Z]} |}.

(** ** Traces that differ by the order of the frontier only *)

Definition step_alike (a b : Step) : Prop :=
  current a = current b ∧ visited a = visited b ∧ frontier a ≡ₚ frontier b.

Definition trace_alike (steps1 steps2 : list Step) : Prop :=
  Forall2 step_alike steps1 steps2.

(** The insertion counter of a heap entry. *)
Definition entry_key {C : Type} (e : C * Z * Pos) : Z := e.1.2.

Section TwoHeaps.

Context {C : Type} {K : Cost C}.
Context (H1 H2 : HeapQ (C * Z * Pos)).
Context (L1 : HeapQLaws (H0 := H1)) (L2 : HeapQLaws (H0 := H2)).

(** Two states of [ucs], run over two implementations of [heapq], between
    two iterations: the heaps hold the same entries, each in the shape of its
    implementation, no two entries share an insertion counter, and everything
    else is equal. *)
Record ucs_alike (st1 st2 : UcsState) : Prop := {
  ua_counter : ucs_counter st1 = ucs_counter st2;
  ua_heap : ucs_heap st1 ≡ₚ ucs_heap st2;
  ua_came_from : ucs_came_from st1 = ucs_came_from st2;
  ua_cost_so_far : ucs_cost_so_far st1 = ucs_cost_so_far st2;
  ua_visited : ucs_visited st1 = ucs_visited st2;
  ua_steps : trace_alike (ucs_steps st1) (ucs_steps st2);
  ua_heap1 : is_heap (HeapQLaws := L1) (ucs_heap st1);
  ua_heap2 : is_heap (HeapQLaws := L2) (ucs_heap st2);
  ua_keys : NoDup (entry_key <$> ucs_heap st1);
  ua_fresh : ∀ e, e ∈ ucs_heap st1 → (entry_key e ≤ ucs_counter st1)%Z;
}.

(** Two results with the same path and traces that are alike. *)
Definition result_alike (r1 r2 : list Step * list Pos) : Prop :=
  trace_alike r1.1 r2.1 ∧ r1.2 = r2.2.

End TwoHeaps.

(** * Properties *)

(** ** Loops and lists *)

Lemma while_loop_inv {S R : Type} (body : S → option (S + R))
    (Inv : S → Prop) (mu : S → nat) (Post : R → Prop) :
  (∀ s, Inv s →
     match body s with
     | Some (inl s') => Inv s' ∧ mu s' < mu s
     | Some (inr r) => Post r
     | None => False
     end) →
  ∀ fuel s, Inv s → mu s < fuel →
    ∃ r, while_loop body fuel s = Some r ∧ Post r.
Proof.
  intros Hbody fuel. induction fuel as [|fuel IH]; intros s Hs Hmu; [lia|].
  simpl. specialize (Hbody s Hs).
  destruct (body s) as [[s'|r]|]; [|by eauto|done].
  destruct Hbody as [Hs' Hlt]. apply IH; [done|lia].
Qed.

Lemma list_pop_None {A} (l : list A) : list_pop l = None ↔ l = [].
Proof.
  destruct l as [|x l]; simpl; [done|].
  destruct (list_pop l) as [[??]|]; split; done.
Qed.

Lemma list_pop_Some {A} (l init : list A) (x : A) :
  list_pop l = Some (init, x) ↔ l = init ++ [x].
Proof.
  revert init x. induction l as [|y l IH]; intros init x; simpl.
  - split; [done|]. by destruct init.
  - destruct (list_pop l) as [[i z]|] eqn:E.
    + assert (l = i ++ [z]) as -> by (by apply IH). split.
      * by intros [= <- <-].
      * destruct init as [|y' init]; simpl.
        { intros [= _ Hnil]. by destruct i. }
        intros [= <- Heq]. by apply app_inj_tail in Heq as [-> ->].
    + apply list_pop_None in E as ->. split.
      * by intros [= <- <-].
      * destruct init as [|y' init]; simpl; [by intros [= ->]|].
        intros [= _ Hnil]. by destruct init.
Qed.

Lemma foldl_inv {A B} (f : A → B → A) (P : A → Prop) (l : list B) (a : A) :
  P a → (∀ a x, x ∈ l → P a → P (f a x)) → P (foldl f a l).
Proof.
  revert a. induction l as [|x l IH]; intros a Ha Hf; simpl; [done|].
  apply IH.
  - apply Hf; [left|done].
  - intros a' y Hy. apply Hf. by right.
Qed.

(** ** Chains *)

Lemma chain_cons R p l :
  chain R (p :: l) ↔ (∀ q, head l = Some q → R p q) ∧ chain R l.
Proof.
  destruct l as [|q l]; simpl.
  - split; [|done]. intros _. split; [by intros ?|done].
  - split.
    + intros [? ?]. split; [by intros ? [= <-]|done].
    + intros [Hq ?]. split; [by apply Hq|done].
Qed.

Lemma chain_app R l1 l2 :
  chain R (l1 ++ l2) ↔
  chain R l1 ∧ chain R l2 ∧
  (∀ p q, last l1 = Some p → head l2 = Some q → R p q).
Proof.
  induction l1 as [|p l1 IH].
  - simpl. split; [intros ?; split_and!; done|]. by intros (_ & ? & _).
  - rewrite <-app_comm_cons, !chain_cons, IH. split.
    + intros (Hh & H1 & H2 & H3). split_and!; try done.
      * intros q Hq. apply Hh. destruct l1; [done|]. done.
      * intros p' q Hl Hq. destruct l1 as [|p1 l1].
        -- simpl in Hl. injection Hl as <-. apply Hh. done.
        -- apply H3; [|done]. by rewrite last_cons_cons in Hl.
    + intros ((Hh & H1) & H2 & H3). split_and!; try done.
      * intros q Hq. destruct l1 as [|p1 l1].
        -- apply H3; done.
        -- apply Hh. done.
      * intros p' q Hl Hq. apply H3; [|done].
        destruct l1 as [|p1 l1]; [done|]. by rewrite last_cons_cons.
Qed.

Lemma chain_snoc R l p :
  chain R (l ++ [p]) ↔ chain R l ∧ (∀ q, last l = Some q → R q p).
Proof.
  rewrite chain_app. split.
  - intros (? & _ & Hl). split; [done|]. intros q Hq. by apply Hl.
  - intros (? & Hl). split_and!; [done|done|].
    intros q p' Hq [= <-]. by apply Hl.
Qed.

Lemma chain_reverse R l : chain R (reverse l) ↔ chain (flip R) l.
Proof.
  induction l as [|p l IH]; [done|].
  rewrite reverse_cons, chain_snoc, chain_cons, IH.
  rewrite last_reverse. tauto.
Qed.

Lemma chain_impl (R1 R2 : Pos → Pos → Prop) l :
  (∀ p q, p ∈ l → q ∈ l → R1 p q → R2 p q) → chain R1 l → chain R2 l.
Proof.
  induction l as [|p l IH]; [done|]. intros HR.
  rewrite !chain_cons. intros [Hh Hc]. split.
  - intros q Hq. apply HR; [left| |by apply Hh].
    right. destruct l; [done|]. injection Hq as ->. left.
  - apply IH; [|done]. intros ?? ??. apply HR; by right.
Qed.

(** ** The neighbour generator *)

Section Neighbors.

Context {C : Type} `{Cost C}.

Lemma get_neighbors_candidates grid pos :
  get_neighbors grid pos =
  (λ q, (q, move_cost pos q)) <$>
    filter (λ q, is_valid grid q = true) (candidates pos).
Proof.
  destruct pos as [r c]. unfold get_neighbors, candidates.
  cut (∀ dirs acc,
    foldl (λ result '(dr, dc),
       let nbr := ((r + dr)%Z, (c + dc)%Z) in
       if is_valid grid nbr then
         let cost :=
           if negb (dr =? 0)%Z && negb (dc =? 0)%Z then c_diag else c_orth in
         result ++ [(nbr, cost)]
       else result) acc dirs =
    acc ++ ((λ q, (q, move_cost (r, c) q)) <$>
      filter (λ q, is_valid grid q = true)
        ((λ d : Z * Z, ((r + d.1)%Z, (c + d.2)%Z)) <$> dirs))).
  { intros Hcut. by rewrite Hcut. }
  induction dirs as [|[dr dc] dirs IH]; intros acc; simpl.
  - by rewrite app_nil_r.
  - rewrite IH, filter_cons. simpl.
    destruct (is_valid grid ((r + dr)%Z, (c + dc)%Z)) eqn:E.
    + rewrite decide_True by done. rewrite fmap_cons, <-app_assoc. simpl.
      unfold move_cost at 2. simpl.
      replace (r + dr - r)%Z with dr by lia.
      replace (c + dc - c)%Z with dc by lia. done.
    + rewrite decide_False by (by intros ?). done.
Qed.

Lemma step_iff grid p q :
  step grid p q ↔ q ∈ candidates p ∧ is_valid grid q = true.
Proof.
  unfold step. rewrite list_elem_of_fmap. split.
  - intros (e & -> & He). rewrite get_neighbors_candidates in He.
    apply list_elem_of_fmap in He as (q' & -> & Hq'). simpl.
    by apply list_elem_of_filter in Hq' as [? ?].
  - intros [Hc Hv]. exists (q, move_cost p q). split; [done|].
    rewrite get_neighbors_candidates. apply list_elem_of_fmap.
    exists q. split; [done|]. by apply list_elem_of_filter.
Qed.

Lemma step_valid grid p q : step grid p q → is_valid grid q = true.
Proof. rewrite step_iff. tauto. Qed.

Lemma candidates_sym p q : q ∈ candidates p → p ∈ candidates q.
Proof.
  destruct p as [r c], q as [r' c']. unfold candidates, DIRECTIONS. simpl.
  rewrite !elem_of_cons, !elem_of_nil.
  intros Hq. repeat destruct Hq as [Hq|Hq]; try done;
    injection Hq as -> ->.
  - do 2 right; left; f_equal; lia.
  - do 4 right; left; f_equal; lia.
  - left; f_equal; lia.
  - do 5 right; left; f_equal; lia.
  - right; left; f_equal; lia.
  - do 3 right; left; f_equal; lia.
Qed.

Lemma step_sym grid p q :
  is_valid grid p = true → step grid p q → step grid q p.
Proof. rewrite !step_iff. intros ? [? ?]. split; [by apply candidates_sym|done]. Qed.

Lemma get_neighbors_length grid p : length (get_neighbors grid p) ≤ 6.
Proof.
  rewrite get_neighbors_candidates, length_fmap.
  etrans; [apply length_filter|]. done.
Qed.

Lemma elem_of_get_neighbors grid p e :
  e ∈ get_neighbors grid p → step grid p e.1 ∧ e.2 = move_cost p e.1.
Proof.
  intros He. split.
  - unfold step. apply list_elem_of_fmap. by exists e.
  - rewrite get_neighbors_candidates in He.
    apply list_elem_of_fmap in He as (q & -> & _). done.
Qed.

Lemma step_get_neighbors grid p q :
  step grid p q → (q, move_cost p q) ∈ get_neighbors grid p.
Proof.
  intros Hs. unfold step in Hs. apply list_elem_of_fmap in Hs as (e & -> & He).
  pose proof (elem_of_get_neighbors _ _ _ He) as [_ Hc].
  destruct e as [q k]. simpl in *. by subst.
Qed.

End Neighbors.

(** ** Walking a parent map *)

Lemma reconstruct_loop_parents cf n l :
  parents_of cf n l →
  ∀ fuel path, length l < fuel →
    reconstruct_loop fuel cf path n = Some (path ++ l).
Proof.
  induction 1 as [n Hn|n p l Hp _ IH]; intros fuel path Hfuel;
    (destruct fuel as [|fuel]; [simpl in Hfuel; lia|]); simpl.
  - by rewrite Hn, app_nil_r.
  - rewrite Hp, IH by (simpl in Hfuel; lia). by rewrite <-app_assoc.
Qed.

Lemma walk_parents_parents cf n l :
  parents_of cf n l →
  ∀ fuel path, S (length l) < fuel →
    walk_parents fuel cf path (Some n) = Some (path ++ n :: l).
Proof.
  induction 1 as [n Hn|n p l Hp _ IH]; intros fuel path Hfuel;
    (destruct fuel as [|fuel]; [lia|]); simpl.
  - rewrite Hn. destruct fuel; [simpl in Hfuel; lia|]. done.
  - rewrite Hp, IH by (simpl in Hfuel; lia). by rewrite <-app_assoc.
Qed.

Lemma walk_parents_get cf n l :
  parents_of cf n l →
  ∀ fuel, S (length l) ≤ fuel →
    walk_parents fuel cf [] (parent_get cf n) = Some l.
Proof.
  intros Hl fuel Hfuel. inversion Hl as [n' Hn|n' p l' Hp Hl']; subst.
  - rewrite Hn. destruct fuel; [simpl in Hfuel; lia|]. done.
  - rewrite Hp. rewrite (walk_parents_parents _ _ _ Hl'); [done|].
    simpl in Hfuel. lia.
Qed.

Lemma parents_of_unique cf n l1 l2 :
  parents_of cf n l1 → parents_of cf n l2 → l1 = l2.
Proof.
  intros H1. revert l2. induction H1 as [n Hn|n p l Hp _ IH]; intros l2 H2;
    inversion H2; subst; try congruence.
  assert (p = p0) as <- by congruence. f_equal. by apply IH.
Qed.

(** ** Parent trees *)

Section ParentTree.

Context (E : Pos → Pos → Prop) (s : Pos).

Lemma parent_tree_init : parent_tree E s {[s := None]} ∅.
Proof.
  exists (λ _, 0). split_and!.
  - apply lookup_singleton_eq.
  - intros n Hn. apply lookup_singleton_Some in Hn as [Hn _]. done.
  - set_solver.
  - set_solver.
  - intros n p Hn. apply lookup_singleton_Some in Hn as [_ [=]].
Qed.

Lemma parent_tree_visit cf vis cur :
  parent_tree E s cf vis → cur ∉ vis → is_Some (cf !! cur) →
  parent_tree E s cf (vis ∪ {[cur]}).
Proof.
  intros (rank & Hs & Hroot & Hdom & Hrank & Hlink) Hcur Hin.
  exists (λ v, if decide (v = cur) then size vis else rank v).
  assert (size (vis ∪ {[cur]}) = S (size vis)) as Hsize.
  { rewrite size_union by set_solver. rewrite size_singleton. lia. }
  split_and!; [done|done| | |].
  - apply elem_of_dom in Hin. set_solver.
  - intros v Hv. rewrite Hsize. case_decide; [lia|].
    assert (v ∈ vis) as Hv' by set_solver. specialize (Hrank v Hv'). lia.
  - intros n p Hn. destruct (Hlink n p Hn) as (Hp & He & Hlt).
    split_and!; [set_solver|done|]. intros Hnv.
    assert (p ≠ cur) by (intros ->; done).
    rewrite (decide_False (P := p = cur)) by done.
    case_decide as Hnc; [specialize (Hrank p Hp); lia|].
    apply Hlt. set_solver.
Qed.

Lemma parent_tree_set cf vis n p :
  parent_tree E s cf vis → n ∉ vis → n ≠ s → p ∈ vis → E p n →
  parent_tree E s (<[n := Some p]> cf) vis.
Proof.
  intros (rank & Hs & Hroot & Hdom & Hrank & Hlink) Hn Hns Hp He.
  exists rank. split_and!; [| | |done|].
  - by rewrite lookup_insert_ne.
  - intros m Hm. destruct (decide (m = n)) as [->|Hmn].
    + by rewrite lookup_insert_eq in Hm.
    + rewrite lookup_insert_ne in Hm by done. by apply Hroot.
  - rewrite dom_insert_L. set_solver.
  - intros m q Hm. destruct (decide (m = n)) as [->|Hmn].
    + rewrite lookup_insert_eq in Hm. injection Hm as <-. done.
    + rewrite lookup_insert_ne in Hm by done. by apply Hlink.
Qed.

Lemma parent_tree_root_dom cf vis :
  parent_tree E s cf vis → is_Some (cf !! s).
Proof. intros (rank & Hs & _). by rewrite Hs. Qed.

Lemma parent_tree_root_unique cf vis n :
  parent_tree E s cf vis → cf !! n = Some None → n = s.
Proof. intros (rank & _ & Hroot & _) Hn. by apply Hroot. Qed.

Lemma parent_tree_vis_dom cf vis v :
  parent_tree E s cf vis → v ∈ vis → is_Some (cf !! v).
Proof.
  intros (rank & _ & _ & Hdom & _) Hv. apply elem_of_dom. set_solver.
Qed.

Lemma parent_tree_parent cf vis n p :
  parent_tree E s cf vis → cf !! n = Some (Some p) → p ∈ vis ∧ E p n.
Proof.
  intros (rank & _ & _ & _ & _ & Hlink) Hn.
  destruct (Hlink n p Hn) as (? & ? & _). done.
Qed.

(** The parents of a node of the map lead to the root along edges. *)
Lemma parent_tree_parents cf vis n :
  parent_tree E s cf vis → is_Some (cf !! n) →
  ∃ l, parents_of cf n l ∧ length l ≤ size vis ∧ length l < S (size cf) ∧
       last (n :: l) = Some s ∧ chain (flip E) (n :: l) ∧
       (∀ x, x ∈ l → x ∈ vis).
Proof.
  intros (rank & Hs & Hroot & Hdom & Hrank & Hlink) Hn.
  assert (∀ k v, v ∈ vis → rank v ≤ k →
    ∃ l, parents_of cf v l ∧ length l ≤ rank v ∧
         last (v :: l) = Some s ∧ chain (flip E) (v :: l) ∧
         (∀ x, x ∈ l → x ∈ vis)) as Hvis.
  { induction k as [|k IH]; intros v Hv Hk.
    - assert (is_Some (cf !! v)) as [x Hx] by (apply elem_of_dom; set_solver).
      destruct x as [p|].
      + destruct (Hlink v p Hx) as (Hp & _ & Hlt). specialize (Hlt Hv). lia.
      + apply Hroot in Hx as ->. exists []. split_and!; try done.
        * constructor. unfold parent_get. by rewrite Hs.
        * simpl. lia.
        * set_solver.
    - assert (is_Some (cf !! v)) as [x Hx] by (apply elem_of_dom; set_solver).
      destruct x as [p|].
      + destruct (Hlink v p Hx) as (Hp & He & Hlt). specialize (Hlt Hv).
        destruct (IH p Hp) as (l & Hl & Hlen & Hlast & Hch & Hin); [lia|].
        exists (p :: l). split_and!.
        * econstructor; [|done]. unfold parent_get. by rewrite Hx.
        * simpl. lia.
        * by rewrite last_cons_cons.
        * apply chain_cons. split; [|done]. by intros q [= <-].
        * intros x Hx'. apply elem_of_cons in Hx' as [->|?]; auto.
      + apply Hroot in Hx as ->. exists []. split_and!; try done.
        * constructor. unfold parent_get. by rewrite Hs.
        * simpl. lia.
        * set_solver. }
  assert (size vis ≤ size cf) as Hsz.
  { rewrite <-size_dom. by apply subseteq_size. }
  destruct Hn as [x Hx]. destruct x as [p|].
  - destruct (Hlink n p Hx) as (Hp & He & _).
    destruct (Hvis (rank p) p Hp) as (l & Hl & Hlen & Hlast & Hch & Hin);
      [done|].
    specialize (Hrank p Hp).
    exists (p :: l). split_and!.
    + econstructor; [|done]. unfold parent_get. by rewrite Hx.
    + simpl. lia.
    + simpl. lia.
    + by rewrite last_cons_cons.
    + apply chain_cons. split; [|done]. by intros q [= <-].
    + intros x Hx'. apply elem_of_cons in Hx' as [->|?]; auto.
  - apply Hroot in Hx as ->. exists []. split_and!; try done.
    + constructor. unfold parent_get. by rewrite Hs.
    + simpl. lia.
    + simpl. lia.
    + set_solver.
Qed.

End ParentTree.

Lemma parent_tree_reconstruct_parents {C} `{Cost C} grid s cf vis n :
  parent_tree (step grid) s cf vis → is_Some (cf !! n) →
  ∃ l, parents_of cf n l ∧ last (n :: l) = Some s ∧
       reconstruct_path cf n = Some (reverse (n :: l)) ∧
       route grid s n (reverse (n :: l)) ∧
       length l ≤ size vis ∧ (∀ x, x ∈ l → x ∈ vis).
Proof.
  intros Htree Hn.
  destruct (parent_tree_parents _ _ _ _ _ Htree Hn)
    as (l & Hl & Hlen & Hfuel & Hlast & Hch & Hin).
  exists l. split_and!; try done.
  - unfold reconstruct_path.
    rewrite (reconstruct_loop_parents _ _ _ Hl) by done. done.
  - split_and!.
    + rewrite head_reverse. done.
    + rewrite last_reverse. done.
    + by apply chain_reverse.
Qed.

Lemma parents_depth cf (d : Pos → nat) s n l :
  (∀ n p, cf !! n = Some (Some p) → d n = S (d p)) →
  parents_of cf n l → last (n :: l) = Some s → d s = 0 → length l = d n.
Proof.
  intros Hd Hl. induction Hl as [n Hn|n p l Hp _ IH]; intros Hlast Hs.
  - simpl in Hlast. injection Hlast as ->. by rewrite Hs.
  - rewrite last_cons_cons in Hlast. simpl. rewrite IH by done.
    symmetry. apply Hd. unfold parent_get in Hp.
    destruct (cf !! n) as [[?|]|]; congruence.
Qed.

(** [reconstruct_path] on a parent tree over the moves of the grid returns a
    route from the root to the node. *)
Lemma parent_tree_reconstruct {C} `{Cost C} grid s cf vis n :
  parent_tree (step grid) s cf vis → is_Some (cf !! n) →
  ∃ path, reconstruct_path cf n = Some path ∧ route grid s n path ∧
          length path ≤ S (size vis).
Proof.
  intros Htree Hn.
  destruct (parent_tree_parents _ _ _ _ _ Htree Hn)
    as (l & Hl & Hlen & Hfuel & Hlast & Hch & _).
  exists (reverse (n :: l)). split_and!.
  - unfold reconstruct_path.
    rewrite (reconstruct_loop_parents _ _ _ Hl) by done. done.
  - split_and!.
    + rewrite head_reverse. done.
    + rewrite last_reverse. done.
    + by apply chain_reverse.
  - rewrite length_reverse. simpl. lia.
Qed.

(** ** Recorded steps *)

Lemma trace_inv_nil : trace_inv [] ∅.
Proof. split; done. Qed.

Lemma lookup_snoc_Some {A} (l : list A) (x y : A) i :
  (l ++ [x]) !! i = Some y →
  (i < length l ∧ l !! i = Some y) ∨ (i = length l ∧ y = x).
Proof.
  intros Hi. destruct (decide (i < length l)) as [Hlt|Hge].
  - rewrite lookup_app_l in Hi by done. auto.
  - rewrite lookup_app_r in Hi by lia.
    destruct (i - length l) as [|k] eqn:Hk; simpl in Hi; [|done].
    injection Hi as <-. right. split; [lia|done].
Qed.

Lemma trace_inv_record steps vis vis' cur fr :
  trace_inv steps vis → vis ⊆ vis' → vis' ⊆ vis ∪ {[cur]} →
  trace_inv (steps ++ [make_step cur fr vis]) vis'.
Proof.
  intros [Hmono Hbelow Hpop Hvis] Hsub Hsub'. split.
  - intros i j a b Hij Ha Hb.
    apply lookup_snoc_Some in Ha as [[Hi Ha]|[-> ->]];
      apply lookup_snoc_Some in Hb as [[Hj Hb]|[-> ->]].
    + by apply (Hmono i j).
    + simpl. by apply (Hbelow i).
    + lia.
    + done.
  - intros i a Ha. apply lookup_snoc_Some in Ha as [[Hi Ha]|[-> ->]].
    + etrans; [by apply (Hbelow i)|done].
    + done.
  - intros i a p Ha Hp. apply lookup_snoc_Some in Ha as [[Hi Ha]|[-> ->]].
    + destruct (Hpop i a p Ha Hp) as (j & s' & Hj & Hs' & Hc).
      exists j, s'. split_and!; [done| |done].
      rewrite lookup_app_l; [done|]. lia.
    + simpl in Hp. destruct (Hvis p Hp) as (j & s' & Hs' & Hc).
      exists j, s'. pose proof (lookup_lt_Some _ _ _ Hs').
      split_and!; [done| |done]. by rewrite lookup_app_l.
  - intros p Hp. destruct (decide (p ∈ vis)) as [Hin|Hnin].
    + destruct (Hvis p Hin) as (j & s' & Hs' & Hc).
      exists j, s'. pose proof (lookup_lt_Some _ _ _ Hs').
      split; [|done]. by rewrite lookup_app_l.
    + assert (p = cur) as -> by set_solver.
      exists (length steps), (make_step cur fr vis). split; [|done].
      rewrite lookup_app_r by lia. by rewrite Nat.sub_diag.
Qed.

Lemma trace_inv_sizes steps vis : trace_inv steps vis → sizes_nondecreasing steps.
Proof.
  intros [Hmono _ _ _] i a b Ha Hb. apply subseteq_size.
  apply (Hmono i (S i)); [lia|done|done].
Qed.

Lemma sizes_nondecreasing_mono (steps : list Step) :
  (∀ i j a b, i ≤ j → steps !! i = Some a → steps !! j = Some b →
     visited a ⊆ visited b) →
  sizes_nondecreasing steps.
Proof.
  intros Hmono i a b Ha Hb. apply subseteq_size.
  apply (Hmono i (S i)); [lia|done|done].
Qed.

Lemma popped_first_app (a b : list Step) :
  popped_first a → popped_first b → popped_first (a ++ b).
Proof.
  intros Ha Hb i s p Hs Hp.
  destruct (decide (i < length a)) as [Hlt|Hge].
  - rewrite lookup_app_l in Hs by done.
    destruct (Ha i s p Hs Hp) as (j & s' & Hj & Hs' & Hc).
    exists j, s'. split_and!; [done| |done]. rewrite lookup_app_l; [done|lia].
  - rewrite lookup_app_r in Hs by lia.
    destruct (Hb _ s p Hs Hp) as (j & s' & Hj & Hs' & Hc).
    exists (length a + j), s'. split_and!; [lia| |done].
    rewrite lookup_app_r by lia. by replace (length a + j - length a) with j by lia.
Qed.

(** ** The cells of the grid and the measure of a search *)

Lemma elem_of_grid_cells grid r c :
  (r, c) ∈ grid_cells grid ↔ (0 ≤ r < rows grid ∧ 0 ≤ c < cols grid)%Z.
Proof.
  unfold grid_cells. rewrite list_elem_of_bind. split.
  - intros (r' & Hc & Hr). apply list_elem_of_bind in Hc as (c' & Hc & Hc').
    apply list_elem_of_singleton in Hc. injection Hc as -> ->.
    apply elem_of_seqZ in Hr, Hc'. lia.
  - intros [Hr Hc]. exists r. split; [|apply elem_of_seqZ; lia].
    apply list_elem_of_bind. exists c. split; [by apply list_elem_of_singleton|].
    apply elem_of_seqZ. lia.
Qed.

Lemma elem_of_valid_cells grid p :
  p ∈ valid_cells grid ↔ is_valid grid p = true.
Proof.
  unfold valid_cells. rewrite elem_of_list_to_set, list_elem_of_filter.
  split; [tauto|]. intros Hv. split; [done|].
  destruct p as [r c]. apply elem_of_grid_cells.
  unfold is_valid in Hv.
  destruct (r <? 0)%Z eqn:E1, (r >=? rows grid)%Z eqn:E2,
    (c <? 0)%Z eqn:E3, (c >=? cols grid)%Z eqn:E4; simpl in Hv; try done.
  lia.
Qed.

Lemma search_measure_visit grid vis cur n m :
  is_valid grid cur = true → cur ∉ vis → m ≤ n + 6 →
  search_measure grid (vis ∪ {[cur]}) m < search_measure grid vis (S n).
Proof.
  intros Hv Hcur Hm. unfold search_measure.
  assert (valid_cells grid ∖ vis =
          {[cur]} ∪ valid_cells grid ∖ (vis ∪ {[cur]})) as ->.
  { apply elem_of_valid_cells in Hv. apply set_eq. intros x.
    destruct (decide (x = cur)); set_solver. }
  rewrite (size_union {[cur]} (valid_cells grid ∖ (vis ∪ {[cur]})))
    by set_solver.
  rewrite size_singleton. lia.
Qed.

Lemma search_measure_init grid : search_measure grid ∅ 1 < search_fuel grid.
Proof.
  unfold search_measure, search_fuel.
  replace (valid_cells grid ∖ ∅) with (valid_cells grid) by set_solver. lia.
Qed.

(** ** Adopting the neighbours of an expanded cell *)

Lemma adopt_cons cur cf a new :
  adopt cur cf (a :: new) =
  adopt cur (match cf !! a with
             | None => <[a := Some cur]> cf
             | Some _ => cf
             end) new.
Proof. done. Qed.

Lemma adopt_lookup cur cf new n :
  adopt cur cf new !! n =
  match cf !! n with
  | Some x => Some x
  | None => if decide (n ∈ new) then Some (Some cur) else None
  end.
Proof.
  revert cf. induction new as [|a new IH]; intros cf.
  - unfold adopt. simpl. by destruct (cf !! n).
  - rewrite adopt_cons, IH. destruct (cf !! a) eqn:Ha.
    + destruct (cf !! n) eqn:Hn; [done|].
      assert (n ≠ a) by congruence.
      destruct (decide (n ∈ new)), (decide (n ∈ a :: new)); try done; set_solver.
    + destruct (decide (n = a)) as [->|Hna].
      * rewrite lookup_insert_eq, Ha.
        destruct (decide (a ∈ a :: new)); [done|set_solver].
      * rewrite lookup_insert_ne by done. destruct (cf !! n); [done|].
        destruct (decide (n ∈ new)), (decide (n ∈ a :: new)); try done; set_solver.
Qed.

Lemma adopt_tree E s cf vis cur new :
  parent_tree E s cf vis → cur ∈ vis →
  (∀ n, n ∈ new → E cur n ∧ n ∉ vis) →
  parent_tree E s (adopt cur cf new) vis.
Proof.
  revert cf. induction new as [|a new IH]; intros cf Htree Hcur Hnew; [done|].
  rewrite adopt_cons.
  assert (∀ n, n ∈ new → E cur n ∧ n ∉ vis) as Hnew'.
  { intros n Hn. apply Hnew. by right. }
  destruct (cf !! a) eqn:Ha.
  - by apply IH.
  - apply IH; [|done|done].
    destruct (Hnew a) as [He Ha']; [left|].
    apply parent_tree_set; try done.
    intros ->. destruct (parent_tree_root_dom _ _ _ _ Htree) as [x Hx].
    congruence.
Qed.

Lemma adopt_is_Some cur cf new n :
  is_Some (cf !! n) ∨ n ∈ new → is_Some (adopt cur cf new !! n).
Proof.
  rewrite adopt_lookup. intros [[x Hx]|Hn].
  - by rewrite Hx.
  - destruct (cf !! n); [done|]. by destruct (decide (n ∈ new)).
Qed.

Lemma adopt_is_Some_iff cur cf new n :
  is_Some (adopt cur cf new !! n) ↔ is_Some (cf !! n) ∨ n ∈ new.
Proof.
  split; [|apply adopt_is_Some]. rewrite adopt_lookup.
  destruct (cf !! n); [by left|].
  destruct (decide (n ∈ new)); [by right|]. by intros [? ?].
Qed.

Lemma adopt_lookup_parent cur cf new n p :
  adopt cur cf new !! n = Some (Some p) →
  cf !! n = Some (Some p) ∨ (cf !! n = None ∧ n ∈ new ∧ p = cur).
Proof.
  rewrite adopt_lookup. destruct (cf !! n); [by left|].
  destruct (decide (n ∈ new)); [|done]. intros [= <-]. by right.
Qed.

(** ** Reachability *)

Section Reach.

Context {C : Type} `{Cost C}.

Lemma route_closed (grid : Grid) (V : gset Pos) (a b : Pos) (l : list Pos) :
  route grid a b l → a ∈ V →
  (∀ v w, v ∈ V → step grid v w → w ∈ V) → b ∈ V.
Proof.
  intros (Hh & Hl & Hc) Ha Hcl. revert a Hh Ha Hl Hc.
  induction l as [|p l IH]; intros a Hh Ha Hl Hc; [done|].
  injection Hh as ->. destruct l as [|q l].
  - by injection Hl as <-.
  - destruct Hc as [Hs Hc]. rewrite last_cons_cons in Hl.
    apply (IH q); try done. by apply (Hcl a).
Qed.

Lemma route_nonempty grid a b l : route grid a b l → l ≠ [].
Proof. intros (Hh & _) ->. done. Qed.

Lemma path_outcome_route grid path :
  route grid (start grid) (goal grid) path → path_outcome grid path.
Proof. intros Hr. destruct path; [by apply route_nonempty in Hr|done]. Qed.

Lemma route_singleton grid a : route grid a a [a].
Proof. done. Qed.

End Reach.

(** ** Depth-first search *)

Section Dfs.

Context {C : Type} `{Cost C}.

Lemma new_cells_spec (grid : Grid) (cur : Pos) (vis : gset Pos) :
  let new := filter (λ n, n ∉ vis) (reverse (get_neighbors grid cur)).*1 in
  (∀ n, n ∈ new ↔ step grid cur n ∧ n ∉ vis) ∧ length new ≤ 6.
Proof.
  intros new. split.
  - intros n. unfold new. rewrite list_elem_of_filter, fmap_reverse.
    rewrite elem_of_reverse. unfold step. tauto.
  - unfold new. etrans; [apply length_filter|].
    rewrite length_fmap, length_reverse. apply get_neighbors_length.
Qed.

Lemma dfs_push_foldl (cur : Pos) (vis : gset Pos) (l : list (Pos * C))
    (stack : list Pos) (cf : gmap Pos (option Pos)) :
  foldl (dfs_push cur vis) (stack, cf) l =
  (stack ++ filter (λ n, n ∉ vis) l.*1,
   adopt cur cf (filter (λ n, n ∉ vis) l.*1)).
Proof.
  revert stack cf. induction l as [|e l IH]; intros stack cf.
  - simpl. by rewrite app_nil_r.
  - rewrite fmap_cons, filter_cons. cbn [foldl]. unfold dfs_push at 2.
    destruct (decide (e.1 ∉ vis)) as [Hin|Hin].
    + rewrite bool_decide_eq_true_2 by done. rewrite IH, adopt_cons.
      by rewrite <-app_assoc.
    + rewrite bool_decide_eq_false_2 by done. by rewrite IH.
Qed.

Lemma dfs_init_inv grid :
  is_valid grid (start grid) = true → dfs_inv grid (dfs_init grid).
Proof.
  intros Hs. split; simpl.
  - apply parent_tree_init.
  - apply trace_inv_nil.
  - intros x Hx. apply list_elem_of_singleton in Hx as ->.
    by rewrite lookup_singleton_eq.
  - intros x Hx. by apply list_elem_of_singleton in Hx as ->.
  - set_solver.
  - set_solver.
  - right. by apply list_elem_of_singleton.
Qed.

Lemma dfs_body_inv grid st :
  dfs_inv grid st →
  match dfs_body grid st with
  | Some (inl st') =>
      dfs_inv grid st' ∧
      search_measure grid (dfs_visited st') (length (dfs_stack st')) <
      search_measure grid (dfs_visited st) (length (dfs_stack st))
  | Some (inr r) => dfs_post grid r
  | None => False
  end.
Proof.
  intros [Htree Htrace Hdom Hvalid Hgoal Hclosed Hstart].
  unfold dfs_body.
  destruct (list_pop (dfs_stack st)) as [[stack cur]|] eqn:Hpop.
  - apply list_pop_Some in Hpop.
    assert (is_Some (dfs_came_from st !! cur)) as Hcur.
    { apply Hdom. rewrite Hpop. set_solver. }
    assert (is_valid grid cur = true) as Hcurv.
    { apply Hvalid. rewrite Hpop. set_solver. }
    case_bool_decide as Hg.
    { destruct (parent_tree_reconstruct _ _ _ _ _ Htree Hcur)
        as (path & -> & Hroute & _).
      simpl. split; simpl.
      - exists (dfs_visited st). apply trace_inv_record; try done; set_solver.
      - apply path_outcome_route. by rewrite <-Hg. }
    case_bool_decide as Hv.
    { split.
      - split; simpl; try done.
        + apply trace_inv_record; try done; set_solver.
        + intros x Hx. apply Hdom. rewrite Hpop. set_solver.
        + intros x Hx. apply Hvalid. rewrite Hpop. set_solver.
        + intros v w Hv' Hs. destruct (Hclosed v w Hv' Hs) as [?|Hw]; [by left|].
          rewrite Hpop in Hw. apply elem_of_app in Hw as [?|Hw]; [by right|].
          apply list_elem_of_singleton in Hw as ->. by left.
        + destruct Hstart as [?|Hw]; [by left|].
          rewrite Hpop in Hw. apply elem_of_app in Hw as [?|Hw]; [by right|].
          apply list_elem_of_singleton in Hw as ->. by left.
      - simpl. rewrite Hpop, length_app. unfold search_measure. simpl. lia. }
    rewrite dfs_push_foldl.
    destruct (new_cells_spec grid cur (dfs_visited st ∪ {[cur]}))
      as [Hnew Hlen].
    set (new := filter (λ n, n ∉ dfs_visited st ∪ {[cur]})
                  (reverse (get_neighbors grid cur)).*1) in *.
    split.
    + split; simpl.
      * apply adopt_tree; [by apply parent_tree_visit|set_solver|].
        intros n Hn. by apply Hnew.
      * apply trace_inv_record; try done; set_solver.
      * intros x Hx. apply adopt_is_Some.
        apply elem_of_app in Hx as [Hx|Hx]; [left|by right].
        apply Hdom. rewrite Hpop. set_solver.
      * intros x Hx. apply elem_of_app in Hx as [Hx|Hx].
        -- apply Hvalid. rewrite Hpop. set_solver.
        -- apply Hnew in Hx as [Hx _]. by apply step_valid in Hx.
      * set_solver.
      * intros v w Hv' Hs. apply elem_of_union in Hv' as [Hv'|Hv'].
        -- destruct (Hclosed v w Hv' Hs) as [?|Hw]; [left; set_solver|].
           rewrite Hpop in Hw. apply elem_of_app in Hw as [?|Hw].
           ++ right. set_solver.
           ++ apply list_elem_of_singleton in Hw as ->. left. set_solver.
        -- apply elem_of_singleton in Hv' as ->.
           destruct (decide (w ∈ dfs_visited st ∪ {[cur]})); [by left|].
           right. apply elem_of_app. right. by apply Hnew.
      * destruct Hstart as [?|Hw]; [left; set_solver|].
        rewrite Hpop in Hw. apply elem_of_app in Hw as [?|Hw].
        -- right. set_solver.
        -- apply list_elem_of_singleton in Hw as ->. left. set_solver.
    + simpl. rewrite Hpop, !length_app. simpl.
      replace (length stack + 1) with (S (length stack)) by lia.
      apply search_measure_visit; [done|done|lia].
  - apply list_pop_None in Hpop. split; simpl.
    + by exists (dfs_visited st).
    + intros [l Hl]. apply Hgoal.
      apply (route_closed grid _ _ _ _ Hl).
      * destruct Hstart as [?|Hs]; [done|]. rewrite Hpop in Hs. set_solver.
      * intros v w Hv Hs. destruct (Hclosed v w Hv Hs) as [?|Hw]; [done|].
        rewrite Hpop in Hw. set_solver.
Qed.

Lemma dfs_total grid :
  is_valid grid (start grid) = true →
  ∃ r, dfs grid = Some r ∧ dfs_post grid r.
Proof.
  intros Hs. unfold dfs.
  apply (while_loop_inv (dfs_body grid) (dfs_inv grid)
           (λ st, search_measure grid (dfs_visited st) (length (dfs_stack st)))).
  - apply dfs_body_inv.
  - by apply dfs_init_inv.
  - apply search_measure_init.
Qed.

End Dfs.

(** ** Depth-limited search *)

Section Dls.

Context {C : Type} `{Cost C}.

Lemma dls_push_foldl (cur : Pos) (depth : Z) (vis : gset Pos)
    (l : list (Pos * C)) (stack : list (Pos * Z))
    (cf : gmap Pos (option Pos)) :
  foldl (dls_push cur depth vis) (stack, cf) l =
  (stack ++ ((λ n, (n, (depth + 1)%Z)) <$> filter (λ n, n ∉ vis) l.*1),
   adopt cur cf (filter (λ n, n ∉ vis) l.*1)).
Proof.
  revert stack cf. induction l as [|e l IH]; intros stack cf.
  - simpl. by rewrite app_nil_r.
  - rewrite fmap_cons, filter_cons. cbn [foldl]. unfold dls_push at 2.
    destruct (decide (e.1 ∉ vis)) as [Hin|Hin].
    + rewrite bool_decide_eq_true_2 by done. rewrite IH, adopt_cons.
      by rewrite fmap_cons, <-app_assoc.
    + rewrite bool_decide_eq_false_2 by done. by rewrite IH.
Qed.

Lemma dls_init_inv grid limit :
  is_valid grid (start grid) = true → dls_inv grid limit (dls_init grid).
Proof.
  intros Hs. split; simpl.
  - apply parent_tree_init.
  - apply trace_inv_nil.
  - intros x Hx. apply list_elem_of_singleton in Hx as ->.
    by rewrite lookup_singleton_eq.
  - intros x Hx. by apply list_elem_of_singleton in Hx as ->.
  - set_solver.
  - set_solver.
  - intros e He. apply list_elem_of_singleton in He as ->. simpl. lia.
  - set_solver.
  - right. by apply list_elem_of_singleton.
Qed.

Lemma size_two_fresh (grid : Grid) (vis : gset Pos) (a b : Pos) :
  (∀ x, x ∈ vis → is_valid grid x = true) →
  is_valid grid a = true → is_valid grid b = true →
  a ∉ vis → b ∉ vis → a ≠ b →
  size vis + 2 ≤ size (valid_cells grid).
Proof.
  intros Hvis Ha Hb Hav Hbv Hab.
  assert (vis ∪ {[a]} ∪ {[b]} ⊆ valid_cells grid) as Hsub.
  { intros x Hx. apply elem_of_valid_cells.
    apply elem_of_union in Hx as [Hx|Hx].
    - apply elem_of_union in Hx as [Hx|Hx]; [by apply Hvis|].
      by apply elem_of_singleton in Hx as ->.
    - by apply elem_of_singleton in Hx as ->. }
  apply subseteq_size in Hsub.
  rewrite (size_union (vis ∪ {[a]}) {[b]}) in Hsub by set_solver.
  rewrite (size_union vis {[a]}) in Hsub by set_solver.
  rewrite !size_singleton in Hsub. lia.
Qed.

Lemma dls_body_inv grid limit st :
  is_valid grid (goal grid) = true →
  dls_inv grid limit st →
  match dls_body grid limit st with
  | Some (inl st') =>
      dls_inv grid limit st' ∧
      search_measure grid (dls_visited st') (length (dls_stack st')) <
      search_measure grid (dls_visited st) (length (dls_stack st))
  | Some (inr r) => dls_post grid limit r
  | None => False
  end.
Proof.
  intros Hgv [Htree Htrace Hdom Hvalid Hvisv Hgoal Hdepth Hclosed Hstart].
  unfold dls_body.
  destruct (list_pop (dls_stack st)) as [[stack [cur depth]]|] eqn:Hpop.
  - apply list_pop_Some in Hpop.
    assert (cur ∈ (dls_stack st).*1) as Hcurin.
    { rewrite Hpop, fmap_app. set_solver. }
    assert (∀ x, x ∈ (dls_stack st).*1 → x ∈ stack.*1 ∨ x = cur) as Hsplit.
    { intros x. rewrite Hpop, fmap_app. set_solver. }
    assert (∀ x, x ∈ stack.*1 → x ∈ (dls_stack st).*1) as Hsub.
    { intros x. rewrite Hpop, fmap_app. set_solver. }
    assert (is_Some (dls_came_from st !! cur)) as Hcur by auto.
    assert (is_valid grid cur = true) as Hcurv by auto.
    assert (0 ≤ depth ≤ Z.of_nat (size (dls_visited st)))%Z as Hd.
    { apply (Hdepth (cur, depth)). rewrite Hpop. set_solver. }
    case_bool_decide as Hg.
    { destruct (parent_tree_reconstruct _ _ _ _ _ Htree Hcur)
        as (path & -> & Hroute & _).
      simpl. split_and!; simpl.
      - exists (dls_visited st). apply trace_inv_record; try done; set_solver.
      - intros _. by rewrite <-Hg.
      - intros _ ->. by apply route_nonempty in Hroute. }
    assert (goal grid ≠ cur) as Hne by (intros Heq; by rewrite Heq in Hg).
    destruct (bool_decide (cur ∈ dls_visited st) || (depth >=? limit)%Z)
      eqn:Hskip.
    { assert ((Z.of_nat (size (valid_cells grid)) ≤ limit + 1)%Z →
              cur ∈ dls_visited st) as Hcut.
      { intros Hbig.
        destruct (decide (cur ∈ dls_visited st)) as [?|Hfresh]; [done|].
        exfalso. rewrite bool_decide_eq_false_2 in Hskip by done.
        simpl in Hskip. apply Z.geb_le in Hskip.
        pose proof (size_two_fresh grid (dls_visited st) (goal grid) cur
                      Hvisv Hgv Hcurv Hgoal Hfresh Hne) as Hsz. lia. }
      split.
      - split; simpl; try done.
        + apply trace_inv_record; try done; set_solver.
        + auto.
        + auto.
        + intros e He. apply Hdepth. rewrite Hpop. set_solver.
        + intros Hbig v w Hv' Hs.
          destruct (Hclosed Hbig v w Hv' Hs) as [?|Hw]; [by left|].
          apply Hsplit in Hw as [?| ->]; [by right|]. left. auto.
        + intros Hbig. destruct (Hstart Hbig) as [?|Hw]; [by left|].
          apply Hsplit in Hw as [?| ->]; [by right|]. left. auto.
      - simpl. rewrite Hpop, length_app. unfold search_measure. simpl. lia. }
    apply orb_false_iff in Hskip as [Hv Hlim].
    apply bool_decide_eq_false in Hv.
    rewrite dls_push_foldl.
    destruct (new_cells_spec grid cur (dls_visited st ∪ {[cur]}))
      as [Hnew Hlen].
    set (new := filter (λ n, n ∉ dls_visited st ∪ {[cur]})
                  (reverse (get_neighbors grid cur)).*1) in *.
    assert (size (dls_visited st ∪ {[cur]}) = S (size (dls_visited st)))
      as Hsize.
    { rewrite (size_union (dls_visited st) {[cur]}) by set_solver.
      rewrite size_singleton. lia. }
    assert (∀ x, x ∈ (stack ++ ((λ n, (n, (depth + 1)%Z)) <$> new)).*1 ↔
                 x ∈ stack.*1 ∨ x ∈ new) as Hstk.
    { intros x. rewrite fmap_app, elem_of_app, <-list_fmap_compose. split.
      - intros [?|Hx]; [by left|]. right.
        by apply list_elem_of_fmap in Hx as (n & -> & ?).
      - intros [?|?]; [by left|]. right. apply list_elem_of_fmap.
        by exists x. }
    split.
    + split; simpl.
      * apply adopt_tree; [by apply parent_tree_visit|set_solver|].
        intros n Hn. by apply Hnew.
      * apply trace_inv_record; try done; set_solver.
      * intros x Hx. apply adopt_is_Some. apply Hstk in Hx as [Hx|Hx]; auto.
      * intros x Hx. apply Hstk in Hx as [Hx|Hx]; [auto|].
        apply Hnew in Hx as [Hx _]. by apply step_valid in Hx.
      * intros x Hx. apply elem_of_union in Hx as [Hx|Hx]; [auto|].
        by apply elem_of_singleton in Hx as ->.
      * set_solver.
      * intros e He. rewrite Hsize. apply elem_of_app in He as [He|He].
        -- assert (e ∈ dls_stack st) as He' by (rewrite Hpop; set_solver).
           apply Hdepth in He'. lia.
        -- apply list_elem_of_fmap in He as (n & -> & _). simpl. lia.
      * intros Hbig v w Hv' Hs. rewrite Hstk.
        apply elem_of_union in Hv' as [Hv'|Hv'].
        -- destruct (Hclosed Hbig v w Hv' Hs) as [?|Hw]; [left; set_solver|].
           apply Hsplit in Hw as [?| ->]; [by right; left|]. left. set_solver.
        -- apply elem_of_singleton in Hv' as ->.
           destruct (decide (w ∈ dls_visited st ∪ {[cur]})); [by left|].
           right. right. by apply Hnew.
      * intros Hbig. rewrite Hstk.
        destruct (Hstart Hbig) as [?|Hw]; [left; set_solver|].
        apply Hsplit in Hw as [?| ->]; [by right; left|]. left. set_solver.
    + simpl. rewrite Hpop, !length_app, length_fmap. simpl.
      replace (length stack + 1) with (S (length stack)) by lia.
      apply search_measure_visit; [done|done|lia].
  - apply list_pop_None in Hpop. split_and!; simpl.
    + by exists (dls_visited st).
    + done.
    + intros Hbig _ [l Hl]. apply Hgoal.
      apply (route_closed grid _ _ _ _ Hl).
      * destruct (Hstart Hbig) as [?|Hs]; [done|]. rewrite Hpop in Hs.
        set_solver.
      * intros v w Hv Hs. destruct (Hclosed Hbig v w Hv Hs) as [?|Hw]; [done|].
        rewrite Hpop in Hw. set_solver.
Qed.

Lemma dls_total grid limit :
  is_valid grid (start grid) = true →
  is_valid grid (goal grid) = true →
  ∃ r, dls grid limit = Some r ∧ dls_post grid limit r.
Proof.
  intros Hs Hg. unfold dls.
  apply (while_loop_inv (dls_body grid limit) (dls_inv grid limit)
           (λ st, search_measure grid (dls_visited st) (length (dls_stack st)))).
  - intros st. by apply dls_body_inv.
  - by apply dls_init_inv.
  - apply search_measure_init.
Qed.

End Dls.

(** ** Iterative deepening *)

Section Iddfs.

Context {C : Type} `{Cost C}.

Lemma iddfs_loop_run grid limits all_steps :
  is_valid grid (start grid) = true →
  is_valid grid (goal grid) = true →
  ∃ traces path,
    iddfs_loop grid limits all_steps = Some (all_steps ++ concat traces, path) ∧
    iddfs_run grid limits traces path.
Proof.
  intros Hs Hg. revert all_steps.
  induction limits as [|k limits IH]; intros all_steps.
  - exists [], []. simpl. rewrite app_nil_r. split; [done|constructor].
  - destruct (dls_total grid k Hs Hg) as ([steps path] & Hdls & _).
    simpl. rewrite Hdls. simpl. destruct path as [|p path].
    + destruct (IH (all_steps ++ steps)) as (traces & path & -> & Hrun).
      exists (steps :: traces), path. simpl. rewrite <-app_assoc.
      split; [done|]. by constructor.
    + exists [steps], (p :: path). simpl. rewrite app_nil_r.
      split; [done|]. by constructor.
Qed.

Lemma iddfs_run_traces grid limits traces path :
  iddfs_run grid limits traces path →
  Forall2 (λ k t, ∃ p, dls grid k = Some (t, p))
    (take (length traces) limits) traces.
Proof.
  induction 1; simpl; eauto using Forall2.
Qed.

Lemma iddfs_run_path grid limits traces path :
  iddfs_run grid limits traces path → path ≠ [] →
  ∃ k t, k ∈ limits ∧ dls grid k = Some (t, path).
Proof.
  induction 1 as [|k limits steps p path Hd|k limits steps traces path Hd _ IH];
    intros Hne; [done| |].
  - exists k, steps. split; [left|done].
  - destruct (IH Hne) as (k' & t & Hk & Hd'). exists k', t.
    split; [by right|done].
Qed.

Lemma iddfs_run_empty grid limits traces path :
  iddfs_run grid limits traces path → path = [] →
  ∀ k, k ∈ limits → ∃ t, dls grid k = Some (t, []).
Proof.
  induction 1 as [|k limits steps p path Hd|k limits steps traces path Hd _ IH];
    intros Hp k' Hk'; [set_solver|done|].
  apply elem_of_cons in Hk' as [->|Hk']; [by exists steps|]. by apply IH.
Qed.

Lemma dls_result_post grid k t p :
  is_valid grid (start grid) = true →
  is_valid grid (goal grid) = true →
  dls grid k = Some (t, p) → dls_post grid k (t, p).
Proof.
  intros Hs Hg Hd. destruct (dls_total grid k Hs Hg) as (r & Hr & Hpost).
  rewrite Hd in Hr. by injection Hr as <-.
Qed.

Lemma last_limit_mem : (ROWS * COLS - 1)%Z ∈ seqZ 0 (ROWS * COLS).
Proof. apply elem_of_seqZ. unfold ROWS, COLS. lia. Qed.

End Iddfs.

(** ** Breadth-first search *)

Lemma level_sorted_app d q new L :
  level_sorted d q → (∀ x, x ∈ q → d x ≤ L) → (∀ y, y ∈ new → d y = L) →
  level_sorted d (q ++ new).
Proof.
  intros Hq Hle Hnew. induction q as [|x q IH]; simpl.
  - induction new as [|y new IH]; simpl; [done|]. split.
    + intros z Hz. rewrite (Hnew y), (Hnew z); [done|by right|left].
    + apply IH. intros z Hz. apply Hnew. by right.
  - destruct Hq as [Hx Hq]. split.
    + intros y Hy. apply elem_of_app in Hy as [Hy|Hy]; [by apply Hx|].
      rewrite (Hnew y Hy). apply Hle. left.
    + apply IH; [done|]. intros z Hz. apply Hle. by right.
Qed.

Lemma level_sorted_ext d d' q :
  (∀ x, x ∈ q → d' x = d x) → level_sorted d q → level_sorted d' q.
Proof.
  induction q as [|x q IH]; intros Hext; simpl; [done|]. intros [Hx Hq]. split.
  - intros y Hy. rewrite (Hext x), (Hext y); [by apply Hx|by right|left].
  - apply IH; [|done]. intros z Hz. apply Hext. by right.
Qed.

(** *** The log of the queue *)

Lemma queue_log_init (s : Pos) : queue_log [] [s] ∅.
Proof.
  split; try done.
  - simpl. apply NoDup_singleton.
  - intros p. simpl. set_solver.
Qed.

Lemma queue_log_pop (steps : list Step) (cur : Pos) (rest : list Pos)
    (vis : gset Pos) :
  queue_log steps (cur :: rest) vis →
  queue_log (steps ++ [make_step cur rest vis]) rest (vis ∪ {[cur]}) ∧
  cur ∉ vis.
Proof.
  intros [Hnd Hvis Hfresh Honce Hgrows Hlast].
  assert (cur ∉ vis) as Hcur.
  { rewrite Hvis. intros Hin. apply NoDup_app in Hnd as (_ & Hd & _).
    apply (Hd cur Hin). left. }
  assert (NoDup (((current <$> steps) ++ [cur]) ++ rest)) as Hnd'.
  { by rewrite <-app_assoc. }
  split; [|done]. split.
  - by rewrite fmap_app.
  - intros p. rewrite fmap_app, elem_of_app, elem_of_union, Hvis. simpl.
    set_solver.
  - intros i s Hs. apply lookup_snoc_Some in Hs as [[_ Hs]|[-> ->]];
      [by apply (Hfresh i)|done].
  - intros i s Hs. apply lookup_snoc_Some in Hs as [[Hi Hs]|[-> ->]].
    + rewrite take_app_le by lia. by apply Honce.
    + rewrite take_ge by (rewrite length_app; simpl; lia).
      by rewrite fmap_app.
  - intros i a b Ha Hb. apply lookup_snoc_Some in Hb as [[Hi Hb]|[Hi ->]].
    + rewrite lookup_app_l in Ha by lia. by apply (Hgrows i).
    + rewrite lookup_app_l in Ha by lia. apply Hlast.
      rewrite last_lookup. rewrite <-Ha. f_equal. lia.
  - intros a Ha. rewrite last_snoc in Ha. injection Ha as <-. simpl.
    exists []. by rewrite app_nil_r.
Qed.

Lemma queue_log_push (steps : list Step) (q new : list Pos)
    (vis : gset Pos) :
  queue_log steps q vis → NoDup new →
  (∀ n, n ∈ new → n ∉ vis ∧ n ∉ q) →
  queue_log steps (q ++ new) vis.
Proof.
  intros [Hnd Hvis Hfresh Honce Hgrows Hlast] Hnew Hdisj.
  split; try done.
  - rewrite app_assoc. apply NoDup_app. split_and!; [done| |done].
    intros x Hx Hx'. destruct (Hdisj x Hx') as [Hv Hq].
    apply elem_of_app in Hx as [Hx|Hx]; [|done]. by apply Hvis in Hx.
  - intros a Ha. destruct (Hlast a Ha) as [new' <-].
    exists (new' ++ new). by rewrite app_assoc.
Qed.

Section Bfs.

Context {C : Type} `{Cost C}.

Lemma bfs_relax_foldl (cur : Pos) (vis : gset Pos) (l : list (Pos * C))
    (q : list Pos) (iq : gset Pos) (cf : gmap Pos (option Pos)) :
  (∀ n, is_Some (cf !! n) → n ∈ vis ∨ n ∈ iq) →
  ∃ new,
    foldl (bfs_relax cur vis) (q, iq, cf) l =
      (q ++ new, iq ∪ list_to_set new, adopt cur cf new) ∧
    NoDup new ∧
    (∀ n, n ∈ new ↔ n ∈ l.*1 ∧ n ∉ vis ∧ n ∉ iq).
Proof.
  revert q iq cf. induction l as [|e l IH]; intros q iq cf Hdom.
  - exists []. simpl. rewrite app_nil_r, union_empty_r_L.
    split_and!; [done|constructor|]. intros n. set_solver.
  - cbn [foldl]. unfold bfs_relax at 2.
    destruct (decide (e.1 ∉ vis ∧ e.1 ∉ iq)) as [[Hv Hq]|Hno].
    + rewrite !bool_decide_eq_true_2 by done. simpl andb. cbv iota.
      destruct (IH (q ++ [e.1]) (iq ∪ {[e.1]}) (<[e.1:=Some cur]> cf))
        as (new & Hfold & Hnd & Hnew).
      { intros n [x Hx]. destruct (decide (n = e.1)) as [->|Hne].
        - right. set_solver.
        - rewrite lookup_insert_ne in Hx by done.
          destruct (Hdom n) as [?|?]; [by exists x|by left|right; set_solver]. }
      exists (e.1 :: new). split_and!.
      * rewrite Hfold. rewrite adopt_cons.
        assert (cf !! e.1 = None) as ->.
        { destruct (cf !! e.1) eqn:E; [|done].
          destruct (Hdom e.1) as [?|?]; [by eexists|done|done]. }
        rewrite <-app_assoc. simpl. f_equal. f_equal. set_solver.
      * constructor; [|done]. intros Hin. apply Hnew in Hin. set_solver.
      * intros n. rewrite elem_of_cons, Hnew, fmap_cons, elem_of_cons.
        split.
        -- intros [->|(? & ? & ?)]; [by auto|]. split_and!; [by right|done|].
           set_solver.
        -- intros ([->|?] & ? & ?); [by left|].
           destruct (decide (n = e.1)) as [->|?]; [by left|right].
           split_and!; [done|done|set_solver].
    + assert (bool_decide (e.1 ∉ vis) && bool_decide (e.1 ∉ iq) = false) as ->.
      { apply andb_false_iff.
        destruct (decide (e.1 ∉ vis)); [right|left];
          apply bool_decide_eq_false; tauto. }
      destruct (IH q iq cf Hdom) as (new & Hfold & Hnd & Hnew).
      exists new. split_and!; [done|done|].
      intros n. rewrite Hnew, fmap_cons, elem_of_cons. split; [tauto|].
      intros ([->|?] & ? & ?); [tauto|done].
Qed.

Lemma bfs_body_expand grid st cur rest :
  bfs_core grid st → bfs_queue st = cur :: rest → cur ≠ goal grid →
  ∃ new,
    NoDup new ∧
    (∀ n, n ∈ new ↔
       step grid cur n ∧ n ∉ bfs_visited st ∪ {[cur]} ∧ n ∉ rest) ∧
    bfs_body grid st =
      Some (inl {| bfs_queue := rest ++ new;
                   bfs_in_queue := bfs_in_queue st ∖ {[cur]} ∪ list_to_set new;
                   bfs_came_from := adopt cur (bfs_came_from st) new;
                   bfs_visited := bfs_visited st ∪ {[cur]};
                   bfs_steps :=
                     bfs_steps st ++ [make_step cur rest (bfs_visited st)] |}).
Proof.
  intros [Htree Htrace Hnd Hiq Hfresh Hdom Hvalid Hgoal Hclosed] Hq Hg.
  rewrite Hq in *. apply NoDup_cons in Hnd as [Hcur Hnd].
  assert (cur ∉ bfs_visited st) as Hv by (apply Hfresh; left).
  destruct (bfs_relax_foldl cur (bfs_visited st ∪ {[cur]})
              (get_neighbors grid cur) rest (bfs_in_queue st ∖ {[cur]})
              (bfs_came_from st)) as (new & Hfold & Hnew & Hspec).
  { intros n Hn. apply Hdom in Hn as [?|Hn]; [left; set_solver|].
    apply elem_of_cons in Hn as [->|Hn]; [left; set_solver|].
    right. apply elem_of_difference. split; [apply Hiq; by right|].
    intros ->%elem_of_singleton. done. }
  exists new. split_and!; [done| |].
  - intros n. rewrite Hspec. unfold step. split.
    + intros (? & ? & Hn). split_and!; [done|done|]. intros Hr. apply Hn.
      apply elem_of_difference. split; [apply Hiq; by right|]. set_solver.
    + intros (? & ? & Hn). split_and!; [done|done|]. intros Hr. apply Hn.
      apply elem_of_difference in Hr as [Hr Hne]. apply Hiq in Hr.
      apply elem_of_cons in Hr as [->|Hr]; [set_solver|done].
  - unfold bfs_body. rewrite Hq.
    rewrite bool_decide_eq_false_2 by done.
    rewrite bool_decide_eq_false_2 by done.
    cbv zeta. by rewrite Hfold.
Qed.

Lemma bfs_core_expand grid st cur rest new :
  bfs_core grid st → bfs_queue st = cur :: rest → cur ≠ goal grid →
  NoDup new →
  (∀ n, n ∈ new ↔
     step grid cur n ∧ n ∉ bfs_visited st ∪ {[cur]} ∧ n ∉ rest) →
  bfs_core grid
    {| bfs_queue := rest ++ new;
       bfs_in_queue := bfs_in_queue st ∖ {[cur]} ∪ list_to_set new;
       bfs_came_from := adopt cur (bfs_came_from st) new;
       bfs_visited := bfs_visited st ∪ {[cur]};
       bfs_steps := bfs_steps st ++ [make_step cur rest (bfs_visited st)] |}.
Proof.
  intros [Htree Htrace Hnd Hiq Hfresh Hdom Hvalid Hgoal Hclosed] Hq Hg
    Hnew Hspec.
  rewrite Hq in *. apply NoDup_cons in Hnd as [Hcur Hnd].
  assert (cur ∉ bfs_visited st) as Hv by (apply Hfresh; left).
  split; simpl.
  - apply adopt_tree.
    + apply parent_tree_visit; [done|done|]. apply Hdom. right. left.
    + set_solver.
    + intros n Hn. apply Hspec in Hn. tauto.
  - apply trace_inv_record; try done; set_solver.
  - apply NoDup_app. split_and!; [done| |done].
    intros x Hx Hx'. apply Hspec in Hx'. tauto.
  - intros x. rewrite elem_of_union, elem_of_list_to_set, elem_of_app.
    rewrite elem_of_difference, Hiq, elem_of_cons, elem_of_singleton.
    split; [tauto|]. intros [Hx|?]; [|by right]. left.
    split; [by right|]. by intros ->.
  - intros x Hx. apply elem_of_app in Hx as [Hx|Hx].
    + apply not_elem_of_union. split; [apply Hfresh; by right|].
      intros ->%elem_of_singleton. done.
    + apply Hspec in Hx. tauto.
  - intros x. rewrite adopt_is_Some_iff, Hdom, elem_of_cons, elem_of_app.
    rewrite elem_of_union, elem_of_singleton. tauto.
  - intros x Hx. apply elem_of_app in Hx as [Hx|Hx].
    + apply Hvalid. by right.
    + apply Hspec in Hx as (Hx & _). by apply step_valid in Hx.
  - set_solver.
  - intros v w Hv' Hs. rewrite elem_of_app.
    apply elem_of_union in Hv' as [Hv'|Hv'].
    + destruct (Hclosed v w Hv' Hs) as [?|Hw]; [left; set_solver|].
      apply elem_of_cons in Hw as [->|?]; [left; set_solver|by right; left].
    + apply elem_of_singleton in Hv' as ->.
      destruct (decide (w ∈ bfs_visited st ∪ {[cur]})); [by left|].
      destruct (decide (w ∈ rest)); [by right; left|].
      right. right. by apply Hspec.
Qed.

Lemma bfs_level_expand grid d st cur rest new :
  bfs_core grid st → bfs_level grid d st →
  bfs_queue st = cur :: rest →
  (∀ n, n ∈ new ↔
     step grid cur n ∧ n ∉ bfs_visited st ∪ {[cur]} ∧ n ∉ rest) →
  bfs_level grid (λ x, if decide (x ∈ new) then S (d cur) else d x)
    {| bfs_queue := rest ++ new;
       bfs_in_queue := bfs_in_queue st ∖ {[cur]} ∪ list_to_set new;
       bfs_came_from := adopt cur (bfs_came_from st) new;
       bfs_visited := bfs_visited st ∪ {[cur]};
       bfs_steps := bfs_steps st ++ [make_step cur rest (bfs_visited st)] |}.
Proof.
  intros [Htree Htrace Hnd Hiq Hfresh Hdom Hvalid Hgoal Hclosed]
    [Hstart Hparent Hsorted Hspan Hvis Hedge] Hq Hspec.
  rewrite Hq in *. simpl in Hsorted. destruct Hsorted as [Hhead Hsorted].
  set (d' := λ x, if decide (x ∈ new) then S (d cur) else d x).
  assert (∀ x, x ∉ new → d' x = d x) as Hold.
  { intros x Hx. unfold d'. by rewrite decide_False. }
  assert (∀ x, x ∈ new → d' x = S (d cur)) as Hfreshd.
  { intros x Hx. unfold d'. by rewrite decide_True. }
  assert (∀ x, x ∈ bfs_visited st → x ∉ new) as Hvn.
  { intros x Hx Hn. apply Hspec in Hn. set_solver. }
  assert (∀ x, x ∈ rest → x ∉ new) as Hrn.
  { intros x Hx Hn. apply Hspec in Hn. tauto. }
  assert (cur ∉ new) as Hcn.
  { intros Hn. apply Hspec in Hn. set_solver. }
  split; cbn [bfs_queue bfs_visited bfs_came_from bfs_in_queue bfs_steps].
  - rewrite Hold; [done|].
    destruct (parent_tree_root_dom _ _ _ _ Htree) as [x Hx].
    assert (start grid ∈ bfs_visited st ∨ start grid ∈ cur :: rest) as Hs.
    { apply Hdom. by exists x. }
    destruct Hs as [?|Hs]; [auto|].
    apply elem_of_cons in Hs as [->|?]; auto.
  - intros n p Hn. apply adopt_lookup_parent in Hn as [Hn|(Hn & Hin & ->)].
    + destruct (parent_tree_parent _ _ _ _ _ _ Htree Hn) as [Hp _].
      assert (n ∉ new) as Hnn.
      { assert (n ∈ bfs_visited st ∨ n ∈ cur :: rest) as Hs.
        { apply Hdom. by eexists. }
        destruct Hs as [?|Hs]; [auto|].
        apply elem_of_cons in Hs as [->|?]; auto. }
      rewrite !Hold by auto. by apply Hparent.
    + rewrite Hfreshd by done. by rewrite Hold.
  - apply level_sorted_app with (L := S (d cur)).
    + apply (level_sorted_ext d); [|done]. intros x Hx. apply Hold. auto.
    + intros x Hx. rewrite Hold by auto. apply Hspan; [left|by right].
    + done.
  - intros x y Hx Hy. apply elem_of_app in Hx as [Hx|Hx];
      apply elem_of_app in Hy as [Hy|Hy].
    + rewrite !Hold by auto. apply Hspan; by right.
    + rewrite (Hold x), (Hfreshd y) by auto.
      assert (d cur ≤ d x) by auto. lia.
    + rewrite (Hold y), (Hfreshd x) by auto.
      assert (d y ≤ S (d cur)) by (apply Hspan; [left|by right]). lia.
    + rewrite !Hfreshd by done. lia.
  - intros v x Hv Hx.
    assert (d' v ≤ d cur) as Hvc.
    { apply elem_of_union in Hv as [Hv|Hv].
      - rewrite Hold by auto. apply Hvis; [done|left].
      - apply elem_of_singleton in Hv as ->. by rewrite Hold. }
    apply elem_of_app in Hx as [Hx|Hx].
    + rewrite (Hold x) by auto. assert (d cur ≤ d x) by auto. lia.
    + rewrite (Hfreshd x) by done. lia.
  - intros v w Hv Hs. apply elem_of_union in Hv as [Hv|Hv].
    + rewrite (Hold v) by auto.
      assert (w ∉ new) as Hwn.
      { destruct (Hclosed v w Hv Hs) as [?|Hw]; [auto|].
        apply elem_of_cons in Hw as [->|?]; auto. }
      rewrite Hold by done. by apply Hedge.
    + apply elem_of_singleton in Hv as ->. rewrite (Hold cur) by done.
      destruct (decide (w ∈ new)) as [Hw|Hw]; [by rewrite Hfreshd|].
      rewrite Hold by done.
      destruct (decide (w ∈ bfs_visited st ∪ {[cur]})) as [Hwv|Hwv].
      * apply elem_of_union in Hwv as [Hwv|Hwv].
        -- assert (d w ≤ d cur) by (apply Hvis; [done|left]). lia.
        -- apply elem_of_singleton in Hwv as ->. lia.
      * destruct (decide (w ∈ rest)) as [Hwr|Hwr].
        -- apply Hspan; [left|by right].
        -- exfalso. apply Hw. by apply Hspec.
Qed.

Lemma bfs_first_unvisited grid d st :
  bfs_core grid st → bfs_level grid d st →
  ∀ l a b, a ∈ bfs_visited st → chain (step grid) (a :: l) →
    last (a :: l) = Some b → b ∉ bfs_visited st →
    ∃ u, u ∈ bfs_queue st ∧ d u ≤ d a + length l.
Proof.
  intros Hcore Hlevel. induction l as [|q l IH]; intros a b Ha Hch Hlast Hb.
  - simpl in Hlast. by injection Hlast as ->.
  - destruct Hch as [Hs Hch]. rewrite last_cons_cons in Hlast.
    pose proof (lv_edge _ _ _ Hlevel a q Ha Hs) as Hd.
    destruct (bfs_closed _ _ Hcore a q Ha Hs) as [Hq|Hq].
    + destruct (IH q b Hq Hch Hlast Hb) as (u & Hu & Hdu).
      exists u. split; [done|]. simpl. lia.
    + exists q. split; [done|]. simpl. lia.
Qed.

Lemma bfs_goal_level grid d st cur rest l :
  bfs_core grid st → bfs_level grid d st →
  bfs_queue st = cur :: rest →
  route grid (start grid) cur l → d cur ≤ edge_count l.
Proof.
  intros Hcore Hlevel Hq (Hh & Hl & Hch).
  assert (∀ u, u ∈ bfs_queue st → d cur ≤ d u) as Hmin.
  { intros u Hu. pose proof (lv_sorted _ _ _ Hlevel) as Hs.
    rewrite Hq in Hu, Hs. destruct Hs as [Hs _].
    apply elem_of_cons in Hu as [->|Hu]; [done|by apply Hs]. }
  destruct l as [|a l]; [done|]. injection Hh as ->.
  unfold edge_count. simpl. rewrite Nat.sub_0_r.
  destruct (decide (start grid ∈ bfs_visited st)) as [Hs|Hs].
  - destruct (bfs_first_unvisited grid d st Hcore Hlevel l _ cur Hs Hch Hl)
      as (u & Hu & Hdu).
    { apply (bfs_fresh _ _ Hcore). rewrite Hq. left. }
    rewrite (lv_start _ _ _ Hlevel) in Hdu. specialize (Hmin u Hu). lia.
  - assert (start grid ∈ bfs_queue st) as Hsq.
    { destruct (parent_tree_root_dom _ _ _ _ (bfs_tree _ _ Hcore)) as [x Hx].
      destruct (proj1 (bfs_dom _ _ Hcore (start grid))) as [?|?];
        [by exists x|done|done]. }
    specialize (Hmin _ Hsq). rewrite (lv_start _ _ _ Hlevel) in Hmin. lia.
Qed.

Lemma bfs_new_length (grid : Grid) (cur : Pos) (new : list Pos) :
  NoDup new → (∀ n, n ∈ new → step grid cur n) → length new ≤ 6.
Proof.
  intros Hnd Hsub. etrans; [|apply (get_neighbors_length grid cur)].
  rewrite <-(length_fmap fst (get_neighbors grid cur)).
  apply submseteq_length.
  apply NoDup_submseteq; [done|]. intros x Hx. by apply Hsub.
Qed.

Lemma bfs_init_inv grid :
  is_valid grid (start grid) = true → bfs_inv grid (bfs_init grid).
Proof.
  intros Hs. split_and!.
  - split; simpl.
    + apply parent_tree_init.
    + apply trace_inv_nil.
    + apply NoDup_singleton.
    + intros x. set_solver.
    + set_solver.
    + intros x. rewrite elem_of_empty, list_elem_of_singleton. split.
      * intros [y Hy]. apply lookup_singleton_Some in Hy as [-> _]. by right.
      * intros [[]| ->]. by rewrite lookup_singleton_eq.
    + intros x Hx. by apply list_elem_of_singleton in Hx as ->.
    + set_solver.
    + set_solver.
  - exists (λ _, 0). split; simpl; try done; try (intros; lia).
    intros n p Hn. by apply lookup_singleton_Some in Hn as [_ [=]].
  - apply queue_log_init.
Qed.

Lemma bfs_body_inv grid st :
  bfs_inv grid st →
  match bfs_body grid st with
  | Some (inl st') =>
      bfs_inv grid st' ∧
      search_measure grid (bfs_visited st') (length (bfs_queue st')) <
      search_measure grid (bfs_visited st) (length (bfs_queue st))
  | Some (inr r) => bfs_post grid r
  | None => False
  end.
Proof.
  intros (Hcore & [d Hlevel] & Hlog).
  destruct (bfs_queue st) as [|cur rest] eqn:Hq.
  - unfold bfs_body. rewrite Hq. split; simpl.
    + exists (bfs_visited st). apply (bfs_trace _ _ Hcore).
    + intros [l Hl]. apply (bfs_goal_fresh _ _ Hcore).
      apply (route_closed grid _ _ _ _ Hl).
      * destruct (parent_tree_root_dom _ _ _ _ (bfs_tree _ _ Hcore))
          as [x Hx].
        destruct (proj1 (bfs_dom _ _ Hcore (start grid))) as [?|Hs];
          [by exists x|done|]. rewrite Hq in Hs. set_solver.
      * intros v w Hv Hs.
        destruct (bfs_closed _ _ Hcore v w Hv Hs) as [?|Hw]; [done|].
        rewrite Hq in Hw. set_solver.
    + intros l _. unfold edge_count. simpl. lia.
    + apply (log_fresh _ _ _ Hlog).
    + apply (log_once _ _ _ Hlog).
    + apply (log_grows _ _ _ Hlog).
    + pose proof (log_nodup _ _ _ Hlog) as Hnd. by rewrite app_nil_r in Hnd.
  - destruct (queue_log_pop _ _ _ _ Hlog) as [Hlog' Hfresh].
    assert (NoDup (current <$>
              bfs_steps st ++ [make_step cur rest (bfs_visited st)])) as Hnd.
    { pose proof (log_nodup _ _ _ Hlog') as Hnd.
      by apply NoDup_app in Hnd as (Hnd & _). }
    assert (is_valid grid cur = true) as Hcurv.
    { apply (bfs_queue_valid _ _ Hcore). rewrite Hq. left. }
    destruct (decide (cur = goal grid)) as [Hg|Hg].
    + unfold bfs_body. rewrite Hq. rewrite bool_decide_eq_true_2 by done.
      assert (is_Some (bfs_came_from st !! cur)) as Hcur.
      { apply (bfs_dom _ _ Hcore). right. rewrite Hq. left. }
      destruct (parent_tree_reconstruct_parents _ _ _ _ _
                  (bfs_tree _ _ Hcore) Hcur)
        as (l & Hl & Hlast & -> & Hroute & _).
      simpl. split; simpl.
      * exists (bfs_visited st).
        apply trace_inv_record; [apply (bfs_trace _ _ Hcore)|done|set_solver].
      * apply path_outcome_route. by rewrite <-Hg.
      * intros l' Hl'. rewrite <-Hg in Hl'.
        etrans; [|apply (bfs_goal_level grid d st cur rest l' Hcore Hlevel Hq Hl')].
        unfold edge_count. rewrite length_reverse. simpl.
        rewrite Nat.sub_0_r.
        rewrite (parents_depth (bfs_came_from st) d (start grid) cur l);
          try done.
        -- apply (lv_parent _ _ _ Hlevel).
        -- apply (lv_start _ _ _ Hlevel).
      * apply (log_fresh _ _ _ Hlog').
      * apply (log_once _ _ _ Hlog').
      * apply (log_grows _ _ _ Hlog').
      * done.
    + destruct (bfs_body_expand grid st cur rest Hcore Hq Hg)
        as (new & Hnew & Hspec & ->).
      split; [split_and!|].
      * by apply bfs_core_expand.
      * eexists. by apply bfs_level_expand.
      * simpl. apply queue_log_push; [done|done|].
        intros n Hn. apply Hspec in Hn. tauto.
      * simpl. rewrite length_app.
        assert (length new ≤ 6) as Hlen.
        { apply (bfs_new_length grid cur); [done|].
          intros n Hn. apply Hspec in Hn. tauto. }
        apply search_measure_visit; [done|done|lia].
Qed.

Lemma bfs_total grid :
  is_valid grid (start grid) = true →
  ∃ r, bfs grid = Some r ∧ bfs_post grid r.
Proof.
  intros Hs. unfold bfs.
  apply (while_loop_inv (bfs_body grid) (bfs_inv grid)
           (λ st, search_measure grid (bfs_visited st)
                    (length (bfs_queue st)))).
  - apply bfs_body_inv.
  - by apply bfs_init_inv.
  - apply search_measure_init.
Qed.

End Bfs.

(** ** Bidirectional search *)

Lemma parent_tree_dom (E : Pos → Pos → Prop) (s : Pos)
    (cf : gmap Pos (option Pos)) (vis : gset Pos) (v : Pos) :
  parent_tree E s cf vis → v ∈ vis → is_Some (cf !! v).
Proof.
  intros (rank & _ & _ & Hdom & _) Hv. apply elem_of_dom. set_solver.
Qed.

(** Discovering cells: they enter the parent map and the visited set
    together. *)
Lemma discover_tree (E : Pos → Pos → Prop) (s cur : Pos) (new : list Pos) :
  ∀ (cf : gmap Pos (option Pos)) (vis : gset Pos),
  parent_tree E s cf vis → (∀ x, is_Some (cf !! x) → x ∈ vis) →
  cur ∈ vis → NoDup new → (∀ n, n ∈ new → E cur n ∧ n ∉ vis) →
  parent_tree E s (adopt cur cf new) (vis ∪ list_to_set new).
Proof.
  induction new as [|n new IH]; intros cf vis Htree Hdom Hcur Hnd Hnew.
  - simpl. by rewrite union_empty_r_L.
  - apply NoDup_cons in Hnd as [Hn Hnd].
    destruct (Hnew n) as [He Hv]; [left|].
    assert (cf !! n = None) as Hnone.
    { destruct (cf !! n) eqn:E'; [|done]. exfalso. apply Hv, Hdom. by eexists. }
    rewrite adopt_cons, Hnone.
    replace (vis ∪ list_to_set (n :: new))
      with ((vis ∪ {[n]}) ∪ list_to_set new) by set_solver.
    apply IH; [| |set_solver|done|].
    + apply parent_tree_visit; [|done|by rewrite lookup_insert_eq].
      apply parent_tree_set; try done.
      intros ->. destruct (parent_tree_root_dom _ _ _ _ Htree). congruence.
    + intros x [y Hy]. destruct (decide (x = n)) as [->|Hne]; [set_solver|].
      rewrite lookup_insert_ne in Hy by done.
      apply elem_of_union. left. apply Hdom. by eexists.
    + intros x Hx. destruct (Hnew x) as [? ?]; [by right|].
      split; [done|]. apply not_elem_of_union. split; [done|].
      intros ->%elem_of_singleton. done.
Qed.

Lemma size_discover (V vis : gset Pos) (new : list Pos) :
  NoDup new → (∀ n, n ∈ new → n ∈ V ∧ n ∉ vis) →
  size (V ∖ vis) = size (V ∖ (vis ∪ list_to_set new)) + length new.
Proof.
  intros Hnd Hnew.
  assert (V ∖ vis = V ∖ (vis ∪ list_to_set new) ∪ list_to_set new) as ->.
  { apply set_eq. intros x. rewrite elem_of_union, !elem_of_difference.
    rewrite elem_of_union, elem_of_list_to_set.
    destruct (decide (x ∈ new)) as [Hx|Hx].
    - destruct (Hnew x Hx). tauto.
    - tauto. }
  rewrite size_union by set_solver.
  by rewrite size_list_to_set.
Qed.

Section Bidi.

Context {C : Type} `{Cost C}.

Lemma bidi_relax_foldl (cur : Pos) (l : list (Pos * C)) :
  ∀ (q : list Pos) (vis : gset Pos) (cf : gmap Pos (option Pos)),
  (∀ n, is_Some (cf !! n) → n ∈ vis) →
  ∃ new,
    foldl (bidi_relax cur) (q, vis, cf) l =
      (q ++ new, vis ∪ list_to_set new, adopt cur cf new) ∧
    NoDup new ∧
    (∀ n, n ∈ new ↔ n ∈ l.*1 ∧ n ∉ vis).
Proof.
  induction l as [|e l IH]; intros q vis cf Hdom.
  - exists []. simpl. rewrite app_nil_r, union_empty_r_L.
    split_and!; [done|constructor|]. intros n. set_solver.
  - cbn [foldl]. unfold bidi_relax at 2.
    destruct (decide (e.1 ∉ vis)) as [Hv|Hno].
    + rewrite bool_decide_eq_true_2 by done.
      destruct (IH (q ++ [e.1]) (vis ∪ {[e.1]}) (<[e.1:=Some cur]> cf))
        as (new & Hfold & Hnd & Hnew).
      { intros n [x Hx]. destruct (decide (n = e.1)) as [->|Hne].
        - set_solver.
        - rewrite lookup_insert_ne in Hx by done.
          apply elem_of_union. left. apply Hdom. by exists x. }
      exists (e.1 :: new). split_and!.
      * rewrite Hfold. rewrite adopt_cons.
        assert (cf !! e.1 = None) as ->.
        { destruct (cf !! e.1) eqn:E; [|done]. exfalso. apply Hv, Hdom.
          by eexists. }
        rewrite <-app_assoc. simpl. f_equal. f_equal. set_solver.
      * constructor; [|done]. intros Hin. apply Hnew in Hin. set_solver.
      * intros n. rewrite elem_of_cons, Hnew, fmap_cons, elem_of_cons.
        split.
        -- intros [->|(? & ?)]; [by auto|]. split; [by right|set_solver].
        -- intros ([->|?] & ?); [by left|].
           destruct (decide (n = e.1)) as [->|?]; [by left|right].
           split; [done|set_solver].
    + rewrite bool_decide_eq_false_2 by done.
      destruct (IH q vis cf Hdom) as (new & Hfold & Hnd & Hnew).
      exists new. split_and!; [done|done|].
      intros n. rewrite Hnew, fmap_cons, elem_of_cons. split; [tauto|].
      intros ([->|?] & ?); [tauto|done].
Qed.

Lemma side_expand (grid : Grid) (E : Pos → Pos → Prop) (root cur : Pos)
    (rest : list Pos) (v : gset Pos) (p : gmap Pos (option Pos))
    (new : list Pos) :
  side_inv grid E root (cur :: rest) v p →
  (∀ n, step grid cur n → E cur n) →
  NoDup new → (∀ n, n ∈ new ↔ step grid cur n ∧ n ∉ v) →
  side_inv grid E root (rest ++ new) (v ∪ list_to_set new)
    (adopt cur p new) ∧
  size (valid_cells grid ∖ (v ∪ list_to_set new)) + length (rest ++ new) <
  size (valid_cells grid ∖ v) + length (cur :: rest).
Proof.
  intros [Htree Hdom Hq Hvalid Hclosed Hroot] HE Hnd Hnew.
  assert (cur ∈ v) as Hcur by (apply Hq; left).
  split.
  - split.
    + apply discover_tree; try done. intros n Hn. apply Hnew in Hn.
      split; [apply HE|]; tauto.
    + intros x Hx. apply adopt_is_Some_iff in Hx as [Hx|Hx];
        [|set_solver]. apply elem_of_union. left. by apply Hdom.
    + intros x Hx. apply elem_of_app in Hx as [Hx|Hx]; [|set_solver].
      apply elem_of_union. left. apply Hq. by right.
    + intros x Hx. apply elem_of_union in Hx as [Hx|Hx]; [by apply Hvalid|].
      apply elem_of_list_to_set, Hnew in Hx as [Hx _].
      by apply step_valid in Hx.
    + intros x w Hx Hnq Hs. apply not_elem_of_app in Hnq as [Hnr Hnn].
      apply elem_of_union in Hx as [Hx|Hx]; [|set_solver].
      destruct (decide (x = cur)) as [->|Hne].
      * destruct (decide (w ∈ v)); [set_solver|].
        apply elem_of_union. right. apply elem_of_list_to_set, Hnew. done.
      * apply elem_of_union. left. apply (Hclosed x w); [done| |done].
        intros Hin. apply elem_of_cons in Hin as [?|?]; done.
    + set_solver.
  - rewrite (size_discover (valid_cells grid) v new); [|done|].
    + rewrite length_app. simpl. lia.
    + intros n Hn. apply Hnew in Hn as [Hs Hv]. split; [|done].
      apply elem_of_valid_cells. by apply step_valid in Hs.
Qed.

Lemma bidi_trace_record (grid : Grid) (steps : list Step)
    (vis vis' : gset Pos) (cur : Pos) (fr : list Pos) :
  bidi_trace grid steps vis → vis ⊆ vis' →
  (∀ p, p ∈ vis' → p ∈ vis ∨ step grid cur p) →
  bidi_trace grid (steps ++ [make_step cur fr vis]) vis'.
Proof.
  intros [Hmono Hbelow Hfirst Hvis] Hsub Hnew. split.
  - intros i j a b Hij Ha Hb.
    apply lookup_snoc_Some in Ha as [[Hi Ha]|[-> ->]];
      apply lookup_snoc_Some in Hb as [[Hj Hb]|[-> ->]].
    + by apply (Hmono i j).
    + simpl. by apply (Hbelow i).
    + lia.
    + done.
  - intros i a Ha. apply lookup_snoc_Some in Ha as [[Hi Ha]|[-> ->]].
    + etrans; [by apply (Hbelow i)|done].
    + done.
  - intros i a p Ha Hp. apply lookup_snoc_Some in Ha as [[Hi Ha]|[-> ->]].
    + destruct (Hfirst i a p Ha Hp) as [?|[?|(j & s' & Hj & Hs' & Hc)]];
        [by left|by right; left|].
      right. right. exists j, s'. split_and!; [done| |done].
      rewrite lookup_app_l; [done|lia].
    + simpl in Hp.
      destruct (Hvis p Hp) as [?|[?|(j & s' & Hs' & Hc)]];
        [by left|by right; left|].
      right. right. exists j, s'. pose proof (lookup_lt_Some _ _ _ Hs').
      split_and!; [done| |done]. by rewrite lookup_app_l.
  - intros p Hp. destruct (Hnew p Hp) as [Hin|Hs].
    + destruct (Hvis p Hin) as [?|[?|(j & s' & Hs' & Hc)]];
        [by left|by right; left|].
      right. right. exists j, s'. pose proof (lookup_lt_Some _ _ _ Hs').
      split; [|done]. by rewrite lookup_app_l.
    + right. right.
      exists (length steps), (make_step cur fr vis). split; [|done].
      rewrite lookup_app_r by lia. by rewrite Nat.sub_diag.
Qed.

Lemma merge_paths_route (grid : Grid) (fp : gmap Pos (option Pos))
    (fv : gset Pos) (bp : gmap Pos (option Pos)) (bv : gset Pos) (m : Pos) :
  parent_tree (step grid) (start grid) fp fv →
  parent_tree (flip (step grid)) (goal grid) bp bv →
  m ∈ fv → m ∈ bv →
  ∃ path, merge_paths fp bp m = Some path ∧
          route grid (start grid) (goal grid) path.
Proof.
  intros Hf Hb Hmf Hmb.
  destruct (parent_tree_parents _ _ _ _ _ Hf (parent_tree_dom _ _ _ _ _ Hf Hmf))
    as (lf & Hlf & _ & Hfuelf & Hlastf & Hchf & _).
  destruct (parent_tree_parents _ _ _ _ _ Hb (parent_tree_dom _ _ _ _ _ Hb Hmb))
    as (lb & Hlb & _ & Hfuelb & Hlastb & Hchb & _).
  exists (reverse (m :: lf) ++ lb). split.
  - unfold merge_paths.
    remember (S (S (size fp))) as ff eqn:Hff.
    remember (S (S (size bp))) as fb eqn:Hfb.
    rewrite (walk_parents_parents _ _ _ Hlf) by lia. simpl.
    rewrite (walk_parents_get _ _ _ Hlb) by lia. done.
  - split_and!.
    + assert (head (reverse (m :: lf)) = Some (start grid)) as Hh.
      { by rewrite head_reverse. }
      destruct (reverse (m :: lf)); [done|]. done.
    + destruct lb as [|q lb].
      * rewrite app_nil_r, last_reverse. simpl in *. by rewrite <-Hlastb.
      * rewrite last_app. rewrite last_cons_cons in Hlastb. by rewrite Hlastb.
    + apply chain_app. split_and!.
      * by apply chain_reverse.
      * apply chain_cons in Hchb as [_ Hchb].
        apply (chain_impl (flip (flip (step grid)))); [|done]. done.
      * intros p q Hp Hq. rewrite last_reverse in Hp. simpl in Hp.
        injection Hp as <-. apply chain_cons in Hchb as [Hh _].
        by apply Hh.
Qed.

Lemma bidi_init_inv grid :
  is_valid grid (start grid) = true → is_valid grid (goal grid) = true →
  bidi_inv grid (bidi_init grid).
Proof.
  intros Hs Hg.
  assert (∀ E (r : Pos), is_valid grid r = true →
    side_inv grid E r [r] {[r]} {[r := None]}) as Hside.
  { intros E r Hr. split.
    - replace ({[r]} : gset Pos) with ((∅ : gset Pos) ∪ {[r]}) by set_solver.
      apply parent_tree_visit; [apply parent_tree_init|set_solver|].
      by rewrite lookup_singleton_eq.
    - intros x [y Hy]. apply lookup_singleton_Some in Hy as [-> _].
      set_solver.
    - intros x Hx. apply list_elem_of_singleton in Hx as ->.
      by apply elem_of_singleton.
    - intros x Hx. by apply elem_of_singleton in Hx as ->.
    - intros x w Hx Hnq. apply elem_of_singleton in Hx as ->.
      exfalso. apply Hnq. left.
    - by apply elem_of_singleton. }
  split; simpl; [by apply Hside|by apply Hside| |].
  - split; try done. intros p Hp. set_solver.
  - intros Hsg. apply elem_of_singleton in Hsg. rewrite Hsg. left.
Qed.

Lemma bidi_forward_inv grid st :
  bidi_inv grid st →
  match bidi_forward grid st with
  | Some (inl st') =>
      bidi_inv grid st' ∧
      ((fwd_queue st = [] ∧ st' = st) ∨
       bidi_measure grid st' < bidi_measure grid st)
  | Some (inr r) => bidi_post grid r
  | None => False
  end.
Proof.
  intros [Hf Hb Htr Hgp]. unfold bidi_forward.
  destruct (fwd_queue st) as [|cur rest] eqn:Hq.
  { split; [by split; rewrite ?Hq|by left]. }
  assert (cur ∈ fwd_visited st) as Hcur by (apply (side_queue _ _ _ _ _ _ Hf); left).
  case_bool_decide as Hm.
  - destruct (merge_paths_route grid _ _ _ _ cur
                (side_tree _ _ _ _ _ _ Hf) (side_tree _ _ _ _ _ _ Hb) Hcur Hm)
      as (path & -> & Hroute).
    simpl. split; simpl.
    + exists (fwd_visited st ∪ bwd_visited st).
      apply bidi_trace_record; [done|done|]. intros p Hp. by left.
    + by apply path_outcome_route.
  - destruct (bidi_relax_foldl cur (get_neighbors grid cur) rest
                (fwd_visited st) (fwd_parent st) (side_dom _ _ _ _ _ _ Hf))
      as (new & -> & Hnd & Hnew).
    destruct (side_expand grid (step grid) (start grid) cur rest
                (fwd_visited st) (fwd_parent st) new Hf) as [Hf' Hmu];
      [done|done|done|].
    split.
    + split; simpl; [done|done| |].
      * apply bidi_trace_record; [done|set_solver|].
        intros p Hp. apply elem_of_union in Hp as [Hp|Hp]; [|left; set_solver].
        apply elem_of_union in Hp as [Hp|Hp]; [left; set_solver|].
        right. apply elem_of_list_to_set, Hnew in Hp. tauto.
      * intros Hg. apply elem_of_app.
        apply elem_of_union in Hg as [Hg|Hg]; [|right; set_solver].
        left. apply Hgp in Hg. apply elem_of_cons in Hg as [Hg|Hg]; [|done].
        exfalso. apply Hm. rewrite <-Hg. apply (side_root _ _ _ _ _ _ Hb).
    + right. unfold bidi_measure. simpl. rewrite Hq. lia.
Qed.

Lemma bidi_backward_inv grid st :
  bidi_inv grid st →
  match bidi_backward grid st with
  | Some (inl st') =>
      bidi_inv grid st' ∧
      ((bwd_queue st = [] ∧ st' = st) ∨
       bidi_measure grid st' < bidi_measure grid st)
  | Some (inr r) => bidi_post grid r
  | None => False
  end.
Proof.
  intros [Hf Hb Htr Hgp]. unfold bidi_backward.
  destruct (bwd_queue st) as [|cur rest] eqn:Hq.
  { split; [by split; rewrite ?Hq|by left]. }
  assert (cur ∈ bwd_visited st) as Hcur by (apply (side_queue _ _ _ _ _ _ Hb); left).
  case_bool_decide as Hm.
  - destruct (merge_paths_route grid _ _ _ _ cur
                (side_tree _ _ _ _ _ _ Hf) (side_tree _ _ _ _ _ _ Hb) Hm Hcur)
      as (path & -> & Hroute).
    simpl. split; simpl.
    + exists (fwd_visited st ∪ bwd_visited st).
      apply bidi_trace_record; [done|done|]. intros p Hp. by left.
    + by apply path_outcome_route.
  - destruct (bidi_relax_foldl cur (get_neighbors grid cur) rest
                (bwd_visited st) (bwd_parent st) (side_dom _ _ _ _ _ _ Hb))
      as (new & -> & Hnd & Hnew).
    destruct (side_expand grid (flip (step grid)) (goal grid) cur rest
                (bwd_visited st) (bwd_parent st) new Hb) as [Hb' Hmu];
      [|done|done|].
    { intros n Hn. apply step_sym; [|done].
      by apply (side_valid _ _ _ _ _ _ Hb). }
    split.
    + split; simpl; [done|done| |done].
      apply bidi_trace_record; [done|set_solver|].
      intros p Hp. apply elem_of_union in Hp as [Hp|Hp]; [left; set_solver|].
      apply elem_of_union in Hp as [Hp|Hp]; [left; set_solver|].
      right. apply elem_of_list_to_set, Hnew in Hp. tauto.
    + right. unfold bidi_measure. simpl. rewrite Hq. lia.
Qed.

Lemma bidi_body_inv grid st :
  bidi_inv grid st →
  match bidi_body grid st with
  | Some (inl st') =>
      bidi_inv grid st' ∧ bidi_measure grid st' < bidi_measure grid st
  | Some (inr r) => bidi_post grid r
  | None => False
  end.
Proof.
  intros Hinv.
  assert (fwd_queue st = [] ∧ bwd_queue st = [] ∨
          (bidi_body grid st =
             r ← bidi_forward grid st;
             match r with
             | inl st' => bidi_backward grid st'
             | inr res => Some (inr res)
             end) ∧ (fwd_queue st ≠ [] ∨ bwd_queue st ≠ [])) as [[Hfq Hbq]|[-> Hne]].
  { unfold bidi_body.
    destruct (fwd_queue st), (bwd_queue st); [by left|right..]; split; auto. }
  - unfold bidi_body. rewrite Hfq, Hbq. destruct Hinv as [Hf Hb Htr Hgp].
    split; simpl; [by eexists|].
    intros [l Hl].
    assert (goal grid ∈ fwd_visited st) as Hg.
    { apply (route_closed grid _ _ _ _ Hl).
      - apply (side_root _ _ _ _ _ _ Hf).
      - intros v w Hv Hs. apply (side_closed _ _ _ _ _ _ Hf v w); [done| |done].
        rewrite Hfq. set_solver. }
    apply Hgp in Hg. rewrite Hfq in Hg. set_solver.
  - pose proof (bidi_forward_inv grid st Hinv) as Hfw.
    destruct (bidi_forward grid st) as [[st'|r]|]; simpl; [|done|done].
    destruct Hfw as [Hinv' Hmu].
    pose proof (bidi_backward_inv grid st' Hinv') as Hbw.
    destruct (bidi_backward grid st') as [[st''|r]|]; [|done|done].
    destruct Hbw as [Hinv'' Hmu']. split; [done|].
    destruct Hmu as [[Hfq ->]|Hmu], Hmu' as [[Hbq ->]|Hmu']; try lia.
    destruct Hne; done.
Qed.

Lemma bidi_measure_init grid :
  is_valid grid (start grid) = true →
  bidi_measure grid (bidi_init grid) < search_fuel grid.
Proof.
  intros Hs. apply elem_of_valid_cells in Hs.
  unfold bidi_measure, search_fuel. simpl.
  pose proof (subseteq_size (valid_cells grid ∖ {[start grid]})
                (valid_cells grid)) as H1.
  pose proof (subseteq_size (valid_cells grid ∖ {[goal grid]})
                (valid_cells grid)) as H2.
  specialize (H1 ltac:(set_solver)). specialize (H2 ltac:(set_solver)).
  assert (size (valid_cells grid) ≠ 0) as Hnz.
  { intros Hz. apply size_empty_inv in Hz. set_solver. }
  lia.
Qed.

Lemma bidi_total grid :
  is_valid grid (start grid) = true → is_valid grid (goal grid) = true →
  ∃ r, bidirectional grid = Some r ∧ bidi_post grid r.
Proof.
  intros Hs Hg. unfold bidirectional.
  apply (while_loop_inv (bidi_body grid) (bidi_inv grid) (bidi_measure grid)).
  - apply bidi_body_inv.
  - by apply bidi_init_inv.
  - by apply bidi_measure_init.
Qed.

End Bidi.

(** ** Uniform cost search *)

Section UcsCost.

Context {C : Type} `{Cost C} `{!CostLaws}.

Lemma c_le_refl x : c_le x x.
Proof. apply c_lt_irrefl. Qed.

Lemma c_lt_asym x y : c_lt x y = true → c_lt y x = false.
Proof.
  intros Hxy. destruct (c_lt y x) eqn:Hyx; [|done].
  pose proof (c_lt_trans _ _ _ Hxy Hyx) as Hxx.
  by rewrite c_lt_irrefl in Hxx.
Qed.

Lemma c_lt_le x y : c_lt x y = true → c_le x y.
Proof. apply c_lt_asym. Qed.

Lemma c_add_move x p q : c_le x (c_add x (move_cost p q)).
Proof.
  unfold move_cost.
  destruct (negb (q.1 - p.1 =? 0)%Z && negb (q.2 - p.2 =? 0)%Z);
    [apply c_add_diag|apply c_add_orth].
Qed.

Lemma cost_from_ge acc p l : c_le acc (cost_from acc p l).
Proof.
  revert acc p. induction l as [|q l IH]; intros acc p; simpl.
  - apply c_le_refl.
  - eapply c_le_trans; [apply (c_add_move acc p q)|apply IH].
Qed.

Lemma cost_from_mono acc acc' p l :
  c_le acc acc' → c_le (cost_from acc p l) (cost_from acc' p l).
Proof.
  revert acc acc' p. induction l as [|q l IH]; intros acc acc' p Hle; simpl.
  - done.
  - apply IH. by apply c_add_mono.
Qed.

Lemma path_cost_snoc (x : list Pos) (p n : Pos) :
  last x = Some p →
  path_cost (x ++ [n]) = c_add (path_cost x) (move_cost p n).
Proof.
  destruct x as [|a x]; [done|]. simpl.
  generalize (@c_zero C _). revert a.
  induction x as [|b x IH]; intros a acc Hlast; simpl.
  - by injection Hlast as ->.
  - rewrite last_cons_cons in Hlast. by apply IH.
Qed.

Lemma entry_lt_false_cost (a b : C * Z * Pos) :
  entry_lt a b = false → c_le b.1.1 a.1.1.
Proof.
  destruct a as [[ca ka] pa], b as [[cb kb] pb]. simpl. unfold c_le, c_eqb.
  destruct (c_lt ca cb) eqn:E; simpl; [|done].
  by intros ?.
Qed.

Lemma entry_lt_true_cost ca ka (pa : Pos) cb kb (pb : Pos) :
  c_lt ca cb = true → entry_lt (ca, ka, pa) (cb, kb, pb) = true.
Proof. intros Hlt. simpl. unfold c_eqb. by rewrite Hlt. Qed.

(** The cost of the path that the parent map gives to a node is the cost
    recorded for the node. *)
Lemma tree_path_cost (cf : gmap Pos (option Pos)) (cost : gmap Pos C)
    (s n : Pos) (l : list Pos) :
  (∀ n p, cf !! n = Some (Some p) →
     ∃ cp, cost !! p = Some cp ∧
           cost !! n = Some (c_add cp (move_cost p n))) →
  cost !! s = Some c_zero →
  parents_of cf n l → last (n :: l) = Some s →
  ∀ cn, cost !! n = Some cn → path_cost (reverse (n :: l)) = cn.
Proof.
  intros Hpar Hs Hl. induction Hl as [n Hn|n p l Hp Hl IH]; intros Hlast cn Hcn.
  - simpl in Hlast. injection Hlast as ->. simpl. congruence.
  - rewrite last_cons_cons in Hlast.
    assert (cf !! n = Some (Some p)) as Hcf.
    { unfold parent_get in Hp. destruct (cf !! n) as [[?|]|]; congruence. }
    destruct (Hpar n p Hcf) as (cp & Hcp & Hcn').
    rewrite reverse_cons.
    rewrite (path_cost_snoc _ p); [|by rewrite last_reverse].
    rewrite (IH Hlast cp Hcp). congruence.
Qed.

End UcsCost.

Section Ucs.

Context {C : Type} `{Cost C} `{HeapQ (C * Z * Pos)} `{!CostLaws}
  `{!HeapQLaws}.

Lemma ucs_first_unvisited (grid : Grid) (vis : gset Pos) cost heap cf cmin :
  ucs_core grid vis cost heap cf (λ _ _, False) →
  (∀ c k n, (c, k, n) ∈ heap → c_le cmin c) →
  ∀ l a b ca acc, a ∈ vis → cost !! a = Some ca → c_le ca acc →
    chain (step grid) (a :: l) → last (a :: l) = Some b → b ∉ vis →
    c_le cmin (cost_from acc a l).
Proof.
  intros Hcore Hmin.
  induction l as [|q l IH]; intros a b ca acc Ha Hca Hle Hch Hlast Hb.
  - simpl in Hlast. by injection Hlast as ->.
  - destruct Hch as [Hs Hch]. rewrite last_cons_cons in Hlast. simpl.
    destruct (uc_edge _ _ _ _ _ _ Hcore a q ca Ha Hca Hs)
      as [[]|(cq & Hcq & Hq)].
    assert (c_le cq (c_add acc (move_cost a q))) as Hq'.
    { eapply c_le_trans; [apply Hq|]. by apply c_add_mono. }
    destruct (decide (q ∈ vis)) as [Hqv|Hqv].
    + by apply (IH q b cq).
    + destruct (uc_pending _ _ _ _ _ _ Hcore q cq Hcq Hqv) as [k Hk].
      eapply c_le_trans; [apply (Hmin _ _ _ Hk)|].
      eapply c_le_trans; [apply Hq'|]. apply cost_from_ge.
Qed.

Lemma ucs_route_bound (grid : Grid) (vis : gset Pos) cost heap cf cmin l b :
  ucs_core grid vis cost heap cf (λ _ _, False) →
  (∀ c k n, (c, k, n) ∈ heap → c_le cmin c) →
  route grid (start grid) b l → b ∉ vis →
  c_le cmin (path_cost l).
Proof.
  intros Hcore Hmin (Hh & Hl & Hch) Hb.
  destruct l as [|a l]; [done|]. injection Hh as ->. simpl.
  destruct (decide (start grid ∈ vis)) as [Hs|Hs].
  - apply (ucs_first_unvisited grid vis cost heap cf cmin Hcore Hmin
             l (start grid) b c_zero); try done.
    + apply (uc_start _ _ _ _ _ _ Hcore).
    + apply c_le_refl.
  - destruct (uc_pending _ _ _ _ _ _ Hcore (start grid) c_zero) as [k Hk];
      [apply (uc_start _ _ _ _ _ _ Hcore)|done|].
    eapply c_le_trans; [apply (Hmin _ _ _ Hk)|]. apply cost_from_ge.
Qed.

Lemma perm_elem_of_cons {A} (h h' : list A) (x y : A) :
  h ≡ₚ x :: h' → y ∈ h → y = x ∨ y ∈ h'.
Proof. intros Hp Hy. rewrite Hp in Hy. by apply elem_of_cons in Hy. Qed.

Lemma ucs_pop (grid : Grid) (vis : gset Pos) cost heap cf c k cur h' :
  ucs_core grid vis cost heap cf (λ _ _, False) →
  heappop heap = Some ((c, k, cur), h') → cur ∉ vis →
  cost !! cur = Some c ∧ is_valid grid cur = true ∧
  is_Some (cf !! cur) ∧
  (∀ c' k' n, (c', k', n) ∈ heap → c_le c c').
Proof.
  intros Hcore Hpop Hcur.
  pose proof (heappop_perm _ _ _ Hpop) as Hperm.
  assert ((c, k, cur) ∈ heap) as Hin by (rewrite Hperm; left).
  destruct (uc_entry _ _ _ _ _ _ Hcore c k cur Hin) as (Hv & cn & Hcn & Hc).
  assert (∀ c' k' n, (c', k', n) ∈ heap → c_le c c') as Hmin.
  { intros c' k' n Hn.
    destruct (perm_elem_of_cons _ _ _ _ Hperm Hn) as [[= -> -> ->]|Hn'].
    - apply c_le_refl.
    - apply (entry_lt_false_cost (c', k', n) (c, k, cur)).
      apply (heappop_min heap _ h'); [apply (uc_heap _ _ _ _ _ _ Hcore)|done..]. }
  assert (c = cn) as ->.
  { destruct Hc as [?|Hlt]; [done|]. exfalso.
    destruct (uc_pending _ _ _ _ _ _ Hcore cur cn Hcn Hcur) as [k' Hk'].
    specialize (Hmin _ _ _ Hk'). unfold c_le in Hmin. congruence. }
  split_and!; try done.
  apply (uc_dom _ _ _ _ _ _ Hcore). by eexists.
Qed.

Lemma ucs_skip (grid : Grid) (vis : gset Pos) cost heap cf c k cur h' :
  ucs_core grid vis cost heap cf (λ _ _, False) →
  heappop heap = Some ((c, k, cur), h') → cur ∈ vis →
  ucs_core grid vis cost h' cf (λ _ _, False).
Proof.
  intros Hcore Hpop Hcur.
  pose proof (heappop_perm _ _ _ Hpop) as Hperm.
  assert (∀ x, x ∈ h' → x ∈ heap) as Hsub.
  { intros x Hx. rewrite Hperm. by right. }
  destruct Hcore as [Htree Hdom Hstart Hpar Hentry Hpend Hmono Hedge Hheap
                     Hgoal Hstarted].
  split; try done.
  - intros c' k' n Hn. apply Hentry with k'. auto.
  - intros n cn Hcn Hn. destruct (Hpend n cn Hcn Hn) as [k' Hk'].
    exists k'.
    destruct (perm_elem_of_cons _ _ _ _ Hperm Hk') as [[= _ _ ->]|?];
      [done|done].
  - intros v cv c' k' n Hv Hcv Hn. apply (Hmono v cv c' k' n); auto.
  - by apply (heappop_heap heap (c, k, cur)).
Qed.

Lemma ucs_visit (grid : Grid) (vis : gset Pos) cost heap cf c k cur h' :
  ucs_core grid vis cost heap cf (λ _ _, False) →
  heappop heap = Some ((c, k, cur), h') → cur ∉ vis → cur ≠ goal grid →
  ucs_core grid (vis ∪ {[cur]}) cost h' cf (todo_from cur []) ∧
  start grid ∈ vis ∪ {[cur]} ∧
  (∀ v cv, v ∈ vis ∪ {[cur]} → cost !! v = Some cv → c_le cv c).
Proof.
  intros Hcore Hpop Hcur Hg.
  destruct (ucs_pop _ _ _ _ _ _ _ _ _ Hcore Hpop Hcur)
    as (Hc & Hvalid & Hcf & Hmin).
  pose proof (heappop_perm _ _ _ Hpop) as Hperm.
  assert (∀ x, x ∈ h' → x ∈ heap) as Hsub.
  { intros x Hx. rewrite Hperm. by right. }
  assert ((c, k, cur) ∈ heap) as Hin by (rewrite Hperm; left).
  destruct Hcore as [Htree Hdom Hstart Hpar Hentry Hpend Hmono Hedge Hheap
                     Hgoal Hstarted].
  assert (start grid ∈ vis ∪ {[cur]}) as Hs.
  { destruct Hstarted as [?|Hempty]; [set_solver|].
    destruct Hcf as [[p|] Hp].
    - destruct (parent_tree_parent _ _ _ _ _ _ Htree Hp) as [Hpv _].
      set_solver.
    - apply (parent_tree_root_unique _ _ _ _ _ Htree) in Hp. set_solver. }
  split_and!; [|done|].
  - split; try done.
    + by apply parent_tree_visit.
    + intros c' k' n Hn. apply Hentry with k'. auto.
    + intros n cn Hcn Hn. destruct (Hpend n cn Hcn) as [k' Hk'];
        [set_solver|]. exists k'.
      destruct (perm_elem_of_cons _ _ _ _ Hperm Hk') as [[= _ _ ->]|?];
        [set_solver|done].
    + intros v cv c' k' n Hv Hcv Hn. apply elem_of_union in Hv as [Hv|Hv].
      * apply (Hmono v cv c' k' n); auto.
      * apply elem_of_singleton in Hv as ->.
        assert (cv = c) as -> by congruence. apply (Hmin c' k' n). auto.
    + intros v w cv Hv Hcv Hsw. apply elem_of_union in Hv as [Hv|Hv].
      * right. destruct (Hedge v w cv Hv Hcv Hsw) as [[]|?]. done.
      * apply elem_of_singleton in Hv as ->. left. split; [done|].
        apply not_elem_of_nil.
    + by apply (heappop_heap heap (c, k, cur)).
    + set_solver.
    + by left.
  - intros v cv Hv Hcv. apply elem_of_union in Hv as [Hv|Hv].
    + apply (Hmono v cv c k cur); auto.
    + apply elem_of_singleton in Hv as ->.
      assert (cv = c) as -> by congruence. apply c_le_refl.
Qed.

Lemma ucs_relax_core (grid : Grid) (vis : gset Pos) cost counter heap cf
    cur c done nbr :
  ucs_core grid vis cost heap cf (todo_from cur done) →
  cur ∈ vis → start grid ∈ vis → cost !! cur = Some c →
  (∀ v cv, v ∈ vis → cost !! v = Some cv → c_le cv c) →
  step grid cur nbr →
  ∃ cost' counter' heap' cf',
    ucs_relax cur c (cost, counter, heap, cf) (nbr, move_cost cur nbr) =
      (cost', counter', heap', cf') ∧
    ucs_core grid vis cost' heap' cf' (todo_from cur (done ++ [nbr])) ∧
    cost' !! cur = Some c ∧
    (∀ v cv, v ∈ vis → cost' !! v = Some cv → c_le cv c) ∧
    length heap' ≤ S (length heap).
Proof.
  intros Hcore Hcur Hs Hc Hmax Hstep.
  destruct Hcore as [Htree Hdom Hstart Hpar Hentry Hpend Hmono Hedge Hheap
                     Hgoal Hstarted].
  set (new := c_add c (move_cost cur nbr)).
  assert (c_le c new) as Hnew by apply c_add_move.
  (* the edge from [cur] to [nbr] is settled once [nbr] costs at most [new] *)
  assert (∀ (cost' : gmap Pos C),
    (∀ v, v ∈ vis → cost' !! v = cost !! v) →
    (∀ w cw, cost !! w = Some cw →
       ∃ cw', cost' !! w = Some cw' ∧ c_le cw' cw) →
    (∃ cn, cost' !! nbr = Some cn ∧ c_le cn new) →
    ∀ v w cv, v ∈ vis → cost' !! v = Some cv → step grid v w →
      todo_from cur (done ++ [nbr]) v w ∨
      ∃ cw, cost' !! w = Some cw ∧ c_le cw (c_add cv (move_cost v w)))
    as Hedge'.
  { intros cost' Hfrozen Hdecr (cn & Hcn & Hle) v w cv Hv Hcv Hsw.
    rewrite Hfrozen in Hcv by done.
    destruct (Hedge v w cv Hv Hcv Hsw) as [[-> Hw]|(cw & Hcw & Hw)].
    - destruct (decide (w = nbr)) as [->|Hne].
      + right. exists cn. split; [done|].
        assert (cv = c) as -> by congruence. done.
      + left. split; [done|]. apply not_elem_of_app. split; [done|].
        by intros ->%list_elem_of_singleton.
    - right. destruct (Hdecr w cw Hcw) as (cw' & Hcw' & Hle').
      exists cw'. split; [done|]. by eapply c_le_trans. }
  unfold ucs_relax. fold new.
  destruct (match cost !! nbr with
            | Some old => c_lt new old
            | None => true
            end) eqn:Hupd.
  - (* the neighbour gets a new cost and a new entry *)
    assert (nbr ∉ vis) as Hnv.
    { intros Hn.
      destruct (proj1 (Hdom nbr) (parent_tree_vis_dom _ _ _ _ _ Htree Hn))
        as [old Hold].
      rewrite Hold in Hupd.
      pose proof (Hmax nbr old Hn Hold) as Hle.
      pose proof (c_le_trans _ _ _ Hle Hnew) as Hle'.
      unfold c_le in Hle'. congruence. }
    assert (nbr ≠ start grid) as Hns by (intros ->; done).
    assert (nbr ≠ cur) as Hnc by (intros ->; done).
    pose proof (heappush_perm heap (new, (counter + 1)%Z, nbr)) as Hperm.
    eexists _, _, _, _. split; [done|]. split_and!.
    + split.
      * by apply parent_tree_set.
      * intros x. destruct (decide (x = nbr)) as [->|Hne].
        -- by rewrite !lookup_insert_eq.
        -- by rewrite !lookup_insert_ne.
      * by rewrite lookup_insert_ne.
      * intros n p Hn. destruct (decide (n = nbr)) as [->|Hne].
        -- rewrite lookup_insert_eq in Hn. injection Hn as <-.
           exists c. rewrite lookup_insert_ne by done.
           by rewrite lookup_insert_eq.
        -- rewrite lookup_insert_ne in Hn by done.
           destruct (Hpar n p Hn) as (cp & Hcp & Hcn).
           destruct (parent_tree_parent _ _ _ _ _ _ Htree Hn) as [Hpv _].
           exists cp. rewrite !lookup_insert_ne; [done|done|].
           by intros ->.
      * intros c1 k1 n Hn. rewrite Hperm in Hn.
        apply elem_of_cons in Hn as [[= -> -> ->]|Hn].
        -- split; [by apply step_valid in Hstep|].
           exists new. rewrite lookup_insert_eq. by auto.
        -- destruct (Hentry c1 k1 n Hn) as (Hv & cn & Hcn & Hc1).
           split; [done|]. destruct (decide (n = nbr)) as [->|Hne].
           ++ exists new. rewrite lookup_insert_eq. split; [done|].
              rewrite Hcn in Hupd. right.
              destruct Hc1 as [->|Hlt]; [done|].
              by apply (c_lt_trans _ cn).
           ++ exists cn. by rewrite lookup_insert_ne.
      * intros n cn Hcn Hn. destruct (decide (n = nbr)) as [->|Hne].
        -- rewrite lookup_insert_eq in Hcn. injection Hcn as <-.
           exists (counter + 1)%Z. rewrite Hperm. left.
        -- rewrite lookup_insert_ne in Hcn by done.
           destruct (Hpend n cn Hcn Hn) as [k1 Hk1]. exists k1.
           rewrite Hperm. by right.
      * intros v cv c1 k1 n Hv Hcv Hn.
        rewrite lookup_insert_ne in Hcv by (by intros ->).
        rewrite Hperm in Hn. apply elem_of_cons in Hn as [[= -> -> ->]|Hn].
        -- eapply c_le_trans; [by apply (Hmax v)|done].
        -- by apply (Hmono v cv c1 k1 n).
      * apply Hedge'.
        -- intros v Hv. apply lookup_insert_ne. by intros ->.
        -- intros w cw Hcw. destruct (decide (w = nbr)) as [->|Hne].
           ++ exists new. rewrite lookup_insert_eq. split; [done|].
              rewrite Hcw in Hupd. by apply c_lt_le.
           ++ exists cw. rewrite lookup_insert_ne by done.
              split; [done|apply c_le_refl].
        -- exists new. rewrite lookup_insert_eq. split; [done|apply c_le_refl].
      * by apply heappush_heap.
      * done.
      * done.
    + by rewrite lookup_insert_ne.
    + intros v cv Hv Hcv. rewrite lookup_insert_ne in Hcv by (by intros ->).
      by apply (Hmax v).
    + by rewrite Hperm.
  - (* the recorded cost is not above the new one *)
    destruct (cost !! nbr) as [old|] eqn:Hold; [|done].
    eexists _, _, _, _. split; [done|]. split_and!; [|done|done|lia].
    split; try done.
    apply Hedge'; [done| |].
    + intros w cw Hcw. exists cw. split; [done|apply c_le_refl].
    + exists old. done.
Qed.

Lemma ucs_relax_foldl (grid : Grid) (vis : gset Pos) cur c
    (l : list (Pos * C)) :
  ∀ done cost counter heap cf,
  (∀ e, e ∈ l → step grid cur e.1 ∧ e.2 = move_cost cur e.1) →
  ucs_core grid vis cost heap cf (todo_from cur done) →
  cur ∈ vis → start grid ∈ vis → cost !! cur = Some c →
  (∀ v cv, v ∈ vis → cost !! v = Some cv → c_le cv c) →
  ∃ cost' counter' heap' cf',
    foldl (ucs_relax cur c) (cost, counter, heap, cf) l =
      (cost', counter', heap', cf') ∧
    ucs_core grid vis cost' heap' cf' (todo_from cur (done ++ l.*1)) ∧
    length heap' ≤ length heap + length l.
Proof.
  induction l as [|[nbr e] l IH];
    intros done cost counter heap cf Hl Hcore Hcur Hs Hc Hmax.
  - eexists _, _, _, _. split; [done|]. rewrite app_nil_r.
    split; [done|simpl; lia].
  - destruct (Hl (nbr, e)) as [Hstep He]; [left|]. simpl in Hstep, He.
    subst e.
    destruct (ucs_relax_core grid vis cost counter heap cf cur c done nbr
                Hcore Hcur Hs Hc Hmax Hstep)
      as (cost1 & counter1 & heap1 & cf1 & Hrelax & Hcore1 & Hc1 & Hmax1 & Hlen1).
    destruct (IH (done ++ [nbr]) cost1 counter1 heap1 cf1)
      as (cost' & counter' & heap' & cf' & Hfold & Hcore' & Hlen');
      try done.
    { intros e' He'. apply Hl. by right. }
    eexists _, _, _, _. split_and!.
    + cbn [foldl]. rewrite Hrelax. apply Hfold.
    + rewrite fmap_cons. simpl.
      by rewrite <-app_assoc in Hcore'.
    + simpl. lia.
Qed.

Lemma ucs_core_settled (grid : Grid) (vis : gset Pos) cost heap cf
    (todo : Pos → Pos → Prop) :
  ucs_core grid vis cost heap cf todo →
  (∀ v w, step grid v w → ¬ todo v w) →
  ucs_core grid vis cost heap cf (λ _ _, False).
Proof.
  intros [Htree Hdom Hstart Hpar Hentry Hpend Hmono Hedge Hheap Hgoal
          Hstarted] Htodo.
  split; try done.
  intros v w cv Hv Hcv Hsw. right.
  destruct (Hedge v w cv Hv Hcv Hsw) as [Ht|?]; [|done].
  by apply Htodo in Ht.
Qed.

Lemma ucs_init_inv grid :
  is_valid grid (start grid) = true → ucs_inv grid (ucs_init grid).
Proof.
  intros Hs. split; [|apply trace_inv_nil]. simpl. split.
  - apply parent_tree_init.
  - intros x. rewrite !lookup_singleton_is_Some. done.
  - apply lookup_singleton_eq.
  - intros n p Hn. by apply lookup_singleton_Some in Hn as [_ [=]].
  - intros c k n Hn. apply list_elem_of_singleton in Hn as [= -> -> ->].
    split; [done|]. exists c_zero. rewrite lookup_singleton_eq. auto.
  - intros n cn Hcn _. apply lookup_singleton_Some in Hcn as [<- <-].
    exists 0%Z. by apply list_elem_of_singleton.
  - intros v cv c k n Hv. set_solver.
  - intros v w cv Hv. set_solver.
  - apply is_heap_singleton.
  - set_solver.
  - by right.
Qed.

Lemma ucs_body_inv grid st :
  ucs_inv grid st →
  match ucs_body grid st with
  | Some (inl st') =>
      ucs_inv grid st' ∧
      search_measure grid (ucs_visited st') (length (ucs_heap st')) <
      search_measure grid (ucs_visited st) (length (ucs_heap st))
  | Some (inr r) => ucs_post grid r
  | None => False
  end.
Proof.
  intros [Hcore Htrace]. unfold ucs_body.
  destruct (ucs_heap st) as [|e0 h0] eqn:Hheap.
  - (* the frontier is exhausted *)
    assert (¬ reachable grid (start grid) (goal grid)) as Hno.
    { intros [l Hl]. apply (uc_goal _ _ _ _ _ _ Hcore).
      assert (∀ n cn, ucs_cost_so_far st !! n = Some cn →
                n ∈ ucs_visited st) as Hall.
      { intros n cn Hcn. destruct (decide (n ∈ ucs_visited st)); [done|].
        destruct (uc_pending _ _ _ _ _ _ Hcore n cn Hcn) as [k Hk]; [done|].
        by apply elem_of_nil in Hk. }
      apply (route_closed grid _ _ _ _ Hl).
      - apply (Hall _ c_zero). apply (uc_start _ _ _ _ _ _ Hcore).
      - intros v w Hv Hs.
        destruct (proj1 (uc_dom _ _ _ _ _ _ Hcore v)
                    (parent_tree_vis_dom _ _ _ _ _
                       (uc_tree _ _ _ _ _ _ Hcore) Hv)) as [cv Hcv].
        destruct (uc_edge _ _ _ _ _ _ Hcore v w cv Hv Hcv Hs)
          as [[]|(cw & Hcw & _)].
        by apply (Hall w cw). }
    split_and!; simpl; [by eexists|done|].
    intros l Hl. exfalso. apply Hno. by exists l.
  - rewrite <-Hheap in *.
    destruct (heappop_Some (ucs_heap st)) as [[[[c k] cur] h'] Hpop];
      [by rewrite Hheap|].
    rewrite Hpop. simpl.
    pose proof (heappop_perm _ _ _ Hpop) as Hperm.
    assert (length (ucs_heap st) = S (length h')) as Hlen.
    { by rewrite Hperm. }
    case_bool_decide as Hg.
    { (* the goal is popped *)
      assert (cur ∉ ucs_visited st) as Hcur.
      { rewrite Hg. apply (uc_goal _ _ _ _ _ _ Hcore). }
      destruct (ucs_pop _ _ _ _ _ _ _ _ _ Hcore Hpop Hcur)
        as (Hc & Hvalid & Hcf & Hmin).
      destruct (parent_tree_reconstruct_parents _ _ _ _ _
                  (uc_tree _ _ _ _ _ _ Hcore) Hcf)
        as (l & Hl & Hlast & -> & Hroute & _).
      simpl. split_and!; simpl.
      - exists (ucs_visited st). apply trace_inv_record; try done; set_solver.
      - apply path_outcome_route. by rewrite <-Hg.
      - intros l' Hl'.
        rewrite (tree_path_cost (ucs_came_from st) (ucs_cost_so_far st)
                   (start grid) cur l
                   (uc_parent _ _ _ _ _ _ Hcore) (uc_start _ _ _ _ _ _ Hcore)
                   Hl Hlast c Hc).
        apply (ucs_route_bound grid _ _ _ _ c l' cur Hcore Hmin);
          [by rewrite Hg|done]. }
    case_bool_decide as Hv.
    { (* a stale entry *)
      split.
      - split; simpl.
        + by apply (ucs_skip grid _ _ (ucs_heap st) _ c k cur h').
        + apply trace_inv_record; try done; set_solver.
      - simpl. unfold search_measure. lia. }
    (* expansion *)
    destruct (ucs_visit _ _ _ _ _ _ _ _ _ Hcore Hpop Hv Hg)
      as (Hcore1 & Hs & Hmax).
    destruct (ucs_pop _ _ _ _ _ _ _ _ _ Hcore Hpop Hv)
      as (Hc & Hvalid & Hcf & Hmin).
    destruct (ucs_relax_foldl grid (ucs_visited st ∪ {[cur]}) cur c
                (get_neighbors grid cur) [] (ucs_cost_so_far st)
                (ucs_counter st) h' (ucs_came_from st))
      as (cost' & counter' & heap' & cf' & -> & Hcore' & Hlen');
      try done.
    { intros e He. by apply elem_of_get_neighbors. }
    { set_solver. }
    split.
    + split; simpl.
      * apply (ucs_core_settled _ _ _ _ _ _ Hcore').
        intros v w Hsw [-> Hw]. apply Hw. simpl. apply Hsw.
      * apply trace_inv_record; try done; set_solver.
    + simpl. rewrite Hlen.
      pose proof (get_neighbors_length grid cur).
      apply search_measure_visit; [done|done|lia].
Qed.

Lemma ucs_total grid :
  is_valid grid (start grid) = true →
  ∃ r, ucs grid = Some r ∧ ucs_post grid r.
Proof.
  intros Hs. unfold ucs.
  apply (while_loop_inv (ucs_body grid) (ucs_inv grid)
           (λ st, search_measure grid (ucs_visited st)
                    (length (ucs_heap st)))).
  - apply ucs_body_inv.
  - by apply ucs_init_inv.
  - apply search_measure_init.
Qed.

End Ucs.

(** ** The reference instances meet the laws *)

#[export] Instance milli_cost_laws : CostLaws (C := Z).
Proof.
  split; unfold c_le; simpl; intros; rewrite ?Z.ltb_lt, ?Z.ltb_ge in *; lia.
Qed.

Lemma milli_entry_lt_spec (ca ka ra qa cb kb rb qb : Z) :
  entry_lt (C := Z) (ca, ka, (ra, qa)) (cb, kb, (rb, qb)) = true ↔
  (ca < cb ∨ (ca = cb ∧ (ka < kb ∨ (ka = kb ∧
    (ra < rb ∨ (ra = rb ∧ qa < qb))))))%Z.
Proof.
  unfold entry_lt, c_eqb, pos_lt. simpl.
  destruct (Z.ltb_spec ca cb), (Z.ltb_spec cb ca), (Z.eqb_spec ka kb),
    (Z.ltb_spec ka kb), (Z.ltb_spec ra rb), (Z.eqb_spec ra rb),
    (Z.ltb_spec qa qb); simpl; split; intros; try done; try lia.
Qed.

Lemma milli_entry_lt_asym (a b : Z * Z * Pos) :
  entry_lt (C := Z) a b = true → entry_lt (C := Z) b a = false.
Proof.
  destruct a as [[ca ka] [ra qa]], b as [[cb kb] [rb qb]].
  intros Hab. apply not_true_is_false. revert Hab.
  rewrite !milli_entry_lt_spec. lia.
Qed.

Lemma milli_entry_lt_trans (a b c : Z * Z * Pos) :
  entry_lt (C := Z) a b = true → entry_lt (C := Z) b c = true →
  entry_lt (C := Z) a c = true.
Proof.
  destruct a as [[ca ka] [ra qa]], b as [[cb kb] [rb qb]],
    c as [[cc kc] [rc qc]].
  rewrite !milli_entry_lt_spec. lia.
Qed.

Section SortedHeap.

Context {A : Type} (lt : A → A → bool).
Context (lt_asym : ∀ a b, lt a b = true → lt b a = false).
Context (lt_trans : ∀ a b c, lt a b = true → lt b c = true → lt a c = true).

Lemma sorted_insert_perm x h : sorted_insert lt x h ≡ₚ x :: h.
Proof.
  induction h as [|y h IH]; simpl; [done|].
  destruct (lt x y); [done|]. rewrite IH. apply Permutation_swap.
Qed.

Lemma sorted_insert_sorted x h :
  heap_sorted lt h → heap_sorted lt (sorted_insert lt x h).
Proof.
  induction h as [|y h IH]; simpl.
  - intros _. split; [|done]. intros z Hz. by apply elem_of_nil in Hz.
  - intros [Hy Hh]. destruct (lt x y) eqn:Hxy; simpl.
    + split; [|done]. intros z Hz. apply elem_of_cons in Hz as [->|Hz].
      * by apply lt_asym.
      * destruct (lt z x) eqn:Hzx; [|done].
        rewrite <-(Hy z Hz). symmetry. by apply (lt_trans z x y).
    + split; [|by apply IH]. intros z Hz.
      rewrite sorted_insert_perm in Hz.
      apply elem_of_cons in Hz as [->|Hz]; [done|by apply Hy].
Qed.

End SortedHeap.

#[export] Instance milli_heapq_laws : HeapQLaws (C := Z).
Proof.
  refine {| is_heap := heap_sorted (entry_lt (C := Z)) |}.
  - done.
  - intros x. simpl. split; [|done]. intros y Hy. by apply elem_of_nil in Hy.
  - intros h x. apply sorted_insert_sorted.
    + apply milli_entry_lt_asym.
    + apply milli_entry_lt_trans.
  - intros h x. apply sorted_insert_perm.
  - intros [|x h] Hne; [done|]. by eexists.
  - intros [|y h] x h'; [done|]. simpl. intros [_ Hh] [= <- <-]. done.
  - intros [|y h] x h'; [done|]. simpl. by intros [= <- <-].
  - intros [|z h] x h' y; [done|]. simpl. intros [Hz _] [= <- <-]. apply Hz.
Qed.

(** * The results of the six strategies *)

Section Results.

Context {C : Type} `{Cost C} `{HeapQ (C * Z * Pos)} `{!CostLaws}
  `{!HeapQLaws}.

Lemma path_outcome_nonempty grid path :
  path_outcome grid path → path ≠ [] →
  route grid (start grid) (goal grid) path.
Proof. by destruct path. Qed.

Lemma path_outcome_empty_iff grid path :
  path_outcome grid path →
  (path = [] ↔ ¬ reachable grid (start grid) (goal grid)).
Proof.
  destruct path as [|p path]; simpl.
  - tauto.
  - intros Hr. split; [done|]. intros Hno. exfalso. apply Hno. by eexists.
Qed.

Lemma bfs_returns grid :
  is_valid grid (start grid) = true →
  returns (bfs grid) (λ steps path, bfs_post grid (steps, path)).
Proof.
  intros Hs. destruct (bfs_total grid Hs) as ([steps path] & Hr & Hp).
  by exists steps, path.
Qed.

Lemma dfs_returns grid :
  is_valid grid (start grid) = true →
  returns (dfs grid) (λ steps path, dfs_post grid (steps, path)).
Proof.
  intros Hs. destruct (dfs_total grid Hs) as ([steps path] & Hr & Hp).
  by exists steps, path.
Qed.

Lemma ucs_returns grid :
  is_valid grid (start grid) = true →
  returns (ucs grid) (λ steps path, ucs_post grid (steps, path)).
Proof.
  intros Hs. destruct (ucs_total grid Hs) as ([steps path] & Hr & Hp).
  by exists steps, path.
Qed.

Lemma dls_returns grid limit :
  is_valid grid (start grid) = true → is_valid grid (goal grid) = true →
  returns (dls grid limit) (λ steps path, dls_post grid limit (steps, path)).
Proof.
  intros Hs Hg.
  destruct (dls_total grid limit Hs Hg) as ([steps path] & Hr & Hp).
  by exists steps, path.
Qed.

Lemma bidirectional_returns grid :
  is_valid grid (start grid) = true → is_valid grid (goal grid) = true →
  returns (bidirectional grid)
    (λ steps path, bidi_post grid (steps, path)).
Proof.
  intros Hs Hg. destruct (bidi_total grid Hs Hg) as ([steps path] & Hr & Hp).
  by exists steps, path.
Qed.

Lemma iddfs_returns grid :
  is_valid grid (start grid) = true → is_valid grid (goal grid) = true →
  returns (iddfs grid) (λ steps path,
    ∃ traces, steps = concat traces ∧
              iddfs_run grid (seqZ 0 (ROWS * COLS)) traces path).
Proof.
  intros Hs Hg.
  destruct (iddfs_loop_run grid (seqZ 0 (ROWS * COLS)) [] Hs Hg)
    as (traces & path & Hr & Hrun).
  exists (concat traces), path. split; [done|]. by exists traces.
Qed.

Lemma iddfs_run_route grid limits traces path :
  is_valid grid (start grid) = true → is_valid grid (goal grid) = true →
  iddfs_run grid limits traces path → path ≠ [] →
  route grid (start grid) (goal grid) path.
Proof.
  intros Hs Hg Hrun Hne.
  destruct (iddfs_run_path grid limits traces path Hrun Hne)
    as (k & t & _ & Hd).
  by apply (dls_result_post grid k t path Hs Hg Hd).
Qed.

Lemma iddfs_run_complete grid traces path :
  is_valid grid (start grid) = true → is_valid grid (goal grid) = true →
  iddfs_run grid (seqZ 0 (ROWS * COLS)) traces path →
  (Z.of_nat (size (valid_cells grid)) ≤ ROWS * COLS)%Z →
  path = [] → ¬ reachable grid (start grid) (goal grid).
Proof.
  intros Hs Hg Hrun Hsmall Hp.
  destruct (iddfs_run_empty grid _ traces path Hrun Hp _ last_limit_mem)
    as [t Hd].
  apply (dls_result_post grid _ t [] Hs Hg) in Hd as (_ & _ & Hd).
  apply Hd; [simpl; lia|done].
Qed.

Lemma iddfs_run_dls_traces grid limits traces path :
  is_valid grid (start grid) = true → is_valid grid (goal grid) = true →
  iddfs_run grid limits traces path →
  Forall (λ t, ∃ vis, trace_inv t vis) traces.
Proof.
  intros Hs Hg Hrun. apply iddfs_run_traces in Hrun.
  apply Forall_forall. intros t Ht.
  apply list_elem_of_lookup in Ht as [i Ht].
  destruct (Forall2_lookup_r _ _ _ i t Hrun Ht) as (k & _ & p & Hd).
  by apply (dls_result_post grid k t p Hs Hg Hd).
Qed.

End Results.

(** * The claims of the specification *)

Lemma returns_impl (r : option Result) (P Q : list Step → list Pos → Prop) :
  returns r P → (∀ steps path, P steps path → Q steps path) → returns r Q.
Proof. intros (steps & path & Hr & HP) HPQ. exists steps, path. auto. Qed.

Lemma is_valid_iff grid p :
  is_valid grid p = true ↔ in_bounds grid p ∧ p ∉ walls grid.
Proof.
  destruct p as [r c]. unfold is_valid, in_bounds. simpl.
  destruct (r <? 0)%Z eqn:E1, (r >=? rows grid)%Z eqn:E2,
    (c <? 0)%Z eqn:E3, (c >=? cols grid)%Z eqn:E4; simpl;
    try (split; [done|lia]).
  case_bool_decide; split; try done; try tauto. intros _. split; [lia|done].
Qed.

Lemma chain_check_true {C} `{Cost C} grid l :
  chain_check grid l = true → chain (step grid) l.
Proof.
  induction l as [|p [|q l] IH]; simpl; try done.
  intros [Hq Hl]%andb_true_iff. split; [|by apply IH].
  by apply bool_decide_eq_true in Hq.
Qed.

Section Claims.

Context {C : Type} `{Cost C} `{HeapQ (C * Z * Pos)} `{!CostLaws}
  `{!HeapQLaws}.

(** C1.  For each of the six search functions ([bfs], [dfs], [ucs], [dls]
    at any limit, [iddfs], [bidirectional]) run on a grid whose start and
    goal can be entered, the function returns, and if the returned path is
    not empty then it is a route: its first position is the start, its last
    the goal, and each position is followed by one that [get_neighbors]
    returns for it. *)
Theorem C1_returned_path_is_route grid limit :
  is_valid grid (start grid) = true → is_valid grid (goal grid) = true →
  let is_route (_ : list Step) (path : list Pos) :=
    path ≠ [] → route grid (start grid) (goal grid) path in
  returns (bfs grid) is_route ∧ returns (dfs grid) is_route ∧
  returns (ucs grid) is_route ∧ returns (dls grid limit) is_route ∧
  returns (iddfs grid) is_route ∧ returns (bidirectional grid) is_route.
Proof.
  intros Hs Hg is_route. split_and!.
  - apply (returns_impl _ _ _ (bfs_returns grid Hs)).
    intros steps path [_ Hp _ _ _ _ _]. intros Hne. by apply path_outcome_nonempty.
  - apply (returns_impl _ _ _ (dfs_returns grid Hs)).
    intros steps path [_ Hp]. intros Hne. by apply path_outcome_nonempty.
  - apply (returns_impl _ _ _ (ucs_returns grid Hs)).
    intros steps path (_ & Hp & _). intros Hne. by apply path_outcome_nonempty.
  - apply (returns_impl _ _ _ (dls_returns grid limit Hs Hg)).
    intros steps path (_ & Hp & _). intros Hne. by apply Hp.
  - apply (returns_impl _ _ _ (iddfs_returns grid Hs Hg)).
    intros steps path (traces & _ & Hrun). intros Hne.
    by apply (iddfs_run_route grid (seqZ 0 (ROWS * COLS)) traces).
  - apply (returns_impl _ _ _ (bidirectional_returns grid Hs Hg)).
    intros steps path [_ Hp]. intros Hne. by apply path_outcome_nonempty.
Qed.

(** C2.  On a grid without walls whose start and goal are in bounds and
    where the goal can be reached from the start, [bfs] returns a non-empty
    path that is a route from start to goal and has no more edges than any
    route from start to goal over the six moves: its edge count is the
    length of a shortest route. *)
Theorem C2_bfs_shortest_path grid :
  walls grid = ∅ →
  in_bounds grid (start grid) → in_bounds grid (goal grid) →
  reachable grid (start grid) (goal grid) →
  returns (bfs grid) (λ _ path,
    path ≠ [] ∧ route grid (start grid) (goal grid) path ∧
    ∀ l, route grid (start grid) (goal grid) l →
      edge_count path ≤ edge_count l).
Proof.
  intros Hw Hs Hg Hreach.
  assert (is_valid grid (start grid) = true) as Hsv.
  { apply is_valid_iff. rewrite Hw. split; [done|set_solver]. }
  apply (returns_impl _ _ _ (bfs_returns grid Hsv)).
  intros steps path [_ Hp Hshort _ _ _ _]. simpl in *.
  assert (path ≠ []) as Hne.
  { intros ->. by apply Hp. }
  split_and!; [done|by apply path_outcome_nonempty|done].
Qed.

(** C3.  On a grid whose start and goal can be entered and where the goal
    can be reached from the start, [ucs] returns a route from start to goal
    whose accumulated cost (1.0 for each orthogonal move, 1.414 for each
    diagonal move, added up from the start) is not above the cost of any
    other route from start to goal. *)
Theorem C3_ucs_minimal_cost grid :
  is_valid grid (start grid) = true → is_valid grid (goal grid) = true →
  reachable grid (start grid) (goal grid) →
  returns (ucs grid) (λ _ path,
    route grid (start grid) (goal grid) path ∧
    ∀ l, route grid (start grid) (goal grid) l →
      c_le (path_cost path) (path_cost l)).
Proof.
  intros Hs Hg Hreach.
  apply (returns_impl _ _ _ (ucs_returns grid Hs)).
  intros steps path (_ & Hp & Hmin). simpl in *. split; [|done].
  apply path_outcome_nonempty; [done|]. intros ->. by apply Hp.
Qed.

(** C5 (amended).  Each of the six search functions, run on a grid whose
    start and goal can be entered, returns a trace and a path, never a
    failure.  For [bfs], [dfs], [ucs] and [bidirectional] the path is empty
    exactly when no route leads from start to goal.  For [dls] and [iddfs]
    the path is empty whenever no route exists, and exactly then when the
    depth bound covers the grid: a limit of at least the number of cells
    that can be entered less one for [dls], at most [ROWS * COLS] such
    cells for [iddfs]. *)
Theorem C5_empty_path_and_routes grid limit :
  is_valid grid (start grid) = true → is_valid grid (goal grid) = true →
  let no_route := ¬ reachable grid (start grid) (goal grid) in
  let exact (_ : list Step) (path : list Pos) := path = [] ↔ no_route in
  returns (bfs grid) exact ∧ returns (dfs grid) exact ∧
  returns (ucs grid) exact ∧ returns (bidirectional grid) exact ∧
  returns (dls grid limit) (λ _ path,
    (no_route → path = []) ∧
    ((Z.of_nat (size (valid_cells grid)) ≤ limit + 1)%Z →
     (path = [] ↔ no_route))) ∧
  returns (iddfs grid) (λ _ path,
    (no_route → path = []) ∧
    ((Z.of_nat (size (valid_cells grid)) ≤ ROWS * COLS)%Z →
     (path = [] ↔ no_route))).
Proof.
  intros Hs Hg no_route exact. split_and!.
  - apply (returns_impl _ _ _ (bfs_returns grid Hs)).
    intros steps path [_ Hp _ _ _ _ _]. by apply path_outcome_empty_iff.
  - apply (returns_impl _ _ _ (dfs_returns grid Hs)).
    intros steps path [_ Hp]. by apply path_outcome_empty_iff.
  - apply (returns_impl _ _ _ (ucs_returns grid Hs)).
    intros steps path (_ & Hp & _). by apply path_outcome_empty_iff.
  - apply (returns_impl _ _ _ (bidirectional_returns grid Hs Hg)).
    intros steps path [_ Hp]. by apply path_outcome_empty_iff.
  - apply (returns_impl _ _ _ (dls_returns grid limit Hs Hg)).
    intros steps path (_ & Hroute & Hcomplete). simpl in *.
    assert (no_route → path = []) as Hno.
    { intros Hno. destruct path as [|p path]; [done|].
      exfalso. apply Hno. eexists. by apply Hroute. }
    split; [done|]. intros Hbig. split; [by apply Hcomplete|done].
  - apply (returns_impl _ _ _ (iddfs_returns grid Hs Hg)).
    intros steps path (traces & _ & Hrun).
    assert (no_route → path = []) as Hno.
    { intros Hno. destruct path as [|p path]; [done|].
      exfalso. apply Hno. eexists.
      by apply (iddfs_run_route grid (seqZ 0 (ROWS * COLS)) traces). }
    split; [done|]. intros Hsmall. split; [|done].
    by apply (iddfs_run_complete grid traces).
Qed.

(** C6 (amended).  For [bfs], [dfs], [ucs], [dls] (at any limit) and
    [bidirectional], run on a grid whose start and goal can be entered, the
    sizes of the visited snapshots never decrease from a step of the
    returned trace to the next.  The trace of [iddfs] is the concatenation
    of the traces of [dls] at the limits 0, 1, 2, ... in order, and the sizes
    never decrease inside each of these traces. *)
Theorem C6_visited_sizes grid limit :
  is_valid grid (start grid) = true → is_valid grid (goal grid) = true →
  let monotone (steps : list Step) (_ : list Pos) :=
    sizes_nondecreasing steps in
  returns (bfs grid) monotone ∧ returns (dfs grid) monotone ∧
  returns (ucs grid) monotone ∧ returns (dls grid limit) monotone ∧
  returns (bidirectional grid) monotone ∧
  returns (iddfs grid) (λ steps _,
    ∃ traces, steps = concat traces ∧
      Forall2 (λ k t, ∃ p, dls grid k = Some (t, p))
        (take (length traces) (seqZ 0 (ROWS * COLS))) traces ∧
      Forall sizes_nondecreasing traces).
Proof.
  intros Hs Hg monotone. split_and!.
  - apply (returns_impl _ _ _ (bfs_returns grid Hs)).
    intros steps path [[vis Ht] _ _ _ _ _ _]. by apply (trace_inv_sizes _ vis).
  - apply (returns_impl _ _ _ (dfs_returns grid Hs)).
    intros steps path [[vis Ht] _]. by apply (trace_inv_sizes _ vis).
  - apply (returns_impl _ _ _ (ucs_returns grid Hs)).
    intros steps path ([vis Ht] & _). by apply (trace_inv_sizes _ vis).
  - apply (returns_impl _ _ _ (dls_returns grid limit Hs Hg)).
    intros steps path ([vis Ht] & _). by apply (trace_inv_sizes _ vis).
  - apply (returns_impl _ _ _ (bidirectional_returns grid Hs Hg)).
    intros steps path [[vis Ht] _]. apply sizes_nondecreasing_mono.
    apply (bt_mono _ _ _ Ht).
  - apply (returns_impl _ _ _ (iddfs_returns grid Hs Hg)).
    intros steps path (traces & -> & Hrun). exists traces.
    split_and!; [done|by apply (iddfs_run_traces grid _ traces path)|].
    pose proof (iddfs_run_dls_traces grid _ traces path Hs Hg Hrun) as Hall.
    eapply Forall_impl; [apply Hall|]. intros t [vis Ht].
    by apply (trace_inv_sizes _ vis).
Qed.

(** C7 (amended).  For [bfs], [dfs], [ucs], [dls] (at any limit) and [iddfs],
    run on a grid whose start and goal can be entered, every position of the
    visited snapshot of a step is the current node of an earlier step of the
    returned trace.  For [bidirectional], which marks a position as visited
    when it is put on a queue, every position of a visited snapshot is the
    start, the goal, or a neighbour of the current node of an earlier
    step. *)
Theorem C7_visited_positions grid limit :
  is_valid grid (start grid) = true → is_valid grid (goal grid) = true →
  let popped (steps : list Step) (_ : list Pos) := popped_first steps in
  returns (bfs grid) popped ∧ returns (dfs grid) popped ∧
  returns (ucs grid) popped ∧ returns (dls grid limit) popped ∧
  returns (iddfs grid) popped ∧
  returns (bidirectional grid) (λ steps _, discovered_first grid steps).
Proof.
  intros Hs Hg popped. split_and!.
  - apply (returns_impl _ _ _ (bfs_returns grid Hs)).
    intros steps path [[vis Ht] _ _ _ _ _ _]. apply (tr_popped _ _ Ht).
  - apply (returns_impl _ _ _ (dfs_returns grid Hs)).
    intros steps path [[vis Ht] _]. apply (tr_popped _ _ Ht).
  - apply (returns_impl _ _ _ (ucs_returns grid Hs)).
    intros steps path ([vis Ht] & _). apply (tr_popped _ _ Ht).
  - apply (returns_impl _ _ _ (dls_returns grid limit Hs Hg)).
    intros steps path ([vis Ht] & _). apply (tr_popped _ _ Ht).
  - apply (returns_impl _ _ _ (iddfs_returns grid Hs Hg)).
    intros steps path (traces & -> & Hrun).
    pose proof (iddfs_run_dls_traces grid _ traces path Hs Hg Hrun) as Hall.
    unfold popped. clear Hrun. induction Hall as [|t traces [vis Ht] _ IH].
    + by intros i s p Hi.
    + simpl. apply popped_first_app; [apply (tr_popped _ _ Ht)|done].
  - apply (returns_impl _ _ _ (bidirectional_returns grid Hs Hg)).
    intros steps path [[vis Ht] _]. apply (bt_first _ _ _ Ht).
Qed.

(** C8.  For every grid and every position [(r, c)], [get_neighbors] returns
    the cells that can be entered among the six candidates up, right, down,
    down-right, left, up-left, in this order, with the cost 1.0 attached to
    the four orthogonal moves and the cost 1.414 to the two diagonal moves;
    a cell can be entered exactly when it is in bounds and not a wall. *)
Theorem C8_get_neighbors grid r c :
  get_neighbors grid (r, c) =
    filter (λ e, is_valid grid e.1 = true)
      [((r - 1, c), c_orth); ((r, c + 1), c_orth); ((r + 1, c), c_orth);
       ((r + 1, c + 1), c_diag); ((r, c - 1), c_orth);
       ((r - 1, c - 1), c_diag)]%Z ∧
  ∀ p, is_valid grid p = true ↔ in_bounds grid p ∧ p ∉ walls grid.
Proof.
  split; [|apply is_valid_iff].
  unfold get_neighbors, DIRECTIONS. cbn [foldl].
  replace (r + -1)%Z with (r - 1)%Z by lia.
  replace (c + -1)%Z with (c - 1)%Z by lia.
  replace (r + 0)%Z with r by lia. replace (c + 0)%Z with c by lia.
  rewrite !filter_cons, filter_nil. cbn [fst].
  destruct (is_valid grid ((r - 1)%Z, c)), (is_valid grid (r, (c + 1)%Z)),
    (is_valid grid ((r + 1)%Z, c)), (is_valid grid ((r + 1)%Z, (c + 1)%Z)),
    (is_valid grid (r, (c - 1)%Z)), (is_valid grid ((r - 1)%Z, (c - 1)%Z));
    reflexivity.
Qed.

(** C10.  In [bfs], on a grid whose start and goal can be entered, every
    position is put on the queue at most once: at every step the nodes popped
    so far followed by the frontier of the step are pairwise distinct, and
    from a step to the next the frontier only grows at its end.  Hence every
    position is the current node of at most one step, the current node of a
    step is never in the visited set of that step (the skip branch is never
    taken), and the number of steps is the number of distinct popped
    positions. *)
Theorem C10_bfs_enqueues_once grid :
  is_valid grid (start grid) = true → is_valid grid (goal grid) = true →
  returns (bfs grid) (λ steps _,
    enqueued_once steps ∧ frontier_grows steps ∧
    NoDup (current <$> steps) ∧ fresh_pops steps ∧
    length steps = size (list_to_set (current <$> steps) : gset Pos)).
Proof.
  intros Hs Hg.
  apply (returns_impl _ _ _ (bfs_returns grid Hs)).
  intros steps path [_ _ _ Hfresh Honce Hgrows Hnd]. simpl in *.
  split_and!; try done.
  by rewrite size_list_to_set, length_fmap.
Qed.

End Claims.

(** * The claims on the sample grids *)

Lemma build_grid_reachable :
  reachable (C := Z) build_grid (start build_grid) (goal build_grid).
Proof.
  exists [(1, 1); (2, 1); (3, 1); (4, 2); (5, 3); (6, 4); (7, 5); (7, 6);
          (7, 7); (8, 8)]%Z.
  split_and!; [reflexivity|reflexivity|].
  apply chain_check_true. vm_compute. reflexivity.
Qed.

Lemma corridor_grid_reachable :
  reachable (C := Z) corridor_grid (start corridor_grid) (goal corridor_grid).
Proof.
  exists [(0, 0); (0, 1); (0, 2)]%Z.
  split_and!; [reflexivity|reflexivity|].
  apply chain_check_true. vm_compute. reflexivity.
Qed.

(** C4 (code bug).  [dls] run on the reference grid with the limit 15, as
    [run_dls] does, returns a path of 18 cells, two more than the 16 cells
    that the limit allows: the parent map keeps the parent of the first
    discovery of a cell, also when the cell is expanded from a stack entry
    pushed later at a smaller depth. *)
Theorem C4_dls_path_exceeds_limit :
  is_valid build_grid (start build_grid) = true ∧
  is_valid build_grid (goal build_grid) = true ∧
  returns (dls (C := Z) build_grid 15) (λ _ path,
    route (C := Z) build_grid (start build_grid) (goal build_grid) path ∧
    length path = 18).
Proof.
  split_and!; [vm_compute; reflexivity..|].
  eexists _, _. split; [vm_compute; reflexivity|].
  split; [|reflexivity].
  split_and!; [reflexivity|reflexivity|].
  apply chain_check_true. vm_compute. reflexivity.
Qed.

(** The same on a ring of six cells: the goal lies two moves from the start,
    and [dls] with the limit 4 returns a path of 6 cells. *)
Lemma dls_ring_path_exceeds_limit :
  returns (dls (C := Z) ring_grid 4) (λ _ path,
    path = [(1, 2); (2, 3); (3, 3); (3, 2); (2, 1); (2, 0)]%Z).
Proof. eexists _, _. split; [vm_compute; reflexivity|reflexivity]. Qed.

Lemma C5_counterexample :
  is_valid corridor_grid (start corridor_grid) = true ∧
  is_valid corridor_grid (goal corridor_grid) = true ∧
  returns (dls (C := Z) corridor_grid 1) (λ _ path, path = []) ∧
  reachable (C := Z) corridor_grid (start corridor_grid) (goal corridor_grid).
Proof.
  split_and!; [vm_compute; reflexivity..| |apply corridor_grid_reachable].
  eexists _, _. split; [vm_compute; reflexivity|reflexivity].
Qed.

Lemma C6_counterexample :
  is_valid corridor_grid (start corridor_grid) = true ∧
  is_valid corridor_grid (goal corridor_grid) = true ∧
  returns (iddfs (C := Z) corridor_grid) (λ steps _,
    ¬ sizes_nondecreasing steps).
Proof.
  split_and!; [vm_compute; reflexivity..|].
  eexists _, _. split; [vm_compute; reflexivity|].
  intros Hm. specialize (Hm 2 _ _ eq_refl eq_refl). vm_compute in Hm. lia.
Qed.

Lemma C7_counterexample :
  is_valid corridor_grid (start corridor_grid) = true ∧
  is_valid corridor_grid (goal corridor_grid) = true ∧
  returns (bidirectional (C := Z) corridor_grid) (λ steps _,
    ¬ popped_first steps).
Proof.
  split_and!; [vm_compute; reflexivity..|].
  eexists _, _. split; [vm_compute; reflexivity|].
  intros Hp.
  destruct (Hp 0 _ (goal corridor_grid) eq_refl) as (j & s' & Hj & _); [|lia].
  apply elem_of_elements. vm_compute. repeat constructor.
Qed.

(** ** The theorems at the reference grid *)

Lemma C1_witness :
  is_valid build_grid (start build_grid) = true ∧
  is_valid build_grid (goal build_grid) = true ∧
  (let is_route (_ : list Step) (path : list Pos) :=
     path ≠ [] →
     route (C := Z) build_grid (start build_grid) (goal build_grid) path in
   returns (bfs (C := Z) build_grid) is_route ∧
   returns (dfs (C := Z) build_grid) is_route ∧
   returns (ucs (C := Z) build_grid) is_route ∧
   returns (dls (C := Z) build_grid 15) is_route ∧
   returns (iddfs (C := Z) build_grid) is_route ∧
   returns (bidirectional (C := Z) build_grid) is_route).
Proof.
  split; [|split]; [vm_compute; reflexivity..|].
  apply (C1_returned_path_is_route (C := Z) build_grid 15);
    vm_compute; reflexivity.
Defined.

Lemma C2_witness :
  walls corridor_grid = ∅ ∧
  in_bounds corridor_grid (start corridor_grid) ∧
  in_bounds corridor_grid (goal corridor_grid) ∧
  reachable (C := Z) corridor_grid (start corridor_grid)
    (goal corridor_grid) ∧
  returns (bfs (C := Z) corridor_grid) (λ _ path,
    path ≠ [] ∧
    route (C := Z) corridor_grid (start corridor_grid)
      (goal corridor_grid) path ∧
    ∀ l, route (C := Z) corridor_grid (start corridor_grid)
           (goal corridor_grid) l →
      edge_count path ≤ edge_count l).
Proof.
  assert (in_bounds corridor_grid (start corridor_grid)) as Hs.
  { unfold in_bounds. simpl. lia. }
  assert (in_bounds corridor_grid (goal corridor_grid)) as Hg.
  { unfold in_bounds. simpl. lia. }
  split; [|split; [|split; [|split]]];
    [reflexivity|exact Hs|exact Hg|exact corridor_grid_reachable|].
  exact (C2_bfs_shortest_path (C := Z) corridor_grid eq_refl Hs Hg
           corridor_grid_reachable).
Defined.

Lemma C3_witness :
  is_valid build_grid (start build_grid) = true ∧
  is_valid build_grid (goal build_grid) = true ∧
  reachable (C := Z) build_grid (start build_grid) (goal build_grid) ∧
  returns (ucs (C := Z) build_grid) (λ _ path,
    route (C := Z) build_grid (start build_grid) (goal build_grid) path ∧
    ∀ l, route (C := Z) build_grid (start build_grid) (goal build_grid) l →
      c_le (C := Z) (path_cost path) (path_cost l)).
Proof.
  split; [|split; [|split]];
    [vm_compute; reflexivity..|exact build_grid_reachable|].
  apply (C3_ucs_minimal_cost (C := Z) build_grid);
    [vm_compute; reflexivity..|exact build_grid_reachable].
Defined.

Lemma C5_witness :
  is_valid build_grid (start build_grid) = true ∧
  is_valid build_grid (goal build_grid) = true ∧
  (let no_route :=
     ¬ reachable (C := Z) build_grid (start build_grid) (goal build_grid) in
   let exact (_ : list Step) (path : list Pos) := path = [] ↔ no_route in
   returns (bfs (C := Z) build_grid) exact ∧
   returns (dfs (C := Z) build_grid) exact ∧
   returns (ucs (C := Z) build_grid) exact ∧
   returns (bidirectional (C := Z) build_grid) exact ∧
   returns (dls (C := Z) build_grid 15) (λ _ path,
     (no_route → path = []) ∧
     ((Z.of_nat (size (valid_cells build_grid)) ≤ 15 + 1)%Z →
      (path = [] ↔ no_route))) ∧
   returns (iddfs (C := Z) build_grid) (λ _ path,
     (no_route → path = []) ∧
     ((Z.of_nat (size (valid_cells build_grid)) ≤ ROWS * COLS)%Z →
      (path = [] ↔ no_route)))).
Proof.
  split; [|split]; [vm_compute; reflexivity..|].
  apply (C5_empty_path_and_routes (C := Z) build_grid 15);
    vm_compute; reflexivity.
Defined.

Lemma C6_witness :
  is_valid build_grid (start build_grid) = true ∧
  is_valid build_grid (goal build_grid) = true ∧
  (let monotone (steps : list Step) (_ : list Pos) :=
     sizes_nondecreasing steps in
   returns (bfs (C := Z) build_grid) monotone ∧
   returns (dfs (C := Z) build_grid) monotone ∧
   returns (ucs (C := Z) build_grid) monotone ∧
   returns (dls (C := Z) build_grid 15) monotone ∧
   returns (bidirectional (C := Z) build_grid) monotone ∧
   returns (iddfs (C := Z) build_grid) (λ steps _,
     ∃ traces, steps = concat traces ∧
       Forall2 (λ k t, ∃ p, dls (C := Z) build_grid k = Some (t, p))
         (take (length traces) (seqZ 0 (ROWS * COLS))) traces ∧
       Forall sizes_nondecreasing traces)).
Proof.
  split; [|split]; [vm_compute; reflexivity..|].
  apply (C6_visited_sizes (C := Z) build_grid 15); vm_compute; reflexivity.
Defined.

Lemma C7_witness :
  is_valid build_grid (start build_grid) = true ∧
  is_valid build_grid (goal build_grid) = true ∧
  (let popped (steps : list Step) (_ : list Pos) := popped_first steps in
   returns (bfs (C := Z) build_grid) popped ∧
   returns (dfs (C := Z) build_grid) popped ∧
   returns (ucs (C := Z) build_grid) popped ∧
   returns (dls (C := Z) build_grid 15) popped ∧
   returns (iddfs (C := Z) build_grid) popped ∧
   returns (bidirectional (C := Z) build_grid) (λ steps _,
     discovered_first (C := Z) build_grid steps)).
Proof.
  split; [|split]; [vm_compute; reflexivity..|].
  apply (C7_visited_positions (C := Z) build_grid 15);
    vm_compute; reflexivity.
Defined.

Lemma C10_witness :
  is_valid build_grid (start build_grid) = true ∧
  is_valid build_grid (goal build_grid) = true ∧
  returns (bfs (C := Z) build_grid) (λ steps _,
    enqueued_once steps ∧ frontier_grows steps ∧
    NoDup (current <$> steps) ∧ fresh_pops steps ∧
    length steps = size (list_to_set (current <$> steps) : gset Pos)).
Proof.
  split; [|split]; [vm_compute; reflexivity..|].
  apply (C10_bfs_enqueues_once (C := Z) build_grid); vm_compute; reflexivity.
Defined.

(** * Further properties of the helpers *)

(** ** Loops: what holds of a returned value *)

Lemma while_loop_post {S R : Type} (body : S → option (S + R))
    (Inv : S → Prop) (Post : R → Prop) :
  (∀ s, Inv s →
     match body s with
     | Some (inl s') => Inv s'
     | Some (inr r) => Post r
     | None => True
     end) →
  ∀ fuel s r, Inv s → while_loop body fuel s = Some r → Post r.
Proof.
  intros Hbody fuel. induction fuel as [|fuel IH]; intros s r Hs Hr; [done|].
  simpl in Hr. specialize (Hbody s Hs).
  destruct (body s) as [[s'|r']|]; [|by injection Hr as <-|done].
  by apply (IH s').
Qed.

(** ** The neighbour generator *)

Section Neighbors.

Context {C : Type} `{Cost C}.

Lemma move_cost_sym (p q : Pos) : move_cost p q = move_cost q p.
Proof.
  unfold move_cost.
  replace (p.1 - q.1 =? 0)%Z with (q.1 - p.1 =? 0)%Z.
  - replace (p.2 - q.2 =? 0)%Z with (q.2 - p.2 =? 0)%Z; [done|].
    destruct (Z.eqb_spec (q.2 - p.2) 0), (Z.eqb_spec (p.2 - q.2) 0);
      try done; lia.
  - destruct (Z.eqb_spec (q.1 - p.1) 0), (Z.eqb_spec (p.1 - q.1) 0);
      try done; lia.
Qed.

Lemma candidates_NoDup (p : Pos) : NoDup (candidates p).
Proof.
  destruct p as [r c]. unfold candidates, DIRECTIONS. simpl.
  repeat (apply NoDup_cons; split;
    [rewrite ?elem_of_cons, elem_of_nil; intros Hx;
     repeat destruct Hx as [Hx|Hx]; try done; injection Hx; lia|]).
  apply NoDup_nil_2.
Qed.

Lemma candidates_near (p q : Pos) :
  q ∈ candidates p →
  (-1 ≤ q.1 - p.1 ≤ 1 ∧ -1 ≤ q.2 - p.2 ≤ 1 ∧ q ≠ p ∧
   0 ≤ (q.1 - p.1) * (q.2 - p.2))%Z.
Proof.
  destruct p as [r c]. unfold candidates, DIRECTIONS. simpl.
  rewrite !elem_of_cons, elem_of_nil. intros Hq.
  repeat destruct Hq as [Hq|Hq]; try done; subst q; simpl;
    (split_and!; [lia..| |lia]); intros [=]; lia.
Qed.

Lemma get_neighbors_fst grid p :
  (get_neighbors grid p).*1 =
  filter (λ q, is_valid grid q = true) (candidates p).
Proof.
  rewrite get_neighbors_candidates, <-list_fmap_compose.
  apply list_fmap_id.
Qed.

End Neighbors.

(** ** Parent chains *)

Lemma parents_of_suffix cf n l :
  parents_of cf n l →
  ∀ l1 m l2, l = l1 ++ m :: l2 → parents_of cf m l2.
Proof.
  induction 1 as [n Hn|n p l Hp Hl IH]; intros l1 m l2 Heq.
  - by destruct l1.
  - destruct l1 as [|x l1]; simpl in Heq.
    + by injection Heq as -> ->.
    + injection Heq as -> ->. by apply (IH l1).
Qed.

Lemma parents_of_NoDup cf n l : parents_of cf n l → NoDup (n :: l).
Proof.
  induction 1 as [n Hn|n p l Hp Hl IH].
  - apply NoDup_singleton.
  - apply NoDup_cons. split; [|done]. intros Hin.
    apply list_elem_of_split in Hin as (l1 & l2 & Heq).
    assert (parents_of cf n (p :: l)) as Hfull by (by econstructor).
    pose proof (parents_of_suffix _ _ _ Hfull l1 n l2 Heq) as Hsuf.
    pose proof (parents_of_unique _ _ _ _ Hfull Hsuf) as Hlen.
    apply (f_equal length) in Hlen. rewrite Heq, length_app in Hlen.
    simpl in Hlen. lia.
Qed.

Lemma parents_of_links cf n l :
  parents_of cf n l → parent_links cf (reverse (n :: l)).
Proof.
  induction 1 as [n Hn|n p l Hp Hl IH].
  - intros i a b Ha Hb. apply lookup_lt_Some in Hb. simpl in Hb. lia.
  - intros i a b Ha Hb. rewrite reverse_cons in Ha, Hb.
    apply lookup_snoc_Some in Hb as [[Hi Hb]|[Hi ->]].
    + apply (IH i); [|done]. rewrite lookup_app_l in Ha; [done|lia].
    + rewrite lookup_app_l in Ha by lia.
      assert (last (reverse (p :: l)) = Some a) as Hlast.
      { rewrite last_lookup, <-Hi. done. }
      rewrite last_reverse in Hlast. injection Hlast as <-.
      unfold parent_get in Hp. destruct (cf !! n) as [[?|]|]; congruence.
Qed.

Lemma parents_of_root cf n l :
  parents_of cf n l → ∃ r, last (n :: l) = Some r ∧ rootless cf r.
Proof.
  induction 1 as [n Hn|n p l Hp Hl (r & Hr & Hroot)].
  - exists n. split; [done|]. unfold parent_get, rootless in *.
    destruct (cf !! n) as [[?|]|]; auto; done.
  - exists r. by rewrite last_cons_cons.
Qed.

Lemma parents_of_length cf n l : parents_of cf n l → length l ≤ size cf.
Proof.
  intros Hl. pose proof (parents_of_NoDup _ _ _ Hl) as Hnd.
  assert (∀ x, x ∈ take (length l) (n :: l) → x ∈ dom cf) as Hdom.
  { clear Hnd. induction Hl as [n Hn|n p l Hp Hl IH]; [set_solver|].
    intros x Hx. simpl in Hx. apply elem_of_cons in Hx as [->|Hx].
    - apply elem_of_dom. unfold parent_get in Hp.
      destruct (cf !! n) as [[?|]|]; try done.
    - by apply IH. }
  assert (NoDup (take (length l) (n :: l))) as Hnd'.
  { eapply sublist_NoDup; [done|apply sublist_take]. }
  assert (length (take (length l) (n :: l)) = length l) as <-.
  { rewrite length_take. simpl. lia. }
  rewrite <-(size_list_to_set (C := gset Pos)) by done.
  rewrite <-size_dom. apply subseteq_size.
  intros x Hx. apply elem_of_list_to_set in Hx. by apply Hdom.
Qed.

Lemma reconstruct_loop_Some fuel cf path n r :
  reconstruct_loop fuel cf path n = Some r →
  ∃ l, parents_of cf n l ∧ r = path ++ l.
Proof.
  revert path n. induction fuel as [|fuel IH]; intros path n Hr; [done|].
  simpl in Hr. destruct (parent_get cf n) as [p|] eqn:Hp.
  - apply IH in Hr as (l & Hl & ->). exists (p :: l).
    split; [by econstructor|]. by rewrite <-app_assoc.
  - injection Hr as <-. exists []. split; [by constructor|].
    by rewrite app_nil_r.
Qed.

Lemma walk_parents_Some fuel cf path n r :
  walk_parents fuel cf path (Some n) = Some r →
  ∃ l, parents_of cf n l ∧ r = path ++ n :: l.
Proof.
  revert path n. induction fuel as [|fuel IH]; intros path n Hr; [done|].
  simpl in Hr. destruct (parent_get cf n) as [p|] eqn:Hp.
  - apply IH in Hr as (l & Hl & ->). exists (p :: l).
    split; [by econstructor|]. by rewrite <-app_assoc.
  - destruct fuel as [|fuel]; [done|]. simpl in Hr. injection Hr as <-.
    exists []. split; [by constructor|done].
Qed.

Lemma reconstruct_path_parents cf n path :
  reconstruct_path cf n = Some path ↔
  ∃ l, parents_of cf n l ∧ path = reverse (n :: l).
Proof.
  unfold reconstruct_path. split.
  - intros Hr. apply fmap_Some in Hr as (r & Hr & ->).
    apply reconstruct_loop_Some in Hr as (l & Hl & ->). by exists l.
  - intros (l & Hl & ->).
    rewrite (reconstruct_loop_parents _ _ _ Hl); [done|].
    pose proof (parents_of_length _ _ _ Hl). lia.
Qed.

Lemma merge_paths_parents fp bp m path :
  merge_paths fp bp m = Some path ↔
  ∃ lf lb, parents_of fp m lf ∧ parents_of bp m lb ∧
           path = reverse (m :: lf) ++ lb.
Proof.
  unfold merge_paths. split.
  - intros Hr. apply bind_Some in Hr as (pf & Hf & Hr).
    apply bind_Some in Hr as (pb & Hb & Hr). injection Hr as <-.
    apply walk_parents_Some in Hf as (lf & Hlf & ->).
    exists lf. destruct (parent_get bp m) as [q|] eqn:Hq.
    + apply walk_parents_Some in Hb as (lb & Hlb & ->).
      exists (q :: lb). split_and!; [done|by econstructor|done].
    + destruct (size bp); simpl in Hb; injection Hb as <-;
        exists []; split_and!; try done; by constructor.
  - intros (lf & lb & Hlf & Hlb & ->).
    pose proof (parents_of_length _ _ _ Hlf).
    pose proof (parents_of_length _ _ _ Hlb).
    remember (S (S (size fp))) as ff eqn:Hff.
    remember (S (S (size bp))) as fb eqn:Hfb.
    rewrite (walk_parents_parents _ _ _ Hlf) by lia. simpl.
    rewrite (walk_parents_get _ _ _ Hlb) by lia. done.
Qed.

Lemma parents_of_ancestor cf n l :
  parents_of cf n l → ancestor cf (S (length l)) n = None.
Proof.
  induction 1 as [n Hn|n p l Hp Hl IH]; simpl.
  - by rewrite Hn.
  - rewrite Hp. done.
Qed.

Lemma ancestor_parents cf k n :
  ancestor cf k n = None → ∃ l, parents_of cf n l.
Proof.
  revert n. induction k as [|k IH]; intros n Hk; [done|].
  simpl in Hk. destruct (parent_get cf n) as [p|] eqn:Hp.
  - destruct (IH p Hk) as [l Hl]. exists (p :: l). by econstructor.
  - exists []. by constructor.
Qed.

Lemma ancestor_None_mono cf k k' n :
  k ≤ k' → ancestor cf k n = None → ancestor cf k' n = None.
Proof.
  revert k' n. induction k as [|k IH]; intros k' n Hle Hk; [done|].
  destruct k' as [|k']; [lia|]. simpl in *.
  destruct (parent_get cf n); [|done]. apply IH; [lia|done].
Qed.

(** * The bookkeeping of a search with one frontier *)

(** ** Popped nodes and visited snapshots *)

Lemma pops_log_nil : pops_log [] ∅.
Proof.
  split.
  - intros i j a b _ Hb. done.
  - intros s Hs. by apply elem_of_nil in Hs.
Qed.

Lemma pops_visited_record (steps : list Step) (vis : gset Pos) (cur : Pos)
    (fr : list Pos) :
  pops_log steps vis → pops_visited (steps ++ [make_step cur fr vis]).
Proof.
  intros [Hpv Hin] i j a b Hji Hb Ha.
  apply lookup_snoc_Some in Ha as [[Hi Ha]|[-> ->]].
  - rewrite lookup_app_l in Hb by lia. by apply (Hpv i j).
  - rewrite lookup_app_l in Hb by lia. simpl. apply Hin.
    by apply list_elem_of_lookup_2 in Hb.
Qed.

Lemma pops_log_record (steps : list Step) (vis vis' : gset Pos) (cur : Pos)
    (fr : list Pos) :
  pops_log steps vis → vis ⊆ vis' → cur ∈ vis' →
  pops_log (steps ++ [make_step cur fr vis]) vis'.
Proof.
  intros Hlog Hsub Hcur. split; [by apply pops_visited_record|].
  destruct Hlog as [_ Hin]. intros s Hs.
  apply elem_of_app in Hs as [Hs|Hs]; [set_solver|].
  by apply list_elem_of_singleton in Hs as ->.
Qed.

Section SearchLog.

Context {C : Type} `{Cost C}.

Lemma tree_reachable grid s cf vis n :
  parent_tree (step grid) s cf vis → is_Some (cf !! n) → reachable grid s n.
Proof.
  intros Htree Hn.
  destruct (parent_tree_reconstruct _ _ _ _ _ Htree Hn) as (path & _ & Hr & _).
  by exists path.
Qed.

Lemma reachable_valid grid a b :
  is_valid grid a = true → reachable grid a b → is_valid grid b = true.
Proof.
  intros Ha (l & Hh & Hl & Hc).
  revert a Ha Hh Hl Hc. induction l as [|p l IH]; intros a Ha Hh Hl Hc; [done|].
  injection Hh as ->. destruct l as [|q l].
  - by injection Hl as <-.
  - destruct Hc as [Hs Hc]. rewrite last_cons_cons in Hl.
    apply (IH q); try done. by apply step_valid in Hs.
Qed.

Lemma search_log_init grid : search_log grid [] [start grid] ∅.
Proof.
  split; try done; try (intros s Hs; by apply elem_of_nil in Hs);
    simpl; lia.
Qed.

Lemma size_visited_bound (grid : Grid) (vis : gset Pos) :
  (∀ x, x ∈ vis → is_valid grid x = true) →
  size vis ≤ size (valid_cells grid).
Proof.
  intros Hv. apply subseteq_size. intros x Hx.
  apply elem_of_valid_cells. by apply Hv.
Qed.

(** Popping [cur] off the frontier and recording the step. *)
Lemma search_log_record (grid : Grid) (steps : list Step) (fr : list Pos)
    (vis : gset Pos) (cur : Pos) (rest : list Pos) :
  search_log grid steps fr vis →
  (fr = [start grid] → cur = start grid ∧ rest = []) →
  length fr = S (length rest) →
  cur ≠ goal grid →
  step_within (reachable grid (start grid)) (make_step cur rest vis) →
  search_log grid (steps ++ [make_step cur rest vis]) rest vis.
Proof.
  intros [Hfirst Hreach Hgoal Hlast Hcount Hvv] Hinit Hlen Hcur Hstep.
  split.
  - destruct steps as [|s steps]; simpl; [|done].
    destruct Hfirst as [Hfr ->]. by destruct (Hinit Hfr) as [-> ->].
  - intros s Hs. apply elem_of_app in Hs as [Hs|Hs]; [by apply Hreach|].
    by apply list_elem_of_singleton in Hs as ->.
  - intros s Hs. apply elem_of_app in Hs as [Hs|Hs]; [by apply Hgoal|].
    by apply list_elem_of_singleton in Hs as ->.
  - intros a Ha Hrest. rewrite last_snoc in Ha. by injection Ha as <-.
  - rewrite length_app. simpl. lia.
  - done.
Qed.

(** Marking the node of the last step visited and pushing its
    neighbours. *)
Lemma search_log_grow (grid : Grid) (steps : list Step) (rest fr' : list Pos)
    (vis : gset Pos) (cur : Pos) :
  search_log grid steps rest vis → steps ≠ [] →
  is_valid grid cur = true → cur ∉ vis →
  length fr' ≤ length rest + 6 → (fr' = [] → rest = []) →
  search_log grid steps fr' (vis ∪ {[cur]}).
Proof.
  intros [Hfirst Hreach Hgoal Hlast Hcount Hvv] Hne Hcur Hfresh Hlen Hnil.
  split; try done.
  - by destruct steps.
  - intros a Ha Hfr. apply Hlast; auto.
  - rewrite (size_union vis {[cur]}) by set_solver. rewrite size_singleton.
    lia.
  - intros x Hx. apply elem_of_union in Hx as [Hx|Hx]; [auto|].
    by apply elem_of_singleton in Hx as ->.
Qed.

(** Popping the goal. *)
Lemma search_log_found (grid : Grid) (steps : list Step) (fr : list Pos)
    (vis : gset Pos) (cur : Pos) (rest : list Pos)
    (cf : gmap Pos (option Pos)) (l : list Pos) :
  search_log grid steps fr vis → trace_inv steps vis →
  (fr = [start grid] → cur = start grid ∧ rest = []) →
  length fr = S (length rest) →
  cur = goal grid →
  step_within (reachable grid (start grid)) (make_step cur rest vis) →
  parents_of cf cur l → (∀ x, x ∈ l → x ∈ vis) →
  run_facts grid (pop_bound grid) (steps ++ [make_step cur rest vis])
    (reverse (cur :: l)).
Proof.
  intros [Hfirst Hreach Hgoal Hlast Hcount Hvv] Htr Hinit Hlen Hcur Hstep
    Hl Hin.
  split.
  - destruct steps as [|s steps]; simpl; [|by rewrite Hfirst].
    destruct Hfirst as [Hfr ->]. by destruct (Hinit Hfr) as [-> ->].
  - intros s Hs. apply elem_of_app in Hs as [Hs|Hs]; [by apply Hreach|].
    by apply list_elem_of_singleton in Hs as ->.
  - intros _. by exists steps, (make_step cur rest vis).
  - intros Hnil. apply (f_equal length) in Hnil.
    rewrite length_reverse in Hnil. done.
  - rewrite length_app. simpl. unfold pop_bound.
    pose proof (size_visited_bound grid vis Hvv). lia.
  - rewrite reverse_Permutation. by apply (parents_of_NoDup cf).
  - intros p Hp. rewrite elem_of_reverse in Hp. rewrite fmap_app.
    apply elem_of_app. apply elem_of_cons in Hp as [->|Hp].
    + right. simpl. by apply list_elem_of_singleton.
    + left. destruct (tr_vis _ _ Htr p (Hin p Hp)) as (j & s & Hs & <-).
      apply list_elem_of_fmap. exists s. split; [done|].
      by apply list_elem_of_lookup_2 in Hs.
Qed.

(** Running out of frontier. *)
Lemma search_log_failed (grid : Grid) (steps : list Step) (vis : gset Pos) :
  search_log grid steps [] vis → run_facts grid (pop_bound grid) steps [].
Proof.
  intros [Hfirst Hreach Hgoal Hlast Hcount Hvv].
  destruct steps as [|s steps]; [by destruct Hfirst|].
  split; try done.
  - simpl. by rewrite Hfirst.
  - intros _. split; [|done].
    destruct (last (s :: steps)) as [a|] eqn:Ha.
    + exists a. split; [done|]. by apply Hlast.
    + by apply last_None in Ha.
  - pose proof (size_visited_bound grid vis Hvv). unfold pop_bound.
    simpl in *. lia.
  - apply NoDup_nil_2.
  - intros p Hp. by apply elem_of_nil in Hp.
Qed.

End SearchLog.

(** * The runs of the depth-first strategies *)

Section RunDfs.

Context {C : Type} `{Cost C}.

Lemma snoc_singleton {A} (l : list A) (x y : A) :
  l ++ [x] = [y] → x = y ∧ l = [].
Proof.
  destruct l as [|z l]; simpl; [by intros [= ->]|].
  intros [= _ Hl]. by destruct l.
Qed.

Lemma dfs_body_log grid st :
  dfs_inv grid st →
  search_log grid (dfs_steps st) (dfs_stack st) (dfs_visited st) →
  match dfs_body grid st with
  | Some (inl st') =>
      search_log grid (dfs_steps st') (dfs_stack st') (dfs_visited st')
  | Some (inr r) => run_facts grid (pop_bound grid) r.1 r.2
  | None => True
  end.
Proof.
  intros [Htree Htrace Hdom Hvalid Hgoal Hclosed Hstart] Hlog.
  unfold dfs_body.
  destruct (list_pop (dfs_stack st)) as [[stack cur]|] eqn:Hpop.
  - apply list_pop_Some in Hpop.
    assert (is_Some (dfs_came_from st !! cur)) as Hcur.
    { apply Hdom. rewrite Hpop. set_solver. }
    assert (is_valid grid cur = true) as Hcurv.
    { apply Hvalid. rewrite Hpop. set_solver. }
    assert (dfs_stack st = [start grid] → cur = start grid ∧ stack = [])
      as Hinit.
    { rewrite Hpop. apply snoc_singleton. }
    assert (length (dfs_stack st) = S (length stack)) as Hlen.
    { rewrite Hpop, length_app. simpl. lia. }
    assert (step_within (reachable grid (start grid))
              (make_step cur stack (dfs_visited st))) as Hstep.
    { split_and!; simpl.
      - by apply (tree_reachable _ _ _ _ _ Htree).
      - intros x Hx. apply (tree_reachable _ _ _ _ _ Htree), Hdom.
        rewrite Hpop. set_solver.
      - intros x Hx. apply (tree_reachable _ _ _ _ _ Htree).
        by apply (parent_tree_vis_dom _ _ _ _ _ Htree). }
    case_bool_decide as Hg.
    { destruct (parent_tree_reconstruct_parents _ _ _ _ _ Htree Hcur)
        as (l & Hl & _ & -> & _ & _ & Hin).
      simpl. by apply (search_log_found _ _ (dfs_stack st) _ _ _
                         (dfs_came_from st)). }
    pose proof (search_log_record _ _ _ _ _ _ Hlog Hinit Hlen Hg Hstep)
      as Hlog'.
    case_bool_decide as Hv; [done|].
    rewrite dfs_push_foldl.
    destruct (new_cells_spec grid cur (dfs_visited st ∪ {[cur]}))
      as [Hnew Hnlen].
    simpl. apply (search_log_grow _ _ stack); try done.
    + by destruct (dfs_steps st).
    + rewrite length_app. lia.
    + intros Hnil. by apply app_eq_nil in Hnil as [-> _].
  - apply list_pop_None in Hpop. rewrite Hpop in Hlog. simpl.
    by apply (search_log_failed _ _ (dfs_visited st)).
Qed.

Lemma dfs_run_facts grid :
  is_valid grid (start grid) = true → returns (dfs grid) (run_facts grid (pop_bound grid)).
Proof.
  intros Hs. destruct (dfs_total grid Hs) as ([steps path] & Hr & _).
  exists steps, path. split; [done|].
  apply (while_loop_post (dfs_body grid)
           (λ st, dfs_inv grid st ∧
                  search_log grid (dfs_steps st) (dfs_stack st)
                    (dfs_visited st))
           (λ r, run_facts grid (pop_bound grid) r.1 r.2)) in Hr; [done| |].
  - intros st [Hinv Hlog].
    pose proof (dfs_body_inv grid st Hinv) as Hi.
    pose proof (dfs_body_log grid st Hinv Hlog) as Hl.
    destruct (dfs_body grid st) as [[st'|r]|]; try done.
    split; [tauto|done].
  - split; [by apply dfs_init_inv|apply search_log_init].
Qed.

Lemma dfs_body_pops grid st :
  pops_log (dfs_steps st) (dfs_visited st) →
  match dfs_body grid st with
  | Some (inl st') => pops_log (dfs_steps st') (dfs_visited st')
  | Some (inr r) => pops_visited r.1
  | None => True
  end.
Proof.
  intros Hlog. unfold dfs_body.
  destruct (list_pop (dfs_stack st)) as [[stack cur]|] eqn:Hpop;
    [|by destruct Hlog].
  case_bool_decide as Hg.
  { destruct (reconstruct_path (dfs_came_from st) cur); [|done]. simpl.
    by apply pops_visited_record. }
  case_bool_decide as Hv.
  { simpl. by apply pops_log_record. }
  destruct (foldl _ _ _) as [stack' cf']. simpl.
  apply pops_log_record; [done|set_solver|set_solver].
Qed.

Lemma dfs_pops grid :
  is_valid grid (start grid) = true →
  returns (dfs grid) (λ steps _, pops_visited steps).
Proof.
  intros Hs. destruct (dfs_total grid Hs) as ([steps path] & Hr & _).
  exists steps, path. split; [done|].
  apply (while_loop_post (dfs_body grid)
           (λ st, pops_log (dfs_steps st) (dfs_visited st))
           (λ r, pops_visited r.1)) in Hr; [done| |apply pops_log_nil].
  intros st Hlog. apply (dfs_body_pops grid st Hlog).
Qed.

Lemma map_fmap {A B} (f : A → B) (l : list A) : map f l = f <$> l.
Proof. induction l as [|x l IH]; simpl; [done|]. by rewrite IH. Qed.

Lemma dls_body_log grid limit st :
  dls_inv grid limit st →
  search_log grid (dls_steps st) (dls_stack st).*1 (dls_visited st) →
  match dls_body grid limit st with
  | Some (inl st') =>
      search_log grid (dls_steps st') (dls_stack st').*1 (dls_visited st')
  | Some (inr r) => run_facts grid (pop_bound grid) r.1 r.2
  | None => True
  end.
Proof.
  intros [Htree Htrace Hdom Hvalid Hvisv Hgoal Hdepth Hclosed Hstart] Hlog.
  unfold dls_body.
  destruct (list_pop (dls_stack st)) as [[stack [cur depth]]|] eqn:Hpop.
  - apply list_pop_Some in Hpop. rewrite map_fmap.
    assert ((dls_stack st).*1 = stack.*1 ++ [cur]) as Hfst.
    { by rewrite Hpop, fmap_app. }
    assert (is_Some (dls_came_from st !! cur)) as Hcur.
    { apply Hdom. rewrite Hfst. set_solver. }
    assert (is_valid grid cur = true) as Hcurv.
    { apply Hvalid. rewrite Hfst. set_solver. }
    assert ((dls_stack st).*1 = [start grid] →
            cur = start grid ∧ stack.*1 = []) as Hinit.
    { rewrite Hfst. apply snoc_singleton. }
    assert (length (dls_stack st).*1 = S (length stack.*1)) as Hlen.
    { rewrite Hfst, length_app. simpl. lia. }
    assert (step_within (reachable grid (start grid))
              (make_step cur stack.*1 (dls_visited st))) as Hstep.
    { split_and!; simpl.
      - by apply (tree_reachable _ _ _ _ _ Htree).
      - intros x Hx. apply (tree_reachable _ _ _ _ _ Htree), Hdom.
        rewrite Hfst. set_solver.
      - intros x Hx. apply (tree_reachable _ _ _ _ _ Htree).
        by apply (parent_tree_vis_dom _ _ _ _ _ Htree). }
    case_bool_decide as Hg.
    { destruct (parent_tree_reconstruct_parents _ _ _ _ _ Htree Hcur)
        as (l & Hl & _ & -> & _ & _ & Hin).
      simpl. by apply (search_log_found _ _ (dls_stack st).*1 _ _ _
                         (dls_came_from st)). }
    pose proof (search_log_record _ _ _ _ _ _ Hlog Hinit Hlen Hg Hstep)
      as Hlog'.
    destruct (bool_decide (cur ∈ dls_visited st) || (depth >=? limit)%Z)
      eqn:Hskip; [done|].
    apply orb_false_iff in Hskip as [Hv _].
    apply bool_decide_eq_false in Hv.
    rewrite dls_push_foldl.
    destruct (new_cells_spec grid cur (dls_visited st ∪ {[cur]}))
      as [Hnew Hnlen].
    simpl. apply (search_log_grow _ _ stack.*1); try done.
    + by destruct (dls_steps st).
    + rewrite fmap_app, length_app, !length_fmap. rewrite length_fmap in Hlen.
      lia.
    + intros Hnil. rewrite fmap_app in Hnil.
      by apply app_eq_nil in Hnil as [-> _].
  - apply list_pop_None in Hpop. rewrite Hpop in Hlog. simpl.
    by apply (search_log_failed _ _ (dls_visited st)).
Qed.

Lemma dls_run_facts grid limit :
  is_valid grid (start grid) = true → is_valid grid (goal grid) = true →
  returns (dls grid limit) (run_facts grid (pop_bound grid)).
Proof.
  intros Hs Hg. destruct (dls_total grid limit Hs Hg) as ([steps path] & Hr & _).
  exists steps, path. split; [done|].
  apply (while_loop_post (dls_body grid limit)
           (λ st, dls_inv grid limit st ∧
                  search_log grid (dls_steps st) (dls_stack st).*1
                    (dls_visited st))
           (λ r, run_facts grid (pop_bound grid) r.1 r.2)) in Hr; [done| |].
  - intros st [Hinv Hlog].
    pose proof (dls_body_inv grid limit st Hg Hinv) as Hi.
    pose proof (dls_body_log grid limit st Hinv Hlog) as Hl.
    destruct (dls_body grid limit st) as [[st'|r]|]; try done.
    split; [tauto|done].
  - split; [by apply dls_init_inv|apply search_log_init].
Qed.

(** ** A limit that no stack depth reaches *)

Lemma dls_dfs_step grid limit sd sf :
  (Z.of_nat (size (valid_cells grid)) ≤ limit)%Z →
  dls_inv grid limit sd → dls_dfs_sim sd sf →
  match dls_body grid limit sd, dfs_body grid sf with
  | Some (inl sd'), Some (inl sf') => dls_dfs_sim sd' sf'
  | Some (inr r), Some (inr r') => r = r'
  | _, _ => False
  end.
Proof.
  intros Hbig [Htree Htrace Hdom Hvalid Hvisv Hgoal Hdepth Hclosed Hstart]
    (Hstack & Hcf & Hvis & Hsteps).
  unfold dls_body, dfs_body. rewrite <-Hstack, <-Hcf, <-Hvis, <-Hsteps.
  destruct (list_pop (dls_stack sd)) as [[stack [cur depth]]|] eqn:Hpop.
  - apply list_pop_Some in Hpop. rewrite map_fmap.
    assert (list_pop (dls_stack sd).*1 = Some (stack.*1, cur)) as ->.
    { apply list_pop_Some. by rewrite Hpop, fmap_app. }
    assert (is_Some (dls_came_from sd !! cur)) as Hcur.
    { apply Hdom. rewrite Hpop, fmap_app. set_solver. }
    assert (is_valid grid cur = true) as Hcurv.
    { apply Hvalid. rewrite Hpop, fmap_app. set_solver. }
    case_bool_decide as Hg.
    { destruct (parent_tree_reconstruct _ _ _ _ _ Htree Hcur)
        as (path & -> & _). done. }
    destruct (decide (cur ∈ dls_visited sd)) as [Hv|Hv].
    { rewrite !bool_decide_eq_true_2 by done. simpl. done. }
    rewrite !bool_decide_eq_false_2 by done. simpl.
    assert ((depth >=? limit)%Z = false) as ->.
    { rewrite Z.geb_leb. apply Z.leb_gt.
      assert (0 ≤ depth ≤ Z.of_nat (size (dls_visited sd)))%Z as Hd.
      { apply (Hdepth (cur, depth)). rewrite Hpop. set_solver. }
      assert (size (dls_visited sd ∪ {[cur]}) ≤ size (valid_cells grid))
        as Hsz.
      { apply size_visited_bound. intros x Hx.
        apply elem_of_union in Hx as [Hx|Hx]; [auto|].
        by apply elem_of_singleton in Hx as ->. }
      rewrite (size_union (dls_visited sd) {[cur]}) in Hsz by set_solver.
      rewrite size_singleton in Hsz. lia. }
    rewrite dls_push_foldl, dfs_push_foldl.
    split_and!; simpl; try done.
    rewrite fmap_app, <-list_fmap_compose. f_equal. apply list_fmap_id.
  - apply list_pop_None in Hpop. rewrite Hpop. simpl. done.
Qed.

Lemma dls_dfs_loop grid limit :
  is_valid grid (goal grid) = true →
  (Z.of_nat (size (valid_cells grid)) ≤ limit)%Z →
  ∀ fuel sd sf, dls_inv grid limit sd → dls_dfs_sim sd sf →
    while_loop (dls_body grid limit) fuel sd =
    while_loop (dfs_body grid) fuel sf.
Proof.
  intros Hg Hbig fuel. induction fuel as [|fuel IH]; intros sd sf Hinv Hsim;
    [done|].
  simpl. pose proof (dls_dfs_step grid limit sd sf Hbig Hinv Hsim) as Hstep.
  pose proof (dls_body_inv grid limit sd Hg Hinv) as Hi.
  destruct (dls_body grid limit sd) as [[sd'|r]|],
    (dfs_body grid sf) as [[sf'|r']|]; try done.
  - apply IH; [tauto|done].
  - by subst.
Qed.

(** ** Iterative deepening *)

Lemma iddfs_run_first grid limits traces path :
  iddfs_run grid limits traces path → path ≠ [] →
  ∃ i k t, limits !! i = Some k ∧ dls grid k = Some (t, path) ∧
           length traces = S i ∧ last traces = Some t ∧
           ∀ j k', j < i → limits !! j = Some k' →
             ∃ t', dls grid k' = Some (t', []).
Proof.
  induction 1 as [|k limits steps p path Hd|k limits steps traces path Hd _ IH];
    intros Hne; [done| |].
  - exists 0, k, steps. split_and!; try done. intros j k' Hj. lia.
  - destruct (IH Hne) as (i & k' & t & Hi & Hd' & Hlen & Hlast & Hbefore).
    exists (S i), k', t. split_and!; try done.
    + simpl. by rewrite Hlen.
    + destruct traces; [done|]. by rewrite last_cons_cons.
    + intros j k'' Hj Hk''. destruct j as [|j].
      * injection Hk'' as <-. by exists steps.
      * apply (Hbefore j); [lia|done].
Qed.

Lemma run_facts_app grid b1 b2 t steps path :
  run_facts grid b1 t [] → run_facts grid b2 steps path →
  run_facts grid (b1 + b2) (t ++ steps) path.
Proof.
  intros [Hf1 Hr1 _ Hn1 Hc1 _ _] [Hf2 Hr2 Hfound Hfail Hc2 Hnd Hexp].
  destruct (Hn1 eq_refl) as [_ Hnogoal].
  split.
  - destruct t; [done|]. done.
  - intros s Hs. apply elem_of_app in Hs as [Hs|Hs]; auto.
  - intros Hne. destruct (Hfound Hne) as (init & a & -> & Ha & Hinit).
    exists (t ++ init), a. split_and!; [by rewrite app_assoc|done|].
    intros s Hs. apply elem_of_app in Hs as [Hs|Hs]; auto.
  - intros Hnil. destruct (Hfail Hnil) as [(a & Ha & Hfr) Hno]. split.
    + exists a. split; [|done]. rewrite last_app, Ha. done.
    + intros s Hs. apply elem_of_app in Hs as [Hs|Hs]; auto.
  - rewrite length_app. lia.
  - done.
  - intros p Hp. rewrite fmap_app. apply elem_of_app. right. by apply Hexp.
Qed.

Lemma iddfs_run_facts grid limits traces path :
  is_valid grid (start grid) = true → is_valid grid (goal grid) = true →
  limits ≠ [] → iddfs_run grid limits traces path →
  run_facts grid (length limits * pop_bound grid) (concat traces) path.
Proof.
  intros Hs Hg Hne Hrun.
  assert (∀ k t p, dls grid k = Some (t, p) →
            run_facts grid (pop_bound grid) t p) as Hdls.
  { intros k t p Hd. destruct (dls_run_facts grid k Hs Hg)
      as (t' & p' & Hd' & Hf). rewrite Hd in Hd'. by injection Hd' as <- <-. }
  induction Hrun
    as [|k limits steps p path Hd|k limits steps traces path Hd Hrun IH];
    [done| |].
  - simpl. rewrite app_nil_r. apply Hdls in Hd.
    destruct Hd. split; try done. lia.
  - apply Hdls in Hd. destruct limits as [|k' limits].
    + inversion Hrun; subst. simpl. rewrite app_nil_r.
      destruct Hd. split; try done. lia.
    + simpl. apply run_facts_app; [done|]. by apply IH.
Qed.

End RunDfs.

(** * The runs of the breadth-first and uniform cost searches *)

Section RunBfs.

Context {C : Type} `{Cost C}.

Lemma bfs_body_log grid st :
  bfs_inv grid st →
  search_log grid (bfs_steps st) (bfs_queue st) (bfs_visited st) →
  match bfs_body grid st with
  | Some (inl st') =>
      search_log grid (bfs_steps st') (bfs_queue st') (bfs_visited st')
  | Some (inr r) => run_facts grid (pop_bound grid) r.1 r.2
  | None => True
  end.
Proof.
  intros (Hcore & _ & _) Hlog.
  destruct (bfs_queue st) as [|cur rest] eqn:Hq.
  - unfold bfs_body. rewrite Hq. simpl.
    by apply (search_log_failed _ _ (bfs_visited st)).
  - pose proof (bfs_tree _ _ Hcore) as Htree.
    assert (∀ x, x ∈ cur :: rest → is_Some (bfs_came_from st !! x)) as Hdom.
    { intros x Hx. apply (bfs_dom _ _ Hcore). right. by rewrite Hq. }
    assert (is_valid grid cur = true) as Hcurv.
    { apply (bfs_queue_valid _ _ Hcore). rewrite Hq. left. }
    assert (cur ∉ bfs_visited st) as Hfresh.
    { apply (bfs_fresh _ _ Hcore). rewrite Hq. left. }
    assert (cur :: rest = [start grid] → cur = start grid ∧ rest = [])
      as Hinit by (by intros [= -> ->]).
    assert (step_within (reachable grid (start grid))
              (make_step cur rest (bfs_visited st))) as Hstep.
    { split_and!; simpl.
      - apply (tree_reachable _ _ _ _ _ Htree), Hdom. left.
      - intros x Hx. apply (tree_reachable _ _ _ _ _ Htree), Hdom. by right.
      - intros x Hx. apply (tree_reachable _ _ _ _ _ Htree).
        by apply (parent_tree_vis_dom _ _ _ _ _ Htree). }
    destruct (decide (cur = goal grid)) as [Hg|Hg].
    + unfold bfs_body. rewrite Hq. rewrite bool_decide_eq_true_2 by done.
      destruct (parent_tree_reconstruct_parents _ _ _ _ _ Htree
                  (Hdom cur ltac:(left)))
        as (l & Hl & _ & -> & _ & _ & Hin).
      simpl. apply (search_log_found _ _ (cur :: rest) _ _ _
                      (bfs_came_from st)); try done.
      apply (bfs_trace _ _ Hcore).
    + destruct (bfs_body_expand grid st cur rest Hcore Hq Hg)
        as (new & Hnew & Hspec & ->).
      simpl.
      pose proof (search_log_record _ _ _ _ _ _ Hlog Hinit eq_refl Hg Hstep)
        as Hlog'.
      apply (search_log_grow _ _ rest); try done.
      * by destruct (bfs_steps st).
      * rewrite length_app.
        assert (length new ≤ 6); [|lia].
        apply (bfs_new_length grid cur); [done|].
        intros n Hn. apply Hspec in Hn. tauto.
      * intros Hnil. by apply app_eq_nil in Hnil as [-> _].
Qed.

Lemma bfs_run_facts grid :
  is_valid grid (start grid) = true →
  returns (bfs grid) (λ steps path,
    run_facts grid (pop_bound grid) steps path ∧ bfs_post grid (steps, path)).
Proof.
  intros Hs. destruct (bfs_total grid Hs) as ([steps path] & Hr & Hpost).
  exists steps, path. split; [done|]. split; [|done].
  apply (while_loop_post (bfs_body grid)
           (λ st, bfs_inv grid st ∧
                  search_log grid (bfs_steps st) (bfs_queue st)
                    (bfs_visited st))
           (λ r, run_facts grid (pop_bound grid) r.1 r.2)) in Hr; [done| |].
  - intros st [Hinv Hlog].
    pose proof (bfs_body_inv grid st Hinv) as Hi.
    pose proof (bfs_body_log grid st Hinv Hlog) as Hl.
    destruct (bfs_body grid st) as [[st'|r]|]; try done.
    split; [tauto|done].
  - split; [by apply bfs_init_inv|apply search_log_init].
Qed.

Lemma bfs_body_pops grid st :
  pops_log (bfs_steps st) (bfs_visited st) →
  match bfs_body grid st with
  | Some (inl st') => pops_log (bfs_steps st') (bfs_visited st')
  | Some (inr r) => pops_visited r.1
  | None => True
  end.
Proof.
  intros Hlog. unfold bfs_body.
  destruct (bfs_queue st) as [|cur rest]; [by destruct Hlog|].
  case_bool_decide as Hg.
  { destruct (reconstruct_path (bfs_came_from st) cur); [|done]. simpl.
    by apply pops_visited_record. }
  case_bool_decide as Hv.
  { simpl. by apply pops_log_record. }
  destruct (foldl _ _ _) as [[queue' iq'] cf']. simpl.
  apply pops_log_record; [done|set_solver|set_solver].
Qed.

Lemma bfs_pops grid :
  is_valid grid (start grid) = true →
  returns (bfs grid) (λ steps _, pops_visited steps).
Proof.
  intros Hs. destruct (bfs_total grid Hs) as ([steps path] & Hr & _).
  exists steps, path. split; [done|].
  apply (while_loop_post (bfs_body grid)
           (λ st, pops_log (bfs_steps st) (bfs_visited st))
           (λ r, pops_visited r.1)) in Hr; [done| |apply pops_log_nil].
  intros st Hlog. apply (bfs_body_pops grid st Hlog).
Qed.

End RunBfs.

Section RunUcs.

Context {C : Type} `{Cost C} `{HeapQ (C * Z * Pos)} `{!CostLaws}
  `{!HeapQLaws}.

Lemma ucs_relax_length (cur : Pos) (c : C) (l : list (Pos * C)) :
  ∀ (cost : gmap Pos C) (counter : Z) (heap : list (C * Z * Pos))
    (cf : gmap Pos (option Pos)),
  length heap ≤
  length (foldl (ucs_relax cur c) (cost, counter, heap, cf) l).1.2.
Proof.
  induction l as [|[nbr e] l IH]; intros cost counter heap cf; [done|].
  cbn [foldl]. unfold ucs_relax at 2.
  destruct (match cost !! nbr with
            | Some old => c_lt (c_add c e) old
            | None => true
            end).
  - etrans; [|apply IH]. rewrite heappush_perm. simpl. lia.
  - apply IH.
Qed.

Lemma ucs_body_log grid st :
  ucs_inv grid st →
  search_log grid (ucs_steps st) (map snd (ucs_heap st)) (ucs_visited st) →
  match ucs_body grid st with
  | Some (inl st') =>
      search_log grid (ucs_steps st') (map snd (ucs_heap st'))
        (ucs_visited st')
  | Some (inr r) => run_facts grid (pop_bound grid) r.1 r.2
  | None => True
  end.
Proof.
  intros [Hcore Htrace] Hlog. unfold ucs_body.
  destruct (ucs_heap st) as [|e0 h0] eqn:Hheap.
  - simpl in *. by apply (search_log_failed _ _ (ucs_visited st)).
  - rewrite <-Hheap in *.
    destruct (heappop_Some (ucs_heap st)) as [[[[c k] cur] h'] Hpop];
      [by rewrite Hheap|].
    rewrite Hpop. simpl.
    pose proof (heappop_perm _ _ _ Hpop) as Hperm.
    pose proof (uc_tree _ _ _ _ _ _ Hcore) as Htree.
    assert (∀ x, x ∈ ucs_heap st → is_Some (ucs_came_from st !! x.2))
      as Hdom.
    { intros [[c' k'] n] Hx.
      destruct (uc_entry _ _ _ _ _ _ Hcore c' k' n Hx) as (_ & cn & Hcn & _).
      apply (uc_dom _ _ _ _ _ _ Hcore). by eexists. }
    assert (length (map snd (ucs_heap st)) = S (length (map snd h')))
      as Hlen.
    { rewrite !length_map. by rewrite Hperm. }
    assert (map snd (ucs_heap st) = [start grid] →
            cur = start grid ∧ map snd h' = []) as Hinit.
    { intros Hone.
      assert (length (ucs_heap st) = 1) as Hl1.
      { rewrite <-(length_map snd), Hone. done. }
      assert (h' = []) as ->.
      { apply (f_equal length) in Hone. rewrite Hlen in Hone.
        rewrite length_map in Hone. simpl in Hone.
        destruct h'; [done|simpl in Hone; lia]. }
      split; [|done].
      destruct (ucs_heap st) as [|x [|y h]]; try done.
      apply Permutation_singleton_l in Hperm. injection Hperm as ->.
      simpl in Hone. by injection Hone as ->. }
    assert (step_within (reachable grid (start grid))
              (make_step cur (map snd h') (ucs_visited st))) as Hstep.
    { split_and!; simpl.
      - apply (tree_reachable _ _ _ _ _ Htree).
        apply (Hdom (c, k, cur)). rewrite Hperm. left.
      - intros x Hx. rewrite map_fmap in Hx.
        apply list_elem_of_fmap in Hx as (e & -> & He).
        apply (tree_reachable _ _ _ _ _ Htree), Hdom.
        rewrite Hperm. by right.
      - intros x Hx. apply (tree_reachable _ _ _ _ _ Htree).
        by apply (parent_tree_vis_dom _ _ _ _ _ Htree). }
    case_bool_decide as Hg.
    { destruct (parent_tree_reconstruct_parents _ _ _ _ _ Htree
                  (Hdom (c, k, cur) ltac:(rewrite Hperm; left)))
        as (l & Hl & _ & Hrec & _ & _ & Hin).
      simpl in Hrec. rewrite Hrec. simpl.
      by apply (search_log_found _ _ (map snd (ucs_heap st)) _ _ _
                  (ucs_came_from st)). }
    pose proof (search_log_record _ _ _ _ _ _ Hlog Hinit Hlen Hg Hstep)
      as Hlog'.
    case_bool_decide as Hv; [done|].
    destruct (ucs_pop _ _ _ _ _ _ _ _ _ Hcore Hpop Hv)
      as (Hc & Hvalid & Hcf & Hmin).
    destruct (ucs_visit _ _ _ _ _ _ _ _ _ Hcore Hpop Hv Hg)
      as (Hcore1 & Hs & Hmax).
    pose proof (ucs_relax_length cur c (get_neighbors grid cur)
                  (ucs_cost_so_far st) (ucs_counter st) h'
                  (ucs_came_from st)) as Hlow.
    destruct (ucs_relax_foldl grid (ucs_visited st ∪ {[cur]}) cur c
                (get_neighbors grid cur) [] (ucs_cost_so_far st)
                (ucs_counter st) h' (ucs_came_from st))
      as (cost' & counter' & heap' & cf' & Hfold & Hcore' & Hlen');
      try done.
    { intros e He. by apply elem_of_get_neighbors. }
    { set_solver. }
    rewrite Hfold in Hlow |- *. simpl in Hlow |- *.
    apply (search_log_grow _ _ (map snd h')); try done.
    + by destruct (ucs_steps st).
    + rewrite !length_map. pose proof (get_neighbors_length grid cur). lia.
    + intros Hnil. apply (f_equal length) in Hnil.
      rewrite length_map in Hnil. simpl in Hnil.
      destruct h'; [done|simpl in Hlow; lia].
Qed.

Lemma ucs_run_facts grid :
  is_valid grid (start grid) = true →
  returns (ucs grid) (run_facts grid (pop_bound grid)).
Proof.
  intros Hs. destruct (ucs_total grid Hs) as ([steps path] & Hr & _).
  exists steps, path. split; [done|].
  apply (while_loop_post (ucs_body grid)
           (λ st, ucs_inv grid st ∧
                  search_log grid (ucs_steps st) (map snd (ucs_heap st))
                    (ucs_visited st))
           (λ r, run_facts grid (pop_bound grid) r.1 r.2)) in Hr; [done| |].
  - intros st [Hinv Hlog].
    pose proof (ucs_body_inv grid st Hinv) as Hi.
    pose proof (ucs_body_log grid st Hinv Hlog) as Hl.
    destruct (ucs_body grid st) as [[st'|r]|]; try done.
    split; [tauto|done].
  - split; [by apply ucs_init_inv|apply search_log_init].
Qed.

Lemma ucs_body_pops grid st :
  pops_log (ucs_steps st) (ucs_visited st) →
  match ucs_body grid st with
  | Some (inl st') => pops_log (ucs_steps st') (ucs_visited st')
  | Some (inr r) => pops_visited r.1
  | None => True
  end.
Proof.
  intros Hlog. unfold ucs_body.
  destruct (ucs_heap st) as [|e0 h0]; [by destruct Hlog|].
  destruct (heappop (e0 :: h0)) as [[[[c k] cur] h']|]; [|done]. simpl.
  case_bool_decide as Hg.
  { destruct (reconstruct_path (ucs_came_from st) cur); [|done]. simpl.
    by apply pops_visited_record. }
  case_bool_decide as Hv.
  { simpl. by apply pops_log_record. }
  destruct (foldl _ _ _) as [[[cost' counter'] heap'] cf']. simpl.
  apply pops_log_record; [done|set_solver|set_solver].
Qed.

Lemma ucs_pops grid :
  is_valid grid (start grid) = true →
  returns (ucs grid) (λ steps _, pops_visited steps).
Proof.
  intros Hs. destruct (ucs_total grid Hs) as ([steps path] & Hr & _).
  exists steps, path. split; [done|].
  apply (while_loop_post (ucs_body grid)
           (λ st, pops_log (ucs_steps st) (ucs_visited st))
           (λ r, pops_visited r.1)) in Hr; [done| |apply pops_log_nil].
  intros st Hlog. apply (ucs_body_pops grid st Hlog).
Qed.

End RunUcs.

(** * The runs of the bidirectional search *)

Lemma parents_of_parent cf n l x :
  parents_of cf n l → x ∈ l → ∃ y, cf !! y = Some (Some x).
Proof.
  induction 1 as [n Hn|n p l Hp Hl IH]; intros Hx; [by apply elem_of_nil in Hx|].
  apply elem_of_cons in Hx as [->|Hx]; [|by apply IH].
  exists n. unfold parent_get in Hp. destruct (cf !! n) as [[?|]|]; congruence.
Qed.

Lemma size_union_list (vis : gset Pos) (new : list Pos) :
  NoDup new → (∀ n, n ∈ new → n ∉ vis) →
  size (vis ∪ list_to_set new) = size vis + length new.
Proof.
  intros Hnd Hnew. rewrite size_union.
  - by rewrite size_list_to_set.
  - intros x Hx Hx'. apply elem_of_list_to_set in Hx'. by apply (Hnew x).
Qed.

Section RunBidi.

Context {C : Type} `{Cost C}.

Lemma tree_reachable_back (grid : Grid) (g : Pos)
    (cf : gmap Pos (option Pos)) (vis : gset Pos) (n : Pos) :
  parent_tree (flip (step grid)) g cf vis →
  (∀ x, x ∈ vis → is_valid grid x = true) → n ∈ vis →
  reachable grid g n.
Proof.
  intros Htree Hvalid Hn.
  destruct (parent_tree_parents _ _ _ _ _ Htree
              (parent_tree_dom _ _ _ _ _ Htree Hn))
    as (l & _ & _ & _ & Hlast & Hch & Hin).
  exists (reverse (n :: l)). split_and!.
  - by rewrite head_reverse.
  - by rewrite last_reverse.
  - apply chain_reverse.
    apply (chain_impl (flip (flip (step grid)))); [|done].
    intros p q Hp _ Hpq. apply step_sym; [|done]. apply Hvalid.
    apply elem_of_cons in Hp as [->|Hp]; auto.
Qed.

(** The cells of both sides are linked to an end of the search. *)
Lemma bidi_linked grid st x :
  bidi_inv grid st → x ∈ fwd_visited st ∪ bwd_visited st → linked grid x.
Proof.
  intros [Hf Hb _ _] Hx. apply elem_of_union in Hx as [Hx|Hx].
  - left. apply (tree_reachable _ _ _ _ _ (side_tree _ _ _ _ _ _ Hf)).
    by apply (parent_tree_dom _ _ _ _ _ (side_tree _ _ _ _ _ _ Hf)).
  - right. apply (tree_reachable_back _ _ _ _ _ (side_tree _ _ _ _ _ _ Hb));
      [|done]. apply (side_valid _ _ _ _ _ _ Hb).
Qed.

Lemma bidi_size_bound grid st :
  bidi_inv grid st →
  size (fwd_visited st) + size (bwd_visited st) ≤
  2 * size (valid_cells grid).
Proof.
  intros [Hf Hb _ _].
  pose proof (size_visited_bound grid _ (side_valid _ _ _ _ _ _ Hf)).
  pose proof (size_visited_bound grid _ (side_valid _ _ _ _ _ _ Hb)). lia.
Qed.

(** Recording a step of either side. *)
Lemma bidi_step_shown grid st cur (fr : list Pos) :
  bidi_inv grid st →
  cur ∈ fwd_visited st ∪ bwd_visited st →
  (∀ x, x ∈ fr → x ∈ fwd_queue st ∨ x ∈ bwd_queue st) →
  let s := make_step cur fr (fwd_visited st ∪ bwd_visited st) in
  step_within (linked grid) s ∧ frontier_discovered s.
Proof.
  intros Hinv Hcur Hfr s.
  assert (∀ x, x ∈ fr → x ∈ fwd_visited st ∪ bwd_visited st) as Hsub.
  { intros x Hx. destruct Hinv as [Hf Hb _ _]. apply elem_of_union.
    destruct (Hfr x Hx) as [Hq|Hq]; [left|right].
    - by apply (side_queue _ _ _ _ _ _ Hf).
    - by apply (side_queue _ _ _ _ _ _ Hb). }
  split; [split_and!|split]; simpl; eauto using bidi_linked.
Qed.

(** The path stitched at a cell that both sides have discovered. *)
Lemma bidi_found grid st cur (fr path : list Pos) :
  bidi_inv grid st → bidi_log grid st →
  cur ∈ fwd_visited st → cur ∈ bwd_visited st →
  (∀ x, x ∈ fr → x ∈ fwd_queue st ∨ x ∈ bwd_queue st) →
  1 ≤ length (fwd_queue st) + length (bwd_queue st) →
  (bidi_steps st = [] →
   cur = start grid ∧ fr = [goal grid]) →
  merge_paths (fwd_parent st) (bwd_parent st) cur = Some path →
  bidi_facts grid
    (bidi_steps st ++
       [make_step cur fr (fwd_visited st ∪ bwd_visited st)]) path.
Proof.
  intros Hinv [Hfirst (Pf & Pb & Hdisj & HPf & HPb & Hpf & Hpb & Hcur)
               Hwithin Hshown Hlast Hcount] Hcf Hcb Hfr Hlen Hinit Hmerge.
  apply merge_paths_parents in Hmerge as (lf & lb & Hlf & Hlb & ->).
  destruct (bidi_step_shown grid st cur fr Hinv) as [Hw Hs];
    [set_solver|done|].
  assert (∀ x, x ∈ lf → x ∈ Pf) as Hlfp.
  { intros x Hx. destruct (parents_of_parent _ _ _ _ Hlf Hx) as [y Hy].
    by apply (Hpf y). }
  assert (∀ x, x ∈ lb → x ∈ Pb) as Hlbp.
  { intros x Hx. destruct (parents_of_parent _ _ _ _ Hlb Hx) as [y Hy].
    by apply (Hpb y). }
  split.
  - destruct (bidi_steps st) as [|s steps']; simpl; [|by rewrite Hfirst].
    destruct Hfirst as (_ & _ & -> & ->).
    by destruct (Hinit eq_refl) as [-> ->].
  - intros s Hs'. apply elem_of_app in Hs' as [Hs'|Hs']; [by apply Hwithin|].
    by apply list_elem_of_singleton in Hs' as ->.
  - intros s Hs'. apply elem_of_app in Hs' as [Hs'|Hs']; [by apply Hshown|].
    by apply list_elem_of_singleton in Hs' as ->.
  - intros _. eexists. rewrite last_snoc. split; [done|]. simpl.
    apply elem_of_app. left. apply elem_of_reverse. left.
  - intros Hnil. apply (f_equal length) in Hnil.
    rewrite length_app, length_reverse in Hnil. done.
  - rewrite length_app. simpl.
    pose proof (bidi_size_bound grid st Hinv). lia.
  - apply NoDup_app. split_and!.
    + rewrite reverse_Permutation. by apply (parents_of_NoDup (fwd_parent st)).
    + intros x Hx Hx'. rewrite elem_of_reverse in Hx.
      apply elem_of_cons in Hx as [->|Hx].
      * pose proof (parents_of_NoDup _ _ _ Hlb) as Hnd.
        by apply NoDup_cons in Hnd as [Hnd _].
      * apply (Hdisj x); auto.
    + pose proof (parents_of_NoDup _ _ _ Hlb) as Hnd.
      by apply NoDup_cons in Hnd as [_ Hnd].
  - intros p Hp. rewrite fmap_app. apply elem_of_app.
    assert (p = cur ∨ p ∈ Pf ∪ Pb) as [->|Hpop].
    { apply elem_of_app in Hp as [Hp|Hp].
      - rewrite elem_of_reverse in Hp.
        apply elem_of_cons in Hp as [->|Hp]; [by left|right].
        apply elem_of_union. left. auto.
      - right. apply elem_of_union. right. auto. }
    + right. simpl. by apply list_elem_of_singleton.
    + left. by apply Hcur.
Qed.

(** The bookkeeping after a side has popped [cur] and discovered [new]. *)
Lemma bidi_log_expand grid st st' cur (rest new : list Pos) (fwd : bool) :
  bidi_inv grid st → bidi_log grid st →
  (if fwd then fwd_queue st else bwd_queue st) = cur :: rest →
  cur ∉ (if fwd then bwd_visited st else fwd_visited st) →
  NoDup new →
  (∀ n, n ∈ new → n ∉ (if fwd then fwd_visited st else bwd_visited st)) →
  (if fwd then True else bidi_steps st ≠ []) →
  bidi_steps st' =
    bidi_steps st ++
      [make_step cur
         (if fwd then rest ++ bwd_queue st else fwd_queue st ++ rest)
         (fwd_visited st ∪ bwd_visited st)] →
  (if fwd then
     fwd_queue st' = rest ++ new ∧
     fwd_visited st' = fwd_visited st ∪ list_to_set new ∧
     fwd_parent st' = adopt cur (fwd_parent st) new ∧
     bwd_queue st' = bwd_queue st ∧ bwd_visited st' = bwd_visited st ∧
     bwd_parent st' = bwd_parent st
   else
     bwd_queue st' = rest ++ new ∧
     bwd_visited st' = bwd_visited st ∪ list_to_set new ∧
     bwd_parent st' = adopt cur (bwd_parent st) new ∧
     fwd_queue st' = fwd_queue st ∧ fwd_visited st' = fwd_visited st ∧
     fwd_parent st' = fwd_parent st) →
  bidi_log grid st'.
Proof.
  intros Hinv [Hfirst (Pf & Pb & Hdisj & HPf & HPb & Hpf & Hpb & Hcur)
               Hwithin Hshown Hlast Hcount] Hq Hother Hnd Hnew Hrec Hsteps Hst.
  pose proof Hinv as [Hf Hb _ _].
  assert (cur ∈ (if fwd then fwd_visited st else bwd_visited st)) as Hcv.
  { destruct fwd.
    - apply (side_queue _ _ _ _ _ _ Hf). rewrite Hq. left.
    - apply (side_queue _ _ _ _ _ _ Hb). rewrite Hq. left. }
  destruct (bidi_step_shown grid st cur
              (if fwd then rest ++ bwd_queue st else fwd_queue st ++ rest)
              Hinv) as [Hw Hs].
  { destruct fwd; set_solver. }
  { intros x Hx. destruct fwd; rewrite Hq; set_solver. }
  split.
  - rewrite Hsteps. destruct (bidi_steps st) as [|s steps']; simpl; [|done].
    destruct Hfirst as (Hfq & Hbq & -> & ->). destruct fwd.
    + rewrite Hfq in Hq. injection Hq as <- <-. by rewrite Hbq.
    + by destruct Hrec.
  - destruct fwd; destruct Hst as (Hq' & Hv' & Hp' & Hq'' & Hv'' & Hp'').
    + exists (Pf ∪ {[cur]}), Pb. rewrite Hv', Hp', Hv'', Hp'', Hsteps.
      split_and!; try done.
      * set_solver.
      * set_solver.
      * intros n p Hn. apply adopt_lookup_parent in Hn as [Hn|(_ & _ & ->)];
          [|set_solver]. apply elem_of_union. left. by apply (Hpf n).
      * intros p Hp. rewrite fmap_app. apply elem_of_app.
        destruct (decide (p = cur)) as [->|Hne].
        -- right. simpl. by apply list_elem_of_singleton.
        -- left. apply Hcur. set_solver.
    + exists Pf, (Pb ∪ {[cur]}). rewrite Hv', Hp', Hv'', Hp'', Hsteps.
      split_and!; try done.
      * set_solver.
      * set_solver.
      * intros n p Hn. apply adopt_lookup_parent in Hn as [Hn|(_ & _ & ->)];
          [|set_solver]. apply elem_of_union. left. by apply (Hpb n).
      * intros p Hp. rewrite fmap_app. apply elem_of_app.
        destruct (decide (p = cur)) as [->|Hne].
        -- right. simpl. by apply list_elem_of_singleton.
        -- left. apply Hcur. set_solver.
  - rewrite Hsteps. intros s Hs'.
    apply elem_of_app in Hs' as [Hs'|Hs']; [by apply Hwithin|].
    by apply list_elem_of_singleton in Hs' as ->.
  - rewrite Hsteps. intros s Hs'.
    apply elem_of_app in Hs' as [Hs'|Hs']; [by apply Hshown|].
    by apply list_elem_of_singleton in Hs' as ->.
  - rewrite Hsteps, last_snoc. intros a [= <-] Hfq Hbq. simpl.
    destruct fwd; destruct Hst as (Hq' & _ & _ & Hq'' & _ & _).
    + rewrite Hq' in Hfq. apply app_eq_nil in Hfq as [-> _].
      by rewrite <-Hq'', Hbq.
    + rewrite Hq' in Hbq. apply app_eq_nil in Hbq as [-> _].
      by rewrite <-Hq'', Hfq.
  - rewrite Hsteps, length_app. simpl.
    destruct fwd; destruct Hst as (-> & -> & _ & -> & -> & _);
      rewrite size_union_list by done; rewrite Hq in Hcount;
      rewrite length_app; simpl in Hcount; lia.
Qed.

Lemma bidi_forward_log grid st :
  bidi_inv grid st → bidi_log grid st →
  match bidi_forward grid st with
  | Some (inl st') => bidi_log grid st' ∧ bidi_steps st' ≠ []
  | Some (inr r) => bidi_facts grid r.1 r.2
  | None => True
  end.
Proof.
  intros Hinv Hlog. pose proof Hinv as [Hf Hb Htr Hgp].
  unfold bidi_forward.
  destruct (fwd_queue st) as [|cur rest] eqn:Hq.
  { split; [done|]. intros Hnil. pose proof (bl_first _ _ Hlog) as Hfirst.
    rewrite Hnil in Hfirst. destruct Hfirst as (Hfq & _). congruence. }
  assert (cur ∈ fwd_visited st) as Hcur.
  { apply (side_queue _ _ _ _ _ _ Hf). left. }
  case_bool_decide as Hm.
  - destruct (merge_paths_route grid _ _ _ _ cur
                (side_tree _ _ _ _ _ _ Hf) (side_tree _ _ _ _ _ _ Hb) Hcur Hm)
      as (path & Hmerge & _).
    rewrite Hmerge. simpl. apply bidi_found; try done.
    + intros x Hx. rewrite Hq. set_solver.
    + rewrite Hq. simpl. lia.
    + intros Hnil. pose proof (bl_first _ _ Hlog) as Hfirst.
      rewrite Hnil in Hfirst. destruct Hfirst as (Hfq & Hbq & _).
      rewrite Hq in Hfq. injection Hfq as -> ->. by rewrite Hbq.
  - destruct (bidi_relax_foldl cur (get_neighbors grid cur) rest
                (fwd_visited st) (fwd_parent st) (side_dom _ _ _ _ _ _ Hf))
      as (new & -> & Hnd & Hnew).
    split; [|simpl; by destruct (bidi_steps st)].
    apply (bidi_log_expand grid st _ cur rest new true); try done.
    intros n Hn. apply Hnew in Hn. tauto.
Qed.

Lemma bidi_backward_log grid st :
  bidi_inv grid st → bidi_log grid st → bidi_steps st ≠ [] →
  match bidi_backward grid st with
  | Some (inl st') => bidi_log grid st'
  | Some (inr r) => bidi_facts grid r.1 r.2
  | None => True
  end.
Proof.
  intros Hinv Hlog Hne. pose proof Hinv as [Hf Hb Htr Hgp].
  unfold bidi_backward.
  destruct (bwd_queue st) as [|cur rest] eqn:Hq; [done|].
  assert (cur ∈ bwd_visited st) as Hcur.
  { apply (side_queue _ _ _ _ _ _ Hb). left. }
  case_bool_decide as Hm.
  - destruct (merge_paths_route grid _ _ _ _ cur
                (side_tree _ _ _ _ _ _ Hf) (side_tree _ _ _ _ _ _ Hb) Hm Hcur)
      as (path & Hmerge & _).
    rewrite Hmerge. simpl. apply bidi_found; try done.
    + intros x Hx. rewrite Hq. set_solver.
    + rewrite Hq. simpl. lia.
  - destruct (bidi_relax_foldl cur (get_neighbors grid cur) rest
                (bwd_visited st) (bwd_parent st) (side_dom _ _ _ _ _ _ Hb))
      as (new & -> & Hnd & Hnew).
    apply (bidi_log_expand grid st _ cur rest new false); try done.
    intros n Hn. apply Hnew in Hn. tauto.
Qed.

Lemma bidi_body_log grid st :
  bidi_inv grid st → bidi_log grid st →
  match bidi_body grid st with
  | Some (inl st') => bidi_log grid st'
  | Some (inr r) => bidi_facts grid r.1 r.2
  | None => True
  end.
Proof.
  intros Hinv Hlog.
  assert (fwd_queue st = [] ∧ bwd_queue st = [] ∨
          (bidi_body grid st =
             r ← bidi_forward grid st;
             match r with
             | inl st' => bidi_backward grid st'
             | inr res => Some (inr res)
             end)) as [[Hfq Hbq]| ->].
  { unfold bidi_body.
    destruct (fwd_queue st), (bwd_queue st); [by left|right..]; done. }
  - unfold bidi_body. rewrite Hfq, Hbq. simpl.
    destruct Hlog as [Hfirst _ Hwithin Hshown Hlast Hcount].
    destruct (bidi_steps st) as [|s steps] eqn:Hsteps.
    { destruct Hfirst as (Hfq' & _). congruence. }
    split; try done.
    + simpl. by rewrite Hfirst.
    + intros _. destruct (last (s :: steps)) as [a|] eqn:Ha.
      * exists a. split; [done|]. by apply Hlast.
      * by apply last_None in Ha.
    + pose proof (bidi_size_bound grid st Hinv). rewrite Hfq, Hbq in Hcount.
      simpl in *. lia.
    + apply NoDup_nil_2.
    + intros p Hp. by apply elem_of_nil in Hp.
  - pose proof (bidi_forward_inv grid st Hinv) as Hfi.
    pose proof (bidi_forward_log grid st Hinv Hlog) as Hfl.
    destruct (bidi_forward grid st) as [[st'|r]|]; simpl; [|done|done].
    destruct Hfi as [Hinv' _]. destruct Hfl as [Hlog' Hne].
    apply (bidi_backward_log grid st' Hinv' Hlog' Hne).
Qed.

Lemma bidi_init_log grid : bidi_log grid (bidi_init grid).
Proof.
  split; try (simpl; done).
  - simpl. exists ∅, ∅. split_and!; try set_solver.
    + intros n p Hn. by apply lookup_singleton_Some in Hn as [_ [=]].
    + intros n p Hn. by apply lookup_singleton_Some in Hn as [_ [=]].
  - intros s Hs. by apply elem_of_nil in Hs.
  - intros s Hs. by apply elem_of_nil in Hs.
  - unfold bidi_init.
    cbn [bidi_steps fwd_queue bwd_queue fwd_visited bwd_visited length].
    rewrite !size_singleton. lia.
Qed.

Lemma bidi_run_facts grid :
  is_valid grid (start grid) = true → is_valid grid (goal grid) = true →
  returns (bidirectional grid) (bidi_facts grid).
Proof.
  intros Hs Hg. destruct (bidi_total grid Hs Hg) as ([steps path] & Hr & _).
  exists steps, path. split; [done|].
  apply (while_loop_post (bidi_body grid)
           (λ st, bidi_inv grid st ∧ bidi_log grid st)
           (λ r, bidi_facts grid r.1 r.2)) in Hr; [done| |].
  - intros st [Hinv Hlog].
    pose proof (bidi_body_inv grid st Hinv) as Hi.
    pose proof (bidi_body_log grid st Hinv Hlog) as Hl.
    destruct (bidi_body grid st) as [[st'|r]|]; try done.
    split; [tauto|done].
  - split; [by apply bidi_init_inv|apply bidi_init_log].
Qed.

End RunBidi.

(** * The strategies that ignore the costs, and the grid turned round *)

Lemma while_loop_ext {S R : Type} (body1 body2 : S → option (S + R)) :
  (∀ s, body1 s = body2 s) →
  ∀ fuel s, while_loop body1 fuel s = while_loop body2 fuel s.
Proof.
  intros Hext fuel. induction fuel as [|fuel IH]; intros s; [done|].
  simpl. rewrite Hext. destruct (body2 s) as [[s'|r]|]; auto.
Qed.

Section CostFree.

Context {C1 C2 : Type} (K1 : Cost C1) (K2 : Cost C2).

Lemma get_neighbors_cost_free grid p :
  (get_neighbors (C := C1) grid p).*1 = (get_neighbors (C := C2) grid p).*1.
Proof. by rewrite !get_neighbors_fst. Qed.

Lemma bfs_relax_cost_free (cur : Pos) (vis : gset Pos)
    (l1 : list (Pos * C1)) (l2 : list (Pos * C2)) :
  l1.*1 = l2.*1 →
  ∀ acc, foldl (bfs_relax cur vis) acc l1 = foldl (bfs_relax cur vis) acc l2.
Proof.
  revert l2. induction l1 as [|e1 l1 IH]; intros [|e2 l2] Heq acc; try done.
  injection Heq as He Hl. cbn [foldl].
  assert (bfs_relax cur vis acc e1 = bfs_relax cur vis acc e2) as ->.
  { unfold bfs_relax. destruct acc as [[q iq] cf]. by rewrite He. }
  by apply IH.
Qed.

Lemma dfs_push_cost_free (cur : Pos) (vis : gset Pos)
    (l1 : list (Pos * C1)) (l2 : list (Pos * C2)) :
  l1.*1 = l2.*1 →
  ∀ acc, foldl (dfs_push cur vis) acc l1 = foldl (dfs_push cur vis) acc l2.
Proof.
  revert l2. induction l1 as [|e1 l1 IH]; intros [|e2 l2] Heq acc; try done.
  injection Heq as He Hl. cbn [foldl].
  assert (dfs_push cur vis acc e1 = dfs_push cur vis acc e2) as ->.
  { unfold dfs_push. destruct acc as [q cf]. by rewrite He. }
  by apply IH.
Qed.

Lemma dls_push_cost_free (cur : Pos) (depth : Z) (vis : gset Pos)
    (l1 : list (Pos * C1)) (l2 : list (Pos * C2)) :
  l1.*1 = l2.*1 →
  ∀ acc, foldl (dls_push cur depth vis) acc l1 =
         foldl (dls_push cur depth vis) acc l2.
Proof.
  revert l2. induction l1 as [|e1 l1 IH]; intros [|e2 l2] Heq acc; try done.
  injection Heq as He Hl. cbn [foldl].
  assert (dls_push cur depth vis acc e1 = dls_push cur depth vis acc e2)
    as ->.
  { unfold dls_push. destruct acc as [q cf]. by rewrite He. }
  by apply IH.
Qed.

Lemma bidi_relax_cost_free (cur : Pos)
    (l1 : list (Pos * C1)) (l2 : list (Pos * C2)) :
  l1.*1 = l2.*1 →
  ∀ acc, foldl (bidi_relax cur) acc l1 = foldl (bidi_relax cur) acc l2.
Proof.
  revert l2. induction l1 as [|e1 l1 IH]; intros [|e2 l2] Heq acc; try done.
  injection Heq as He Hl. cbn [foldl].
  assert (bidi_relax cur acc e1 = bidi_relax cur acc e2) as ->.
  { unfold bidi_relax. destruct acc as [[q v] cf]. by rewrite He. }
  by apply IH.
Qed.

Lemma reverse_cost_free grid p :
  (reverse (get_neighbors (C := C1) grid p)).*1 =
  (reverse (get_neighbors (C := C2) grid p)).*1.
Proof. by rewrite !fmap_reverse, get_neighbors_cost_free. Qed.

Lemma bfs_cost_free grid : bfs (C := C1) grid = bfs (C := C2) grid.
Proof.
  unfold bfs. apply while_loop_ext. intros st. unfold bfs_body.
  destruct (bfs_queue st) as [|cur rest]; [done|].
  by rewrite (bfs_relax_cost_free cur _ _ (get_neighbors (C := C2) grid cur)
                (get_neighbors_cost_free grid cur)).
Qed.

Lemma dfs_cost_free grid : dfs (C := C1) grid = dfs (C := C2) grid.
Proof.
  unfold dfs. apply while_loop_ext. intros st. unfold dfs_body.
  destruct (list_pop (dfs_stack st)) as [[stack cur]|]; [|done].
  by rewrite (dfs_push_cost_free cur _ _
                (reverse (get_neighbors (C := C2) grid cur))
                (reverse_cost_free grid cur)).
Qed.

Lemma dls_cost_free grid limit :
  dls (C := C1) grid limit = dls (C := C2) grid limit.
Proof.
  unfold dls. apply while_loop_ext. intros st. unfold dls_body.
  destruct (list_pop (dls_stack st)) as [[stack [cur depth]]|]; [|done].
  by rewrite (dls_push_cost_free cur depth _ _
                (reverse (get_neighbors (C := C2) grid cur))
                (reverse_cost_free grid cur)).
Qed.

Lemma iddfs_cost_free grid : iddfs (C := C1) grid = iddfs (C := C2) grid.
Proof.
  unfold iddfs. generalize (@nil Step).
  induction (seqZ 0 (ROWS * COLS)) as [|k limits IH]; intros all_steps;
    [done|].
  simpl. rewrite dls_cost_free.
  destruct (dls (C := C2) grid k) as [[steps path]|]; [|done]. simpl.
  destruct path; [apply IH|done].
Qed.

Lemma bidirectional_cost_free grid :
  bidirectional (C := C1) grid = bidirectional (C := C2) grid.
Proof.
  unfold bidirectional. apply while_loop_ext. intros st.
  assert (∀ st, bidi_forward (C := C1) grid st =
                bidi_forward (C := C2) grid st) as Hf.
  { intros st'. unfold bidi_forward.
    destruct (fwd_queue st') as [|cur rest]; [done|].
    by rewrite (bidi_relax_cost_free cur _
                  (get_neighbors (C := C2) grid cur)
                  (get_neighbors_cost_free grid cur)). }
  assert (∀ st, bidi_backward (C := C1) grid st =
                bidi_backward (C := C2) grid st) as Hb.
  { intros st'. unfold bidi_backward.
    destruct (bwd_queue st') as [|cur rest]; [done|].
    by rewrite (bidi_relax_cost_free cur _
                  (get_neighbors (C := C2) grid cur)
                  (get_neighbors_cost_free grid cur)). }
  unfold bidi_body. rewrite Hf.
  destruct (fwd_queue st), (bwd_queue st); try done;
    destruct (bidi_forward (C := C2) grid st) as [[st'|r]|]; simpl; auto.
Qed.

End CostFree.

(** ** Routes over symmetric moves *)

Section Swap.

Context {C : Type} `{Cost C}.

Lemma step_swap_ends grid p q : step (swap_ends grid) p q ↔ step grid p q.
Proof. rewrite !step_iff. done. Qed.

Lemma route_swap_ends grid a b l :
  route (swap_ends grid) a b l ↔ route grid a b l.
Proof.
  unfold route. split; intros (Hh & Hl & Hc); split_and!; try done;
    (eapply chain_impl; [|done]); intros p q _ _; apply step_swap_ends.
Qed.

Lemma route_reverse grid a b l :
  is_valid grid a = true → route grid a b l → route grid b a (reverse l).
Proof.
  intros Ha Hr. pose proof Hr as (Hh & Hl & Hc). split_and!.
  - by rewrite head_reverse.
  - by rewrite last_reverse.
  - apply chain_reverse. apply (chain_impl (step grid)); [|done].
    intros p q Hp _ Hpq. apply step_sym; [|done].
    clear Hpq. revert a Ha Hh Hr Hc Hl.
    induction l as [|x l IH]; intros a Ha Hh Hr Hc Hl;
      [by apply elem_of_nil in Hp|].
    injection Hh as ->. apply elem_of_cons in Hp as [->|Hp]; [done|].
    destruct l as [|y l]; [by apply elem_of_nil in Hp|].
    destruct Hc as [Hs Hc]. rewrite last_cons_cons in Hl.
    apply (IH Hp y); try done; try (by apply step_valid in Hs).
Qed.

Lemma reachable_sym grid a b :
  is_valid grid a = true → reachable grid a b → reachable grid b a.
Proof. intros Ha [l Hl]. exists (reverse l). by apply route_reverse. Qed.

End Swap.

Section RouteCostFree.

Context {C1 C2 : Type} (K1 : Cost C1) (K2 : Cost C2).

Lemma step_cost_free grid p q :
  step (C := C1) grid p q ↔ step (C := C2) grid p q.
Proof. unfold step. by rewrite (get_neighbors_cost_free K1 K2). Qed.

Lemma route_cost_free grid a b l :
  route (C := C1) grid a b l → route (C := C2) grid a b l.
Proof.
  intros (Hh & Hl & Hc). split_and!; try done.
  eapply chain_impl; [|done]. intros p q _ _. apply step_cost_free.
Qed.

End RouteCostFree.

Lemma is_valid_swap_ends grid p : is_valid (swap_ends grid) p = is_valid grid p.
Proof. by destruct p. Qed.

(** * Further properties of the code *)

(** ** The neighbour generator and the parent maps *)

Section HelperFacts.

Context {C : Type} `{Cost C}.

(** X1.  The moves are symmetric: if [get_neighbors] applied to a cell [p]
    that can be entered returns [q] with a cost, then [get_neighbors] applied
    to [q] returns [p] with the same cost. *)
Theorem X1_get_neighbors_symmetric grid p q c :
  is_valid grid p = true →
  (q, c) ∈ get_neighbors grid p → (p, c) ∈ get_neighbors grid q.
Proof.
  intros Hp Hq. apply elem_of_get_neighbors in Hq as [Hs Hc].
  simpl in Hs, Hc. subst c. rewrite move_cost_sym.
  apply step_get_neighbors. by apply step_sym.
Qed.

(** X2.  [get_neighbors] never returns a cell twice, never returns the
    position itself, and returns at most six cells; every cell it returns can
    be entered, lies within one row and one column of the position, and is
    not one of the two cells up-right and down-left of it. *)
Theorem X2_get_neighbors_never grid p :
  NoDup (get_neighbors grid p).*1 ∧ length (get_neighbors grid p) ≤ 6 ∧
  ∀ q, q ∈ (get_neighbors grid p).*1 →
    q ≠ p ∧ is_valid grid q = true ∧
    (-1 ≤ q.1 - p.1 ≤ 1)%Z ∧ (-1 ≤ q.2 - p.2 ≤ 1)%Z ∧
    (q.1 - p.1, q.2 - p.2)%Z ≠ (-1, 1)%Z ∧
    (q.1 - p.1, q.2 - p.2)%Z ≠ (1, -1)%Z.
Proof.
  split_and!.
  - rewrite get_neighbors_fst. apply NoDup_filter, candidates_NoDup.
  - apply get_neighbors_length.
  - intros q Hq. rewrite get_neighbors_fst in Hq.
    rewrite list_elem_of_filter in Hq. destruct Hq as [Hv Hq].
    destruct (candidates_near p q Hq) as (H1 & H2 & H3 & H4).
    split_and!; try done; try lia; intros [= Ha Hb]; rewrite Ha, Hb in H4;
      lia.
Qed.

End HelperFacts.

Lemma reconstruct_path_rootless cf g :
  rootless cf g → reconstruct_path cf g = Some [g].
Proof.
  intros Hroot. apply reconstruct_path_parents. exists []. split; [|done].
  constructor. unfold parent_get. by destruct Hroot as [-> | ->].
Qed.

(** X3.  When [reconstruct_path] returns, the path ends with the node it was
    asked for, holds no node twice, begins with a node that has no parent
    (its key is absent from the map, or maps to [None]), and every node of
    the path is followed by a node whose entry in the map is that node. *)
Theorem X3_reconstruct_path_shape cf g path :
  reconstruct_path cf g = Some path →
  last path = Some g ∧ NoDup path ∧ parent_links cf path ∧
  ∃ r, head path = Some r ∧ rootless cf r.
Proof.
  intros Hr. apply reconstruct_path_parents in Hr as (l & Hl & ->).
  split_and!.
  - by rewrite last_reverse.
  - rewrite reverse_Permutation. by apply (parents_of_NoDup cf).
  - by apply parents_of_links.
  - destruct (parents_of_root _ _ _ Hl) as (r & Hr & Hroot).
    exists r. by rewrite head_reverse.
Qed.

(** X4.  [reconstruct_path] applied to a node without a parent, in
    particular to a node that is not a key of the map, returns the path made
    of that node alone.  It returns no value exactly when the parents of the
    node never end, that is when following [came_from] from the node runs
    into a cycle: its [while] loop never exits then. *)
Theorem X4_reconstruct_path_returns cf g :
  (rootless cf g → reconstruct_path cf g = Some [g]) ∧
  (reconstruct_path cf g = None ↔ ∀ k, is_Some (ancestor cf k g)).
Proof.
  split; [apply reconstruct_path_rootless|]. split.
  - intros Hnone k. destruct (ancestor cf k g) as [a|] eqn:Hk; [by eexists|].
    apply ancestor_parents in Hk as [l Hl].
    assert (reconstruct_path cf g = Some (reverse (g :: l))) as Hsome.
    { apply reconstruct_path_parents. by exists l. }
    congruence.
  - intros Hall. destruct (reconstruct_path cf g) as [path|] eqn:Hr; [|done].
    apply reconstruct_path_parents in Hr as (l & Hl & _).
    apply parents_of_ancestor in Hl.
    destruct (Hall (S (length l))) as [a Ha]. congruence.
Qed.

(** X5.  [merge_paths] stitches the two halves that [reconstruct_path]
    builds: it returns exactly when [reconstruct_path] returns for the
    meeting node on both parent maps, and its result is the forward path
    followed by the backward path reversed, without the meeting node
    repeated. *)
Theorem X5_merge_paths_stitches fp bp m path :
  merge_paths fp bp m = Some path ↔
  ∃ pf pb, reconstruct_path fp m = Some pf ∧
           reconstruct_path bp m = Some pb ∧
           path = pf ++ tail (reverse pb).
Proof.
  rewrite merge_paths_parents. split.
  - intros (lf & lb & Hlf & Hlb & ->).
    exists (reverse (m :: lf)), (reverse (m :: lb)). split_and!.
    + apply reconstruct_path_parents. by exists lf.
    + apply reconstruct_path_parents. by exists lb.
    + by rewrite reverse_involutive.
  - intros (pf & pb & Hpf & Hpb & ->).
    apply reconstruct_path_parents in Hpf as (lf & Hlf & ->).
    apply reconstruct_path_parents in Hpb as (lb & Hlb & ->).
    exists lf, lb. split_and!; [done|done|]. by rewrite reverse_involutive.
Qed.

(** ** The traces and the paths of the six strategies *)

Lemma returns_and (r : option Result) (P Q : list Step → list Pos → Prop) :
  returns r P → returns r Q → returns r (λ steps path, P steps path ∧ Q steps path).
Proof.
  intros (steps & path & Hr & HP) (steps' & path' & Hr' & HQ).
  rewrite Hr in Hr'. injection Hr' as <- <-. by exists steps, path.
Qed.

Lemma size_list_to_set_le (l : list Pos) :
  size (list_to_set l : gset Pos) ≤ length l.
Proof.
  induction l as [|x l IH].
  - by rewrite list_to_set_nil, size_empty.
  - rewrite list_to_set_cons, size_union_alt, size_singleton.
    pose proof (subseteq_size (list_to_set l ∖ {[x]} : gset Pos)
                  (list_to_set l)) as Hle.
    specialize (Hle ltac:(set_solver)). simpl. lia.
Qed.

Lemma limits_length : length (seqZ 0 (ROWS * COLS)) = 100.
Proof. rewrite length_seqZ. done. Qed.

Lemma limits_nonempty : seqZ 0 (ROWS * COLS) ≠ [].
Proof.
  intros Hnil. pose proof limits_length as Hlen. by rewrite Hnil in Hlen.
Qed.

Section RunFacts.

Context {C : Type} `{Cost C}.

Lemma route_valid grid a b l :
  is_valid grid a = true → route grid a b l →
  ∀ x, x ∈ l → is_valid grid x = true.
Proof.
  intros Ha (Hh & _ & Hc) x Hx.
  revert a Ha Hh Hc. induction l as [|p l IH]; intros a Ha Hh Hc;
    [by apply elem_of_nil in Hx|].
  injection Hh as ->. apply elem_of_cons in Hx as [->|Hx]; [done|].
  destruct l as [|q l]; [by apply elem_of_nil in Hx|].
  destruct Hc as [Hs Hc]. apply (IH Hx q); [|done|done].
  by apply step_valid in Hs.
Qed.

Lemma NoDup_valid_length grid (l : list Pos) :
  NoDup l → (∀ x, x ∈ l → is_valid grid x = true) →
  length l ≤ size (valid_cells grid).
Proof.
  intros Hnd Hv. rewrite <-(size_list_to_set (C := gset Pos) l) by done.
  apply subseteq_size. intros x Hx. apply elem_of_list_to_set in Hx.
  apply elem_of_valid_cells. by apply Hv.
Qed.

Lemma trace_within_valid grid steps :
  is_valid grid (start grid) = true →
  trace_within (reachable grid (start grid)) steps →
  trace_within (λ x, reachable grid (start grid) x ∧
                     is_valid grid x = true) steps.
Proof.
  intros Hs Hw s Hin. destruct (Hw s Hin) as (Hc & Hf & Hv).
  split_and!; eauto using reachable_valid.
Qed.

Lemma dfs_facts grid :
  is_valid grid (start grid) = true →
  returns (dfs grid) (λ steps path,
    run_facts grid (pop_bound grid) steps path ∧
    (path ≠ [] → route grid (start grid) (goal grid) path)).
Proof.
  intros Hs. apply returns_and; [by apply dfs_run_facts|].
  apply (returns_impl _ _ _ (dfs_returns grid Hs)).
  intros steps path [_ Hp] Hne. by apply path_outcome_nonempty.
Qed.

Lemma bfs_facts grid :
  is_valid grid (start grid) = true →
  returns (bfs grid) (λ steps path,
    run_facts grid (pop_bound grid) steps path ∧
    (path ≠ [] → route grid (start grid) (goal grid) path)).
Proof.
  intros Hs. apply (returns_impl _ _ _ (bfs_run_facts grid Hs)).
  intros steps path [Hf [_ Hp _ _ _ _ _]]. split; [done|].
  intros Hne. by apply path_outcome_nonempty.
Qed.

Lemma dls_facts grid limit :
  is_valid grid (start grid) = true → is_valid grid (goal grid) = true →
  returns (dls grid limit) (λ steps path,
    run_facts grid (pop_bound grid) steps path ∧
    (path ≠ [] → route grid (start grid) (goal grid) path)).
Proof.
  intros Hs Hg. apply returns_and; [by apply dls_run_facts|].
  apply (returns_impl _ _ _ (dls_returns grid limit Hs Hg)).
  intros steps path (_ & Hp & _). done.
Qed.

Lemma iddfs_facts grid :
  is_valid grid (start grid) = true → is_valid grid (goal grid) = true →
  returns (iddfs grid) (λ steps path,
    run_facts grid (100 * pop_bound grid) steps path ∧
    (path ≠ [] → route grid (start grid) (goal grid) path)).
Proof.
  intros Hs Hg. apply (returns_impl _ _ _ (iddfs_returns grid Hs Hg)).
  intros steps path (traces & -> & Hrun). split.
  - rewrite <-limits_length.
    by apply iddfs_run_facts; [| |apply limits_nonempty|].
  - by apply (iddfs_run_route grid (seqZ 0 (ROWS * COLS)) traces).
Qed.

Lemma bidi_facts_route grid :
  is_valid grid (start grid) = true → is_valid grid (goal grid) = true →
  returns (bidirectional grid) (λ steps path,
    bidi_facts grid steps path ∧
    (path ≠ [] → route grid (start grid) (goal grid) path)).
Proof.
  intros Hs Hg. apply returns_and; [by apply bidi_run_facts|].
  apply (returns_impl _ _ _ (bidirectional_returns grid Hs Hg)).
  intros steps path [_ Hp] Hne. by apply path_outcome_nonempty.
Qed.

End RunFacts.

Section RunFactsUcs.

Context {C : Type} `{Cost C} `{HeapQ (C * Z * Pos)} `{!CostLaws}
  `{!HeapQLaws}.

Lemma ucs_facts grid :
  is_valid grid (start grid) = true →
  returns (ucs grid) (λ steps path,
    run_facts grid (pop_bound grid) steps path ∧
    (path ≠ [] → route grid (start grid) (goal grid) path)).
Proof.
  intros Hs. apply returns_and; [by apply ucs_run_facts|].
  apply (returns_impl _ _ _ (ucs_returns grid Hs)).
  intros steps path (_ & Hp & _) Hne. by apply path_outcome_nonempty.
Qed.

End RunFactsUcs.

Section Extras.

Context {C : Type} `{Cost C} `{HeapQ (C * Z * Pos)} `{!CostLaws}
  `{!HeapQLaws}.

(** X7.  The trace returned by each of the six search functions, run on a
    grid whose start and goal can be entered, is never empty.  Its first step
    pops the start: for [bfs], [dfs], [ucs], [dls] and [iddfs] with an empty
    frontier and an empty visited set, for [bidirectional] with the goal as
    the only frontier cell and the start and the goal already visited. *)
Theorem X7_first_step grid limit :
  is_valid grid (start grid) = true → is_valid grid (goal grid) = true →
  let first (s : Step) (steps : list Step) (_ : list Pos) :=
    head steps = Some s in
  let s0 := make_step (start grid) [] ∅ in
  returns (bfs grid) (first s0) ∧ returns (dfs grid) (first s0) ∧
  returns (ucs grid) (first s0) ∧ returns (dls grid limit) (first s0) ∧
  returns (iddfs grid) (first s0) ∧
  returns (bidirectional grid)
    (first (make_step (start grid) [goal grid]
              ({[start grid]} ∪ {[goal grid]}))).
Proof.
  intros Hs Hg first s0. split_and!.
  - apply (returns_impl _ _ _ (bfs_facts grid Hs)).
    intros steps path [Hf _]. apply (rf_first _ _ _ _ Hf).
  - apply (returns_impl _ _ _ (dfs_facts grid Hs)).
    intros steps path [Hf _]. apply (rf_first _ _ _ _ Hf).
  - apply (returns_impl _ _ _ (ucs_facts grid Hs)).
    intros steps path [Hf _]. apply (rf_first _ _ _ _ Hf).
  - apply (returns_impl _ _ _ (dls_facts grid limit Hs Hg)).
    intros steps path [Hf _]. apply (rf_first _ _ _ _ Hf).
  - apply (returns_impl _ _ _ (iddfs_facts grid Hs Hg)).
    intros steps path [Hf _]. apply (rf_first _ _ _ _ Hf).
  - apply (returns_impl _ _ _ (bidi_facts_route grid Hs Hg)).
    intros steps path [Hf _]. apply (bf_first _ _ _ Hf).
Qed.

(** X8.  For [bfs], [dfs], [ucs], [dls] and [iddfs], run on a grid whose
    start and goal can be entered: when the returned path is not empty, the
    last step of the trace pops the goal and no earlier step does; when the
    path is empty, no step pops the goal.  For [bidirectional], when the path
    is not empty the node popped by the last step lies on the path. *)
Theorem X8_goal_popped_last grid limit :
  is_valid grid (start grid) = true → is_valid grid (goal grid) = true →
  let stops (steps : list Step) (path : list Pos) :=
    (path ≠ [] → ends_at_goal grid steps) ∧
    (path = [] → ∀ s, s ∈ steps → current s ≠ goal grid) in
  returns (bfs grid) stops ∧ returns (dfs grid) stops ∧
  returns (ucs grid) stops ∧ returns (dls grid limit) stops ∧
  returns (iddfs grid) stops ∧
  returns (bidirectional grid) (λ steps path,
    path ≠ [] → ∃ a, last steps = Some a ∧ current a ∈ path).
Proof.
  intros Hs Hg stops.
  assert (∀ b steps path, run_facts grid b steps path → stops steps path)
    as Hstops.
  { intros b steps path Hf. split; [apply (rf_found _ _ _ _ Hf)|].
    intros Hnil. by destruct (rf_failed _ _ _ _ Hf Hnil). }
  split_and!.
  - apply (returns_impl _ _ _ (bfs_facts grid Hs)).
    intros steps path [Hf _]. by apply (Hstops (pop_bound grid)).
  - apply (returns_impl _ _ _ (dfs_facts grid Hs)).
    intros steps path [Hf _]. by apply (Hstops (pop_bound grid)).
  - apply (returns_impl _ _ _ (ucs_facts grid Hs)).
    intros steps path [Hf _]. by apply (Hstops (pop_bound grid)).
  - apply (returns_impl _ _ _ (dls_facts grid limit Hs Hg)).
    intros steps path [Hf _]. by apply (Hstops (pop_bound grid)).
  - apply (returns_impl _ _ _ (iddfs_facts grid Hs Hg)).
    intros steps path [Hf _]. by apply (Hstops (100 * pop_bound grid)).
  - apply (returns_impl _ _ _ (bidi_facts_route grid Hs Hg)).
    intros steps path [Hf _]. apply (bf_found _ _ _ Hf).
Qed.

(** X9.  When one of the six search functions, run on a grid whose start and
    goal can be entered, returns an empty path, the last step of its trace
    shows an empty frontier: a search gives up only once its frontier is
    exhausted. *)
Theorem X9_failure_exhausts_frontier grid limit :
  is_valid grid (start grid) = true → is_valid grid (goal grid) = true →
  let exhausted (steps : list Step) (path : list Pos) :=
    path = [] → ends_exhausted steps in
  returns (bfs grid) exhausted ∧ returns (dfs grid) exhausted ∧
  returns (ucs grid) exhausted ∧ returns (dls grid limit) exhausted ∧
  returns (iddfs grid) exhausted ∧ returns (bidirectional grid) exhausted.
Proof.
  intros Hs Hg exhausted.
  assert (∀ b steps path, run_facts grid b steps path →
            exhausted steps path) as Hex.
  { intros b steps path Hf Hnil. by destruct (rf_failed _ _ _ _ Hf Hnil). }
  split_and!.
  - apply (returns_impl _ _ _ (bfs_facts grid Hs)).
    intros steps path [Hf _]. by apply (Hex (pop_bound grid)).
  - apply (returns_impl _ _ _ (dfs_facts grid Hs)).
    intros steps path [Hf _]. by apply (Hex (pop_bound grid)).
  - apply (returns_impl _ _ _ (ucs_facts grid Hs)).
    intros steps path [Hf _]. by apply (Hex (pop_bound grid)).
  - apply (returns_impl _ _ _ (dls_facts grid limit Hs Hg)).
    intros steps path [Hf _]. by apply (Hex (pop_bound grid)).
  - apply (returns_impl _ _ _ (iddfs_facts grid Hs Hg)).
    intros steps path [Hf _]. by apply (Hex (100 * pop_bound grid)).
  - apply (returns_impl _ _ _ (bidi_facts_route grid Hs Hg)).
    intros steps path [Hf _] Hnil. by apply (bf_failed _ _ _ Hf).
Qed.

(** X10.  The path returned by each of the six search functions, run on a
    grid whose start and goal can be entered, visits no cell twice, and every
    cell of it can be entered; hence it has at most as many cells as the grid
    has cells that can be entered. *)
Theorem X10_path_is_simple grid limit :
  is_valid grid (start grid) = true → is_valid grid (goal grid) = true →
  let simple (_ : list Step) (path : list Pos) :=
    NoDup path ∧ (∀ x, x ∈ path → is_valid grid x = true) ∧
    length path ≤ size (valid_cells grid) in
  returns (bfs grid) simple ∧ returns (dfs grid) simple ∧
  returns (ucs grid) simple ∧ returns (dls grid limit) simple ∧
  returns (iddfs grid) simple ∧ returns (bidirectional grid) simple.
Proof.
  intros Hs Hg simple.
  assert (∀ steps path, NoDup path →
            (path ≠ [] → route grid (start grid) (goal grid) path) →
            simple steps path) as Hsimple.
  { intros steps path Hnd Hroute.
    assert (∀ x, x ∈ path → is_valid grid x = true) as Hv.
    { intros x Hx. apply (route_valid grid (start grid) (goal grid) path);
        [done| |done]. apply Hroute. intros ->. by apply elem_of_nil in Hx. }
    split_and!; [done|done|by apply NoDup_valid_length]. }
  split_and!.
  - apply (returns_impl _ _ _ (bfs_facts grid Hs)).
    intros steps path [Hf Hr]. apply Hsimple; [apply (rf_nodup _ _ _ _ Hf)|done].
  - apply (returns_impl _ _ _ (dfs_facts grid Hs)).
    intros steps path [Hf Hr]. apply Hsimple; [apply (rf_nodup _ _ _ _ Hf)|done].
  - apply (returns_impl _ _ _ (ucs_facts grid Hs)).
    intros steps path [Hf Hr]. apply Hsimple; [apply (rf_nodup _ _ _ _ Hf)|done].
  - apply (returns_impl _ _ _ (dls_facts grid limit Hs Hg)).
    intros steps path [Hf Hr]. apply Hsimple; [apply (rf_nodup _ _ _ _ Hf)|done].
  - apply (returns_impl _ _ _ (iddfs_facts grid Hs Hg)).
    intros steps path [Hf Hr]. apply Hsimple; [apply (rf_nodup _ _ _ _ Hf)|done].
  - apply (returns_impl _ _ _ (bidi_facts_route grid Hs Hg)).
    intros steps path [Hf Hr]. apply Hsimple; [apply (bf_nodup _ _ _ Hf)|done].
Qed.

(** X11.  Every cell of the path returned by each of the six search
    functions, run on a grid whose start and goal can be entered, is the
    current node of a step of the returned trace: the path only goes through
    cells that the search has popped. *)
Theorem X11_path_cells_were_popped grid limit :
  is_valid grid (start grid) = true → is_valid grid (goal grid) = true →
  returns (bfs grid) path_expanded ∧ returns (dfs grid) path_expanded ∧
  returns (ucs grid) path_expanded ∧
  returns (dls grid limit) path_expanded ∧
  returns (iddfs grid) path_expanded ∧
  returns (bidirectional grid) path_expanded.
Proof.
  intros Hs Hg. split_and!.
  - apply (returns_impl _ _ _ (bfs_facts grid Hs)).
    intros steps path [Hf _]. apply (rf_expanded _ _ _ _ Hf).
  - apply (returns_impl _ _ _ (dfs_facts grid Hs)).
    intros steps path [Hf _]. apply (rf_expanded _ _ _ _ Hf).
  - apply (returns_impl _ _ _ (ucs_facts grid Hs)).
    intros steps path [Hf _]. apply (rf_expanded _ _ _ _ Hf).
  - apply (returns_impl _ _ _ (dls_facts grid limit Hs Hg)).
    intros steps path [Hf _]. apply (rf_expanded _ _ _ _ Hf).
  - apply (returns_impl _ _ _ (iddfs_facts grid Hs Hg)).
    intros steps path [Hf _]. apply (rf_expanded _ _ _ _ Hf).
  - apply (returns_impl _ _ _ (bidi_facts_route grid Hs Hg)).
    intros steps path [Hf _]. apply (bf_expanded _ _ _ Hf).
Qed.

(** X12.  Every cell that a step of a returned trace shows, as its current
    node, in its frontier or in its visited set, can be entered and can be
    reached from the start over the moves of the grid; for [bidirectional],
    it can be reached from the start or from the goal.  A search never pops,
    queues or marks a wall, a cell out of bounds or a cell cut off from
    it. *)
Theorem X12_trace_cells_reachable grid limit :
  is_valid grid (start grid) = true → is_valid grid (goal grid) = true →
  let shown (P : Pos → Prop) (steps : list Step) (_ : list Pos) :=
    trace_within (λ x, P x ∧ is_valid grid x = true) steps in
  let from_start := reachable grid (start grid) in
  returns (bfs grid) (shown from_start) ∧
  returns (dfs grid) (shown from_start) ∧
  returns (ucs grid) (shown from_start) ∧
  returns (dls grid limit) (shown from_start) ∧
  returns (iddfs grid) (shown from_start) ∧
  returns (bidirectional grid) (shown (linked grid)).
Proof.
  intros Hs Hg shown from_start. split_and!.
  - apply (returns_impl _ _ _ (bfs_facts grid Hs)).
    intros steps path [Hf _].
    apply trace_within_valid; [done|apply (rf_reach _ _ _ _ Hf)].
  - apply (returns_impl _ _ _ (dfs_facts grid Hs)).
    intros steps path [Hf _].
    apply trace_within_valid; [done|apply (rf_reach _ _ _ _ Hf)].
  - apply (returns_impl _ _ _ (ucs_facts grid Hs)).
    intros steps path [Hf _].
    apply trace_within_valid; [done|apply (rf_reach _ _ _ _ Hf)].
  - apply (returns_impl _ _ _ (dls_facts grid limit Hs Hg)).
    intros steps path [Hf _].
    apply trace_within_valid; [done|apply (rf_reach _ _ _ _ Hf)].
  - apply (returns_impl _ _ _ (iddfs_facts grid Hs Hg)).
    intros steps path [Hf _].
    apply trace_within_valid; [done|apply (rf_reach _ _ _ _ Hf)].
  - apply (returns_impl _ _ _ (bidi_facts_route grid Hs Hg)).
    intros steps path [Hf _] s Hin.
    destruct (bf_within _ _ _ Hf s Hin) as (Hc & Hfr & Hv).
    assert (∀ x, linked grid x → linked grid x ∧ is_valid grid x = true)
      as Hl.
    { intros x Hx. split; [done|].
      destruct Hx as [Hx|Hx]; eauto using reachable_valid. }
    split; [|split]; auto.
Qed.

(** X13.  The traces are bounded by the number [n] of cells of the grid that
    can be entered: [bfs] records at most [n] steps, [bidirectional] at most
    [2 n], and [dfs], [ucs] and [dls] at most [6 n + 1], one for the start
    and one for each of the six neighbours of a visited cell; [iddfs]
    records at most a hundred times as many. *)
Theorem X13_trace_length grid limit :
  is_valid grid (start grid) = true → is_valid grid (goal grid) = true →
  let n := size (valid_cells grid) in
  returns (bfs grid) (λ steps _, length steps ≤ n) ∧
  returns (dfs grid) (λ steps _, length steps ≤ 6 * n + 1) ∧
  returns (ucs grid) (λ steps _, length steps ≤ 6 * n + 1) ∧
  returns (dls grid limit) (λ steps _, length steps ≤ 6 * n + 1) ∧
  returns (iddfs grid) (λ steps _, length steps ≤ 100 * (6 * n + 1)) ∧
  returns (bidirectional grid) (λ steps _, length steps ≤ 2 * n).
Proof.
  intros Hs Hg n. split_and!.
  - apply (returns_impl _ _ _ (bfs_run_facts grid Hs)).
    intros steps path [Hf Hp].
    pose proof (bp_nodup _ _ Hp) as Hnd. simpl in Hnd.
    rewrite <-(length_fmap current).
    apply NoDup_valid_length; [done|]. intros x Hx.
    apply list_elem_of_fmap in Hx as (s & -> & Hin).
    destruct (rf_reach _ _ _ _ Hf s Hin) as (Hc & _).
    by apply (reachable_valid grid (start grid)).
  - apply (returns_impl _ _ _ (dfs_facts grid Hs)).
    intros steps path [Hf _]. apply (rf_count _ _ _ _ Hf).
  - apply (returns_impl _ _ _ (ucs_facts grid Hs)).
    intros steps path [Hf _]. apply (rf_count _ _ _ _ Hf).
  - apply (returns_impl _ _ _ (dls_facts grid limit Hs Hg)).
    intros steps path [Hf _]. apply (rf_count _ _ _ _ Hf).
  - apply (returns_impl _ _ _ (iddfs_facts grid Hs Hg)).
    intros steps path [Hf _]. apply (rf_count _ _ _ _ Hf).
  - apply (returns_impl _ _ _ (bidi_facts_route grid Hs Hg)).
    intros steps path [Hf _]. apply (bf_count _ _ _ Hf).
Qed.

End Extras.

(** ** Visited snapshots *)

Lemma popped_first_below (steps : list Step) (i : nat) (s : Step) :
  popped_first steps → steps !! i = Some s →
  ∀ p, p ∈ visited s → p ∈ current <$> take i steps.
Proof.
  intros Hpop Hs p Hp. destruct (Hpop i s p Hs Hp) as (j & s' & Hj & Hs' & <-).
  apply list_elem_of_fmap. exists s'. split; [done|].
  apply (list_elem_of_lookup_2 _ j). by rewrite lookup_take_lt.
Qed.

Lemma pops_visited_above (steps : list Step) (i : nat) (s : Step) :
  pops_visited steps → steps !! i = Some s →
  ∀ p, p ∈ current <$> take i steps → p ∈ visited s.
Proof.
  intros Hpv Hs p Hp. apply list_elem_of_fmap in Hp as (s' & -> & Hin).
  apply list_elem_of_lookup in Hin as [j Hj].
  apply lookup_take_Some in Hj as [Hj Hlt]. by apply (Hpv i j).
Qed.

Lemma nodes_visited_below (steps : list Step) :
  popped_first steps → steps ≠ [] → nodes_visited steps < length steps.
Proof.
  intros Hpop Hne. unfold nodes_visited.
  destruct (last steps) as [s|] eqn:Hlast; [|by apply last_None in Hlast].
  rewrite last_lookup in Hlast.
  assert (size (visited s) ≤ pred (length steps)); [|destruct steps; simpl in *; [done|lia]].
  etrans; [|etrans; [apply (size_list_to_set_le
                            (current <$> take (pred (length steps)) steps))|]].
  - apply subseteq_size. intros p Hp. apply elem_of_list_to_set.
    by apply (popped_first_below steps _ s).
  - rewrite length_fmap, length_take. lia.
Qed.

Lemma concat_last {A} (ls : list (list A)) (t : list A) :
  last ls = Some t → ∃ before, concat ls = before ++ t.
Proof.
  induction ls as [|x ls IH]; [done|]. destruct ls as [|y ls].
  - intros [= ->]. exists []. simpl. by rewrite app_nil_r.
  - rewrite last_cons_cons. intros Hl. destruct (IH Hl) as [before Hb].
    exists (x ++ before). rewrite concat_cons, Hb. by rewrite app_assoc.
Qed.

Lemma search_fuel_S grid : ∃ n, search_fuel grid = S (S n).
Proof. exists (6 * size (valid_cells grid)). unfold search_fuel. lia. Qed.

Section Extras.

Context {C : Type} `{Cost C} `{HeapQ (C * Z * Pos)} `{!CostLaws}
  `{!HeapQLaws}.

(** X6.  When the start of the grid is its goal, each of the six search
    functions returns the path made of that cell alone after a single step,
    whatever the cell is (it may lie outside the bounds or on a wall).  The
    step shows an empty frontier and an empty visited set; for
    [bidirectional] it shows the cell in the backward queue and as
    visited. *)
Theorem X6_start_is_goal grid limit :
  start grid = goal grid →
  let s := start grid in
  let one := Some ([make_step s [] ∅], [s]) in
  bfs grid = one ∧ dfs grid = one ∧ ucs grid = one ∧
  dls grid limit = one ∧ iddfs grid = one ∧
  bidirectional grid = Some ([make_step s [s] {[s]}], [s]).
Proof.
  intros Heq s one.
  assert (reconstruct_path {[s := None]} s = Some [s]) as Hrec.
  { apply reconstruct_path_rootless. right. apply lookup_singleton_eq. }
  assert (dls grid limit = one) as Hdls.
  { unfold dls. destruct (search_fuel_S grid) as [n ->]. cbn [while_loop].
    unfold dls_body, dls_init. cbn -[reconstruct_path].
    rewrite bool_decide_eq_true_2 by done. fold s. rewrite Hrec. done. }
  split_and!.
  - unfold bfs. destruct (search_fuel_S grid) as [n ->]. cbn [while_loop].
    unfold bfs_body, bfs_init. cbn -[reconstruct_path].
    rewrite bool_decide_eq_true_2 by done. fold s. rewrite Hrec. done.
  - unfold dfs. destruct (search_fuel_S grid) as [n ->]. cbn [while_loop].
    unfold dfs_body, dfs_init. cbn -[reconstruct_path].
    rewrite bool_decide_eq_true_2 by done. fold s. rewrite Hrec. done.
  - unfold ucs. destruct (search_fuel_S grid) as [n ->]. cbn [while_loop].
    unfold ucs_body, ucs_init. cbn [ucs_heap ucs_steps ucs_visited ucs_came_from].
    destruct (heappop_Some [(c_zero, 0%Z, start grid)]) as [[x h'] Hpop];
      [done|].
    rewrite Hpop. pose proof (heappop_perm _ _ _ Hpop) as Hperm.
    apply Permutation_singleton_l in Hperm. injection Hperm as <- <-.
    cbn -[reconstruct_path]. rewrite bool_decide_eq_true_2 by done. fold s.
    rewrite Hrec. done.
  - done.
  - unfold iddfs. rewrite seqZ_cons by done. cbn [iddfs_loop].
    fold (dls grid 0). assert (dls grid 0 = one) as ->; [|done].
    unfold dls. destruct (search_fuel_S grid) as [n ->]. cbn [while_loop].
    unfold dls_body, dls_init. cbn -[reconstruct_path].
    rewrite bool_decide_eq_true_2 by done. fold s. rewrite Hrec. done.
  - unfold bidirectional. destruct (search_fuel_S grid) as [n ->].
    cbn [while_loop]. unfold bidi_body, bidi_init.
    cbn [fwd_queue bwd_queue]. unfold bidi_forward.
    cbn [fwd_queue bwd_queue bidi_steps fwd_visited bwd_visited fwd_parent
         bwd_parent mbind option_bind].
    rewrite <-Heq. fold s.
    rewrite bool_decide_eq_true_2 by (by apply elem_of_singleton).
    assert (merge_paths {[s := None]} {[s := None]} s = Some [s]) as ->.
    { apply merge_paths_parents. exists [], [].
      assert (parents_of {[s := None]} s []) as Hp.
      { constructor. unfold parent_get. by rewrite lookup_singleton_eq. }
      done. }
    cbn. by rewrite union_idemp_L.
Qed.

(** X14.  In the traces of [bfs], [dfs] and [ucs], run on a grid whose start
    can be entered, the visited snapshot of a step is exactly the set of the
    current nodes of the earlier steps: every popped node is marked visited
    before the next pop, and nothing else ever is. *)
Theorem X14_visited_is_popped grid :
  is_valid grid (start grid) = true →
  let exact (steps : list Step) (_ : list Pos) :=
    ∀ i s, steps !! i = Some s →
      ∀ p, p ∈ visited s ↔ p ∈ current <$> take i steps in
  returns (bfs grid) exact ∧ returns (dfs grid) exact ∧
  returns (ucs grid) exact.
Proof.
  intros Hs exact.
  assert (∀ steps path vis, trace_inv steps vis → pops_visited steps →
            exact steps path) as Hex.
  { intros steps path vis Htr Hpv i s Hi p. split.
    - by apply popped_first_below; [apply (tr_popped _ _ Htr)|].
    - by apply pops_visited_above. }
  split_and!.
  - apply (returns_impl _ _ _ (returns_and _ _ _ (bfs_pops grid Hs)
                                 (bfs_returns grid Hs))).
    intros steps path [Hpv [[vis Htr] _ _ _ _ _ _]]. by apply (Hex _ _ vis).
  - apply (returns_impl _ _ _ (returns_and _ _ _ (dfs_pops grid Hs)
                                 (dfs_returns grid Hs))).
    intros steps path [Hpv [[vis Htr] _]]. by apply (Hex _ _ vis).
  - apply (returns_impl _ _ _ (returns_and _ _ _ (ucs_pops grid Hs)
                                 (ucs_returns grid Hs))).
    intros steps path [Hpv ([vis Htr] & _)]. by apply (Hex _ _ vis).
Qed.

(** X15.  In every step of the trace of [bfs], run on a grid whose start can
    be entered, no cell of the frontier is in the visited set, and none is
    the current node: a queued cell has never been popped. *)
Theorem X15_bfs_frontier_is_fresh grid :
  is_valid grid (start grid) = true →
  returns (bfs grid) (λ steps _,
    ∀ s, s ∈ steps → ∀ x, x ∈ frontier s → x ∉ visited s ∧ x ≠ current s).
Proof.
  intros Hs. apply (returns_impl _ _ _ (bfs_returns grid Hs)).
  intros steps path [[vis Htr] _ _ _ Honce _ _] s Hin x Hx. simpl in *.
  apply list_elem_of_lookup in Hin as [i Hi].
  specialize (Honce i s Hi). apply NoDup_app in Honce as (_ & Hdisj & _).
  assert (∀ p, p ∈ current <$> take (S i) steps → p ≠ x) as Hne.
  { intros p Hp ->. by apply (Hdisj x). }
  split.
  - intros Hv. apply (Hne x); [|done].
    apply (popped_first_below steps i s (tr_popped _ _ Htr) Hi) in Hv.
    apply list_elem_of_fmap in Hv as (s' & -> & Hs').
    apply list_elem_of_fmap. exists s'. split; [done|].
    apply list_elem_of_lookup in Hs' as [j Hj].
    apply lookup_take_Some in Hj as [Hj Hlt].
    apply (list_elem_of_lookup_2 _ j). rewrite lookup_take_lt by lia. done.
  - intros ->. apply (Hne (current s)); [|done].
    apply list_elem_of_fmap. exists s. split; [done|].
    apply (list_elem_of_lookup_2 _ i). rewrite lookup_take_lt by lia. done.
Qed.

(** X16.  In every step of the trace of [bidirectional], run on a grid whose
    start and goal can be entered, the current node and every cell of the
    frontier are in the visited set of the step: this search marks a cell
    when it queues it, not when it pops it. *)
Theorem X16_bidirectional_marks_on_enqueue grid :
  is_valid grid (start grid) = true → is_valid grid (goal grid) = true →
  returns (bidirectional grid) (λ steps _,
    ∀ s, s ∈ steps →
      current s ∈ visited s ∧ ∀ x, x ∈ frontier s → x ∈ visited s).
Proof.
  intros Hs Hg. apply (returns_impl _ _ _ (bidi_run_facts grid Hs Hg)).
  intros steps path Hf s Hin. apply (bf_shown _ _ _ Hf s Hin).
Qed.

(** X17.  With a limit of at least the number of cells of the grid that can
    be entered, the depth cut of [dls] never fires: [dls] returns the very
    trace and path that [dfs] returns. *)
Theorem X17_dls_large_limit_is_dfs grid limit :
  is_valid grid (start grid) = true → is_valid grid (goal grid) = true →
  (Z.of_nat (size (valid_cells grid)) ≤ limit)%Z →
  ∃ steps path, dfs grid = Some (steps, path) ∧
                dls grid limit = Some (steps, path).
Proof.
  intros Hs Hg Hbig. destruct (dfs_total grid Hs) as ([steps path] & Hr & _).
  exists steps, path. split; [done|]. rewrite <-Hr. unfold dls, dfs.
  apply dls_dfs_loop; [done|done|by apply dls_init_inv|done].
Qed.

(** X18.  With a limit of zero or less, [dls] expands nothing: unless the
    start is the goal, it records the single step that pops the start and
    returns an empty path. *)
Theorem X18_dls_without_depth grid limit :
  (limit ≤ 0)%Z → start grid ≠ goal grid →
  dls grid limit = Some ([make_step (start grid) [] ∅], []).
Proof.
  intros Hlim Hne. unfold dls. destruct (search_fuel_S grid) as [n ->].
  cbn [while_loop]. unfold dls_body at 1, dls_init. cbn.
  rewrite bool_decide_eq_false_2 by done.
  assert ((0 >=? limit)%Z = true) as -> by lia. cbn.
  unfold dls_body. cbn. done.
Qed.

(** X19.  [iddfs], run on a grid whose start and goal can be entered, returns
    the path of the first successful depth-limited search: when its path is
    not empty, there is a limit [k] below [ROWS * COLS] for which [dls]
    returns this very path, [dls] returns an empty path for every smaller
    limit, and the trace of [iddfs] ends with the trace of [dls] at [k]; when
    its path is empty, [dls] returns an empty path for every limit below
    [ROWS * COLS]. *)
Theorem X19_iddfs_first_success grid :
  is_valid grid (start grid) = true → is_valid grid (goal grid) = true →
  returns (iddfs grid) (λ steps path,
    (path ≠ [] →
     ∃ k t before, (0 ≤ k < ROWS * COLS)%Z ∧
       dls grid k = Some (t, path) ∧ steps = before ++ t ∧
       ∀ j, (0 ≤ j < k)%Z → ∃ t', dls grid j = Some (t', [])) ∧
    (path = [] →
     ∀ j, (0 ≤ j < ROWS * COLS)%Z → ∃ t', dls grid j = Some (t', []))).
Proof.
  intros Hs Hg. apply (returns_impl _ _ _ (iddfs_returns grid Hs Hg)).
  intros steps path (traces & -> & Hrun). split.
  - intros Hne.
    destruct (iddfs_run_first grid _ traces path Hrun Hne)
      as (i & k & t & Hi & Hd & _ & Hlast & Hbefore).
    apply lookup_seqZ in Hi as [-> Hi].
    destruct (concat_last traces t Hlast) as [before Hb].
    exists (0 + Z.of_nat i)%Z, t, before. split_and!; [lia|lia|done|done|].
    intros j Hj. apply (Hbefore (Z.to_nat j)); [lia|].
    apply lookup_seqZ. lia.
  - intros Hnil j Hj.
    apply (iddfs_run_empty grid _ traces path Hrun Hnil).
    apply elem_of_seqZ. lia.
Qed.

(** X20.  The count that [main] prints as "Nodes explored", the size of the
    visited set of the last step, is one less than the number of steps for a
    trace of [bfs], and smaller than the number of steps for a trace of
    [dfs], [ucs] or [dls]. *)
Theorem X20_nodes_explored grid limit :
  is_valid grid (start grid) = true → is_valid grid (goal grid) = true →
  returns (bfs grid) (λ steps _, nodes_visited steps + 1 = length steps) ∧
  returns (dfs grid) (λ steps _, nodes_visited steps < length steps) ∧
  returns (ucs grid) (λ steps _, nodes_visited steps < length steps) ∧
  returns (dls grid limit) (λ steps _, nodes_visited steps < length steps).
Proof.
  intros Hs Hg.
  assert (∀ b steps path, run_facts grid b steps path → steps ≠ []) as Hne.
  { intros b steps path Hf ->. by pose proof (rf_first _ _ _ _ Hf). }
  split_and!.
  - apply (returns_impl _ _ _ (returns_and _ _ _ (bfs_pops grid Hs)
                                 (bfs_run_facts grid Hs))).
    intros steps path [Hpv [Hf [[vis Htr] _ _ _ _ _ Hnd]]]. simpl in *.
    pose proof (Hne _ _ _ Hf) as Hsteps. unfold nodes_visited.
    destruct (last steps) as [s|] eqn:Hlast; [|by apply last_None in Hlast].
    rewrite last_lookup in Hlast.
    assert (visited s =
            list_to_set (current <$> take (pred (length steps)) steps))
      as ->.
    { apply set_eq. intros p. rewrite elem_of_list_to_set. split.
      - by apply popped_first_below; [apply (tr_popped _ _ Htr)|].
      - by apply pops_visited_above. }
    rewrite size_list_to_set.
    + rewrite length_fmap, length_take. destruct steps; simpl in *; [done|lia].
    + rewrite fmap_take. eapply sublist_NoDup; [done|apply sublist_take].
  - apply (returns_impl _ _ _ (returns_and _ _ _ (dfs_run_facts grid Hs)
                                 (dfs_returns grid Hs))).
    intros steps path [Hf [[vis Htr] _]].
    apply nodes_visited_below; [apply (tr_popped _ _ Htr)|by apply (Hne _ _ _ Hf)].
  - apply (returns_impl _ _ _ (returns_and _ _ _ (ucs_run_facts grid Hs)
                                 (ucs_returns grid Hs))).
    intros steps path [Hf ([vis Htr] & _)].
    apply nodes_visited_below; [apply (tr_popped _ _ Htr)|by apply (Hne _ _ _ Hf)].
  - apply (returns_impl _ _ _ (returns_and _ _ _ (dls_run_facts grid limit Hs Hg)
                                 (dls_returns grid limit Hs Hg))).
    intros steps path [Hf ([vis Htr] & _)].
    apply nodes_visited_below; [apply (tr_popped _ _ Htr)|by apply (Hne _ _ _ Hf)].
Qed.

End Extras.

(** ** The animation *)

Lemma path_index_lookup (l : list Pos) (i : nat) (p : Pos) :
  NoDup l → l !! i = Some p → path_index p l = Some i.
Proof.
  revert i. induction l as [|x l IH]; intros i Hnd Hi; [done|].
  apply NoDup_cons in Hnd as [Hx Hnd]. destruct i as [|i]; simpl in *.
  - injection Hi as ->. by rewrite bool_decide_eq_true_2.
  - rewrite bool_decide_eq_false_2.
    + by rewrite (IH i).
    + intros ->. apply Hx. by apply list_elem_of_lookup_2 in Hi.
Qed.

Lemma frame_view_done (steps : list Step) (path : list Pos) (frame : nat) :
  length steps ≤ frame →
  frame_view steps path frame =
    {| view_current := None; view_frontier := ∅;
       view_visited := match last steps with
                       | Some st => visited st
                       | None => ∅
                       end;
       view_path := path |}.
Proof.
  intros Hle. unfold frame_view. by rewrite lookup_ge_None_2.
Qed.

Lemma is_valid_grid_cells grid p :
  is_valid grid p = true → p ∈ grid_cells grid ∧ p ∉ walls grid.
Proof.
  intros Hv. split.
  - apply elem_of_valid_cells in Hv. unfold valid_cells in Hv.
    apply elem_of_list_to_set in Hv. rewrite list_elem_of_filter in Hv.
    tauto.
  - apply is_valid_iff in Hv. tauto.
Qed.

Lemma frame_cells_elem grid v p :
  p ∈ grid_cells grid →
  (p, cell_face grid v p, cell_highlight v p) ∈ frame_cells grid v.
Proof.
  intros Hp. unfold frame_cells. apply list_elem_of_fmap. by exists p.
Qed.

Section View.

Context {C : Type} `{Cost C}.

(** The frames that replay a path without repeated cells that leads from the
    start to the goal over cells that can be entered. *)
Lemma frames_show_path grid steps path :
  is_valid grid (start grid) = true →
  NoDup path → (path ≠ [] → route grid (start grid) (goal grid) path) →
  ∀ frame i p, length steps ≤ frame → path !! i = Some p →
    (p, Some (path_face path i), false) ∈
      frame_cells grid (frame_view steps path frame).
Proof.
  intros Hs Hnd Hroute frame i p Hframe Hi.
  assert (path ≠ []) as Hne by (intros ->; done).
  destruct (Hroute Hne) as (Hhead & Hlast & Hchain).
  assert (is_valid grid p = true) as Hv.
  { apply (route_valid grid (start grid) (goal grid) path); auto.
    by apply list_elem_of_lookup_2 in Hi. }
  destruct (is_valid_grid_cells grid p Hv) as [Hcell Hwall].
  rewrite frame_view_done by done.
  set (v := {| view_current := None; view_frontier := ∅;
               view_visited := _; view_path := path |}).
  assert (cell_face grid v p = Some (path_face path i)) as Hface.
  { unfold cell_face, path_face. rewrite bool_decide_eq_false_2 by done.
    rewrite head_lookup in Hhead. rewrite last_lookup in Hlast.
    pose proof (lookup_lt_Some _ _ _ Hi) as Hlt.
    destruct (decide (i = 0)) as [->|Hi0].
    { rewrite Hhead in Hi. injection Hi as <-.
      by rewrite !bool_decide_eq_true_2. }
    rewrite (bool_decide_eq_false_2 (i = 0)) by done.
    rewrite (bool_decide_eq_false_2 (p = start grid)).
    2:{ intros ->. apply Hi0. by apply (NoDup_lookup path i 0 (start grid)). }
    destruct (decide (S i = length path)) as [Hend|Hend].
    { rewrite <-Hend in Hlast. simpl in Hlast. rewrite Hlast in Hi.
      injection Hi as <-. by rewrite !bool_decide_eq_true_2. }
    rewrite (bool_decide_eq_false_2 (S i = length path)) by done.
    rewrite (bool_decide_eq_false_2 (p = goal grid)).
    2:{ intros ->. apply Hend.
        rewrite (NoDup_lookup path i (pred (length path)) (goal grid));
          [lia|done..]. }
    simpl. rewrite bool_decide_eq_true_2
      by (by apply list_elem_of_lookup_2 in Hi).
    rewrite (path_index_lookup path i p) by done. simpl.
    rewrite bool_decide_eq_true_2 by lia. done. }
  rewrite <-Hface. by apply (frame_cells_elem grid v p).
Qed.

(** The frames that replay the steps. *)
Lemma frames_show_steps grid steps path frame st :
  is_valid grid (current st) = true → steps !! frame = Some st →
  (∃ face, (current st, face, true) ∈
             frame_cells grid (frame_view steps path frame)) ∧
  ∀ e l, e ∈ frame_cells grid (frame_view steps path frame) →
    e.1.2 ≠ Some (PathFace l).
Proof.
  intros Hv Hst. unfold frame_view. rewrite Hst.
  set (v := {| view_current := Some (current st); view_frontier := _;
               view_visited := _; view_path := [] |}).
  split.
  - exists (cell_face grid v (current st)).
    destruct (is_valid_grid_cells grid _ Hv) as [Hcell _].
    assert (cell_highlight v (current st) = true) as <-.
    { unfold cell_highlight. by rewrite bool_decide_eq_true_2. }
    by apply frame_cells_elem.
  - intros e l He. unfold frame_cells in He.
    apply list_elem_of_fmap in He as (pos & -> & _). simpl.
    unfold cell_face. cbn [view_path v].
    rewrite (bool_decide_eq_false_2 (pos ∈ [])) by apply not_elem_of_nil.
    repeat case_bool_decide; done.
Qed.

End View.

Section ViewExtras.

Context {C : Type} `{Cost C} `{HeapQ (C * Z * Pos)} `{!CostLaws}
  `{!HeapQLaws}.

(** X21.  The animation of the result of each of the six search functions,
    run on a grid whose start and goal can be entered.  A frame that replays
    a step draws a border around the current node of the step and draws no
    cell as a cell of the path.  Every later frame draws each cell of the
    returned path, without border: the first one as the start, the last one
    as the goal, and each cell between them in the colour of the path,
    labelled with its position in the path. *)
Theorem X21_animation_shows_path grid limit :
  is_valid grid (start grid) = true → is_valid grid (goal grid) = true →
  let replay (steps : list Step) (path : list Pos) :=
    (∀ frame st, steps !! frame = Some st →
       (∃ face, (current st, face, true) ∈
                  frame_cells grid (frame_view steps path frame)) ∧
       ∀ e l, e ∈ frame_cells grid (frame_view steps path frame) →
         e.1.2 ≠ Some (PathFace l)) ∧
    (∀ frame i p, length steps ≤ frame → path !! i = Some p →
       (p, Some (path_face path i), false) ∈
         frame_cells grid (frame_view steps path frame)) in
  returns (bfs grid) replay ∧ returns (dfs grid) replay ∧
  returns (ucs grid) replay ∧ returns (dls grid limit) replay ∧
  returns (iddfs grid) replay ∧ returns (bidirectional grid) replay.
Proof.
  intros Hs Hg replay.
  assert (∀ steps path,
            (∀ st, st ∈ steps → is_valid grid (current st) = true) →
            NoDup path →
            (path ≠ [] → route grid (start grid) (goal grid) path) →
            replay steps path) as Hreplay.
  { intros steps path Hcur Hnd Hroute. split.
    - intros frame st Hst. apply frames_show_steps; [|done].
      apply Hcur. by apply list_elem_of_lookup_2 in Hst.
    - by apply frames_show_path. }
  assert (∀ b steps path, run_facts grid b steps path →
            ∀ st, st ∈ steps → is_valid grid (current st) = true) as Hcur.
  { intros b steps path Hf st Hst.
    destruct (rf_reach _ _ _ _ Hf st Hst) as (Hc & _).
    by apply (reachable_valid grid (start grid)). }
  split_and!.
  - apply (returns_impl _ _ _ (bfs_facts grid Hs)).
    intros steps path [Hf Hr].
    apply Hreplay; [by apply (Hcur _ _ _ Hf)|apply (rf_nodup _ _ _ _ Hf)|done].
  - apply (returns_impl _ _ _ (dfs_facts grid Hs)).
    intros steps path [Hf Hr].
    apply Hreplay; [by apply (Hcur _ _ _ Hf)|apply (rf_nodup _ _ _ _ Hf)|done].
  - apply (returns_impl _ _ _ (ucs_facts grid Hs)).
    intros steps path [Hf Hr].
    apply Hreplay; [by apply (Hcur _ _ _ Hf)|apply (rf_nodup _ _ _ _ Hf)|done].
  - apply (returns_impl _ _ _ (dls_facts grid limit Hs Hg)).
    intros steps path [Hf Hr].
    apply Hreplay; [by apply (Hcur _ _ _ Hf)|apply (rf_nodup _ _ _ _ Hf)|done].
  - apply (returns_impl _ _ _ (iddfs_facts grid Hs Hg)).
    intros steps path [Hf Hr].
    apply Hreplay; [by apply (Hcur _ _ _ Hf)|apply (rf_nodup _ _ _ _ Hf)|done].
  - apply (returns_impl _ _ _ (bidi_facts_route grid Hs Hg)).
    intros steps path [Hf Hr].
    apply Hreplay; [|apply (bf_nodup _ _ _ Hf)|done].
    intros st Hst. destruct (bf_within _ _ _ Hf st Hst) as ([Hc|Hc] & _);
      eauto using reachable_valid.
Qed.

(** X22.  The statistics panel during the animation of a trace of [bfs], run
    on a grid whose start can be entered.  The frame that replays the step of
    index [frame] shows the step number [frame + 1], [frame] explored nodes,
    a frontier size equal to the length of the queue, and the status
    "searching".  Every later frame shows the number of steps, one explored
    node less than the number of steps, an empty frontier, and the status
    "yes" exactly when a route leads from the start to the goal, "no"
    exactly when none does. *)
Theorem X22_bfs_statistics grid :
  is_valid grid (start grid) = true →
  returns (bfs grid) (λ steps path,
    ∀ frame,
      (∀ s, steps !! frame = Some s →
         frame_stats steps path frame =
           {| stat_step := (frame + 1, length steps);
              stat_explored := frame;
              stat_frontier := length (frontier s);
              stat_status := PathSearching;
              stat_length := None |}) ∧
      (length steps ≤ frame →
         let st := frame_stats steps path frame in
         stat_step st = (length steps, length steps) ∧
         stat_explored st + 1 = length steps ∧ stat_frontier st = 0 ∧
         (stat_status st = PathYes ↔
            reachable grid (start grid) (goal grid)) ∧
         (stat_status st = PathNo ↔
            ¬ reachable grid (start grid) (goal grid)))).
Proof.
  intros Hs.
  apply (returns_impl _ _ _ (returns_and _ _ _ (bfs_pops grid Hs)
                               (bfs_run_facts grid Hs))).
  intros steps path [Hpv [Hf [[vis Htr] Hpath _ _ Honce _ Hnd]]] frame.
  simpl in *.
  assert (∀ i s, steps !! i = Some s → size (visited s) = i) as Hsize.
  { intros i s Hi.
    assert (visited s = list_to_set (current <$> take i steps)) as ->.
    { apply set_eq. intros p. rewrite elem_of_list_to_set. split.
      - by apply popped_first_below; [apply (tr_popped _ _ Htr)|].
      - by apply pops_visited_above. }
    rewrite size_list_to_set.
    - rewrite length_fmap, length_take. apply lookup_lt_Some in Hi. lia.
    - rewrite fmap_take. eapply sublist_NoDup; [done|apply sublist_take]. }
  split.
  - intros s Hi. pose proof (lookup_lt_Some _ _ _ Hi) as Hlt.
    unfold frame_stats, frame_view. rewrite Hi. cbn [view_visited view_frontier].
    rewrite (Hsize frame s Hi).
    rewrite size_list_to_set.
    2:{ specialize (Honce frame s Hi). by apply NoDup_app in Honce as (_ & _ & ?). }
    rewrite (bool_decide_eq_false_2 (length steps ≤ frame)) by lia. simpl.
    f_equal. f_equal. lia.
  - intros Hdone. unfold frame_stats.
    rewrite frame_view_done by done. cbn [view_visited view_frontier].
    rewrite (bool_decide_eq_true_2 (length steps ≤ frame)) by done.
    cbn [stat_step stat_explored stat_frontier stat_status stat_length andb].
    assert (steps ≠ []) as Hne.
    { intros ->. by pose proof (rf_first _ _ _ _ Hf). }
    destruct (last steps) as [s|] eqn:Hlast; [|by apply last_None in Hlast].
    rewrite last_lookup in Hlast. rewrite (Hsize _ s Hlast).
    pose proof (path_outcome_empty_iff grid path Hpath) as Hempty.
    split_and!.
    + f_equal. lia.
    + destruct steps; simpl in *; [done|lia].
    + by rewrite size_empty.
    + destruct path as [|p path].
      * rewrite bool_decide_eq_false_2 by (by intros ?).
        rewrite bool_decide_eq_true_2 by done. split; [done|].
        intros Hr. by apply Hempty in Hr.
      * rewrite bool_decide_eq_true_2 by done. split; [|done].
        intros _. exists (p :: path). apply Hpath.
    + destruct path as [|p path].
      * rewrite bool_decide_eq_false_2 by (by intros ?).
        rewrite bool_decide_eq_true_2 by done. split; [|done].
        intros _. by apply Hempty.
      * rewrite bool_decide_eq_true_2 by done. split; [done|].
        intros Hno. exfalso. apply Hno. exists (p :: path). apply Hpath.
Qed.

End ViewExtras.

(** ** What the strategies do not promise *)

(** On the square of three by three cells without walls, searched from the
    corner [(0, 0)] to the corner [(2, 2)], [bidirectional] returns a path of
    four cells: the backward search pops [(1, 2)], which the forward search
    has just discovered, before either side pops [(1, 1)]. *)
Lemma bidirectional_square_grid :
  returns (bidirectional (C := Z) square_grid) (λ _ path,
    path = [(0, 0); (0, 1); (1, 2); (2, 2)]%Z).
Proof.
  assert (snd <$> bidirectional (C := Z) square_grid =
          Some [(0, 0); (0, 1); (1, 2); (2, 2)]%Z) as Hpath
    by (vm_compute; reflexivity).
  destruct (bidirectional (C := Z) square_grid) as [[steps path]|]; [|done].
  exists steps, path. split; [done|]. by injection Hpath.
Qed.

Lemma square_grid_diagonal :
  route (C := Z) square_grid (start square_grid) (goal square_grid)
    [(0, 0); (1, 1); (2, 2)]%Z.
Proof.
  split_and!; [reflexivity|reflexivity|].
  apply chain_check_true. vm_compute. reflexivity.
Qed.

(** On the square of three by three cells with a wall at [(2, 2)], searched
    from [(1, 2)] to [(2, 0)], [dls] with the limit 3 returns a route of four
    cells, and [dls] with the limit 4 returns an empty path: with the larger
    limit the cell [(1, 1)] is marked visited at depth 3, its neighbours are
    cut off at depth 4, and its shallower stack entry is skipped
    afterwards. *)
Lemma dls_pocket_grid_3 :
  returns (dls (C := Z) pocket_grid 3) (λ _ path,
    path = [(1, 2); (1, 1); (2, 1); (2, 0)]%Z).
Proof.
  assert (snd <$> dls (C := Z) pocket_grid 3 =
          Some [(1, 2); (1, 1); (2, 1); (2, 0)]%Z) as Hpath
    by (vm_compute; reflexivity).
  destruct (dls (C := Z) pocket_grid 3) as [[steps path]|]; [|done].
  exists steps, path. split; [done|]. by injection Hpath.
Qed.

Lemma dls_pocket_grid_4 :
  returns (dls (C := Z) pocket_grid 4) (λ _ path, path = []).
Proof.
  assert (snd <$> dls (C := Z) pocket_grid 4 = Some []) as Hpath
    by (vm_compute; reflexivity).
  destruct (dls (C := Z) pocket_grid 4) as [[steps path]|]; [|done].
  exists steps, path. split; [done|]. by injection Hpath.
Qed.

(** X23.  [bidirectional] does not always return a shortest path, whatever
    costs the moves carry: it is not true that on every grid whose start and
    goal can be entered the returned path has no more edges than any route
    from the start to the goal.  On the square of three by three cells
    without walls, searched from corner to corner, it returns four cells
    where the diagonal has three. *)
Theorem X23_bidirectional_not_shortest {C : Type} {K : Cost C} :
  ¬ ∀ grid : Grid,
      is_valid grid (start grid) = true → is_valid grid (goal grid) = true →
      returns (bidirectional grid) (λ _ path,
        ∀ l, route grid (start grid) (goal grid) l →
          edge_count path ≤ edge_count l).
Proof.
  intros Hall.
  destruct (Hall square_grid) as (steps & path & Hb & Hmin);
    [vm_compute; reflexivity..|].
  destruct bidirectional_square_grid as (steps' & path' & Hb' & ->).
  rewrite (@bidirectional_cost_free C Z _ _ square_grid), Hb' in Hb.
  injection Hb as <- <-.
  specialize (Hmin [(0, 0); (1, 1); (2, 2)]%Z
    (@route_cost_free Z C _ _ square_grid _ _ _ square_grid_diagonal)).
  vm_compute in Hmin. lia.
Qed.

(** X24.  A larger limit can make [dls] lose a route, whatever costs the
    moves carry: it is not true that whenever [dls] returns a non-empty path
    for a limit, it returns a non-empty path for every larger limit.  On the
    square of three by three cells with a wall at [(2, 2)], searched from
    [(1, 2)] to [(2, 0)], the limit 3 gives a route and the limit 4 an empty
    path. *)
Theorem X24_dls_limit_not_monotone {C : Type} {K : Cost C} :
  ¬ ∀ (grid : Grid) (small large : Z),
      is_valid grid (start grid) = true → is_valid grid (goal grid) = true →
      (small ≤ large)%Z →
      returns (dls grid small) (λ _ path, path ≠ []) →
      returns (dls grid large) (λ _ path, path ≠ []).
Proof.
  intros Hall.
  destruct (Hall pocket_grid 3%Z 4%Z) as (steps & path & Hd & Hne);
    [vm_compute; reflexivity..|lia| |].
  - destruct dls_pocket_grid_3 as (steps' & path' & Hd' & ->).
    rewrite <-(@dls_cost_free C Z _ _ pocket_grid 3) in Hd'.
    exists steps', [(1, 2); (1, 1); (2, 1); (2, 0)]%Z.
    split; [exact Hd'|discriminate].
  - destruct dls_pocket_grid_4 as (steps' & path' & Hd' & ->).
    rewrite (@dls_cost_free C Z _ _ pocket_grid 4), Hd' in Hd.
    injection Hd as <- <-. by apply Hne.
Qed.

(** ** Costs, directions and the built-in grid *)

(** X25.  [bfs], [dfs], [dls], [iddfs] and [bidirectional] never look at the
    costs that [get_neighbors] attaches to the moves: run with any two
    choices of the cost values (and of their type), each of them returns the
    same trace and the same path.  Only [ucs] depends on the costs. *)
Theorem X25_costs_are_ignored {C1 C2 : Type} (K1 : Cost C1) (K2 : Cost C2)
    (grid : Grid) (limit : Z) :
  bfs (C := C1) grid = bfs (C := C2) grid ∧
  dfs (C := C1) grid = dfs (C := C2) grid ∧
  dls (C := C1) grid limit = dls (C := C2) grid limit ∧
  iddfs (C := C1) grid = iddfs (C := C2) grid ∧
  bidirectional (C := C1) grid = bidirectional (C := C2) grid.
Proof.
  split_and!.
  - apply bfs_cost_free.
  - apply dfs_cost_free.
  - apply dls_cost_free.
  - apply iddfs_cost_free.
  - apply bidirectional_cost_free.
Qed.

Lemma outcome_swap {C} `{Cost C} (grid : Grid) (p1 p2 : list Pos) :
  is_valid grid (start grid) = true → is_valid grid (goal grid) = true →
  path_outcome grid p1 → path_outcome (swap_ends grid) p2 →
  (p1 = [] ↔ p2 = []) ∧
  (p2 ≠ [] → route grid (start grid) (goal grid) (reverse p2)).
Proof.
  intros Hs Hg H1 H2.
  assert (p2 ≠ [] → route grid (start grid) (goal grid) (reverse p2)) as Hrev.
  { intros Hne. apply route_reverse; [done|]. apply route_swap_ends.
    by apply (path_outcome_nonempty (swap_ends grid)). }
  split; [|done]. split.
  - intros ->. destruct p2 as [|x p2]; [done|]. exfalso. apply H1.
    eexists. by apply Hrev.
  - intros ->. destruct p1 as [|x p1]; [done|]. exfalso. apply H2.
    exists (reverse (x :: p1)). apply route_swap_ends.
    apply (route_reverse grid (start grid) (goal grid)); [done|]. apply H1.
Qed.

Section More.

Context {C : Type} `{Cost C} `{HeapQ (C * Z * Pos)} `{!CostLaws}
  `{!HeapQLaws}.

(** X26.  Each of the six runners of the menu returns the built-in grid
    together with a trace and a non-empty path that is a route from [START]
    to [GOAL]: on the grid that the program ships, every strategy finds its
    way, [run_dls] with its limit of 15 included. *)
Theorem X26_runners_find_a_route :
  let found (r : option (Grid * list Step * list Pos)) :=
    ∃ steps path, r = Some (build_grid, steps, path) ∧
                  route build_grid START GOAL path in
  found run_bfs ∧ found run_dfs ∧ found run_ucs ∧ found run_dls ∧
  found run_iddfs ∧ found run_bidirectional.
Proof.
  intros found.
  assert (is_valid build_grid (start build_grid) = true) as Hs
    by (vm_compute; reflexivity).
  assert (is_valid build_grid (goal build_grid) = true) as Hg
    by (vm_compute; reflexivity).
  assert (reachable build_grid (start build_grid) (goal build_grid))
    as Hreach.
  { destruct build_grid_reachable as [l Hl]. exists l.
    apply (@route_cost_free Z C _ _ build_grid). apply Hl. }
  assert (∀ search,
            returns (search build_grid) (λ _ path,
              path ≠ [] ∧
              (path ≠ [] →
               route build_grid (start build_grid) (goal build_grid) path)) →
            found (run search)) as Hfound.
  { intros search (steps & path & Hr & Hne & Hroute).
    exists steps, path. unfold run. rewrite Hr. split; [done|].
    by apply Hroute. }
  assert (∀ path, path_outcome build_grid path →
            path ≠ [] ∧
            (path ≠ [] →
             route build_grid (start build_grid) (goal build_grid) path))
    as Hout.
  { intros path Hp. split.
    - intros ->. by apply Hp.
    - by apply path_outcome_nonempty. }
  split_and!; apply Hfound.
  - apply (returns_impl _ _ _ (bfs_returns build_grid Hs)).
    intros steps path [_ Hp _ _ _ _ _]. by apply Hout.
  - apply (returns_impl _ _ _ (dfs_returns build_grid Hs)).
    intros steps path [_ Hp]. by apply Hout.
  - apply (returns_impl _ _ _ (ucs_returns build_grid Hs)).
    intros steps path (_ & Hp & _). by apply Hout.
  - assert (∃ t p l, dls (C := Z) build_grid 15 = Some (t, p :: l))
      as (t & p & l & Hz).
    { assert (match dls (C := Z) build_grid 15 with
              | Some (_, _ :: _) => true
              | _ => false
              end = true) as Hfull by (vm_compute; reflexivity).
      destruct (dls (C := Z) build_grid 15) as [[t [|p l]]|]; try done.
      by exists t, p, l. }
    rewrite <-(@dls_cost_free C Z _ _ build_grid 15) in Hz.
    exists t, (p :: l). split; [done|]. split; [done|]. intros _.
    destruct (dls_returns build_grid 15 Hs Hg) as (t' & p' & Hd & _ & Hp & _).
    rewrite Hz in Hd. injection Hd as <- <-. by apply Hp.
  - apply (returns_impl _ _ _ (iddfs_returns build_grid Hs Hg)).
    intros steps path (traces & _ & Hrun). split.
    + intros ->.
      assert ((Z.of_nat (size (valid_cells build_grid)) ≤ ROWS * COLS)%Z)
        as Hsmall.
      { vm_compute. intros Hgt. discriminate Hgt. }
      exact (iddfs_run_complete build_grid traces [] Hs Hg Hrun Hsmall
               eq_refl Hreach).
    + intros Hne.
      by apply (iddfs_run_route build_grid (seqZ 0 (ROWS * COLS)) traces).
  - apply (returns_impl _ _ _ (bidirectional_returns build_grid Hs Hg)).
    intros steps path [_ Hp]. by apply Hout.
Qed.

(** X27.  In the traces of [bfs], [dfs], [ucs], [dls] and [bidirectional],
    run on a grid whose start and goal can be entered, the visited snapshots
    grow by inclusion: a cell of the visited set of a step is in the visited
    set of every later step. *)
Theorem X27_visited_never_shrinks grid limit :
  is_valid grid (start grid) = true → is_valid grid (goal grid) = true →
  let grows (steps : list Step) (_ : list Pos) :=
    ∀ i j a b, i ≤ j → steps !! i = Some a → steps !! j = Some b →
      visited a ⊆ visited b in
  returns (bfs grid) grows ∧ returns (dfs grid) grows ∧
  returns (ucs grid) grows ∧ returns (dls grid limit) grows ∧
  returns (bidirectional grid) grows.
Proof.
  intros Hs Hg grows. split_and!.
  - apply (returns_impl _ _ _ (bfs_returns grid Hs)).
    intros steps path [[vis Ht] _ _ _ _ _ _]. exact (tr_mono _ _ Ht).
  - apply (returns_impl _ _ _ (dfs_returns grid Hs)).
    intros steps path [[vis Ht] _]. exact (tr_mono _ _ Ht).
  - apply (returns_impl _ _ _ (ucs_returns grid Hs)).
    intros steps path ([vis Ht] & _). exact (tr_mono _ _ Ht).
  - apply (returns_impl _ _ _ (dls_returns grid limit Hs Hg)).
    intros steps path ([vis Ht] & _). exact (tr_mono _ _ Ht).
  - apply (returns_impl _ _ _ (bidirectional_returns grid Hs Hg)).
    intros steps path [[vis Ht] _]. exact (bt_mono _ _ _ Ht).
Qed.

(** X28.  Searching from the goal back to the start succeeds exactly when
    searching from the start to the goal does.  For [bfs], [dfs], [ucs] and
    [bidirectional], run on a grid whose start and goal can be entered and
    on the same grid with start and goal exchanged, either both returned paths
    are empty or neither is; and the two paths of [bfs] have the same number
    of cells. *)
Theorem X28_search_both_ways grid :
  is_valid grid (start grid) = true → is_valid grid (goal grid) = true →
  let both (f : Grid → option Result)
      (Q : list Pos → list Pos → Prop) :=
    ∃ s1 p1 s2 p2, f grid = Some (s1, p1) ∧
      f (swap_ends grid) = Some (s2, p2) ∧ (p1 = [] ↔ p2 = []) ∧ Q p1 p2 in
  both bfs (λ p1 p2, length p1 = length p2) ∧ both dfs (λ _ _, True) ∧
  both ucs (λ _ _, True) ∧ both bidirectional (λ _ _, True).
Proof.
  intros Hs Hg both.
  assert (is_valid (swap_ends grid) (start (swap_ends grid)) = true) as Hs'.
  { by rewrite is_valid_swap_ends. }
  assert (is_valid (swap_ends grid) (goal (swap_ends grid)) = true) as Hg'.
  { by rewrite is_valid_swap_ends. }
  split_and!.
  - destruct (bfs_returns grid Hs) as (s1 & p1 & Hr1 & [_ Hp1 Hsh1 _ _ _ _]).
    destruct (bfs_returns (swap_ends grid) Hs')
      as (s2 & p2 & Hr2 & [_ Hp2 Hsh2 _ _ _ _]).
    simpl in *.
    destruct (outcome_swap grid p1 p2 Hs Hg Hp1 Hp2) as [Hiff Hrev].
    exists s1, p1, s2, p2. split_and!; try done.
    destruct p1 as [|x p1], p2 as [|y p2]; try done.
    + by destruct (proj1 Hiff eq_refl).
    + by destruct (proj2 Hiff eq_refl).
    + pose proof (Hsh1 (reverse (y :: p2)) (Hrev ltac:(done))) as Hle1.
      assert (route (swap_ends grid) (start (swap_ends grid))
                (goal (swap_ends grid)) (reverse (x :: p1))) as Hback.
      { apply route_swap_ends.
        apply (route_reverse grid (start grid) (goal grid)); [done|].
        apply Hp1. }
      pose proof (Hsh2 _ Hback) as Hle2.
      unfold edge_count in Hle1, Hle2. rewrite length_reverse in Hle1, Hle2.
      simpl in *. lia.
  - destruct (dfs_returns grid Hs) as (s1 & p1 & Hr1 & [_ Hp1]).
    destruct (dfs_returns (swap_ends grid) Hs') as (s2 & p2 & Hr2 & [_ Hp2]).
    destruct (outcome_swap grid p1 p2 Hs Hg Hp1 Hp2) as [Hiff _].
    by exists s1, p1, s2, p2.
  - destruct (ucs_returns grid Hs) as (s1 & p1 & Hr1 & (_ & Hp1 & _)).
    destruct (ucs_returns (swap_ends grid) Hs')
      as (s2 & p2 & Hr2 & (_ & Hp2 & _)).
    destruct (outcome_swap grid p1 p2 Hs Hg Hp1 Hp2) as [Hiff _].
    by exists s1, p1, s2, p2.
  - destruct (bidirectional_returns grid Hs Hg) as (s1 & p1 & Hr1 & [_ Hp1]).
    destruct (bidirectional_returns (swap_ends grid) Hs' Hg')
      as (s2 & p2 & Hr2 & [_ Hp2]).
    destruct (outcome_swap grid p1 p2 Hs Hg Hp1 Hp2) as [Hiff _].
    by exists s1, p1, s2, p2.
Qed.

(** X29.  [bfs] returns a shortest path on every grid, with walls or
    without: run on a grid whose start can be entered, whenever a route
    leads from the start to the goal, the returned path is such a route and
    has no more edges than any of them. *)
Theorem X29_bfs_shortest_with_walls grid :
  is_valid grid (start grid) = true →
  returns (bfs grid) (λ _ path,
    ∀ l, route grid (start grid) (goal grid) l →
      route grid (start grid) (goal grid) path ∧
      edge_count path ≤ edge_count l).
Proof.
  intros Hs. apply (returns_impl _ _ _ (bfs_returns grid Hs)).
  intros steps path [_ Hp Hshort _ _ _ _] l Hl. simpl in *.
  split; [|by apply Hshort].
  apply path_outcome_nonempty; [done|]. intros ->. apply Hp. by exists l.
Qed.

End More.

(** ** The further properties on the sample grids *)

Lemma X1_witness :
  is_valid build_grid (1, 1)%Z = true ∧
  ((2, 2)%Z, 1414%Z) ∈ get_neighbors (C := Z) build_grid (1, 1)%Z ∧
  ((1, 1)%Z, 1414%Z) ∈ get_neighbors (C := Z) build_grid (2, 2)%Z.
Proof.
  assert (((2, 2)%Z, 1414%Z) ∈ get_neighbors (C := Z) build_grid (1, 1)%Z)
    as Hq.
  { vm_compute. repeat constructor. }
  split; [|split]; [vm_compute; reflexivity|exact Hq|].
  apply (X1_get_neighbors_symmetric (C := Z) build_grid (1, 1)%Z (2, 2)%Z
           1414%Z); [vm_compute; reflexivity|exact Hq].
Defined.

Lemma X3_witness :
  reconstruct_path line_parents (0, 2)%Z =
    Some [(0, 0); (0, 1); (0, 2)]%Z ∧
  last [(0, 0); (0, 1); (0, 2)]%Z = Some (0, 2)%Z ∧
  NoDup [(0, 0); (0, 1); (0, 2)]%Z ∧
  parent_links line_parents [(0, 0); (0, 1); (0, 2)]%Z ∧
  ∃ r, head [(0, 0); (0, 1); (0, 2)]%Z = Some r ∧ rootless line_parents r.
Proof.
  split; [vm_compute; reflexivity|].
  apply (X3_reconstruct_path_shape line_parents (0, 2)%Z).
  vm_compute. reflexivity.
Defined.

Lemma X6_witness :
  start wall_grid = goal wall_grid ∧
  (let s := start wall_grid in
   let one := Some ([make_step s [] ∅], [s]) in
   bfs (C := Z) wall_grid = one ∧ dfs (C := Z) wall_grid = one ∧
   ucs (C := Z) wall_grid = one ∧ dls (C := Z) wall_grid 15 = one ∧
   iddfs (C := Z) wall_grid = one ∧
   bidirectional (C := Z) wall_grid = Some ([make_step s [s] {[s]}], [s])).
Proof.
  split; [reflexivity|].
  apply (X6_start_is_goal (C := Z) wall_grid 15). reflexivity.
Defined.

Lemma X7_witness :
  is_valid build_grid (start build_grid) = true ∧
  is_valid build_grid (goal build_grid) = true ∧
  (let first (s : Step) (steps : list Step) (_ : list Pos) :=
     head steps = Some s in
   let s0 := make_step (start build_grid) [] ∅ in
   returns (bfs (C := Z) build_grid) (first s0) ∧
   returns (dfs (C := Z) build_grid) (first s0) ∧
   returns (ucs (C := Z) build_grid) (first s0) ∧
   returns (dls (C := Z) build_grid 15) (first s0) ∧
   returns (iddfs (C := Z) build_grid) (first s0) ∧
   returns (bidirectional (C := Z) build_grid)
     (first (make_step (start build_grid) [goal build_grid]
               ({[start build_grid]} ∪ {[goal build_grid]})))).
Proof.
  split; [|split]; [vm_compute; reflexivity..|].
  apply (X7_first_step (C := Z) build_grid 15); vm_compute; reflexivity.
Defined.

Lemma X8_witness :
  is_valid build_grid (start build_grid) = true ∧
  is_valid build_grid (goal build_grid) = true ∧
  (let stops (steps : list Step) (path : list Pos) :=
     (path ≠ [] → ends_at_goal build_grid steps) ∧
     (path = [] → ∀ s, s ∈ steps → current s ≠ goal build_grid) in
   returns (bfs (C := Z) build_grid) stops ∧
   returns (dfs (C := Z) build_grid) stops ∧
   returns (ucs (C := Z) build_grid) stops ∧
   returns (dls (C := Z) build_grid 15) stops ∧
   returns (iddfs (C := Z) build_grid) stops ∧
   returns (bidirectional (C := Z) build_grid) (λ steps path,
     path ≠ [] → ∃ a, last steps = Some a ∧ current a ∈ path)).
Proof.
  split; [|split]; [vm_compute; reflexivity..|].
  apply (X8_goal_popped_last (C := Z) build_grid 15); vm_compute; reflexivity.
Defined.

Lemma X9_witness :
  is_valid blocked_grid (start blocked_grid) = true ∧
  is_valid blocked_grid (goal blocked_grid) = true ∧
  (let gives_up (_ : list Step) (path : list Pos) := path = [] in
   returns (bfs (C := Z) blocked_grid) gives_up ∧
   returns (dfs (C := Z) blocked_grid) gives_up ∧
   returns (ucs (C := Z) blocked_grid) gives_up ∧
   returns (dls (C := Z) blocked_grid 15) gives_up ∧
   returns (iddfs (C := Z) blocked_grid) gives_up ∧
   returns (bidirectional (C := Z) blocked_grid) gives_up) ∧
  (let exhausted (steps : list Step) (path : list Pos) :=
     path = [] → ends_exhausted steps in
   returns (bfs (C := Z) blocked_grid) exhausted ∧
   returns (dfs (C := Z) blocked_grid) exhausted ∧
   returns (ucs (C := Z) blocked_grid) exhausted ∧
   returns (dls (C := Z) blocked_grid 15) exhausted ∧
   returns (iddfs (C := Z) blocked_grid) exhausted ∧
   returns (bidirectional (C := Z) blocked_grid) exhausted).
Proof.
  split; [|split; [|split]]; [vm_compute; reflexivity..| |].
  - assert (∀ r : option Result, snd <$> r = Some [] →
              returns r (λ _ path, path = [])) as Hempty.
    { intros [[steps path]|] Hr; [|done].
      exists steps, path. split; [done|]. by injection Hr. }
    split_and!; apply Hempty; vm_compute; reflexivity.
  - apply (X9_failure_exhausts_frontier (C := Z) blocked_grid 15);
      vm_compute; reflexivity.
Defined.

Lemma X10_witness :
  is_valid build_grid (start build_grid) = true ∧
  is_valid build_grid (goal build_grid) = true ∧
  (let simple (_ : list Step) (path : list Pos) :=
     NoDup path ∧ (∀ x, x ∈ path → is_valid build_grid x = true) ∧
     length path ≤ size (valid_cells build_grid) in
   returns (bfs (C := Z) build_grid) simple ∧
   returns (dfs (C := Z) build_grid) simple ∧
   returns (ucs (C := Z) build_grid) simple ∧
   returns (dls (C := Z) build_grid 15) simple ∧
   returns (iddfs (C := Z) build_grid) simple ∧
   returns (bidirectional (C := Z) build_grid) simple).
Proof.
  split; [|split]; [vm_compute; reflexivity..|].
  apply (X10_path_is_simple (C := Z) build_grid 15); vm_compute; reflexivity.
Defined.

Lemma X11_witness :
  is_valid build_grid (start build_grid) = true ∧
  is_valid build_grid (goal build_grid) = true ∧
  returns (bfs (C := Z) build_grid) path_expanded ∧
  returns (dfs (C := Z) build_grid) path_expanded ∧
  returns (ucs (C := Z) build_grid) path_expanded ∧
  returns (dls (C := Z) build_grid 15) path_expanded ∧
  returns (iddfs (C := Z) build_grid) path_expanded ∧
  returns (bidirectional (C := Z) build_grid) path_expanded.
Proof.
  split; [|split]; [vm_compute; reflexivity..|].
  apply (X11_path_cells_were_popped (C := Z) build_grid 15);
    vm_compute; reflexivity.
Defined.

Lemma X12_witness :
  is_valid build_grid (start build_grid) = true ∧
  is_valid build_grid (goal build_grid) = true ∧
  (let shown (P : Pos → Prop) (steps : list Step) (_ : list Pos) :=
     trace_within (λ x, P x ∧ is_valid build_grid x = true) steps in
   let from_start := reachable (C := Z) build_grid (start build_grid) in
   returns (bfs (C := Z) build_grid) (shown from_start) ∧
   returns (dfs (C := Z) build_grid) (shown from_start) ∧
   returns (ucs (C := Z) build_grid) (shown from_start) ∧
   returns (dls (C := Z) build_grid 15) (shown from_start) ∧
   returns (iddfs (C := Z) build_grid) (shown from_start) ∧
   returns (bidirectional (C := Z) build_grid)
     (shown (linked (C := Z) build_grid))).
Proof.
  split; [|split]; [vm_compute; reflexivity..|].
  apply (X12_trace_cells_reachable (C := Z) build_grid 15);
    vm_compute; reflexivity.
Defined.

Lemma X13_witness :
  is_valid build_grid (start build_grid) = true ∧
  is_valid build_grid (goal build_grid) = true ∧
  (let n := size (valid_cells build_grid) in
   returns (bfs (C := Z) build_grid) (λ steps _, length steps ≤ n) ∧
   returns (dfs (C := Z) build_grid) (λ steps _, length steps ≤ 6 * n + 1) ∧
   returns (ucs (C := Z) build_grid) (λ steps _, length steps ≤ 6 * n + 1) ∧
   returns (dls (C := Z) build_grid 15)
     (λ steps _, length steps ≤ 6 * n + 1) ∧
   returns (iddfs (C := Z) build_grid)
     (λ steps _, length steps ≤ 100 * (6 * n + 1)) ∧
   returns (bidirectional (C := Z) build_grid)
     (λ steps _, length steps ≤ 2 * n)).
Proof.
  split; [|split]; [vm_compute; reflexivity..|].
  apply (X13_trace_length (C := Z) build_grid 15); vm_compute; reflexivity.
Defined.

Lemma X14_witness :
  is_valid build_grid (start build_grid) = true ∧
  (let exact (steps : list Step) (_ : list Pos) :=
     ∀ i s, steps !! i = Some s →
       ∀ p, p ∈ visited s ↔ p ∈ current <$> take i steps in
   returns (bfs (C := Z) build_grid) exact ∧
   returns (dfs (C := Z) build_grid) exact ∧
   returns (ucs (C := Z) build_grid) exact).
Proof.
  split; [vm_compute; reflexivity|].
  apply (X14_visited_is_popped (C := Z) build_grid). vm_compute. reflexivity.
Defined.

Lemma X15_witness :
  is_valid build_grid (start build_grid) = true ∧
  returns (bfs (C := Z) build_grid) (λ steps _,
    ∀ s, s ∈ steps → ∀ x, x ∈ frontier s → x ∉ visited s ∧ x ≠ current s).
Proof.
  split; [vm_compute; reflexivity|].
  apply (X15_bfs_frontier_is_fresh (C := Z) build_grid).
  vm_compute. reflexivity.
Defined.

Lemma X16_witness :
  is_valid build_grid (start build_grid) = true ∧
  is_valid build_grid (goal build_grid) = true ∧
  returns (bidirectional (C := Z) build_grid) (λ steps _,
    ∀ s, s ∈ steps →
      current s ∈ visited s ∧ ∀ x, x ∈ frontier s → x ∈ visited s).
Proof.
  split; [|split]; [vm_compute; reflexivity..|].
  apply (X16_bidirectional_marks_on_enqueue (C := Z) build_grid);
    vm_compute; reflexivity.
Defined.

Lemma X17_witness :
  is_valid corridor_grid (start corridor_grid) = true ∧
  is_valid corridor_grid (goal corridor_grid) = true ∧
  (Z.of_nat (size (valid_cells corridor_grid)) ≤ 3)%Z ∧
  ∃ steps path, dfs (C := Z) corridor_grid = Some (steps, path) ∧
                dls (C := Z) corridor_grid 3 = Some (steps, path).
Proof.
  assert ((Z.of_nat (size (valid_cells corridor_grid)) ≤ 3)%Z) as Hbig.
  { vm_compute. intros Hgt. discriminate Hgt. }
  split; [|split; [|split]]; [vm_compute; reflexivity..|exact Hbig|].
  apply (X17_dls_large_limit_is_dfs (C := Z) corridor_grid 3);
    [vm_compute; reflexivity..|exact Hbig].
Defined.

Lemma X18_witness :
  (0 ≤ 0)%Z ∧ start corridor_grid ≠ goal corridor_grid ∧
  dls (C := Z) corridor_grid 0 =
    Some ([make_step (start corridor_grid) [] ∅], []).
Proof.
  assert (start corridor_grid ≠ goal corridor_grid) as Hne.
  { intros Heq. discriminate Heq. }
  split; [|split]; [lia|exact Hne|].
  apply (X18_dls_without_depth (C := Z) corridor_grid 0); [lia|exact Hne].
Defined.

Lemma X19_witness :
  is_valid build_grid (start build_grid) = true ∧
  is_valid build_grid (goal build_grid) = true ∧
  returns (iddfs (C := Z) build_grid) (λ steps path,
    (path ≠ [] →
     ∃ k t before, (0 ≤ k < ROWS * COLS)%Z ∧
       dls (C := Z) build_grid k = Some (t, path) ∧ steps = before ++ t ∧
       ∀ j, (0 ≤ j < k)%Z → ∃ t', dls (C := Z) build_grid j = Some (t', [])) ∧
    (path = [] →
     ∀ j, (0 ≤ j < ROWS * COLS)%Z →
       ∃ t', dls (C := Z) build_grid j = Some (t', []))).
Proof.
  split; [|split]; [vm_compute; reflexivity..|].
  apply (X19_iddfs_first_success (C := Z) build_grid);
    vm_compute; reflexivity.
Defined.

Lemma X20_witness :
  is_valid build_grid (start build_grid) = true ∧
  is_valid build_grid (goal build_grid) = true ∧
  returns (bfs (C := Z) build_grid)
    (λ steps _, nodes_visited steps + 1 = length steps) ∧
  returns (dfs (C := Z) build_grid)
    (λ steps _, nodes_visited steps < length steps) ∧
  returns (ucs (C := Z) build_grid)
    (λ steps _, nodes_visited steps < length steps) ∧
  returns (dls (C := Z) build_grid 15)
    (λ steps _, nodes_visited steps < length steps).
Proof.
  split; [|split]; [vm_compute; reflexivity..|].
  apply (X20_nodes_explored (C := Z) build_grid 15); vm_compute; reflexivity.
Defined.

Lemma X21_witness :
  is_valid build_grid (start build_grid) = true ∧
  is_valid build_grid (goal build_grid) = true ∧
  (let replay (steps : list Step) (path : list Pos) :=
     (∀ frame st, steps !! frame = Some st →
        (∃ face, (current st, face, true) ∈
                   frame_cells build_grid (frame_view steps path frame)) ∧
        ∀ e l, e ∈ frame_cells build_grid (frame_view steps path frame) →
          e.1.2 ≠ Some (PathFace l)) ∧
     (∀ frame i p, length steps ≤ frame → path !! i = Some p →
        (p, Some (path_face path i), false) ∈
          frame_cells build_grid (frame_view steps path frame)) in
   returns (bfs (C := Z) build_grid) replay ∧
   returns (dfs (C := Z) build_grid) replay ∧
   returns (ucs (C := Z) build_grid) replay ∧
   returns (dls (C := Z) build_grid 15) replay ∧
   returns (iddfs (C := Z) build_grid) replay ∧
   returns (bidirectional (C := Z) build_grid) replay).
Proof.
  split; [|split]; [vm_compute; reflexivity..|].
  apply (X21_animation_shows_path (C := Z) build_grid 15);
    vm_compute; reflexivity.
Defined.

Lemma X22_witness :
  is_valid build_grid (start build_grid) = true ∧
  returns (bfs (C := Z) build_grid) (λ steps path,
    ∀ frame,
      (∀ s, steps !! frame = Some s →
         frame_stats steps path frame =
           {| stat_step := (frame + 1, length steps);
              stat_explored := frame;
              stat_frontier := length (frontier s);
              stat_status := PathSearching;
              stat_length := None |}) ∧
      (length steps ≤ frame →
         let st := frame_stats steps path frame in
         stat_step st = (length steps, length steps) ∧
         stat_explored st + 1 = length steps ∧ stat_frontier st = 0 ∧
         (stat_status st = PathYes ↔
            reachable (C := Z) build_grid (start build_grid)
              (goal build_grid)) ∧
         (stat_status st = PathNo ↔
            ¬ reachable (C := Z) build_grid (start build_grid)
                (goal build_grid)))).
Proof.
  split; [vm_compute; reflexivity|].
  apply (X22_bfs_statistics (C := Z) build_grid). vm_compute. reflexivity.
Defined.

Lemma X26_witness :
  let found (r : option (Grid * list Step * list Pos)) :=
    ∃ steps path, r = Some (build_grid, steps, path) ∧
                  route (C := Z) build_grid START GOAL path in
  found (run_bfs (C := Z)) ∧ found (run_dfs (C := Z)) ∧
  found (run_ucs (C := Z)) ∧ found (run_dls (C := Z)) ∧
  found (run_iddfs (C := Z)) ∧ found (run_bidirectional (C := Z)).
Proof. exact (X26_runners_find_a_route (C := Z)). Defined.

Lemma X27_witness :
  is_valid build_grid (start build_grid) = true ∧
  is_valid build_grid (goal build_grid) = true ∧
  (let grows (steps : list Step) (_ : list Pos) :=
     ∀ i j a b, i ≤ j → steps !! i = Some a → steps !! j = Some b →
       visited a ⊆ visited b in
   returns (bfs (C := Z) build_grid) grows ∧
   returns (dfs (C := Z) build_grid) grows ∧
   returns (ucs (C := Z) build_grid) grows ∧
   returns (dls (C := Z) build_grid 15) grows ∧
   returns (bidirectional (C := Z) build_grid) grows).
Proof.
  split; [|split]; [vm_compute; reflexivity..|].
  apply (X27_visited_never_shrinks (C := Z) build_grid 15);
    vm_compute; reflexivity.
Defined.

Lemma X28_witness :
  is_valid build_grid (start build_grid) = true ∧
  is_valid build_grid (goal build_grid) = true ∧
  (let both (f : Grid → option Result)
       (Q : list Pos → list Pos → Prop) :=
     ∃ s1 p1 s2 p2, f build_grid = Some (s1, p1) ∧
       f (swap_ends build_grid) = Some (s2, p2) ∧ (p1 = [] ↔ p2 = []) ∧
       Q p1 p2 in
   both (bfs (C := Z)) (λ p1 p2, length p1 = length p2) ∧
   both (dfs (C := Z)) (λ _ _, True) ∧
   both (ucs (C := Z)) (λ _ _, True) ∧
   both (bidirectional (C := Z)) (λ _ _, True)).
Proof.
  split; [|split]; [vm_compute; reflexivity..|].
  apply (X28_search_both_ways (C := Z) build_grid); vm_compute; reflexivity.
Defined.

Lemma X29_witness :
  is_valid build_grid (start build_grid) = true ∧
  returns (bfs (C := Z) build_grid) (λ _ path,
    ∀ l, route (C := Z) build_grid (start build_grid) (goal build_grid) l →
      route (C := Z) build_grid (start build_grid) (goal build_grid) path ∧
      edge_count path ≤ edge_count l).
Proof.
  split; [vm_compute; reflexivity|].
  apply (X29_bfs_shortest_with_walls (C := Z) build_grid).
  vm_compute. reflexivity.
Defined.

(** * Runs compared *)

(** ** Two grids with the same cells to enter

    A search reads its grid through [start], [goal] and [is_valid] only. *)

Section SameCells.

Context {C : Type} `{Cost C} `{HeapQ (C * Z * Pos)}.
Context (grid1 grid2 : Grid).
Context (Hstart : start grid1 = start grid2).
Context (Hgoal : goal grid1 = goal grid2).
Context (Hvalid : ∀ p, is_valid grid1 p = is_valid grid2 p).

Lemma get_neighbors_same_cells p :
  get_neighbors grid1 p = get_neighbors grid2 p.
Proof.
  destruct p as [r c]. unfold get_neighbors, DIRECTIONS. cbn [foldl].
  by rewrite !Hvalid.
Qed.

Lemma search_fuel_same_cells : search_fuel grid1 = search_fuel grid2.
Proof.
  unfold search_fuel.
  assert (valid_cells grid1 = valid_cells grid2) as ->; [|done].
  apply set_eq. intros p. by rewrite !elem_of_valid_cells, Hvalid.
Qed.

Lemma bfs_same_cells : bfs grid1 = bfs grid2.
Proof.
  unfold bfs, bfs_init. rewrite search_fuel_same_cells, Hstart.
  apply while_loop_ext. intros st. unfold bfs_body. rewrite Hgoal.
  destruct (bfs_queue st) as [|cur queue]; [done|].
  by rewrite get_neighbors_same_cells.
Qed.

Lemma dfs_same_cells : dfs grid1 = dfs grid2.
Proof.
  unfold dfs, dfs_init. rewrite search_fuel_same_cells, Hstart.
  apply while_loop_ext. intros st. unfold dfs_body. rewrite Hgoal.
  destruct (list_pop (dfs_stack st)) as [[stack cur]|]; [|done].
  by rewrite get_neighbors_same_cells.
Qed.

Lemma ucs_same_cells : ucs grid1 = ucs grid2.
Proof.
  unfold ucs, ucs_init. rewrite search_fuel_same_cells, Hstart.
  apply while_loop_ext. intros st. unfold ucs_body. rewrite Hgoal.
  destruct (ucs_heap st) as [|e heap]; [done|].
  destruct (heappop (e :: heap)) as [[[[cost k] cur] heap']|]; [|done].
  cbn [mbind option_bind]. by rewrite get_neighbors_same_cells.
Qed.

Lemma dls_same_cells limit : dls grid1 limit = dls grid2 limit.
Proof.
  unfold dls, dls_init. rewrite search_fuel_same_cells, Hstart.
  apply while_loop_ext. intros st. unfold dls_body. rewrite Hgoal.
  destruct (list_pop (dls_stack st)) as [[stack [cur depth]]|]; [|done].
  by rewrite get_neighbors_same_cells.
Qed.

Lemma iddfs_same_cells : iddfs grid1 = iddfs grid2.
Proof.
  unfold iddfs. generalize (seqZ 0 (ROWS * COLS)), (@nil Step).
  intros limits. induction limits as [|k limits IH]; intros all; [done|].
  cbn [iddfs_loop]. rewrite dls_same_cells.
  destruct (dls grid2 k) as [[steps [|p path]]|]; cbn; [|done..].
  apply IH.
Qed.

Lemma bidirectional_same_cells : bidirectional grid1 = bidirectional grid2.
Proof.
  unfold bidirectional, bidi_init. rewrite search_fuel_same_cells, Hstart, Hgoal.
  apply while_loop_ext. intros st.
  assert (∀ st, bidi_forward grid1 st = bidi_forward grid2 st) as Hf.
  { intros st'. unfold bidi_forward.
    destruct (fwd_queue st') as [|cur queue]; [done|].
    by rewrite get_neighbors_same_cells. }
  assert (∀ st, bidi_backward grid1 st = bidi_backward grid2 st) as Hb.
  { intros st'. unfold bidi_backward.
    destruct (bwd_queue st') as [|cur queue]; [done|].
    by rewrite get_neighbors_same_cells. }
  unfold bidi_body. rewrite Hf.
  destruct (fwd_queue st), (bwd_queue st); try done;
    destruct (bidi_forward grid2 st) as [[st'|r]|]; cbn; by rewrite ?Hb.
Qed.

End SameCells.

(** ** The unsorted heap meets the contract *)

Lemma milli_entry_lt_negtrans (a b c : Z * Z * Pos) :
  entry_lt (C := Z) a b = false → entry_lt (C := Z) b c = false →
  entry_lt (C := Z) a c = false.
Proof.
  destruct a as [[ca ka] [ra qa]], b as [[cb kb] [rb qb]],
    c as [[cc kc] [rc qc]].
  rewrite <-!not_true_iff_false, !milli_entry_lt_spec. lia.
Qed.

Section ScanHeap.

Context {A : Type} (lt : A → A → bool).
Context (lt_asym : ∀ a b, lt a b = true → lt b a = false).
Context (lt_negtrans :
  ∀ a b c, lt a b = false → lt b c = false → lt a c = false).

Lemma scan_pop_None h : scan_pop lt h = None → h = [].
Proof.
  destruct h as [|x h]; [done|]. simpl.
  destruct (scan_pop lt h) as [[m rest]|]; [|done]. by destruct (lt m x).
Qed.

Lemma scan_pop_perm h x h' : scan_pop lt h = Some (x, h') → h ≡ₚ x :: h'.
Proof.
  revert x h'. induction h as [|y h IH]; intros x h'; [done|]. simpl.
  destruct (scan_pop lt h) as [[m rest]|] eqn:Hpop.
  - destruct (lt m y); intros [= <- <-]; [|done].
    rewrite (IH m rest eq_refl). apply Permutation_swap.
  - intros [= <- <-]. by rewrite (scan_pop_None h Hpop).
Qed.

Lemma scan_pop_min h x h' y :
  scan_pop lt h = Some (x, h') → y ∈ h' → lt y x = false.
Proof.
  revert x h' y. induction h as [|z h IH]; intros x h' y; [done|]. simpl.
  destruct (scan_pop lt h) as [[m rest]|] eqn:Hpop.
  - destruct (lt m z) eqn:Hmz; intros [= <- <-] Hy.
    + apply elem_of_cons in Hy as [->|Hy]; [by apply lt_asym|].
      by apply (IH m rest).
    + rewrite (scan_pop_perm h m rest Hpop) in Hy.
      apply elem_of_cons in Hy as [->|Hy]; [done|].
      apply (lt_negtrans y m z); [|done]. by apply (IH m rest).
  - intros [= <- <-] Hy. by apply elem_of_nil in Hy.
Qed.

End ScanHeap.

Lemma milli_scan_heapq_laws : HeapQLaws (H0 := milli_scan_heapq).
Proof.
  refine {| is_heap := λ _, True |}; try done.
  - intros h x. simpl. by rewrite Permutation_app_comm.
  - intros h Hne. simpl.
    destruct (scan_pop (entry_lt (C := Z)) h) as [r|] eqn:Hpop; [done|].
    by apply scan_pop_None in Hpop.
  - intros h x h'. apply scan_pop_perm.
  - intros h x h' y _. apply scan_pop_min.
    + apply milli_entry_lt_asym.
    + apply milli_entry_lt_negtrans.
Qed.

(** ** Loops that run in step *)

Lemma while_loop_sim {S1 S2 R1 R2 : Type}
    (body1 : S1 → option (S1 + R1)) (body2 : S2 → option (S2 + R2))
    (I : S1 → S2 → Prop) (Q : R1 → R2 → Prop) :
  (∀ s1 s2, I s1 s2 →
     match body1 s1, body2 s2 with
     | Some (inl a), Some (inl b) => I a b
     | Some (inr a), Some (inr b) => Q a b
     | None, None => True
     | _, _ => False
     end) →
  ∀ fuel s1 s2, I s1 s2 →
    match while_loop body1 fuel s1, while_loop body2 fuel s2 with
    | Some a, Some b => Q a b
    | None, None => True
    | _, _ => False
    end.
Proof.
  intros Hbody fuel. induction fuel as [|fuel IH]; intros s1 s2 Hi; [done|].
  simpl. specialize (Hbody s1 s2 Hi).
  destruct (body1 s1) as [[a|a]|], (body2 s2) as [[b|b]|]; try done.
  by apply IH.
Qed.

(** ** The least entry of a heap is unique *)

Lemma entry_lt_keys {C : Type} `{Cost C} (a b : C * Z * Pos) :
  entry_key a ≠ entry_key b → entry_lt a b = true ∨ entry_lt b a = true.
Proof.
  destruct a as [[ca ka] pa], b as [[cb kb] pb]. unfold entry_key. simpl.
  intros Hk. unfold c_eqb.
  destruct (c_lt ca cb), (c_lt cb ca); simpl; auto.
  destruct (Z.eqb_spec ka kb) as [|_]; [done|].
  destruct (Z.eqb_spec kb ka) as [|_]; [done|].
  destruct (Z.ltb_spec ka kb), (Z.ltb_spec kb ka); auto. lia.
Qed.

Lemma NoDup_fmap_eq {A B : Type} (f : A → B) (l : list A) x y :
  NoDup (f <$> l) → x ∈ l → y ∈ l → f x = f y → x = y.
Proof.
  induction l as [|z l IH]; intros Hnd Hx Hy Hf.
  - by apply elem_of_nil in Hx.
  - rewrite fmap_cons in Hnd. apply NoDup_cons in Hnd as [Hz Hnd].
    apply elem_of_cons in Hx as [->|Hx], Hy as [->|Hy]; try done.
    + exfalso. apply Hz. rewrite Hf. by apply list_elem_of_fmap_2.
    + exfalso. apply Hz. rewrite <-Hf. by apply list_elem_of_fmap_2.
    + by apply IH.
Qed.

Section TwoHeapsRun.

Context {C : Type} {K : Cost C}.
Context (H1 H2 : HeapQ (C * Z * Pos)).
Context (L1 : HeapQLaws (H0 := H1)) (L2 : HeapQLaws (H0 := H2)).

(** Two heaps with the same entries pop the same entry. *)
Lemma heappop_same (h1 h2 : list (C * Z * Pos)) x1 h1' x2 h2' :
  h1 ≡ₚ h2 → is_heap (HeapQLaws := L1) h1 → is_heap (HeapQLaws := L2) h2 →
  NoDup (entry_key <$> h1) →
  heappop (HeapQ := H1) h1 = Some (x1, h1') →
  heappop (HeapQ := H2) h2 = Some (x2, h2') →
  x1 = x2 ∧ h1' ≡ₚ h2'.
Proof.
  intros Hperm Hh1 Hh2 Hnd Hp1 Hp2.
  pose proof (heappop_perm (HeapQLaws := L1) _ _ _ Hp1) as Hq1.
  pose proof (heappop_perm (HeapQLaws := L2) _ _ _ Hp2) as Hq2.
  assert (x1 ∈ h1) as Hx1 by (rewrite Hq1; left).
  assert (x2 ∈ h1) as Hx2 by (rewrite Hperm, Hq2; left).
  assert (x1 = x2) as <-.
  { apply (NoDup_fmap_eq entry_key h1); try done.
    destruct (decide (entry_key x1 = entry_key x2)) as [|Hne]; [done|].
    exfalso.
    assert (x2 ∈ h1') as Hin1.
    { rewrite Hq1 in Hx2. apply elem_of_cons in Hx2 as [->|]; done. }
    assert (x1 ∈ h2') as Hin2.
    { rewrite Hperm, Hq2 in Hx1.
      apply elem_of_cons in Hx1 as [->|]; done. }
    pose proof (heappop_min (HeapQLaws := L1) _ _ _ _ Hh1 Hp1 Hin1) as Hm1.
    pose proof (heappop_min (HeapQLaws := L2) _ _ _ _ Hh2 Hp2 Hin2) as Hm2.
    destruct (entry_lt_keys x1 x2 Hne) as [Hlt|Hlt]; congruence. }
  split; [done|]. apply (Permutation_cons_inv (a := x1)).
  by rewrite <-Hq1, <-Hq2.
Qed.

Lemma ucs_relax_alike cur cur_cost (nbrs : list (Pos * C)) :
  ∀ cs k (h1 h2 : list (C * Z * Pos)) cf,
    h1 ≡ₚ h2 → is_heap (HeapQLaws := L1) h1 → is_heap (HeapQLaws := L2) h2 →
    NoDup (entry_key <$> h1) → (∀ e, e ∈ h1 → (entry_key e ≤ k)%Z) →
    ∃ cs' k' h1' h2' cf',
      foldl (ucs_relax (H0 := H1) cur cur_cost) (cs, k, h1, cf) nbrs =
        (cs', k', h1', cf') ∧
      foldl (ucs_relax (H0 := H2) cur cur_cost) (cs, k, h2, cf) nbrs =
        (cs', k', h2', cf') ∧
      h1' ≡ₚ h2' ∧ is_heap (HeapQLaws := L1) h1' ∧
      is_heap (HeapQLaws := L2) h2' ∧ NoDup (entry_key <$> h1') ∧
      (∀ e, e ∈ h1' → (entry_key e ≤ k')%Z).
Proof.
  induction nbrs as [|[nbr edge] nbrs IH];
    intros cs k h1 h2 cf Hperm Hh1 Hh2 Hnd Hfresh.
  { by exists cs, k, h1, h2, cf. }
  cbn [foldl]. unfold ucs_relax at 2 4.
  destruct (match cs !! nbr with
            | Some old => c_lt (c_add cur_cost edge) old
            | None => true
            end); [|by apply IH].
  apply IH.
  - by rewrite (heappush_perm (HeapQLaws := L1)),
      (heappush_perm (HeapQLaws := L2)), Hperm.
  - by apply (heappush_heap (HeapQLaws := L1)).
  - by apply (heappush_heap (HeapQLaws := L2)).
  - rewrite (heappush_perm (HeapQLaws := L1)), fmap_cons.
    apply NoDup_cons. split; [|done]. intros Hin.
    apply list_elem_of_fmap in Hin as (e & He & Hin).
    apply Hfresh in Hin. unfold entry_key in He at 1. simpl in He. lia.
  - intros e. rewrite (heappush_perm (HeapQLaws := L1)).
    intros [->|Hin]%elem_of_cons.
    + unfold entry_key. simpl. lia.
    + apply Hfresh in Hin. lia.
Qed.

Lemma trace_alike_snoc steps1 steps2 cur (fr1 fr2 : list Pos) vis :
  trace_alike steps1 steps2 → fr1 ≡ₚ fr2 →
  trace_alike (steps1 ++ [make_step cur fr1 vis])
    (steps2 ++ [make_step cur fr2 vis]).
Proof.
  intros Ht Hfr. apply Forall2_app; [done|].
  constructor; [by split_and!|constructor].
Qed.

Lemma ucs_body_alike grid st1 st2 :
  ucs_alike H1 H2 L1 L2 st1 st2 →
  match ucs_body (H0 := H1) grid st1, ucs_body (H0 := H2) grid st2 with
  | Some (inl a), Some (inl b) => ucs_alike H1 H2 L1 L2 a b
  | Some (inr a), Some (inr b) => result_alike a b
  | None, None => True
  | _, _ => False
  end.
Proof.
  intros [Hk Hperm Hcf Hcs Hvis Hsteps Hh1 Hh2 Hnd Hfresh].
  unfold ucs_body.
  destruct (ucs_heap st1) as [|e1 h1] eqn:Hheap1.
  { apply Permutation_nil_l in Hperm. rewrite <-Hperm. by split. }
  destruct (ucs_heap st2) as [|e2 h2] eqn:Hheap2.
  { by apply Permutation_nil_r in Hperm. }
  destruct (heappop_Some (HeapQLaws := L1) (e1 :: h1) ltac:(done))
    as [[x1 h1'] Hp1].
  destruct (heappop_Some (HeapQLaws := L2) (e2 :: h2) ltac:(done))
    as [[x2 h2'] Hp2].
  destruct (heappop_same _ _ _ _ _ _ Hperm Hh1 Hh2 Hnd Hp1 Hp2)
    as [<- Hperm'].
  rewrite Hp1, Hp2. destruct x1 as [[cur_cost k] cur]. cbn [mbind option_bind].
  pose proof (heappop_perm (HeapQLaws := L1) _ _ _ Hp1) as Hq1.
  assert (trace_alike
            (ucs_steps st1 ++ [make_step cur (map snd h1') (ucs_visited st1)])
            (ucs_steps st2 ++ [make_step cur (map snd h2') (ucs_visited st2)]))
    as Hsteps'.
  { rewrite <-Hvis. apply trace_alike_snoc; [done|].
    by apply Permutation_map. }
  assert (NoDup (entry_key <$> h1')) as Hnd'.
  { rewrite Hq1, fmap_cons in Hnd. by apply NoDup_cons in Hnd as [_ ?]. }
  assert (∀ e, e ∈ h1' → (entry_key e ≤ ucs_counter st1)%Z) as Hfresh'.
  { intros e He. apply Hfresh. rewrite Hq1. by right. }
  pose proof (heappop_heap (HeapQLaws := L1) _ _ _ Hh1 Hp1) as Hh1'.
  pose proof (heappop_heap (HeapQLaws := L2) _ _ _ Hh2 Hp2) as Hh2'.
  rewrite <-Hcf, <-Hvis, <-Hcs, <-Hk. rewrite <-Hvis in Hsteps'.
  destruct (bool_decide (cur = goal grid)).
  { destruct (reconstruct_path (ucs_came_from st1) cur) as [path|]; [|done].
    cbn. by split. }
  destruct (bool_decide (cur ∈ ucs_visited st1)).
  { by split. }
  destruct (ucs_relax_alike cur cur_cost (get_neighbors grid cur)
              (ucs_cost_so_far st1) (ucs_counter st1) h1' h2'
              (ucs_came_from st1) Hperm' Hh1' Hh2' Hnd' Hfresh')
    as (cs' & k' & g1 & g2 & cf' & -> & -> & Hg & Hg1 & Hg2 & Hgn & Hgf).
  by split.
Qed.

Lemma ucs_two_heaps grid :
  match ucs (H0 := H1) grid, ucs (H0 := H2) grid with
  | Some r1, Some r2 => result_alike r1 r2
  | None, None => True
  | _, _ => False
  end.
Proof.
  unfold ucs.
  apply (while_loop_sim _ _ (ucs_alike H1 H2 L1 L2) result_alike).
  - apply ucs_body_alike.
  - unfold ucs_init. split; cbn; try done.
    + constructor.
    + apply (is_heap_singleton (HeapQLaws := L1)).
    + apply (is_heap_singleton (HeapQLaws := L2)).
    + apply NoDup_singleton.
    + intros e ->%list_elem_of_singleton. done.
Qed.

End TwoHeapsRun.

(** ** Determinism *)

Lemma same_run {C : Type} `{Cost C} (f : Grid → option Result)
    (grid1 grid2 : Grid) (P : list Step → list Pos → Prop) (s0 : Step) :
  f grid1 = f grid2 →
  returns (f grid1) P →
  (∀ steps path, P steps path → head steps = Some s0) →
  current s0 = start grid1 →
  ∃ steps path, f grid1 = Some (steps, path) ∧ f grid2 = Some (steps, path) ∧
    ∃ s, head steps = Some s ∧ current s = start grid1.
Proof.
  intros Heq (steps & path & Hr & Hp) Hhead Hcur.
  exists steps, path. split; [done|]. split; [by rewrite <-Heq|].
  exists s0. split; [by apply (Hhead steps path)|done].
Qed.

Section Determinism.

Context {C : Type} {K : Cost C} {CL : CostLaws}.

(** C9.  Each of the six search functions is deterministic.  Run on two grids
    that have the same start and goal and the same cells to enter (equal
    grids in particular), with a start and a goal that can be entered, it
    returns the same trace, hence the same current node, frontier sequence
    and visited set at every index, and the same path; the trace is not
    empty and begins with the start.  For [ucs] this holds with any
    implementation of [heapq] that meets the contract, and the choice of the
    implementation is the only thing left open: run over two
    implementations, [ucs] returns the same path and traces of the same
    length with the same current node and the same visited set at every
    index, whose frontiers hold the same cells, in an order that the heap
    decides. *)
Theorem C9_deterministic (H1 H2 : HeapQ (C * Z * Pos))
    (L1 : HeapQLaws (H0 := H1)) (L2 : HeapQLaws (H0 := H2))
    (grid1 grid2 : Grid) (limit : Z) :
  is_valid grid1 (start grid1) = true → is_valid grid1 (goal grid1) = true →
  start grid1 = start grid2 → goal grid1 = goal grid2 →
  (∀ p, is_valid grid1 p = is_valid grid2 p) →
  let same (f : Grid → option Result) :=
    ∃ steps path, f grid1 = Some (steps, path) ∧
                  f grid2 = Some (steps, path) ∧
                  ∃ s, head steps = Some s ∧ current s = start grid1 in
  same bfs ∧ same dfs ∧ same (ucs (H0 := H1)) ∧
  same (λ grid, dls grid limit) ∧ same iddfs ∧ same bidirectional ∧
  ∃ steps1 steps2 path,
    ucs (H0 := H1) grid1 = Some (steps1, path) ∧
    ucs (H0 := H2) grid2 = Some (steps2, path) ∧
    trace_alike steps1 steps2.
Proof.
  intros Hs Hg Hstart Hgoal Hvalid same. unfold same.
  pose (s0 := make_step (start grid1) [] ∅).
  split_and!.
  - apply (same_run bfs grid1 grid2 _ s0 (bfs_same_cells _ _ Hstart Hgoal
             Hvalid) (bfs_facts grid1 Hs)); [|done].
    intros steps path [Hf _]. apply Hf.
  - apply (same_run dfs grid1 grid2 _ s0 (dfs_same_cells _ _ Hstart Hgoal
             Hvalid) (dfs_facts grid1 Hs)); [|done].
    intros steps path [Hf _]. apply Hf.
  - apply (same_run (ucs (H0 := H1)) grid1 grid2 _ s0
             (ucs_same_cells _ _ Hstart Hgoal Hvalid)
             (ucs_facts (H0 := H1) (H2 := L1) grid1 Hs)); [|done].
    intros steps path [Hf _]. apply Hf.
  - apply (same_run (λ grid, dls grid limit) grid1 grid2 _ s0
             (dls_same_cells _ _ Hstart Hgoal Hvalid limit)
             (dls_facts grid1 limit Hs Hg)); [|done].
    intros steps path [Hf _]. apply Hf.
  - apply (same_run iddfs grid1 grid2 _ s0
             (iddfs_same_cells _ _ Hstart Hgoal Hvalid)
             (iddfs_facts grid1 Hs Hg)); [|done].
    intros steps path [Hf _]. apply Hf.
  - apply (same_run bidirectional grid1 grid2 _
             (make_step (start grid1) [goal grid1]
                ({[start grid1]} ∪ {[goal grid1]}))
             (bidirectional_same_cells _ _ Hstart Hgoal Hvalid)
             (bidi_facts_route grid1 Hs Hg)); [|done].
    intros steps path [Hf _]. apply Hf.
  - destruct (ucs_returns (H0 := H1) (H2 := L1) grid1 Hs)
      as (steps1 & path & Hr1 & _).
    pose proof (ucs_two_heaps H1 H2 L1 L2 grid1) as Hsim.
    rewrite Hr1 in Hsim.
    destruct (ucs (H0 := H2) grid1) as [[steps2 path2]|] eqn:Hr2; [|done].
    destruct Hsim as [Ht Hp]. simpl in Ht, Hp. subst path2.
    exists steps1, steps2, path. split; [done|]. split; [|done].
    by rewrite <-(ucs_same_cells (H0 := H2) _ _ Hstart Hgoal Hvalid).
Qed.

End Determinism.

(** ** The statement on the reference grid *)

Lemma fmap_eq_elem {A B : Type} (f g : A → B) (l : list A) x :
  f <$> l = g <$> l → x ∈ l → f x = g x.
Proof.
  induction l as [|y l IH]; intros Heq Hx.
  - by apply elem_of_nil in Hx.
  - rewrite !fmap_cons in Heq. injection Heq as Hy Heq.
    apply elem_of_cons in Hx as [->|Hx]; [done|by apply IH].
Qed.

Lemma padded_grid_same_cells p : is_valid build_grid p = is_valid padded_grid p.
Proof.
  destruct p as [r c].
  destruct (decide ((r, c) ∈ grid_cells padded_grid)) as [Hin|Hout].
  - revert Hin. apply fmap_eq_elem. vm_compute. reflexivity.
  - rewrite elem_of_grid_cells in Hout. unfold padded_grid in Hout.
    simpl in Hout.
    assert (is_valid build_grid (r, c) = false) as ->.
    { apply not_true_is_false. intros [Hb _]%is_valid_iff.
      unfold in_bounds, build_grid, ROWS, COLS in Hb. simpl in Hb. lia. }
    symmetry. apply not_true_is_false. intros [Hb _]%is_valid_iff.
    unfold in_bounds, padded_grid in Hb. simpl in Hb. lia.
Qed.

(** The two heaps do not keep their entries in the same order: on the
    reference grid the frontiers of the second step of [ucs] differ. *)
Lemma ucs_frontier_order_open :
  ucs (H0 := milli_heapq) build_grid ≠ ucs (H0 := milli_scan_heapq) build_grid.
Proof.
  intros Heq.
  apply (f_equal (fmap (λ x : Result, frontier <$> x.1 !! 1))) in Heq.
  vm_compute in Heq. discriminate Heq.
Qed.

Lemma C9_witness :
  is_valid build_grid (start build_grid) = true ∧
  is_valid build_grid (goal build_grid) = true ∧
  start build_grid = start padded_grid ∧
  goal build_grid = goal padded_grid ∧
  (∀ p, is_valid build_grid p = is_valid padded_grid p) ∧
  (let same (f : Grid → option Result) :=
     ∃ steps path, f build_grid = Some (steps, path) ∧
                   f padded_grid = Some (steps, path) ∧
                   ∃ s, head steps = Some s ∧ current s = start build_grid in
   same (bfs (C := Z)) ∧ same (dfs (C := Z)) ∧
   same (ucs (H0 := milli_heapq)) ∧
   same (λ grid, dls (C := Z) grid 15) ∧ same (iddfs (C := Z)) ∧
   same (bidirectional (C := Z)) ∧
   ∃ steps1 steps2 path,
     ucs (H0 := milli_heapq) build_grid = Some (steps1, path) ∧
     ucs (H0 := milli_scan_heapq) padded_grid = Some (steps2, path) ∧
     trace_alike steps1 steps2).
Proof.
  split; [|split; [|split; [|split; [|split]]]];
    [vm_compute; reflexivity|vm_compute; reflexivity|reflexivity|reflexivity|
     exact padded_grid_same_cells|].
  apply (C9_deterministic (C := Z) milli_heapq milli_scan_heapq
           milli_heapq_laws milli_scan_heapq_laws build_grid padded_grid 15);
    [vm_compute; reflexivity|vm_compute; reflexivity|reflexivity|reflexivity|
     exact padded_grid_same_cells].
Defined.
